(** * tetsirdstris: the stereogram transform and the game

    A shallow embedding of [src/sirds.ts] ([separation],
    [createSeededRandom], [findRoot] and [depthToSirds]), of [src/tetris.ts]
    (the pieces and the grid) and of the game functions of [src/sketch.ts],
    with the properties of the transform and of the game.

    Conventions of the embedding.
    - A JavaScript number that holds an integer (loop counters, indices,
      the seed, buffer cells) is a [Z]; the 32-bit operators ([>>>], [<<],
      [^], [|], [Math.imul]) have their wrap-around written out. Doubles
      hold the integers up to 2^53 exactly, and the counters and the
      indices of a call of [depthToSirds] stay in that range on an image of
      at most 2^53 rows and 2^53 pixels; a call on more, which makes more
      than 2^53 steps, is outside the embedding.
    - The numbers of [separation], the disparities and the quantities
      derived from them, the tints and the product of [Math.random()] by 7
      are IEEE doubles, computed with the operations of [PrimFloat]; a
      division by zero yields an infinity or [NaN], and a comparison with
      [NaN] is false. [Math.floor] of a double is [floor]: [NaN], an
      infinity, or an integer.
    - The values of the random stream are the rationals [n / 2^32] for a
      32-bit [n]: doubles hold them, and their products by 256, exactly.
    - A typed array is a [list Z] read and written by index: a read outside
      the array is [None] (JavaScript's [undefined]) and a write outside
      the array is dropped, as typed arrays do. A [Uint8ClampedArray] clamps
      what is stored into it; an [Int32Array] reduces what is stored into
      it to 32 bits, and stores 0 for [undefined]. [new Int32Array(width)]
      throws a [RangeError] for a negative length, for a length of 2^53
      or more, and for a length that the engine has no memory for: the
      room of the engine is a parameter of [depthToSirdsIn], and
      [depthToSirds] is the call in an engine with room for every buffer
      that the constructor accepts.
    - Every array access is recorded in a trace, so that statements about
      the indices the code uses can be made.
    - The loop of [findRoot] runs on fuel; [depthToSirds_returns] shows
      that the fuel it is given is always enough.
    - In the game, the numbers (types, rotations, positions, cells, score)
      are integers [Z]. A JavaScript array is a list; the grid is a list of
      rows whose cells are numbers or [undefined]. A function that mutates
      the grid or the variables of the sketch returns their new contents.
      A call returns a [result]: a value, a [TypeError], or the end of the
      fuel of a loop. [Math.random()] is a parameter [u] of the functions
      that call it, a double. [Math.floor] of a quotient of two integers
      is the quotient of [Z]. *)

From Stdlib Require Import ZArith QArith Qround Lia Lqa Floats.
From stdpp Require Import base decidable option list numbers.

Local Open Scope Z_scope.

#[local] Set Warnings "-inexact-float".

(** ** 32-bit integer operators *)

Module Int32.

Definition to_uint32 (z : Z) : Z := z mod 2 ^ 32.

Definition to_int32 (z : Z) : Z := (z + 2 ^ 31) mod 2 ^ 32 - 2 ^ 31.

(** [a >>> n] *)
Definition ushr (a n : Z) : Z := Z.shiftr (to_uint32 a) (n mod 32).

(** [a << n] *)
Definition shl (a n : Z) : Z := to_int32 (Z.shiftl (to_int32 a) (n mod 32)).

(** [a ^ b] *)
Definition xor (a b : Z) : Z := to_int32 (Z.lxor (to_int32 a) (to_int32 b)).

(** [a | b] *)
Definition or (a b : Z) : Z := to_int32 (Z.lor (to_int32 a) (to_int32 b)).

(** [Math.imul(a, b)] *)
Definition imul (a b : Z) : Z := to_int32 (to_int32 a * to_int32 b).

End Int32.

(** ** Doubles *)

(** The double of an integer below 2^63 in absolute value; it is the
    integer itself up to 2^53. *)
Definition double (z : Z) : float :=
  if bool_decide (z < 0) then (- PrimFloat.of_uint63 (Uint63.of_Z (- z)))%float
  else PrimFloat.of_uint63 (Uint63.of_Z z).

(** The number that a cell read from a typed array is in arithmetic:
    [undefined] is [NaN]. *)
Definition number (c : option Z) : float :=
  match c with
  | Some z => double z
  | None => nan
  end.

(** What [Math.floor] returns: [NaN], an infinity, or an integer. *)
Inductive floored :=
| NotANumber
| Infinite (negative : bool)
| Integer (z : Z).

#[global] Instance floored_eq_dec : EqDecision floored.
Proof. solve_decision. Defined.

(** [Math.floor] of the double of sign [s], mantissa [m] and exponent [e],
    which is [m * 2^e], negated when [s] is set; the quotient of [Z] rounds
    down. *)
Definition floorSF (f : spec_float) : floored :=
  match f with
  | S754_nan => NotANumber
  | S754_infinity s => Infinite s
  | S754_zero _ => Integer 0
  | S754_finite s m e =>
      let n := if s then Z.neg m else Z.pos m in
      Integer (if bool_decide (0 ≤ e) then n * 2 ^ e else n `div` 2 ^ (- e))
  end.

(** [Math.floor(x)] *)
Definition floor (x : float) : floored := floorSF (Prim2SF x).

(** The integer that a floored number is; 0 stands for [NaN] and the
    infinities, which [Math.random() * 7] is not. *)
Definition integer (a : floored) : Z :=
  match a with
  | Integer z => z
  | _ => 0
  end.

(** [a >= 0] on a floored number; a comparison with [NaN] is false. *)
Definition geZero (a : floored) : bool :=
  match a with
  | Integer z => bool_decide (0 ≤ z)
  | Infinite s => negb s
  | NotANumber => false
  end.

(** [a < n] on a floored number and an integer. *)
Definition below (a : floored) (n : Z) : bool :=
  match a with
  | Integer z => bool_decide (z < n)
  | Infinite s => s
  | NotANumber => false
  end.

(** [a !== b] on two floored numbers; [NaN] differs from every number,
    itself included. *)
Definition differs (a b : floored) : bool :=
  match a, b with
  | NotANumber, _ | _, NotANumber => true
  | _, _ => bool_decide (a ≠ b)
  end.

(** The rational that a finite double of sign [s], mantissa [m] and
    exponent [e] is. *)
Definition rational (s : bool) (m : positive) (e : Z) : Q :=
  let v :=
    if bool_decide (0 ≤ e) then inject_Z (Z.pos m * 2 ^ e)
    else Z.pos m # Z.to_pos (2 ^ (- e)) in
  if s then (- v)%Q else v.

Definition Qltb (a b : Q) : bool := negb (Qle_bool b a).

(** What a [Uint8ClampedArray] stores for a double: 0 for [NaN], and
    otherwise the number clamped to 0..255 and rounded to the nearest
    integer, to the even one of two that are equally near. *)
Definition toUint8ClampDouble (x : float) : Z :=
  match Prim2SF x with
  | S754_nan => 0
  | S754_zero _ => 0
  | S754_infinity s => if s then 0 else 255
  | S754_finite s m e =>
      let q := rational s m e in
      if Qle_bool q 0 then 0
      else if Qle_bool 255 q then 255
      else
        let f := Qfloor q in
        if Qltb q (inject_Z f + (1 # 2))%Q then f
        else if Qltb (inject_Z f + (1 # 2))%Q q then f + 1
        else if Z.even f then f
        else f + 1
  end.

(** ** Constants and the separation function *)

Definition DEFAULT_EYESEP : float := 82.
Definition DEFAULT_OBSDIST : float := 520.
Definition BKDEPTH : float := 0.

(** [separation(ht, eyeSep, obsDist)] *)
Definition separation (ht eyeSep obsDist : float) : float :=
  let d := (ht - BKDEPTH)%float in
  if (d <=? 0)%float then 0%float
  else ((d * eyeSep) / (d + obsDist))%float.

(** ** The seeded random stream (mulberry32)

    [createSeededRandom(seed)] returns a closure over one mutable variable
    [state]; here the closure is its state, and a call of the closure is
    [random], which returns the drawn number and the new state. *)

Definition createSeededRandom (seed : Z) : Z := Int32.ushr seed 0.

Definition random (state : Z) : Q * Z :=
  let state := Int32.ushr (state + 0x6d2b79f5) 0 in
  let t := state in
  let t := Int32.imul (Int32.xor t (Int32.ushr t 15)) (Int32.or t 1) in
  let t := Int32.xor t (t + Int32.imul (Int32.xor t (Int32.ushr t 7)) (Int32.or t 61)) in
  ((inject_Z (Int32.ushr (Int32.xor t (Int32.ushr t 14)) 0) / 4294967296)%Q, state).

(** ** Typed arrays, the access trace and the monad of the embedding *)

Inductive buffer := Depth | Link | Data.

Inductive mode := Load | Store.

(** One array access: what was done, on which buffer, at which index, the
    length the buffer had, and the value read ([None] is [undefined]) or
    written. *)
Record access := Access {
  acc_mode : mode;
  acc_buf : buffer;
  acc_idx : Z;
  acc_len : Z;
  acc_val : option Z
}.

(** A computation returns a value and the accesses it made, or is stuck
    ([None]): the root walk ran out of fuel. [depthToSirds_returns] shows
    that [depthToSirds] is never stuck. *)
Definition M (A : Type) : Type := option (A * list access).

Definition ret {A} (a : A) : M A := Some (a, []).

Definition stuck {A} : M A := None.

Definition bind {A B} (c : M A) (k : A → M B) : M B :=
  match c with
  | None => None
  | Some (a, t) =>
      match k a with
      | None => None
      | Some (b, t') => Some (b, t ++ t')
      end
  end.

Notation "x <- c ;; k" := (bind c (fun x => k))
  (at level 20, c at level 99, k at level 200, only parsing).
Notation "' pat <- c ;; k" := (bind c (fun x => match x with pat => k end))
  (at level 20, pat pattern, c at level 99, k at level 200, only parsing).

(** [a[i]] on a typed array: [None] is [undefined]. *)
Definition lookupZ (a : list Z) (i : Z) : option Z :=
  if bool_decide (0 ≤ i) then a !! Z.to_nat i else None.

(** [a[i] = v] on a typed array: dropped when [i] is outside the array. *)
Definition insertZ (i v : Z) (a : list Z) : list Z :=
  if bool_decide (0 ≤ i) then <[Z.to_nat i := v]> a else a.

Definition lengthZ (a : list Z) : Z := Z.of_nat (length a).

Definition load (b : buffer) (a : list Z) (i : Z) : M (option Z) :=
  Some (lookupZ a i, [Access Load b i (lengthZ a) (lookupZ a i)]).

Definition store (b : buffer) (a : list Z) (i v : Z) : M (list Z) :=
  Some (insertZ i v a, [Access Store b i (lengthZ a) (Some v)]).

(** [link[i]] where [i] is an index or [undefined]: [link[undefined]] is
    [undefined], and no access to the buffer. *)
Definition loadAt (link : list Z) (i : option Z) : M (option Z) :=
  match i with
  | Some i => load Link link i
  | None => ret None
  end.

(** The conversion of a stored value by a [Uint8ClampedArray]; [undefined]
    is stored as 0. *)
Definition toUint8Clamp (v : option Z) : Z :=
  match v with
  | Some v => Z.max 0 (Z.min 255 v)
  | None => 0
  end.

(** The conversion of a stored value by an [Int32Array]: an integer is
    reduced to 32 bits; [undefined] is stored as 0. *)
Definition toInt32 (v : option Z) : Z :=
  match v with
  | Some v => Int32.to_int32 v
  | None => 0
  end.

(** [for (let x = 0; x < n; x++) body] over the variables [S] the body
    updates. *)
Fixpoint forEach {S} (body : Z → S → M S) (xs : list Z) (s : S) : M S :=
  match xs with
  | [] => ret s
  | x :: xs => s' <- body x s ;; forEach body xs s'
  end.

Definition forRange {S} (n : Z) (body : Z → S → M S) (s : S) : M S :=
  forEach body (seqZ 0 n) s.

(** ** [findRoot] and [depthToSirds] *)

(** [while (link[i] !== i) i = link[i]; return i], with fuel for the loop.
    The variable [i] holds an index or, after a read outside the buffer,
    [undefined]; the loop ends there, as [link[undefined]] is
    [undefined]. *)
Fixpoint findRoot (fuel : nat) (link : list Z) (i : option Z) : M (option Z) :=
  match fuel with
  | O => stuck
  | S fuel =>
      v <- loadAt link i ;;
      if bool_decide (v ≠ i) then
        i' <- loadAt link i ;;
        findRoot fuel link i'
      else ret i
  end.

Section Row.

Variable depth : list Z.
Variable width : Z.
Variables eyeSep obsDist : float.
Variable rowOff : Z.

(** [for (let x = 0; x < width; x++) link[x] = x] *)
Definition resetLinks (link : list Z) : M (list Z) :=
  forRange width (λ x link, store Link link x (toInt32 (Some x))) link.

(** The body of the link loop. A depth sample outside the depth map is
    [undefined], and [NaN] in [separation]. The two ends of a link are
    floored doubles; [findRoot] is called on the left end when it is an
    integer, and returns [undefined] without an access on [Infinity]; a
    store at an end that is no integer is dropped. The root walk gets one
    unit of fuel more than the buffer has cells. *)
Definition linkColumn (x : Z) (link : list Z) : M (list Z) :=
  ht <- load Depth depth (rowOff + x) ;;
  let sep := separation (number ht) eyeSep obsDist in
  if (sep <? 2)%float then ret link
  else
    let half := (sep * 0.5)%float in
    let leftX := floor (double x - half) in
    let rightX := floor (double x + half) in
    if geZero leftX && below rightX width && differs leftX rightX then
      rootLeft <-
        match leftX with
        | Integer leftX => findRoot (S (length link)) link (Some leftX)
        | _ => ret None
        end ;;
      match rightX with
      | Integer rightX => store Link link rightX (toInt32 rootLeft)
      | _ => ret link
      end
    else ret link.

Definition buildLinks (link : list Z) : M (list Z) :=
  forRange width linkColumn link.

(** The byte offset [(rowOff + lx) << 2] of the pixel of the column
    [lx = link[x]]; the sum with [undefined] is [NaN], and [NaN << 2] is
    0. *)
Definition sourceOffset (lx : option Z) : Z :=
  match lx with
  | Some lx => Int32.shl (rowOff + lx) 2
  | None => 0
  end.

(** The body of the colour loop, over the output buffer and the state of
    the random stream. *)
Definition colorColumn (link : list Z) (x : Z) (s : list Z * Z)
  : M (list Z * Z) :=
  let '(data, state) := s in
  let i := Int32.shl (rowOff + x) 2 in
  lx <- load Link link x ;;
  if bool_decide (lx = Some x) then
    let '(r, state) := random state in
    let v := Some (Qfloor (r * 256)) in
    data <- store Data data i (toUint8Clamp v) ;;
    data <- store Data data (i + 1) (toUint8Clamp v) ;;
    data <- store Data data (i + 2) (toUint8Clamp v) ;;
    data <- store Data data (i + 3) (toUint8Clamp (Some 255)) ;;
    ret (data, state)
  else
    lx <- load Link link x ;;
    let src := sourceOffset lx in
    v <- load Data data src ;;
    data <- store Data data i (toUint8Clamp v) ;;
    v <- load Data data (src + 1) ;;
    data <- store Data data (i + 1) (toUint8Clamp v) ;;
    v <- load Data data (src + 2) ;;
    data <- store Data data (i + 2) (toUint8Clamp v) ;;
    data <- store Data data (i + 3) (toUint8Clamp (Some 255)) ;;
    ret (data, state).

Definition colorRow (link : list Z) (s : list Z * Z) : M (list Z * Z) :=
  forRange width (colorColumn link) s.

End Row.

(** The variables the row loop updates: the link buffer, the output buffer
    and the state of the random stream. *)
Record machine := Machine {
  m_link : list Z;
  m_data : list Z;
  m_state : Z
}.

(** The body of the loop over the rows. *)
Definition sirdsRow (depth : list Z) (width : Z) (eyeSep obsDist : float)
    (y : Z) (m : machine) : M machine :=
  let rowOff := y * width in
  link <- resetLinks width (m_link m) ;;
  link <- buildLinks depth width eyeSep obsDist rowOff link ;;
  '(data, state) <- colorRow width rowOff link (m_data m, m_state m) ;;
  ret (Machine link data state).

Inductive exn := RangeError.

(** What a call does: it returns, leaving [out.data] with the given
    contents after the given accesses, or throws, or is stuck. *)
Inductive outcome :=
| Returns (data : list Z) (trace : list access)
| Throws (e : exn)
| Stuck.

(** [new Int32Array(length)]: the constructor throws a [RangeError] for a
    negative length, for a length of 2^53 or more, and for a length that
    the engine has no memory for; [room] is the number of cells of the
    longest buffer that the engine can allocate when the call is made.
    [None] is the [RangeError]; the buffer is filled with zeros. *)
Definition newInt32Array (room length : Z) : option (list Z) :=
  if bool_decide (length < 0) || bool_decide (2 ^ 53 ≤ length)
     || bool_decide (room < length)
  then None
  else Some (replicate (Z.to_nat length) 0).

(** [depthToSirds(depth, width, height, out, seed, eyeSep, obsDist)], on the
    contents [data] of [out.data], in an engine with room for a link buffer
    of [room] cells. *)
Definition depthToSirdsIn (room : Z) (depth : list Z) (width height : Z)
    (data : list Z) (seed : Z) (eyeSep obsDist : float) : outcome :=
  match newInt32Array room width with
  | None => Throws RangeError
  | Some link =>
      let random := createSeededRandom seed in
      match forRange height (sirdsRow depth width eyeSep obsDist)
              (Machine link data random) with
      | Some (m, trace) => Returns (m_data m) trace
      | None => Stuck
      end
  end.

(** The call in an engine that has room for every link buffer that
    [new Int32Array] accepts. *)
Definition depthToSirds : list Z → Z → Z → list Z → Z → float → float → outcome :=
  depthToSirdsIn (2 ^ 53).

(** * The game of [src/tetris.ts] *)

(** ** Results and arrays *)

(** What a call of the game code does: it returns a value, or throws a
    [TypeError] (a property of [undefined] is read), or its loop runs out of
    the fuel it was given. *)
Inductive result (A : Type) : Type :=
| Value (a : A)
| TypeError
| OutOfFuel.

Arguments Value {A} a.
Arguments TypeError {A}.
Arguments OutOfFuel {A}.

#[global] Instance result_ret : MRet result := λ A, Value.

#[global] Instance result_bind : MBind result := λ A B k c,
  match c with
  | Value a => k a
  | TypeError => TypeError
  | OutOfFuel => OutOfFuel
  end.

(** [a[i]] on an array: [None] is [undefined]. *)
Definition element {A} (a : list A) (i : Z) : option A :=
  if bool_decide (0 ≤ i) then a !! Z.to_nat i else None.

(** The use of [a[i]] as an array or a tuple: a [TypeError] when it is
    [undefined]. *)
Definition defined {A} (o : option A) : result A :=
  match o with
  | Some a => Value a
  | None => TypeError
  end.

(** A row of the grid: each cell is a number, or [None] for [undefined] (a
    hole of the array). The grid is an array of rows. *)
Abbreviation Row := (list (option Z)).

Abbreviation Grid := (list Row).

(** [row[i] = v] on a row: a store past the end extends the row, leaving
    holes; a negative [i] names a property of the array and no cell. *)
Definition assign (row : Row) (i v : Z) : Row :=
  if bool_decide (i < 0) then row
  else if bool_decide (i < Z.of_nat (length row)) then <[Z.to_nat i := Some v]> row
  else row ++ replicate (Z.to_nat i - length row) None ++ [Some v].

(** Whether a cell is truthy: a number other than 0. *)
Definition truthy (c : option Z) : bool :=
  match c with
  | Some v => bool_decide (v ≠ 0)
  | None => false
  end.

(** A [for] loop over an array of integers whose body may throw. *)
Fixpoint forEachResult {S} (body : Z → S → result S) (xs : list Z) (s : S) :
    result S :=
  match xs with
  | [] => mret s
  | x :: xs => s ← body x s; forEachResult body xs s
  end.

(** [for (let i = 0; i < n; i++) body]. *)
Definition forRangeResult {S} (n : Z) (body : Z → S → result S) (s : S) :
    result S :=
  forEachResult body (seqZ 0 n) s.

(** ** Pieces *)

Definition COLS : Z := 10.
Definition ROWS : Z := 14.

(** The offsets [(col, row)] of the four tiles of each orientation from the
    pivot. *)
Definition NRS_OFFSETS : list (list (Z * Z)) := [
  [ (-1, 0); (0, 0); (1, 0); (0, -1) ];   (* TUp *)
  [ (0, -1); (0, 0); (1, 0); (0, 1) ];    (* TRight *)
  [ (-1, 0); (0, 0); (1, 0); (0, 1) ];    (* TDown *)
  [ (0, -1); (-1, 0); (0, 0); (0, 1) ];   (* TLeft *)
  [ (0, -1); (0, 0); (-1, 1); (0, 1) ];   (* JUp *)
  [ (-1, -1); (-1, 0); (0, 0); (1, 0) ];  (* JRight *)
  [ (0, -1); (1, -1); (0, 0); (0, 1) ];   (* JDown *)
  [ (-1, 0); (0, 0); (1, 0); (1, 1) ];    (* JLeft *)
  [ (-1, 0); (0, 0); (0, 1); (1, 1) ];    (* ZHorizontal *)
  [ (1, -1); (0, 0); (1, 0); (0, 1) ];    (* ZVertical *)
  [ (-1, 0); (0, 0); (-1, 1); (0, 1) ];   (* O *)
  [ (0, 0); (1, 0); (-1, 1); (0, 1) ];    (* SHorizontal *)
  [ (0, -1); (0, 0); (1, 0); (1, 1) ];    (* SVertical *)
  [ (0, -1); (0, 0); (0, 1); (1, 1) ];    (* LUp *)
  [ (-1, -1); (0, -1); (0, 0); (0, 1) ];  (* LRight *)
  [ (0, -1); (-1, 0); (0, 0); (1, 0) ];   (* LDown *)
  [ (-1, 0); (0, 0); (1, 0); (-1, 1) ];   (* LLeft *)
  [ (0, -2); (0, -1); (0, 0); (0, 1) ];   (* IVertical *)
  [ (-2, 0); (-1, 0); (0, 0); (1, 0) ]    (* IHorizontal *)
].

(** [nrsIndex(type, rotation)]: types 0 to 6 are I, O, T, S, Z, J, L. *)
Definition nrsIndex (type rotation : Z) : Z :=
  match type with
  | 0 => if bool_decide (rotation = 0) then 17 else 18
  | 1 => 10
  | 2 => rotation
  | 3 => if bool_decide (rotation = 0) then 11 else 12
  | 4 => if bool_decide (rotation = 0) then 8 else 9
  | 5 => 4 + rotation
  | 6 => 13 + rotation
  | _ => 0
  end.

(** The spawn pivot [(x, y)] of each type. *)
Definition SPAWN_PIVOT : list (Z * Z) :=
  [ (4, 2); (4, 0); (4, 1); (4, 0); (4, 0); (4, 1); (4, 1) ].

Module Piece.

Record t := make {
  type : Z;
  rotation : Z;
  x : Z;
  y : Z
}.

End Piece.

(** [getShapeCells(type, rotation)]: the cells [(row, col)] of the shape. *)
Definition getShapeCells (type rotation : Z) : result (list (Z * Z)) :=
  offsets ← defined (element NRS_OFFSETS (nrsIndex type rotation));
  mret (map (λ '(dc, dr), (dr, dc)) offsets).

Definition createPiece (type : Z) : result Piece.t :=
  '(x, y) ← defined (element SPAWN_PIVOT type);
  mret (Piece.make type 0 x y).

Definition clonePiece (p : Piece.t) : Piece.t :=
  Piece.make (Piece.type p) (Piece.rotation p) (Piece.x p) (Piece.y p).

(** [rotatePiece(p)]; [%] is the remainder of the truncated division. *)
Definition rotatePiece (p : Piece.t) : Piece.t :=
  if bool_decide (Piece.type p = 1) then
    Piece.make (Piece.type p) (Piece.rotation p) (Piece.x p) (Piece.y p)
  else if bool_decide (Piece.type p = 0) then
    Piece.make (Piece.type p) (Z.rem (Piece.rotation p + 1) 2)
      (Piece.x p) (Piece.y p)
  else
    Piece.make (Piece.type p) (Z.rem (Piece.rotation p + 1) 4)
      (Piece.x p) (Piece.y p).

Definition pieceCells (p : Piece.t) : result (list (Z * Z)) :=
  cells ← getShapeCells (Piece.type p) (Piece.rotation p);
  mret (map (λ '(r, c), (Piece.y p + r, Piece.x p + c)) cells).

(** ** The grid *)

(** The loop of [collides] over the cells of the piece. *)
Fixpoint collidesCells (grid : Grid) (cells : list (Z * Z)) : result bool :=
  match cells with
  | [] => mret false
  | (row, col) :: cells =>
      if bool_decide (row < 0) || bool_decide (ROWS ≤ row)
         || bool_decide (col < 0) || bool_decide (COLS ≤ col)
      then mret true
      else
        r ← defined (element grid row);
        if truthy (mjoin (element r col)) then mret true
        else collidesCells grid cells
  end.

Definition collides (grid : Grid) (p : Piece.t) : result bool :=
  cells ← pieceCells p;
  collidesCells grid cells.

(** The loop of [mergePiece] over the cells of the piece. *)
Fixpoint mergeCells (grid : Grid) (cells : list (Z * Z)) (value : Z)
  : result Grid :=
  match cells with
  | [] => mret grid
  | (row, col) :: cells =>
      if bool_decide (0 ≤ row) && bool_decide (row < ROWS)
         && bool_decide (0 ≤ col) && bool_decide (col < COLS)
      then
        r ← defined (element grid row);
        mergeCells (<[Z.to_nat row := assign r col value]> grid) cells value
      else mergeCells grid cells value
  end.

(** [mergePiece(grid, p, value)], on the contents of [grid]; the result is
    the contents it leaves. *)
Definition mergePiece (grid : Grid) (p : Piece.t) (value : Z) : result Grid :=
  cells ← pieceCells p;
  mergeCells grid cells value.

(** [row.every((c) => c !== 0)]; [every] skips the holes of an array, and
    [undefined !== 0] holds. *)
Definition fullRow (row : Row) : bool :=
  forallb (λ c, bool_decide (c ≠ Some 0)) row.

(** [Array(COLS).fill(0)] *)
Definition zeroRow : Row := replicate (Z.to_nat COLS) (Some 0).

(** The loop of [clearLines], from [row] up, with fuel. A full row is
    spliced out, a row of zeros is put on top, and the same index is looked
    at again. *)
Fixpoint clearLoop (fuel : nat) (grid : Grid) (row cleared : Z)
  : result (Grid * Z) :=
  match fuel with
  | O => OutOfFuel
  | S fuel =>
      if bool_decide (0 ≤ row) then
        r ← defined (element grid row);
        if fullRow r then
          let grid := zeroRow :: delete (Z.to_nat row) grid in
          clearLoop fuel grid (row + 1 - 1) (cleared + 1)
        else clearLoop fuel grid (row - 1) cleared
      else mret (grid, cleared)
  end.

(** [clearLines(grid)], on the contents of [grid]: the contents it leaves
    and the number it returns. The loop looks at each of the [ROWS] rows
    once and once more for each row it clears, which are [ROWS] at most. *)
Definition clearLines (grid : Grid) : result (Grid * Z) :=
  clearLoop (Z.to_nat (2 * ROWS + 1)) grid (ROWS - 1) 0.

Definition emptyGrid : Grid :=
  replicate (Z.to_nat ROWS) (replicate (Z.to_nat COLS) (Some 0)).

(** * The state of the game in [src/sketch.ts] *)

Module Sketch.

Definition WIDTH : Z := 336.
Definition HEIGHT : Z := 262.

Definition LINES_PER_LEVEL : Z := 10.

(** The colours of the seven types; the grid holds the type plus one. *)
Definition PIECE_COLORS : list (Z * Z * Z) :=
  [(0, 255, 255); (255, 255, 0); (180, 0, 255); (0, 255, 0); (255, 0, 0);
   (0, 0, 255); (255, 165, 0)].

Definition CELL_W : Z := 21.
Definition CELL_H : Z := 21.
Definition BOARD_PIX_W : Z := COLS * CELL_W.
Definition BOARD_PIX_H : Z := ROWS * CELL_H.
Definition BOARD_X : Z := (WIDTH - BOARD_PIX_W) / 2.
Definition FLOOR_Y : Z := HEIGHT - CELL_H.
Definition BOARD_Y : Z := FLOOR_Y - BOARD_PIX_H.
Definition LEFT_PANEL_W : Z := BOARD_X.

Definition PANEL_COLOR_A : Z * Z * Z := (25, 25, 55).
Definition PANEL_COLOR_B : Z * Z * Z := (50, 50, 95).

(** The variables of the sketch that the game functions read and write. *)
Record state := State {
  grid : Grid;
  currentPiece : option Piece.t;
  nextPieceType : Z;
  level : Z;
  score : Z;
  lines : Z;
  gameOver : bool
}.

(** [spawnPiece()]; [u] is the number that [Math.random()] returns. *)
Definition spawnPiece (u : float) (s : state) : result (state * bool) :=
  let type := nextPieceType s in
  let nextPieceType := integer (floor (u * 7)) in
  piece ← createPiece type;
  let piece := Piece.make (Piece.type piece) (Piece.rotation piece) 3 0 in
  c ← collides (grid s) piece;
  if (c : bool) then
    mret (State (grid s) (currentPiece s) nextPieceType (level s) (score s)
            (lines s) true, false)
  else
    mret (State (grid s) (Some piece) nextPieceType (level s) (score s)
            (lines s) (gameOver s), true).

(** [lockPiece()]; [u] is the number that [Math.random()] returns in
    [spawnPiece]. *)
Definition lockPiece (u : float) (s : state) : result state :=
  match currentPiece s with
  | None => mret s
  | Some cur =>
      merged ← mergePiece (grid s) cur (Piece.type cur + 1);
      '(cleaned, cleared) ← clearLines merged;
      let s :=
        if bool_decide (cleared > 0) then
          let score := score s + cleared * 100 * level s in
          let lines := lines s + cleared in
          let level := 1 + lines / LINES_PER_LEVEL in
          State cleaned (currentPiece s) (nextPieceType s) level score lines
            (gameOver s)
        else
          State cleaned (currentPiece s) (nextPieceType s) (level s) (score s)
            (lines s) (gameOver s) in
      let s := State (grid s) None (nextPieceType s) (level s) (score s)
                 (lines s) (gameOver s) in
      '(s, _) ← spawnPiece u s;
      mret s
  end.

Definition moveLeft (s : state) : result state :=
  match currentPiece s with
  | Some cur =>
      if gameOver s then mret s
      else
        let next := clonePiece cur in
        let next := Piece.make (Piece.type next) (Piece.rotation next)
                      (Piece.x next - 1) (Piece.y next) in
        c ← collides (grid s) next;
        if negb c then
          mret (State (grid s)
                  (Some (Piece.make (Piece.type cur) (Piece.rotation cur)
                           (Piece.x cur - 1) (Piece.y cur)))
                  (nextPieceType s) (level s) (score s) (lines s) (gameOver s))
        else mret s
  | None => mret s
  end.

Definition moveRight (s : state) : result state :=
  match currentPiece s with
  | Some cur =>
      if gameOver s then mret s
      else
        let next := clonePiece cur in
        let next := Piece.make (Piece.type next) (Piece.rotation next)
                      (Piece.x next + 1) (Piece.y next) in
        c ← collides (grid s) next;
        if negb c then
          mret (State (grid s)
                  (Some (Piece.make (Piece.type cur) (Piece.rotation cur)
                           (Piece.x cur + 1) (Piece.y cur)))
                  (nextPieceType s) (level s) (score s) (lines s) (gameOver s))
        else mret s
  | None => mret s
  end.

Definition rotate (s : state) : result state :=
  match currentPiece s with
  | Some cur =>
      if gameOver s then mret s
      else
        let next := rotatePiece cur in
        c ← collides (grid s) next;
        if negb c then
          mret (State (grid s)
                  (Some (Piece.make (Piece.type cur) (Piece.rotation next)
                           (Piece.x cur) (Piece.y cur)))
                  (nextPieceType s) (level s) (score s) (lines s) (gameOver s))
        else mret s
  | None => mret s
  end.

Definition softDrop (u : float) (s : state) : result state :=
  match currentPiece s with
  | Some cur =>
      if gameOver s then mret s
      else
        let next := clonePiece cur in
        let next := Piece.make (Piece.type next) (Piece.rotation next)
                      (Piece.x next) (Piece.y next + 1) in
        c ← collides (grid s) next;
        if (c : bool) then lockPiece u s
        else
          mret (State (grid s)
                  (Some (Piece.make (Piece.type cur) (Piece.rotation cur)
                           (Piece.x cur) (Piece.y cur + 1)))
                  (nextPieceType s) (level s) (score s + 1) (lines s)
                  (gameOver s))
  | None => mret s
  end.

(** The loop of [hardDrop], over the current piece and the score, with
    fuel. *)
Fixpoint dropLoop (fuel : nat) (grid : Grid) (cur : Piece.t) (score : Z)
  : result (Piece.t * Z) :=
  match fuel with
  | O => OutOfFuel
  | S fuel =>
      let next := clonePiece cur in
      let next := Piece.make (Piece.type next) (Piece.rotation next)
                    (Piece.x next) (Piece.y next + 1) in
      c ← collides grid next;
      if (c : bool) then mret (cur, score)
      else
        dropLoop fuel grid
          (Piece.make (Piece.type cur) (Piece.rotation cur) (Piece.x cur)
             (Piece.y cur + 1))
          (score + 2)
  end.

(** [hardDrop()]. The loop moves the piece down one row each time, and a
    piece that does not collide has its pivot on one of the [ROWS] rows. *)
Definition hardDrop (u : float) (s : state) : result state :=
  match currentPiece s with
  | Some cur =>
      if gameOver s then mret s
      else
        '(cur, score) ← dropLoop (Z.to_nat (ROWS + 1)) (grid s) cur (score s);
        lockPiece u (State (grid s) (Some cur) (nextPieceType s) (level s)
                       score (lines s) (gameOver s))
  | None => mret s
  end.

(** The part of [resetGame()] on these variables. *)
Definition resetGame (u : float) : state :=
  State emptyGrid None (integer (floor (u * 7))) 1 0 0 false.

(** The body of the inner loop of [tintLockedPieces(img)] on the bytes of
    the image, for the pixel [(px, py)] of a row of pixels that shows the
    row [row] of the grid. *)
Definition tintLockedPixel (grid : Grid) (py row px : Z) (data : list Z) :
    result (list Z) :=
  let col := (px - BOARD_X) / CELL_W in
  if bool_decide (col < 0) || bool_decide (COLS ≤ col) then mret data
  else
    cells ← defined (element grid row);
    let cell := mjoin (element cells col) in
    if negb (truthy cell) then mret data
    else
      '(r, g, b) ← defined (cell ≫= λ cell, element PIECE_COLORS (cell - 1));
      let cellLeft := BOARD_X + col * CELL_W in
      let cellTop := BOARD_Y + row * CELL_H in
      let isBorder :=
        bool_decide (px = cellLeft) || bool_decide (px = cellLeft + CELL_W - 1)
        || bool_decide (py = cellTop) || bool_decide (py = cellTop + CELL_H - 1) in
      let mult := if isBorder then 0x1.ccccccccccccdp-2%float else 1%float in
      let i := Int32.shl (py * WIDTH + px) 2 in
      let gray := number (lookupZ data i) in
      let data :=
        insertZ i (toUint8ClampDouble (double r / 255 * gray * mult)) data in
      let data :=
        insertZ (i + 1) (toUint8ClampDouble (double g / 255 * gray * mult))
          data in
      let data :=
        insertZ (i + 2) (toUint8ClampDouble (double b / 255 * gray * mult))
          data in
      mret data.

(** [tintLockedPieces(img)] on the grid of the sketch and the bytes of the
    image. The literal [0.45] is the double [0x1.ccccccccccccdp-2]. *)
Definition tintLockedPieces (grid : Grid) (data : list Z) : result (list Z) :=
  forRangeResult HEIGHT (λ py data,
    let row := (py - BOARD_Y) / CELL_H in
    if bool_decide (row < 0) || bool_decide (ROWS ≤ row) then mret data
    else forRangeResult WIDTH (tintLockedPixel grid py row) data) data.

(** The colour of the tile of the panels at column [tileCol] and row
    [tileRow]. *)
Definition panelColor (tileCol tileRow : Z) : Z * Z * Z :=
  if bool_decide (Z.rem (tileCol + tileRow) 2 ≠ 0) then PANEL_COLOR_A
  else PANEL_COLOR_B.

(** The colour that [tintPanels] chooses for the pixel [(px, py)]; [None]
    where it goes on to the next pixel. *)
Definition panelAt (px py : Z) : option (Z * Z * Z) :=
  if bool_decide (FLOOR_Y ≤ py) then
    Some (panelColor (px / CELL_W) (FLOOR_Y / CELL_H))
  else if bool_decide (px < LEFT_PANEL_W) then
    Some (panelColor (px / CELL_W) (py / CELL_H))
  else if bool_decide (BOARD_X + BOARD_PIX_W ≤ px) then
    let relX := px - (BOARD_X + BOARD_PIX_W) in
    Some (panelColor (relX / CELL_W) (py / CELL_H))
  else None.

(** The body of the inner loop of [tintPanels(img)]. *)
Definition tintPanelPixel (py px : Z) (data : list Z) : result (list Z) :=
  match panelAt px py with
  | Some (r, g, b) =>
      let i := Int32.shl (py * WIDTH + px) 2 in
      let gray := number (lookupZ data i) in
      let data := insertZ i (toUint8ClampDouble (double r / 255 * gray)) data in
      let data :=
        insertZ (i + 1) (toUint8ClampDouble (double g / 255 * gray)) data in
      let data :=
        insertZ (i + 2) (toUint8ClampDouble (double b / 255 * gray)) data in
      mret data
  | None => mret data
  end.

(** [tintPanels(img)] on the bytes of the image. *)
Definition tintPanels (data : list Z) : result (list Z) :=
  forRangeResult HEIGHT (λ py data,
    forRangeResult WIDTH (tintPanelPixel py) data) data.

End Sketch.

(** * The vocabulary of the properties *)

(** ** Doubles *)

(** The integer [m], negated when [s] is set. *)
Definition signed (s : bool) (m : Z) : Z := if s then - m else m.

(** The double that the rounding of a number leaves, from the integer [m]
    the mantissa was rounded to at the exponent [E]: a zero, the double of
    mantissa [m] and exponent [E], the next power of two when [m] is
    [2^53], or an infinity. *)
Definition pack (s : bool) (m E : Z) : spec_float :=
  if bool_decide (m = 0) then S754_zero s
  else if bool_decide (m < 2 ^ 53) then
    if bool_decide (E ≤ 971) then S754_finite s (Z.to_pos m) E
    else S754_infinity s
  else
    if bool_decide (E + 1 ≤ 971) then S754_finite s (Z.to_pos (2 ^ 52)) (E + 1)
    else S754_infinity s.

(** A number that is not negative: [NaN], a zero, [+Infinity] or a
    positive number. *)
Definition nonnegative (f : spec_float) : Prop :=
  match f with
  | S754_infinity s | S754_finite s _ _ => s = false
  | _ => True
  end.

(** ** Specifications of computations *)

(** [yields c Q P]: the computation [c] returns a value that satisfies [Q]
    after accesses that all satisfy [P]. *)
Definition yields {A} (c : M A) (Q : A → Prop) (P : access → Prop) : Prop :=
  ∃ a t, c = Some (a, t) ∧ Q a ∧ Forall P t.

(** The value of a computation, without its trace. *)
Definition valueOf {A} (c : M A) : option A := fst <$> c.

(** ** The link forest *)

(** No cell of the link buffer points to its right, or outside the row. *)
Definition forest (link : list Z) : Prop :=
  ∀ i v, lookupZ link i = Some v → 0 ≤ v ≤ i.

(** What holds of the link buffer in a row of any width: a cell holds a
    32-bit integer, and it holds its own index, or an integer less than its
    index that is, modulo 2^30, a column to its left. The byte offset of a
    pixel depends on its column modulo 2^30 only. *)
Definition wrappedForest (link : list Z) : Prop :=
  ∀ i v, lookupZ link i = Some v →
    - 2 ^ 31 ≤ v < 2 ^ 31
    ∧ (v = i ∨ (v < i ∧ ∃ x, 0 ≤ x < i ∧ x mod 2 ^ 30 = v mod 2 ^ 30)).

(** [follows link i n j]: following [link] from [i], as the loop of
    [findRoot] does, reaches [j] after [n] assignments [i = link[i]]. *)
Inductive follows (link : list Z) : Z → nat → Z → Prop :=
| follows_here i : follows link i 0 i
| follows_step i v n j :
    lookupZ link i = Some v → v ≠ i → follows link v n j →
    follows link i (S n) j.

(** From every column the walk of [findRoot] ends on a root, after fewer
    assignments [i = link[i]] than the row has columns. *)
Definition walksEnd (width : Z) (link : list Z) : Prop :=
  ∀ x, 0 ≤ x < width →
    ∃ r t n, findRoot (S (length link)) link (Some x) = Some (Some r, t)
             ∧ follows link x n r ∧ lookupZ link r = Some r
             ∧ Z.of_nat n < width.

(** A walk never comes back to a node: every node it reaches is strictly
    left of the nodes it reached before. *)
Definition noRevisit (link : list Z) : Prop :=
  ∀ a n b, follows link a (S n) b → b < a.

(** The root of the chain of column [x]. *)
Definition rootOf (link : list Z) (x : Z) : Z :=
  match findRoot (S (length link)) link (Some x) with
  | Some (Some r, _) => r
  | _ => x
  end.

(** The number of root columns left of column [x]. *)
Definition rootsBefore (link : list Z) (x : Z) : nat :=
  length (filter (λ i, lookupZ link i = Some i) (seqZ 0 x)).

(** The link buffer of row [y] after its link loop. *)
Definition rowLinks (depth : list Z) (width : Z) (eyeSep obsDist : float)
    (y : Z) : list Z :=
  match
    link <- resetLinks width (replicate (Z.to_nat width) 0) ;;
    buildLinks depth width eyeSep obsDist (y * width) link
  with
  | Some (link, _) => link
  | None => []
  end.

(** The number of root columns of row [y]: the draws its colour loop makes. *)
Definition rootsOfRow (depth : list Z) (width : Z) (eyeSep obsDist : float)
    (y : Z) : nat :=
  rootsBefore (rowLinks depth width eyeSep obsDist y) width.

(** The number of draws made before row [y] is coloured. *)
Definition drawsBefore (depth : list Z) (width : Z) (eyeSep obsDist : float)
    (y : Z) : nat :=
  sum_list_with (rootsOfRow depth width eyeSep obsDist) (seqZ 0 y).

(** ** The random stream and the pixels *)

(** The state of the random stream after [n] draws. *)
Definition advance (n : nat) (state : Z) : Z :=
  Nat.iter n (λ s, snd (random s)) state.

(** The gray level drawn from the stream in a given state. *)
Definition gray (state : Z) : Z :=
  toUint8Clamp (Some (Qfloor (fst (random state) * 256))).

(** The gray level of column [x] of a row whose colour loop starts with the
    random stream in [state]: the draw made for the root of [x]. *)
Definition colorOf (link : list Z) (state : Z) (x : Z) : Z :=
  gray (advance (rootsBefore link (rootOf link x)) state).

(** The gray level of pixel [(x, y)]. *)
Definition pixelOf (depth : list Z) (width : Z) (seed : Z)
    (eyeSep obsDist : float) (y x : Z) : Z :=
  colorOf (rowLinks depth width eyeSep obsDist y)
    (advance (drawsBefore depth width eyeSep obsDist y) (createSeededRandom seed))
    x.

(** Channel [c] (0, 1, 2 for red, green, blue; 3 for alpha) of pixel
    [(x, y)] of an output buffer. *)
Definition channel (out : list Z) (width y x c : Z) : option Z :=
  lookupZ out (4 * (y * width + x) + c).

(** The four stores that write a pixel. *)
Definition putPixel (i r g b al : Z) (d : list Z) : list Z :=
  insertZ (i + 3) al (insertZ (i + 2) b (insertZ (i + 1) g (insertZ i r d))).

(** ** Accesses *)

(** The accesses of a walk of [findRoot] that starts at [bound]: reads of cells
    of the link buffer at or left of [bound]. *)
Definition linkLoad (link : list Z) (bound : Z) (e : access) : Prop :=
  acc_mode e = Load ∧ acc_buf e = Link ∧ 0 ≤ acc_idx e ≤ bound
  ∧ acc_len e = lengthZ link ∧ is_Some (acc_val e).

(** The accesses of the reset loop: stores of a column index into its own
    cell. *)
Definition resetAccess (width : Z) (e : access) : Prop :=
  acc_mode e = Store ∧ acc_buf e = Link ∧ 0 ≤ acc_idx e < width
  ∧ acc_len e = width ∧ acc_val e = Some (acc_idx e).

(** The accesses of the link loop of the row at offset [rowOff]: reads of
    the depth samples of the row, reads of cells of the link buffer, and
    stores into a cell of the link buffer of an index strictly less than
    the index of the cell. *)
Definition linkAccess (depth : list Z) (width rowOff : Z) (e : access) : Prop :=
  match acc_buf e, acc_mode e with
  | Depth, Load =>
      rowOff ≤ acc_idx e < rowOff + width ∧ acc_len e = lengthZ depth
      ∧ acc_val e = lookupZ depth (acc_idx e)
  | Link, Load =>
      0 ≤ acc_idx e < width ∧ acc_len e = width ∧ is_Some (acc_val e)
  | Link, Store =>
      0 ≤ acc_idx e < width ∧ acc_len e = width
      ∧ ∃ v, acc_val e = Some v ∧ 0 ≤ v < acc_idx e
  | _, _ => False
  end.

(** The accesses of the colour loop of the row at offset [rowOff], on an
    output buffer of length [dataLen]: reads of cells of the link buffer,
    and reads and stores of bytes inside the slice of the row. *)
Definition colorAccess (width rowOff dataLen : Z) (e : access) : Prop :=
  match acc_buf e, acc_mode e with
  | Link, Load =>
      0 ≤ acc_idx e < width ∧ acc_len e = width ∧ is_Some (acc_val e)
  | Data, Load =>
      4 * rowOff ≤ acc_idx e < 4 * (rowOff + width) ∧ acc_len e = dataLen
      ∧ is_Some (acc_val e)
  | Data, Store =>
      4 * rowOff ≤ acc_idx e < 4 * (rowOff + width) ∧ acc_len e = dataLen
      ∧ ∃ v, acc_val e = Some v ∧ 0 ≤ v ≤ 255
  | _, _ => False
  end.

(** The accesses of the reset loop and of the link loop of a row. *)
Definition linkPhaseAccess (depth : list Z) (width rowOff : Z) (e : access) : Prop :=
  resetAccess width e ∨ linkAccess depth width rowOff e.

(** The accesses of row [y], in a call on the buffer [data0]. *)
Definition rowAccess (depth : list Z) (width : Z) (data0 : list Z)
    (y : Z) (e : access) : Prop :=
  linkPhaseAccess depth width (y * width) e
  ∨ colorAccess width (y * width) (lengthZ data0) e.

(** An access is in bounds: its index is inside the buffer it is made on (a
    read yields no [undefined], a store is not dropped) and within the
    part of the buffer the image takes; the depth map is only read; a byte
    stored into the output is an integer from 0 to 255. *)
Definition inBounds (width height : Z) (e : access) : Prop :=
  0 ≤ acc_idx e < acc_len e
  ∧ (acc_mode e = Load → is_Some (acc_val e))
  ∧ match acc_buf e with
    | Depth => acc_mode e = Load ∧ acc_idx e < width * height
    | Link => acc_idx e < width
    | Data =>
        acc_idx e < width * height * 4
        ∧ (acc_mode e = Store → ∃ v, acc_val e = Some v ∧ 0 ≤ v ≤ 255)
    end.

(** ** Loop invariants *)

(** What holds before column [k] of a row is coloured, when the colour loop
    of the row started on the buffer [data0] with the stream in [state0]:
    the columns left of [k] hold the gray level of their root, fully opaque;
    the rest of the buffer is as it was; the stream has made one draw for
    each root left of [k]. *)
Definition rowInv (rowOff : Z) (link data0 : list Z) (state0 : Z)
    (k : Z) (s : list Z * Z) : Prop :=
  lengthZ s.1 = lengthZ data0
  ∧ s.2 = advance (rootsBefore link k) state0
  ∧ (∀ x c, 0 ≤ x < k → 0 ≤ c < 3 →
       lookupZ s.1 (4 * (rowOff + x) + c) = Some (colorOf link state0 x))
  ∧ (∀ x, 0 ≤ x < k → lookupZ s.1 (4 * (rowOff + x) + 3) = Some 255)
  ∧ (∀ i, i < 4 * rowOff ∨ 4 * (rowOff + k) ≤ i →
       lookupZ s.1 i = lookupZ data0 i).

(** What holds before row [k] is processed, in a call on the buffer
    [data0]: the rows above [k] hold their pixels, fully opaque; the rest of
    the buffer is as it was; the stream has made the draws of the rows
    above [k]. *)
Definition imageInv (depth : list Z) (width : Z) (data0 : list Z) (seed : Z)
    (eyeSep obsDist : float) (k : Z) (m : machine) : Prop :=
  lengthZ (m_link m) = width
  ∧ lengthZ (m_data m) = lengthZ data0
  ∧ m_state m
    = advance (drawsBefore depth width eyeSep obsDist k) (createSeededRandom seed)
  ∧ (∀ y x c, 0 ≤ y < k → 0 ≤ x < width → 0 ≤ c < 3 →
       lookupZ (m_data m) (4 * (y * width + x) + c)
       = Some (pixelOf depth width seed eyeSep obsDist y x))
  ∧ (∀ y x, 0 ≤ y < k → 0 ≤ x < width →
       lookupZ (m_data m) (4 * (y * width + x) + 3) = Some 255)
  ∧ (∀ i, 4 * (k * width) ≤ i → lookupZ (m_data m) i = lookupZ data0 i).

(** [keeps d d']: the buffer [d'] has the length of [d] and its bytes from
    offset [2^31 + 3] on. A pixel offset is a 32-bit integer, so that no
    store of a call goes beyond offset [2^31 + 2]. *)
Definition keeps (d d' : list Z) : Prop :=
  lengthZ d' = lengthZ d
  ∧ ∀ n, 2 ^ 31 + 3 ≤ n → lookupZ d' n = lookupZ d n.

(** ** Two calls side by side *)

(** Two buffers hold the same byte at offset [n], or both end before it. *)
Definition agree (d1 d2 : list Z) (n : Z) : Prop := lookupZ d1 n = lookupZ d2 n.

(** Two output buffers, in two calls that started on [data1] and [data2]:
    every byte is the same in both, or is as it was before the call in
    both. *)
Definition sameOrUntouched (data1 data2 d1 d2 : list Z) : Prop :=
  lengthZ d1 = lengthZ d2
  ∧ ∀ n, agree d1 d2 n
         ∨ (lookupZ d1 n = lookupZ data1 n ∧ lookupZ d2 n = lookupZ data2 n).

(** Two colour loops side by side before column [x]: the same state of the
    stream, and the same bytes in the pixels left of [x]. *)
Definition colorRel (data1 data2 : list Z) (rowOff x : Z)
    (s1 s2 : list Z * Z) : Prop :=
  s1.2 = s2.2
  ∧ sameOrUntouched data1 data2 s1.1 s2.1
  ∧ ∀ x' c, 0 ≤ x' < x → 0 ≤ c < 3 →
      agree s1.1 s2.1 (Int32.shl (rowOff + x') 2 + c).

(** Two machines side by side: the same link buffer, the same state of the
    random stream, and output buffers that differ only where neither call
    has stored. *)
Definition machineRel (data1 data2 : list Z) (width : Z) (m1 m2 : machine) : Prop :=
  m_link m1 = m_link m2 ∧ lengthZ (m_link m1) = width
  ∧ m_state m1 = m_state m2
  ∧ sameOrUntouched data1 data2 (m_data m1) (m_data m2).

(** ** Depth maps of the examples *)

(** A depth row of 40 samples, near in columns 18 to 22. *)
Definition band : list Z := replicate 18 0 ++ replicate 5 255 ++ replicate 17 0.

(** A depth row of 10 samples, near in column 5. *)
Definition scenario : list Z := [0; 0; 0; 0; 0; 255; 0; 0; 0; 0].

(** ** The separation on the samples of a depth map *)



(** ** Depth samples and the links they make *)

(** A depth sample that makes no link: it is missing, or its separation is
    under two pixels. *)
Definition noLink (eyeSep obsDist : float) (ht : option Z) : bool :=
  match ht with
  | Some ht => (separation (double ht) eyeSep obsDist <? 2)%float
  | None => true
  end.

(** The links of the first [width] columns all span [p] columns, [r] of
    them right of the column that makes the link: for the half separation
    [half], the two ends of the link of column [x] are [x + r - p] and
    [x + r]. *)
Definition spans (half : float) (width p r : Z) : Prop :=
  Forall (λ x, floor (double x - half) = Integer (x + r - p)
               ∧ floor (double x + half) = Integer (x + r))
    (seqZ 0 width).

#[global] Instance spans_dec half width p r : Decision (spans half width p r).
Proof. unfold spans. apply _. Defined.

(** The links of a row whose links all span [p] columns, [r] of them right
    of the column that makes the link, after [k] iterations of the link
    loop: the cells from [p] to [k + r - 1] hold their index modulo [p],
    the others their own index. *)
Definition combLinks (width p r k : Z) (link : list Z) : Prop :=
  lengthZ link = width
  ∧ ∀ c, 0 ≤ c < width →
      lookupZ link c = Some (if bool_decide (p ≤ c < k + r) then c mod p else c).

(** ** The cells of the grid *)

(** The cell of the grid at [(row, col)]: [None] when the row or the cell is
    missing. *)
Definition cellAt (grid : Grid) (row col : Z) : option Z :=
  r ← element grid row; mjoin (element r col).

(** A position on the board. *)
Definition inside (cell : Z * Z) : Prop :=
  0 ≤ cell.1 < ROWS ∧ 0 ≤ cell.2 < COLS.

#[global] Instance inside_dec cell : Decision (inside cell).
Proof. unfold inside. apply _. Defined.

(** A grid as [emptyGrid] makes it: [ROWS] rows of [COLS] numbers. *)
Definition board (grid : Grid) : Prop :=
  length grid = Z.to_nat ROWS
  ∧ Forall (λ r, length r = Z.to_nat COLS ∧ Forall is_Some r) grid.

(** A cell where a tile can go: on the board, and holding nothing truthy. *)
Definition free (grid : Grid) (cell : Z * Z) : Prop :=
  inside cell ∧ truthy (cellAt grid cell.1 cell.2) = false.

(** The number of full rows among some rows. *)
Definition fullRows (rows : list Row) : nat :=
  length (filter (λ r, fullRow r = true) rows).

(** The rows that are not full, in their order. *)
Definition keptRows (rows : list Row) : list Row :=
  filter (λ r, fullRow r = false) rows.

(** The number of truthy cells of a grid. *)
Definition filled (grid : Grid) : nat :=
  sum_list_with (sum_list_with (λ c, if truthy c then 1%nat else 0%nat)) grid.

(** ** Pieces and states of the game *)

(** The number of rotation states of a type: none but the first for O, two
    for I, four for the others. *)
Definition rotationStates (type : Z) : Z :=
  if bool_decide (type = 1) then 1 else if bool_decide (type = 0) then 2 else 4.

(** A piece of one of the seven types in one of the rotation states of its
    type. *)
Definition validPiece (p : Piece.t) : Prop :=
  0 ≤ Piece.type p ≤ 6 ∧ 0 ≤ Piece.rotation p < rotationStates (Piece.type p).

(** The piece [p] moved by [dx] columns and [dy] rows. *)
Definition shifted (p : Piece.t) (dx dy : Z) : Piece.t :=
  Piece.make (Piece.type p) (Piece.rotation p) (Piece.x p + dx) (Piece.y p + dy).

(** A board whose last two rows are full but for the columns 2 and 3. *)
Definition twoGaps : Grid :=
  replicate 12 (replicate 10 (Some 0))
  ++ replicate 2 (replicate 2 (Some 3) ++ [Some 0; Some 0] ++ replicate 6 (Some 3)).

(** A number that [Math.random()] can return: a double from 0, inclusive,
    to 1, exclusive. *)
Definition unitInterval (u : float) : Prop :=
  (0 <=? u)%float = true ∧ (u <? 1)%float = true.

(** The states a game goes through: the grid is a board without a full
    row, the next type is one of the seven, the level is the one of the
    lines cleared, and the current piece, when there is one, is valid and
    collides with nothing. *)
Definition playable (s : Sketch.state) : Prop :=
  board (Sketch.grid s)
  ∧ Forall (λ r, fullRow r = false) (Sketch.grid s)
  ∧ 0 ≤ Sketch.nextPieceType s ≤ 6
  ∧ 0 ≤ Sketch.lines s
  ∧ Sketch.level s = 1 + Sketch.lines s / Sketch.LINES_PER_LEVEL
  ∧ 0 ≤ Sketch.score s
  ∧ ∀ p, Sketch.currentPiece s = Some p →
      validPiece p ∧ collides (Sketch.grid s) p = Value false.

(** What [moveLeft], [moveRight] and [rotate] do with the piece [next] they
    try: the current piece becomes [next] when it collides with nothing,
    and nothing changes otherwise. *)
Definition tryPiece (s : Sketch.state) (next : Piece.t) : result Sketch.state :=
  c ← collides (Sketch.grid s) next;
  if negb c then
    mret (Sketch.State (Sketch.grid s) (Some next) (Sketch.nextPieceType s)
            (Sketch.level s) (Sketch.score s) (Sketch.lines s) (Sketch.gameOver s))
  else mret s.

(** ** The tints of the image *)

(** The component [c] of a colour: red for 0, green for 1, blue otherwise. *)
Definition component (rgb : Z * Z * Z) (c : Z) : Z :=
  if bool_decide (c = 0) then rgb.1.1
  else if bool_decide (c = 1) then rgb.1.2
  else rgb.2.

(** The byte that a tint stores for the component [c] of its colour, on a
    pixel whose red channel reads [gray]: with a factor [mult] in
    [tintLockedPieces], without one in [tintPanels]. *)
Definition tintByte (c : Z) (gray : option Z) (mult : option float) : Z :=
  match mult with
  | Some mult => toUint8ClampDouble (double c / 255 * number gray * mult)
  | None => toUint8ClampDouble (double c / 255 * number gray)
  end.

(** The stores of a tint at the pixel of index [i]. *)
Definition storeTint (i : Z) (rgb : Z * Z * Z) (mult : option float)
    (d : list Z) : list Z :=
  let gray := lookupZ d i in
  insertZ (i + 2) (tintByte rgb.2 gray mult)
    (insertZ (i + 1) (tintByte rgb.1.2 gray mult)
       (insertZ i (tintByte rgb.1.1 gray mult) d)).

(** The channel [c] of the pixel [(px, py)] after a tint of the image [d]
    that paints the pixels that [paint] gives a colour and a factor for. *)
Definition painted (paint : Z → Z → option (Z * Z * Z * option float))
    (d : list Z) (py px c : Z) : option Z :=
  match paint px py with
  | Some (rgb, mult) =>
      if bool_decide (c < 3) then
        Some (tintByte (component rgb c) (channel d Sketch.WIDTH py px 0) mult)
      else channel d Sketch.WIDTH py px c
  | None => channel d Sketch.WIDTH py px c
  end.

(** The image [d] after the tint of the first [n] pixels of the image [d0],
    in the order of the loops. *)
Definition paintedUpTo (paint : Z → Z → option (Z * Z * Z * option float))
    (n : Z) (d0 d : list Z) : Prop :=
  lengthZ d = lengthZ d0
  ∧ (lengthZ d0 = 4 * Sketch.WIDTH * Sketch.HEIGHT →
     ∀ py px c, 0 ≤ py < Sketch.HEIGHT → 0 ≤ px < Sketch.WIDTH → 0 ≤ c < 4 →
       channel d Sketch.WIDTH py px c
       = if bool_decide (py * Sketch.WIDTH + px < n) then painted paint d0 py px c
         else channel d0 Sketch.WIDTH py px c).

(** Whether the pixel [(px, py)] is on the border of the cell [(row, col)]
    of the board. *)
Definition onBorder (px py row col : Z) : bool :=
  let cellLeft := Sketch.BOARD_X + col * Sketch.CELL_W in
  let cellTop := Sketch.BOARD_Y + row * Sketch.CELL_H in
  bool_decide (px = cellLeft) || bool_decide (px = cellLeft + Sketch.CELL_W - 1)
  || bool_decide (py = cellTop) || bool_decide (py = cellTop + Sketch.CELL_H - 1).

(** The colour and the factor that [tintLockedPieces] paints the pixel
    [(px, py)] with: the colour of the cell of the board that the pixel
    lies in, when the cell holds a type, darker on the border of the cell. *)
Definition lockedAt (grid : Grid) (px py : Z) :
    option (Z * Z * Z * option float) :=
  let row := (py - Sketch.BOARD_Y) / Sketch.CELL_H in
  let col := (px - Sketch.BOARD_X) / Sketch.CELL_W in
  if decide (inside (row, col)) then
    cell ← cellAt grid row col;
    if bool_decide (cell = 0) then None
    else
      rgb ← element Sketch.PIECE_COLORS (cell - 1);
      Some (rgb, Some (if onBorder px py row col then 0x1.ccccccccccccdp-2%float
                       else 1%float))
  else None.

(** The colour that [tintPanels] paints the pixel [(px, py)] with. *)
Definition panelTint (px py : Z) : option (Z * Z * Z * option float) :=
  rgb ← Sketch.panelAt px py; Some (rgb, None).

(** A grid that [tintLockedPieces] can colour: the rows that the image
    shows are there, and their cells hold nothing but 0 and the seven
    types plus one. *)
Definition tintable (grid : Grid) : Prop :=
  ∀ row col, 2 ≤ row < ROWS → 0 ≤ col < COLS →
    is_Some (element grid row)
    ∧ ∀ cell, cellAt grid row col = Some cell → 0 ≤ cell ≤ 7.

(** A cell that holds nothing, 0, or one of the seven types plus one. *)
Definition colouredCell (c : option Z) : Prop :=
  match c with
  | Some cell => 0 ≤ cell ≤ 7
  | None => True
  end.

#[global] Instance colouredCell_dec c : Decision (colouredCell c).
Proof. destruct c; apply _. Defined.

(** A grid of such cells. *)
Definition coloured (grid : Grid) : Prop := Forall (Forall colouredCell) grid.

(** An image of bytes. *)
Definition bytes (d : list Z) : Prop := Forall (λ v, 0 ≤ v ≤ 255) d.

(** An image of [WIDTH * HEIGHT] pixels with the same level on the three
    colour channels of each pixel, as [depthToSirds] writes it. *)
Definition grayscale (d : list Z) : Prop :=
  ∀ py px c, 0 ≤ py < Sketch.HEIGHT → 0 ≤ px < Sketch.WIDTH → 0 ≤ c < 3 →
    channel d Sketch.WIDTH py px c = channel d Sketch.WIDTH py px 0.

(** An image that is nowhere brighter than another: every byte of the
    [WIDTH * HEIGHT] pixels of [d] is at most the byte of [d0]. *)
Definition darker (d d0 : list Z) : Prop :=
  ∀ py px c, 0 ≤ py < Sketch.HEIGHT → 0 ≤ px < Sketch.WIDTH → 0 ≤ c < 4 →
    ∃ v v0, channel d Sketch.WIDTH py px c = Some v
            ∧ channel d0 Sketch.WIDTH py px c = Some v0
            ∧ 0 ≤ v ≤ v0 ≤ 255.

(** The colours and factors of the two tints. *)
Definition paints : list (Z * Z * Z * option float) :=
  (rgb ← Sketch.PIECE_COLORS;
   [(rgb, Some 1%float); (rgb, Some 0x1.ccccccccccccdp-2%float)])
  ++ [(Sketch.PANEL_COLOR_A, None); (Sketch.PANEL_COLOR_B, None)].

(** * Properties *)

(** ** The monad *)

Lemma yields_ret {A} (a : A) (Q : A → Prop) P : Q a → yields (ret a) Q P.
Proof. intros H. exists a, []. auto. Qed.

Lemma yields_bind {A B} (c : M A) (k : A → M B) Q1 Q2 P :
  yields c Q1 P → (∀ a, Q1 a → yields (k a) Q2 P) → yields (bind c k) Q2 P.
Proof.
  intros (a & t & -> & Ha & Ht) Hk.
  destruct (Hk a Ha) as (b & t' & Eb & Hb & Ht').
  exists b, (t ++ t'). unfold bind. rewrite Eb.
  split; [done|]. split; [done|]. by apply Forall_app.
Qed.

Lemma yields_weaken {A} (c : M A) (Q Q' : A → Prop) (P P' : access → Prop) :
  yields c Q P → (∀ a, Q a → Q' a) → (∀ e, P e → P' e) → yields c Q' P'.
Proof.
  intros (a & t & E & Ha & Ht) HQ HP. exists a, t.
  split; [done|]. split; [auto|]. eapply Forall_impl; eauto.
Qed.

Lemma bind_Some {A B} (c : M A) (k : A → M B) b t :
  bind c k = Some (b, t) →
  ∃ a t1 t2, c = Some (a, t1) ∧ k a = Some (b, t2) ∧ t = t1 ++ t2.
Proof.
  unfold bind. destruct c as [[a t1]|]; [|done].
  destruct (k a) as [[b' t2]|] eqn:E; [|done].
  intros [= <- <-]. by exists a, t1, t2.
Qed.

Lemma bind_ret_l {A B} (a : A) (k : A → M B) : bind (ret a) k = k a.
Proof. unfold bind, ret. by destruct (k a) as [[b t]|]. Qed.

Lemma bind_assoc {A B C} (c : M A) (k : A → M B) (k' : B → M C) :
  bind (bind c k) k' = bind c (λ a, bind (k a) k').
Proof.
  unfold bind. destruct c as [[a t]|]; [|done].
  destruct (k a) as [[b t1]|]; [|done].
  destruct (k' b) as [[c' t2]|]; [|done].
  by rewrite app_assoc.
Qed.

Lemma bind_ret_r {A} (c : M A) : bind c ret = c.
Proof.
  unfold bind, ret. destruct c as [[a t]|]; [|done]. by rewrite app_nil_r.
Qed.

(** ** Loops *)

Lemma bind_ext {A B} (c : M A) (k k' : A → M B) :
  (∀ a, k a = k' a) → bind c k = bind c k'.
Proof.
  intros H. unfold bind. destruct c as [[a t]|]; [|done]. by rewrite H.
Qed.

Lemma forEach_app {S} (body : Z → S → M S) xs ys s :
  forEach body (xs ++ ys) s = bind (forEach body xs s) (forEach body ys).
Proof.
  revert s. induction xs as [|x xs IH]; intros s.
  - exact (eq_sym (bind_ret_l _ _)).
  - change (bind (body x s) (forEach body (xs ++ ys))
            = bind (bind (body x s) (forEach body xs)) (forEach body ys)).
    rewrite bind_assoc. apply bind_ext. intros s'. apply IH.
Qed.

Lemma forRange_nonpos {S} (body : Z → S → M S) n s :
  n ≤ 0 → forRange n body s = ret s.
Proof.
  intros Hn. unfold forRange, seqZ.
  replace (Z.to_nat n) with O by lia. done.
Qed.

Lemma forRange_succ {S} (body : Z → S → M S) n s :
  0 ≤ n → forRange (n + 1) body s = bind (forRange n body s) (body n).
Proof.
  intros Hn. unfold forRange.
  rewrite (seqZ_app 0 n 1) by lia. rewrite forEach_app.
  apply bind_ext. intros s'. exact (bind_ret_r _).
Qed.

(** The invariant rule of the [for] loop: [I k] holds before iteration
    [k]. *)
Lemma yields_forRange {St} (I : Z → St → Prop) P (body : Z → St → M St) n s :
  I 0 s →
  (∀ k s, 0 ≤ k < n → I k s → yields (body k s) (I (k + 1)) P) →
  yields (forRange n body s) (I (Z.max 0 n)) P.
Proof.
  intros H0 Hstep. destruct (decide (n ≤ 0)) as [Hn|Hn].
  { rewrite forRange_nonpos by done. apply yields_ret.
    by replace (Z.max 0 n) with 0 by lia. }
  replace (Z.max 0 n) with n by lia.
  assert (Hk : ∀ k : nat, Z.of_nat k ≤ n →
    yields (forRange (Z.of_nat k) body s) (I (Z.of_nat k)) P).
  { induction k as [|k IH]; intros Hle.
    - rewrite forRange_nonpos by done. by apply yields_ret.
    - replace (Z.of_nat (S k)) with (Z.of_nat k + 1) by lia.
      rewrite forRange_succ by lia.
      eapply yields_bind; [apply IH; lia|].
      intros s' Hs'. apply Hstep; [lia|done]. }
  specialize (Hk (Z.to_nat n)). rewrite Z2Nat.id in Hk by lia. apply Hk. lia.
Qed.

Ltac simpl_access := cbn [acc_buf acc_mode acc_idx acc_len acc_val].

Lemma yields_load b a i (Q : option Z → Prop) (P : access → Prop) :
  Q (lookupZ a i) → P (Access Load b i (lengthZ a) (lookupZ a i)) →
  yields (load b a i) Q P.
Proof. intros HQ HP. eexists _, _. split; [done|]. split; [done|]. by constructor. Qed.

Lemma yields_store b a i v (Q : list Z → Prop) (P : access → Prop) :
  Q (insertZ i v a) → P (Access Store b i (lengthZ a) (Some v)) →
  yields (store b a i v) Q P.
Proof. intros HQ HP. eexists _, _. split; [done|]. split; [done|]. by constructor. Qed.

Lemma yields_load_eq b a i (P : access → Prop) :
  P (Access Load b i (lengthZ a) (lookupZ a i)) →
  yields (load b a i) (λ o, o = lookupZ a i) P.
Proof. intros HP. by apply yields_load. Qed.

Lemma yields_store_eq b a i v (P : access → Prop) :
  P (Access Store b i (lengthZ a) (Some v)) →
  yields (store b a i v) (λ a', a' = insertZ i v a) P.
Proof. intros HP. by apply yields_store. Qed.

(** ** Doubles *)

Lemma digits2_pos_spec p :
  2 ^ (Z.pos (digits2_pos p) - 1) ≤ Z.pos p < 2 ^ Z.pos (digits2_pos p).
Proof.
  induction p as [p IH|p IH|]; simpl digits2_pos.
  - rewrite Pos2Z.inj_succ.
    replace (Z.succ (Z.pos (digits2_pos p)) - 1) with (Z.succ (Z.pos (digits2_pos p) - 1)) by lia.
    rewrite !Z.pow_succ_r by lia. lia.
  - rewrite Pos2Z.inj_succ.
    replace (Z.succ (Z.pos (digits2_pos p)) - 1) with (Z.succ (Z.pos (digits2_pos p) - 1)) by lia.
    rewrite !Z.pow_succ_r by lia. lia.
  - simpl. lia.
Qed.

Lemma digits2_pos_unique p d :
  2 ^ (d - 1) ≤ Z.pos p < 2 ^ d → Z.pos (digits2_pos p) = d.
Proof.
  intros [H1 H2]. pose proof (digits2_pos_spec p) as [H3 H4].
  assert (0 < d).
  { destruct (decide (0 < d)); [done|]. 
    assert (2 ^ d ≤ 2 ^ 0) by (destruct (decide (d < 0)); [rewrite Z.pow_neg_r by lia; simpl; lia|apply Z.pow_le_mono_r; lia]).
    simpl in *. lia. }
  destruct (Z.lt_trichotomy (Z.pos (digits2_pos p)) d) as [Hlt|[->|Hgt]]; [|done|].
  - assert (2 ^ Z.pos (digits2_pos p) ≤ 2 ^ (d - 1)) by (apply Z.pow_le_mono_r; lia). lia.
  - assert (2 ^ d ≤ 2 ^ (Z.pos (digits2_pos p) - 1)) by (apply Z.pow_le_mono_r; lia). lia.
Qed.

Lemma iter_xO p d : Z.pos (Pos.iter xO p d) = Z.pos p * 2 ^ Z.pos d.
Proof.
  induction d as [|d IH] using Pos.peano_ind.
  - simpl. lia.
  - rewrite Pos.iter_succ, Pos2Z.inj_succ, Z.pow_succ_r by lia.
    rewrite Pos2Z.inj_xO, IH. lia.
Qed.

Lemma iter_pos_invariant {A} (f : A → A) (P : Z → A → Prop) :
  (∀ n x, 0 ≤ n → P n x → P (n + 1) (f x)) →
  ∀ p k x, 0 ≤ k → P k x → P (k + Z.pos p) (SpecFloat.iter_pos f p x).
Proof.
  intros Hstep. induction p as [p IH|p IH|]; intros k x Hk HP; simpl.
  - replace (k + Z.pos p~1) with (k + 1 + Z.pos p + Z.pos p) by lia.
    apply IH; [lia|]. apply IH; [lia|]. by apply Hstep.
  - replace (k + Z.pos p~0) with (k + Z.pos p + Z.pos p) by lia.
    apply IH; [lia|]. by apply IH.
  - by apply Hstep.
Qed.

Lemma shr_1_m mrs : 0 ≤ shr_m mrs → shr_m (shr_1 mrs) = shr_m mrs `div` 2.
Proof.
  destruct mrs as [m r s]. simpl. intros Hm.
  destruct m as [|[p|p|]|]; simpl; [done| | |done|lia].
  - apply Z.div_unique with 1; lia.
  - apply Z.div_unique with 0; lia.
Qed.

Lemma shr_1_r mrs : 0 ≤ shr_m mrs → shr_r (shr_1 mrs) = Z.odd (shr_m mrs).
Proof.
  destruct mrs as [m r s]. simpl. intros Hm.
  by destruct m as [|[p|p|]|].
Qed.

Lemma shr_1_s mrs : shr_s (shr_1 mrs) = shr_r mrs || shr_s mrs.
Proof.
  destruct mrs as [m r s]. simpl. by destruct m as [|[p|p|]|[p|p|]].
Qed.

Lemma iter_shr_1 M p :
  0 ≤ M →
  let mrs := SpecFloat.iter_pos shr_1 p (Build_shr_record M false false) in
  shr_m mrs = M `div` 2 ^ Z.pos p
  ∧ (M `mod` 2 ^ Z.pos p = 0 → loc_of_shr_record mrs = loc_Exact).
Proof.
  intros HM mrs.
  pose (P := λ (n : Z) (mrs : shr_record),
    shr_m mrs = M `div` 2 ^ n
    ∧ (M `mod` 2 ^ n = 0 → shr_r mrs = false ∧ shr_s mrs = false)).
  assert (P (0 + Z.pos p) mrs) as [Hm Hloc].
  { apply iter_pos_invariant; [|lia|].
    - intros n x Hn [Hm Hrs].
      assert (0 ≤ shr_m x) by (rewrite Hm; apply Z.div_pos; lia).
      split.
      + rewrite shr_1_m, Hm by done. rewrite Z.pow_add_r by lia.
        rewrite Z.div_div by lia. done.
      + intros Hmod. rewrite shr_1_r, shr_1_s by done.
        assert (M `mod` 2 ^ n = 0 ∧ (M `div` 2 ^ n) `mod` 2 = 0) as [H1 H2].
        { rewrite Z.pow_add_r in Hmod by lia.
          rewrite Z.rem_mul_r in Hmod by lia.
          assert (0 < 2 ^ n) by lia.
          pose proof (Z.mod_pos_bound M (2 ^ n)).
          pose proof (Z.mod_pos_bound (M `div` 2 ^ n) (2 ^ 1)).
          change (2 ^ 1) with 2 in *. nia. }
        destruct (Hrs H1) as [-> ->]. split; [|done].
        rewrite Hm. rewrite (Z.div_mod (M `div` 2 ^ n) 2) by lia.
        rewrite H2, Z.add_0_r, Z.odd_mul. done.
    - simpl. split; [by rewrite Z.div_1_r|done]. }
  split; [done|]. intros Hmod. destruct (Hloc Hmod) as [Hr Hs].
  destruct mrs as [? r s]. simpl in *. by subst.
Qed.

Lemma fexp_eq e : fexp prec emax e = Z.max (e - 53) (-1074).
Proof. reflexivity. Qed.

Lemma shr_spec M e n :
  0 ≤ M → 0 ≤ n →
  ∃ mrs, shr (Build_shr_record M false false) e n = (mrs, e + n)
    ∧ shr_m mrs = M `div` 2 ^ n
    ∧ (M `mod` 2 ^ n = 0 → loc_of_shr_record mrs = loc_Exact).
Proof.
  intros HM Hn. destruct n as [|p|p]; [| |lia].
  - eexists. split; [simpl; by rewrite Z.add_0_r|]. simpl.
    split; [by rewrite Z.div_1_r|done].
  - eexists. split; [done|]. by apply iter_shr_1.
Qed.

Lemma round_nearest_even_range m l :
  m ≤ round_nearest_even m l ≤ m + 1
  ∧ (l = loc_Exact → round_nearest_even m l = m).
Proof.
  destruct l as [|[]]; simpl; (split; [|done]); try lia.
  destruct (Z.even m); lia.
Qed.

Lemma Zdigits2_le m : 0 ≤ m < 2 ^ 53 → Zdigits2 m ≤ 53.
Proof.
  intros Hm. destruct m as [|p|p]; [done| |lia]. simpl.
  pose proof (digits2_pos_spec p) as [H1 H2].
  destruct (decide (Z.pos (digits2_pos p) ≤ 53)); [done|].
  assert (2 ^ 53 ≤ 2 ^ (Z.pos (digits2_pos p) - 1)) by (apply Z.pow_le_mono_r; lia).
  lia.
Qed.

Lemma second_stage s m2 E :
  0 ≤ m2 ≤ 2 ^ 53 → -1074 ≤ E →
  (let '(mrs, e) := shr_fexp prec emax m2 E loc_Exact in
   match shr_m mrs with
   | 0 => S754_zero s
   | Z.pos m => if e <=? emax - prec then S754_finite s m e else S754_infinity s
   | Z.neg _ => S754_nan
   end) = pack s m2 E.
Proof.
  intros Hm HE. unfold shr_fexp, pack. rewrite fexp_eq.
  change (emax - prec) with 971.
  destruct (decide (m2 = 2 ^ 53)) as [->|Hne].
  - change (Zdigits2 (2 ^ 53)) with 54.
    replace (Z.max (54 + E - 53) (-1074) - E) with 1 by lia.
    simpl shr. cbn [shr_m].
    rewrite (bool_decide_false (2 ^ 53 = 0)) by lia.
    rewrite (bool_decide_false (2 ^ 53 < 2 ^ 53)) by lia.
    destruct (Z.leb_spec (E + 1) 971).
    + by rewrite bool_decide_true by lia.
    + by rewrite bool_decide_false by lia.
  - pose proof (Zdigits2_le m2 ltac:(lia)) as Hd.
    assert (shr (shr_record_of_loc m2 loc_Exact) E
              (Z.max (Zdigits2 m2 + E - 53) (-1074) - E)
            = (shr_record_of_loc m2 loc_Exact, E)) as ->.
    { unfold shr. destruct (Z.max (Zdigits2 m2 + E - 53) (-1074) - E) eqn:Heq;
        [done|lia|done]. }
    simpl shr_m. destruct m2 as [|p|p]; [done| |lia].
    rewrite (bool_decide_false (Z.pos p = 0)) by lia.
    rewrite (bool_decide_true (Z.pos p < 2 ^ 53)) by lia.
    simpl Z.to_pos. destruct (Z.leb_spec E 971).
    + by rewrite bool_decide_true by lia.
    + by rewrite bool_decide_false by lia.
Qed.

Lemma binary_round_aux_spec s M E0 E :
  E = fexp prec emax (Z.pos (digits2_pos M) + E0) →
  E0 ≤ E →
  ∃ m2,
    Z.pos M `div` 2 ^ (E - E0) ≤ m2 ≤ Z.pos M `div` 2 ^ (E - E0) + 1
    ∧ m2 ≤ 2 ^ 53
    ∧ (Z.pos M `mod` 2 ^ (E - E0) = 0 → m2 = Z.pos M `div` 2 ^ (E - E0))
    ∧ binary_round_aux prec emax s (Z.pos M) E0 loc_Exact = pack s m2 E.
Proof.
  intros HEq HE. unfold binary_round_aux, shr_fexp at 1.
  simpl Zdigits2. rewrite <- HEq. simpl shr_record_of_loc.
  destruct (shr_spec (Z.pos M) E0 (E - E0)) as (mrs & -> & Hm & Hloc); [lia..|].
  replace (E0 + (E - E0)) with E by lia.
  pose proof (round_nearest_even_range (shr_m mrs) (loc_of_shr_record mrs))
    as [Hr Hexact].
  rewrite fexp_eq in HEq.
  assert (Z.pos M `div` 2 ^ (E - E0) < 2 ^ 53) as Hlt.
  { pose proof (digits2_pos_spec M) as [_ Hd].
    apply Z.div_lt_upper_bound; [lia|].
    rewrite <- Z.pow_add_r by lia.
    eapply Z.lt_le_trans; [done|]. apply Z.pow_le_mono_r; lia. }
  assert (0 ≤ Z.pos M `div` 2 ^ (E - E0)) by (apply Z.div_pos; lia).
  exists (round_nearest_even (shr_m mrs) (loc_of_shr_record mrs)).
  rewrite Hm in *. split_and!; [lia..| |].
  - intros Hmod. apply Hexact. by apply Hloc.
  - apply second_stage; lia.
Qed.

Lemma binary_round_spec s M E0 E :
  E = fexp prec emax (Z.pos (digits2_pos M) + E0) →
  ∃ m2,
    (if bool_decide (E0 ≤ E) then
       Z.pos M `div` 2 ^ (E - E0) ≤ m2 ≤ Z.pos M `div` 2 ^ (E - E0) + 1
       ∧ (Z.pos M `mod` 2 ^ (E - E0) = 0 → m2 = Z.pos M `div` 2 ^ (E - E0))
     else m2 = Z.pos M * 2 ^ (E0 - E))
    ∧ 0 ≤ m2 ≤ 2 ^ 53
    ∧ binary_round prec emax s M E0 = pack s m2 E.
Proof.
  intros HEq. unfold binary_round. rewrite <- HEq. unfold shl_align.
  case_bool_decide as HE.
  - assert (0 ≤ Z.pos M `div` 2 ^ (E - E0)) by (apply Z.div_pos; lia).
    destruct (binary_round_aux_spec s M E0 E) as (m2 & ? & ? & ? & ?); [done..|].
    exists m2. split; [done|]. split; [lia|].
    by destruct (E - E0) eqn:Heq; [| |lia].
  - destruct (E - E0) as [|p|p] eqn:Heq; [lia|lia|].
    pose proof (digits2_pos_spec M) as [Hd1 Hd2].
    pose proof (iter_xO M p) as Hsh.
    assert (Z.pos (digits2_pos (Pos.iter xO M p)) = Z.pos (digits2_pos M) + Z.pos p)
      as Hdig.
    { apply digits2_pos_unique. rewrite Hsh.
      replace (Z.pos (digits2_pos M) + Z.pos p - 1)
        with (Z.pos (digits2_pos M) - 1 + Z.pos p) by lia.
      rewrite !Z.pow_add_r by lia. nia. }
    assert (E = fexp prec emax (Z.pos (digits2_pos (Pos.iter xO M p)) + E)) as HE'.
    { rewrite Hdig. rewrite !fexp_eq in *. lia. }
    destruct (binary_round_aux_spec s (Pos.iter xO M p) E E) as (m2 & ? & ? & Hex & ->);
      [done|lia|].
    rewrite Z.sub_diag in *. simpl in Hex.
    rewrite Z.div_1_r in *. rewrite Z.mod_1_r in Hex.
    exists m2. split; [|split; [lia|done]].
    rewrite Hex by done. rewrite Hsh. f_equal. f_equal. lia.
Qed.

Lemma floorSF_finite s m e :
  floorSF (S754_finite s m e) = Integer (Z.shiftl (signed s (Z.pos m)) e).
Proof.
  unfold floorSF, signed. f_equal.
  assert ((if s then Z.neg m else Z.pos m) = (if s then - Z.pos m else Z.pos m)) as ->
    by by destruct s.
  case_bool_decide.
  - by rewrite Z.shiftl_mul_pow2.
  - by rewrite Z.shiftl_div_pow2 by lia.
Qed.

Lemma floorSF_pack s m E :
  0 ≤ m ≤ 2 ^ 53 →
  (E < 971 → floorSF (pack s m E) = Integer (Z.shiftl (signed s m) E))
  ∧ (floorSF (pack s m E) = Infinite s
     ∨ floorSF (pack s m E) = Integer (Z.shiftl (signed s m) E)).
Proof.
  intros Hm. unfold pack.
  case_bool_decide as H0.
  { subst m. simpl. assert (signed s 0 = 0) as -> by by destruct s.
    rewrite Z.shiftl_0_l. by split; [|right]. }
  case_bool_decide as H53.
  - case_bool_decide.
    + rewrite floorSF_finite, Z2Pos.id by lia. by split; [|right].
    + split; [lia|by left].
  - assert (m = 2 ^ 53) as -> by lia.
    assert (Z.shiftl (signed s (Z.pos (Z.to_pos (2 ^ 52)))) (E + 1)
            = Z.shiftl (signed s (2 ^ 53)) E) as Heq.
    { replace (signed s (2 ^ 53)) with (Z.shiftl (signed s (Z.pos (Z.to_pos (2 ^ 52)))) 1)
        by by destruct s.
      rewrite Z.shiftl_shiftl by lia. f_equal. lia. }
    case_bool_decide.
    + rewrite floorSF_finite, Heq. by split; [|right].
    + split; [lia|by left].
Qed.

Lemma shl_align_fst m e e' :
  e' ≤ e → Z.pos (fst (shl_align m e e')) = Z.pos m * 2 ^ (e - e').
Proof.
  intros He. unfold shl_align.
  destruct (e' - e) as [|p|p] eqn:Heq; simpl.
  - replace (e - e') with 0 by lia. simpl. lia.
  - lia.
  - rewrite iter_xO. f_equal. f_equal. lia.
Qed.

Lemma Prim2SF_double_0 : Prim2SF (double 0) = S754_zero false.
Proof. reflexivity. Qed.

Lemma Prim2SF_double x :
  0 < x < 2 ^ 53 →
  ∃ mx ex, Prim2SF (double x) = S754_finite false mx ex
    ∧ ex ≤ 0 ∧ Z.pos mx = x * 2 ^ (- ex).
Proof.
  intros Hx. unfold double. rewrite bool_decide_false by lia.
  rewrite of_uint63_spec.
  assert (Uint63Axioms.to_Z (Uint63.of_Z x) = x) as ->.
  { rewrite Uint63.of_Z_spec. apply Z.mod_small.
    change Uint63.wB with (2 ^ 63). 
    assert (2 ^ 53 ≤ 2 ^ 63) by (apply Z.pow_le_mono_r; lia). lia. }
  destruct x as [|p|p]; [lia| |lia]. simpl binary_normalize.
  pose proof (digits2_pos_spec p) as [Hd1 Hd2].
  set (d := Z.pos (digits2_pos p)) in *.
  assert (d ≤ 53).
  { destruct (decide (d ≤ 53)); [done|].
    assert (2 ^ 53 ≤ 2 ^ (d - 1)) by (apply Z.pow_le_mono_r; lia). lia. }
  destruct (binary_round_spec false p 0 (d - 53)) as (m2 & Hm2 & Hr & ->).
  { rewrite fexp_eq. subst d. lia. }
  assert (m2 = Z.pos p * 2 ^ (53 - d)) as ->.
  { case_bool_decide.
    - assert (d = 53) as Hd by lia. destruct Hm2 as [_ Hex].
      replace (d - 53 - 0) with 0 in Hex by lia.
      rewrite Z.pow_0_r, Z.div_1_r, Z.mod_1_r in Hex. rewrite Hex by done.
      replace (53 - d) with 0 by lia. lia.
    - rewrite Hm2. f_equal. f_equal. lia. }
  assert (Z.pos p * 2 ^ (53 - d) < 2 ^ 53).
  { replace 53 with (d + (53 - d)) at 2 by lia. rewrite Z.pow_add_r by lia.
    apply Z.mul_lt_mono_pos_r; lia. }
  unfold pack. rewrite bool_decide_false by lia.
  rewrite (bool_decide_true (Z.pos p * 2 ^ (53 - d) < 2 ^ 53)) by lia.
  rewrite bool_decide_true by lia.
  eexists _, _. split; [done|]. split; [lia|].
  rewrite Z2Pos.id by lia. f_equal. f_equal. lia.
Qed.

Lemma round_below p ez x :
  ez ≤ 0 → 0 ≤ x < 2 ^ 53 → Z.pos p < x * 2 ^ (- ez) →
  ∃ l, floorSF (binary_round prec emax false p ez) = Integer l ∧ l ≤ x.
Proof.
  intros Hez Hx Hp.
  pose proof (digits2_pos_spec p) as [Hd1 Hd2].
  set (d := Z.pos (digits2_pos p)) in *.
  assert (d + ez ≤ 53) as Hd.
  { destruct (decide (d + ez ≤ 53)); [done|].
    assert (2 ^ (53 - ez) ≤ 2 ^ (d - 1)) by (apply Z.pow_le_mono_r; lia).
    assert (x * 2 ^ (- ez) < 2 ^ 53 * 2 ^ (- ez)) by (apply Z.mul_lt_mono_pos_r; lia).
    rewrite <- Z.pow_add_r in * by lia.
    replace (53 + - ez) with (53 - ez) in * by lia. lia. }
  destruct (binary_round_spec false p ez (Z.max (d + ez - 53) (-1074)))
    as (m2 & Hm2 & Hr & ->); [by rewrite fexp_eq|].
  set (E := Z.max (d + ez - 53) (-1074)) in *.
  assert (E ≤ 0) as HE by lia.
  destruct (floorSF_pack false m2 E Hr) as [Hf _]. rewrite Hf by lia.
  eexists. split; [done|]. simpl signed.
  rewrite Z.shiftl_div_pow2 by lia.
  apply Z.div_le_upper_bound; [lia|].
  case_bool_decide.
  - destruct Hm2 as [[_ Hm2] _].
    assert (Z.pos p `div` 2 ^ (E - ez) < x * 2 ^ (- E)); [|lia].
    apply Z.div_lt_upper_bound; [lia|].
    rewrite Z.mul_comm, <- Z.mul_assoc, <- Z.pow_add_r by lia.
    by replace (- E + (E - ez)) with (- ez) by lia.
  - rewrite Hm2.
    assert (Z.pos p * 2 ^ (ez - E) < x * 2 ^ (- ez) * 2 ^ (ez - E))
      by (apply Z.mul_lt_mono_pos_r; lia).
    rewrite <- Z.mul_assoc, <- Z.pow_add_r in * by lia.
    replace (- ez + (ez - E)) with (- E) in * by lia. lia.
Qed.

Lemma round_above p ez x :
  ez ≤ 0 → 0 ≤ x < 2 ^ 53 → x * 2 ^ (- ez) ≤ Z.pos p →
  floorSF (binary_round prec emax false p ez) = Infinite false
  ∨ ∃ r, floorSF (binary_round prec emax false p ez) = Integer r ∧ x ≤ r.
Proof.
  intros Hez Hx Hp.
  pose proof (digits2_pos_spec p) as [Hd1 Hd2].
  set (d := Z.pos (digits2_pos p)) in *.
  destruct (binary_round_spec false p ez (Z.max (d + ez - 53) (-1074)))
    as (m2 & Hm2 & Hr & ->); [by rewrite fexp_eq|].
  set (E := Z.max (d + ez - 53) (-1074)) in *.
  destruct (floorSF_pack false m2 E Hr) as [_ [->| ->]]; [by left|right].
  eexists. split; [done|]. simpl signed.
  case_bool_decide as Hcase.
  - destruct Hm2 as [[Hm2 _] _].
    destruct (decide (E ≤ 0)) as [HE|HE].
    + rewrite Z.shiftl_div_pow2 by lia.
      apply Z.div_le_lower_bound; [lia|].
      assert (x * 2 ^ (- E) ≤ Z.pos p `div` 2 ^ (E - ez)); [|lia].
      apply Z.div_le_lower_bound; [lia|].
      rewrite (Z.mul_comm (2 ^ _)), <- Z.mul_assoc, <- Z.pow_add_r by lia.
      by replace (- E + (E - ez)) with (- ez) by lia.
    + rewrite Z.shiftl_mul_pow2 by lia.
      assert (E = d + ez - 53) as HEq by lia.
      assert (2 ^ 52 ≤ Z.pos p `div` 2 ^ (E - ez)).
      { apply Z.div_le_lower_bound; [lia|].
        rewrite <- Z.pow_add_r by lia.
        by replace (E - ez + 52) with (d - 1) by lia. }
      assert (2 ^ 1 ≤ 2 ^ E) by (apply Z.pow_le_mono_r; lia).
      change (2 ^ 1) with 2 in *. nia.
  - assert (E < 0) by lia.
    rewrite Z.shiftl_div_pow2 by lia.
    apply Z.div_le_lower_bound; [lia|].
    rewrite Hm2.
    assert (x * 2 ^ (- ez) * 2 ^ (ez - E) ≤ Z.pos p * 2 ^ (ez - E))
      by (apply Z.mul_le_mono_nonneg_r; lia).
    rewrite <- Z.mul_assoc, <- Z.pow_add_r in * by lia.
    replace (- ez + (ez - E)) with (- E) in * by lia. lia.
Qed.

Lemma round_negative p ez :
  floorSF (binary_round prec emax true p ez) = Infinite true
  ∨ ∃ l, floorSF (binary_round prec emax true p ez) = Integer l ∧ l ≤ 0.
Proof.
  destruct (binary_round_spec true p ez _ eq_refl) as (m2 & _ & Hr & ->).
  destruct (floorSF_pack true m2 (fexp prec emax (Z.pos (digits2_pos p) + ez)) Hr)
    as [_ [->| ->]]; [by left|right].
  eexists. split; [done|]. simpl signed.
  destruct (decide (m2 = 0)) as [->|]; [by rewrite Z.shiftl_0_l|].
  assert (Z.shiftl (- m2) (fexp prec emax (Z.pos (digits2_pos p) + ez)) < 0); [|lia].
  apply Z.shiftl_neg. lia.
Qed.

Lemma floor_sub x h :
  0 ≤ x < 2 ^ 53 → nonnegative (Prim2SF h) →
  match floor (double x - h) with
  | Integer l => l ≤ x
  | Infinite s => s = true
  | NotANumber => True
  end.
Proof.
  intros Hx Hh. unfold floor. rewrite sub_spec.
  destruct (decide (x = 0)) as [->|Hx0].
  - rewrite Prim2SF_double_0.
    destruct (Prim2SF h) as [s|s| |s m e]; simpl in Hh; subst; try done.
    + by destruct s.
    + unfold SF64sub, SFsub. rewrite floorSF_finite. simpl signed.
      assert (Z.shiftl (- Z.pos m) e < 0); [|simpl in *; lia].
      apply Z.shiftl_neg. lia.
  - destruct (Prim2SF_double x) as (mx & ex & -> & Hex & Hmx); [lia|].
    assert (floorSF (S754_finite false mx ex) = Integer x) as Hfx.
    { rewrite floorSF_finite. simpl signed. rewrite Hmx. f_equal.
      rewrite Z.shiftl_div_pow2 by lia. apply Z.div_mul. lia. }
    destruct (Prim2SF h) as [s|s| |s m e]; simpl in Hh; subst; try done.
    + unfold SF64sub, SFsub. by rewrite Hfx.
    + unfold SF64sub, SFsub. simpl cond_Zopp.
      set (ez := Z.min ex e).
      rewrite !shl_align_fst by lia.
      assert (Z.pos mx * 2 ^ (ex - ez) = x * 2 ^ (- ez)) as Hxs.
      { rewrite Hmx, <- Z.mul_assoc, <- Z.pow_add_r by lia. f_equal. f_equal. lia. }
      assert (0 < Z.pos m * 2 ^ (e - ez)) by (apply Z.mul_pos_pos; lia).
      destruct (Z.pos mx * 2 ^ (ex - ez) - Z.pos m * 2 ^ (e - ez)) as [|p|p] eqn:HM;
        simpl binary_normalize.
      * simpl. lia.
      * destruct (round_below p ez x) as (l & -> & Hl); [lia|lia|lia|done].
      * destruct (round_negative p ez) as [->|(l & -> & Hl)]; [done|lia].
Qed.

Lemma floor_add x h :
  0 ≤ x < 2 ^ 53 → nonnegative (Prim2SF h) →
  match floor (double x + h) with
  | Integer r => x ≤ r
  | Infinite s => s = false
  | NotANumber => True
  end.
Proof.
  intros Hx Hh. unfold floor. rewrite add_spec.
  destruct (decide (x = 0)) as [->|Hx0].
  - rewrite Prim2SF_double_0.
    destruct (Prim2SF h) as [s|s| |s m e]; simpl in Hh; subst; try done.
    + by destruct s.
    + unfold SF64add, SFadd. rewrite floorSF_finite. simpl signed.
      apply Z.shiftl_nonneg. lia.
  - destruct (Prim2SF_double x) as (mx & ex & -> & Hex & Hmx); [lia|].
    assert (floorSF (S754_finite false mx ex) = Integer x) as Hfx.
    { rewrite floorSF_finite. simpl signed. rewrite Hmx. f_equal.
      rewrite Z.shiftl_div_pow2 by lia. apply Z.div_mul. lia. }
    destruct (Prim2SF h) as [s|s| |s m e]; simpl in Hh; subst; try done.
    + unfold SF64add, SFadd. by rewrite Hfx.
    + unfold SF64add, SFadd. simpl cond_Zopp.
      set (ez := Z.min ex e).
      rewrite !shl_align_fst by lia.
      assert (Z.pos mx * 2 ^ (ex - ez) = x * 2 ^ (- ez)) as Hxs.
      { rewrite Hmx, <- Z.mul_assoc, <- Z.pow_add_r by lia. f_equal. f_equal. lia. }
      assert (0 < Z.pos m * 2 ^ (e - ez)) by (apply Z.mul_pos_pos; lia).
      destruct (Z.pos mx * 2 ^ (ex - ez) + Z.pos m * 2 ^ (e - ez)) as [|p|p] eqn:HM;
        simpl binary_normalize; [lia| |lia].
      destruct (round_above p ez x) as [->|(r & -> & Hr)]; [lia|lia|lia|done|done].
Qed.

Lemma binary_round_aux_nonnegative m e l :
  nonnegative (binary_round_aux prec emax false m e l).
Proof.
  unfold binary_round_aux.
  destruct (shr_fexp prec emax m e l) as [mrs' e'].
  destruct (shr_fexp prec emax _ e' loc_Exact) as [mrs'' e''].
  destruct (shr_m mrs''); [done| |done].
  by destruct (e'' <=? emax - prec).
Qed.

Lemma half_nonnegative (sep : float) :
  (sep <? 2)%float = false → nonnegative (Prim2SF (sep * 0.5)).
Proof.
  rewrite ltb_spec, mul_spec.
  change (Prim2SF 2) with (S754_finite false 4503599627370496 (-51)).
  change (Prim2SF 0.5) with (S754_finite false 4503599627370496 (-53)).
  destruct (Prim2SF sep) as [s|[]| |[] m e]; try done.
  intros _. apply binary_round_aux_nonnegative.
Qed.

Lemma floor_times_7 (u : float) :
  (0 <=? u)%float = true → (u <? 1)%float = true →
  ∃ k, floor (u * 7) = Integer k ∧ 0 ≤ k ≤ 6.
Proof.
  rewrite leb_spec, ltb_spec. unfold floor. rewrite mul_spec.
  pose proof (Prim2SF_valid u) as Hvalid.
  change (Prim2SF 0) with (S754_zero false).
  change (Prim2SF 1) with (S754_finite false 4503599627370496 (-52)).
  change (Prim2SF 7) with (S754_finite false 7881299347898368 (-50)).
  destruct (Prim2SF u) as [s|[]| |[] m e]; try done.
  - intros _ _. by exists 0.
  - intros _ Hlt.
    unfold SFltb, SFcompare in Hlt.
    unfold SpecFloat.valid_binary, bounded, canonical_mantissa in Hvalid.
    apply andb_prop in Hvalid as [Hcan _]. apply Z.eqb_eq in Hcan.
    rewrite fexp_eq in Hcan.
    pose proof (digits2_pos_spec m) as [Hd1 Hd2].
    set (d := Z.pos (digits2_pos m)) in *.
    assert (d ≤ 53) as Hd by lia.
    assert (Z.pos m < 2 ^ 53).
    { assert (2 ^ d ≤ 2 ^ 53) by (apply Z.pow_le_mono_r; lia). lia. }
    assert (e ≤ -53) as He.
    { destruct (Z.compare_spec e (-52)) as [->|?|?]; [|lia|done].
      assert (d = 53) as Hd53 by lia. rewrite Hd53 in Hd1.
      change (2 ^ (53 - 1)) with 4503599627370496 in Hd1.
      destruct (PosDef.Pos.compare_cont Eq m 4503599627370496) eqn:Hcmp; try done.
      apply (proj1 (Pos.compare_lt_iff m _)) in Hcmp.
      apply Pos2Z.pos_lt_pos in Hcmp. lia. }
    destruct (decide (e = -53 ∧ Z.pos m = 2 ^ 53 - 1)) as [[-> Hm]|Hne].
    { assert (Z.pos m = 9007199254740991) as Hm' by (by rewrite Hm).
      injection Hm' as ->.
      exists 6. split; [by vm_compute|lia]. }
    unfold SF64mul, SFmul. simpl xorb.
    pose proof (digits2_pos_spec (m * 7881299347898368)) as [Hp1 Hp2].
    set (dp := Z.pos (digits2_pos (m * 7881299347898368))) in *.
    rewrite Pos2Z.inj_mul in Hp1, Hp2.
    change (Z.pos 7881299347898368) with (7 * 2 ^ 50) in *.
    assert (d + 52 ≤ dp ≤ d + 53) as Hdp.
    { split.
      - destruct (decide (d + 52 ≤ dp)); [done|].
        assert (2 ^ dp ≤ 2 ^ (d + 51)) by (apply Z.pow_le_mono_r; lia).
        replace (d + 51) with (d - 1 + 52) in * by lia.
        rewrite Z.pow_add_r in * by lia.
        change (2 ^ 52) with (4 * 2 ^ 50) in *. nia.
      - destruct (decide (dp ≤ d + 53)); [done|].
        assert (2 ^ (d + 53) ≤ 2 ^ (dp - 1)) by (apply Z.pow_le_mono_r; lia).
        rewrite Z.pow_add_r in * by lia.
        change (2 ^ 53) with (8 * 2 ^ 50) in *. nia. }
    set (E := Z.max (dp + (e + -50) - 53) (-1074)).
    destruct (binary_round_aux_spec false (m * 7881299347898368) (e + -50) E)
      as (m2 & Hm2 & Hle & _ & ->); [by rewrite fexp_eq|lia|].
    assert (E ≤ -50) as HE by lia.
    destruct (floorSF_pack false m2 E) as [Hf _];
      [assert (0 ≤ Z.pos (m * 7881299347898368) `div` 2 ^ (E - (e + -50)))
         by (apply Z.div_pos; lia); lia|].
    rewrite Hf by lia. eexists. split; [done|]. simpl signed.
    rewrite Z.shiftl_div_pow2 by lia.
    assert (0 ≤ Z.pos (m * 7881299347898368) `div` 2 ^ (E - (e + -50)))
      by (apply Z.div_pos; lia).
    split; [apply Z.div_pos; lia|].
    assert (m2 `div` 2 ^ (- E) < 7); [|lia].
    apply Z.div_lt_upper_bound; [lia|].
    assert (Z.pos (m * 7881299347898368) `div` 2 ^ (E - (e + -50)) + 1
            < 2 ^ (- E) * 7); [|lia].
    assert (Z.pos (m * 7881299347898368) `div` 2 ^ (E - (e + -50))
            < 2 ^ (- E) * 7 - 1); [|lia].
    apply Z.div_lt_upper_bound; [lia|].
    rewrite Pos2Z.inj_mul.
    change (Z.pos 7881299347898368) with (7 * 2 ^ 50).
    (* 7 m 2^50 < 2^(E-e+50) (7 2^-E - 1) *)
    replace (E - (e + -50)) with ((E - e) + 50) by lia.
    rewrite Z.pow_add_r by lia.
    assert (Z.pos m * 7 < 2 ^ (E - e) * (2 ^ (- E) * 7 - 1)); [|nia].
    rewrite Z.mul_sub_distr_l, Z.mul_assoc, <- Z.pow_add_r by lia.
    replace (E - e + - E) with (- e) by lia.
    assert (2 ^ (E - e) ≤ 2 ^ (-50 - e)) by (apply Z.pow_le_mono_r; lia).
    replace (- e) with ((-50 - e) + 50) by lia.
    rewrite Z.pow_add_r by lia.
    destruct (decide (e = -53)) as [->|].
    + change (2 ^ (-50 - -53)) with 8 in *. 
      change (2 ^ 50) with 1125899906842624 in *.
      change (2 ^ 53) with 9007199254740992 in *. lia.
    + assert (2 ^ 4 ≤ 2 ^ (-50 - e)) by (apply Z.pow_le_mono_r; lia).
      change (2 ^ 4) with 16 in *.
      change (2 ^ 50) with 1125899906842624 in *.
      change (2 ^ 53) with 9007199254740992 in *. nia.
Qed.

Lemma ltb_0_leb (d : float) :
  (0 <? d)%float = true → (d <=? 0)%float = false.
Proof.
  rewrite ltb_spec, leb_spec.
  change (Prim2SF 0) with (S754_zero false).
  by destruct (Prim2SF d) as [s|[]| |[] m e].
Qed.



(** The separation of a missing sample is [NaN]. *)
Lemma separation_nan eyeSep obsDist :
  Prim2SF (separation nan eyeSep obsDist) = S754_nan.
Proof.
  unfold separation. change (nan - BKDEPTH)%float with nan.
  change (nan <=? 0)%float with false. cbv iota.
  rewrite div_spec, mul_spec. change (Prim2SF nan) with S754_nan. done.
Qed.

(** A separation that is [NaN] is not under two pixels, and its left end
    is [NaN]. *)
Lemma ends_nan (x : Z) (sep : float) :
  Prim2SF sep = S754_nan →
  (sep <? 2)%float = false ∧ floor (double x - sep * 0.5) = NotANumber.
Proof.
  intros H. split.
  - by rewrite ltb_spec, H.
  - unfold floor. rewrite sub_spec, mul_spec, H. simpl SF64mul.
    by destruct (Prim2SF (double x)).
Qed.

(** ** Typed arrays *)

Lemma lookupZ_Some (a : list Z) i v :
  lookupZ a i = Some v → 0 ≤ i < lengthZ a.
Proof.
  unfold lookupZ, lengthZ. case_bool_decide; [|done].
  intros Hv%lookup_lt_Some. lia.
Qed.

Lemma lookupZ_is_Some (a : list Z) i :
  0 ≤ i < lengthZ a → is_Some (lookupZ a i).
Proof.
  unfold lookupZ, lengthZ. intros H. rewrite bool_decide_true by lia.
  apply lookup_lt_is_Some. lia.
Qed.

Lemma lookupZ_None (a : list Z) i :
  i < 0 ∨ lengthZ a ≤ i → lookupZ a i = None.
Proof.
  unfold lookupZ, lengthZ. intros H. case_bool_decide; [|done].
  apply lookup_ge_None. lia.
Qed.

Lemma lengthZ_insertZ i v (a : list Z) : lengthZ (insertZ i v a) = lengthZ a.
Proof.
  unfold lengthZ, insertZ. case_bool_decide; [|done]. by rewrite length_insert.
Qed.

Lemma lookupZ_insertZ_eq i v (a : list Z) :
  0 ≤ i < lengthZ a → lookupZ (insertZ i v a) i = Some v.
Proof.
  unfold lookupZ, insertZ, lengthZ. intros H.
  rewrite !bool_decide_true by lia. apply list_lookup_insert_eq. lia.
Qed.

Lemma lookupZ_insertZ_ne i j v (a : list Z) :
  i ≠ j → lookupZ (insertZ i v a) j = lookupZ a j.
Proof.
  unfold lookupZ, insertZ. intros H.
  case_bool_decide; [|done]. case_bool_decide; [|done].
  apply list_lookup_insert_ne. lia.
Qed.

Lemma lookupZ_seqZ n i : 0 ≤ i < n → lookupZ (seqZ 0 n) i = Some i.
Proof.
  intros H. unfold lookupZ. rewrite bool_decide_true by lia.
  rewrite lookup_seqZ. split; lia.
Qed.

Lemma lengthZ_seqZ n : 0 ≤ n → lengthZ (seqZ 0 n) = n.
Proof. intros H. unfold lengthZ. rewrite length_seqZ. lia. Qed.

(** ** The link forest *)

Lemma follows_descends link i n j :
  forest link → follows link i n j → j + Z.of_nat n ≤ i.
Proof.
  intros Hf. induction 1 as [i|i v n j Hv Hne _ IH]; [lia|].
  apply Hf in Hv. lia.
Qed.

Lemma yields_loadLink link i bound :
  0 ≤ i < lengthZ link → i ≤ bound →
  yields (load Link link i) (λ o, o = lookupZ link i ∧ is_Some o)
    (linkLoad link bound).
Proof.
  intros Hi Hb. destruct (lookupZ_is_Some link i Hi) as [v Hv].
  apply yields_load; [by rewrite Hv|].
  unfold linkLoad; simpl. rewrite Hv. repeat split; eauto; lia.
Qed.

(** With more fuel than the index it starts from, the walk of [findRoot]
    ends on a root at or left of its start, and reads the link buffer only
    between that root and its start. *)
Lemma findRoot_spec link fuel i :
  forest link → 0 ≤ i < lengthZ link → (Z.to_nat i < fuel)%nat →
  yields (findRoot fuel link (Some i))
    (λ r, ∃ r', r = Some r' ∧ lookupZ link r' = Some r'
                ∧ ∃ n, follows link i n r')
    (linkLoad link i).
Proof.
  intros Hf. revert i. induction fuel as [|fuel IH]; intros i Hi Hfuel; [lia|].
  cbn [findRoot loadAt].
  eapply yields_bind; [by apply (yields_loadLink link i i); [|lia]|].
  intros ? [-> [v Hv]]. rewrite Hv. case_bool_decide as Hne.
  - eapply yields_bind; [by apply (yields_loadLink link i i); [|lia]|].
    intros ? [-> _]. rewrite Hv.
    pose proof (Hf _ _ Hv) as Hle.
    assert (v ≠ i) by congruence.
    assert (Hv_in : 0 ≤ v < lengthZ link) by lia.
    eapply yields_weaken; [apply (IH v Hv_in); lia| |].
    + intros r (r' & -> & Hr & n & Hn). exists r'. split; [done|].
      split; [done|]. exists (S n). by apply follows_step with v.
    + intros e (? & ? & ? & ? & ?). unfold linkLoad. repeat split; eauto; lia.
  - apply yields_ret. exists i.
    assert (v = i) as -> by (destruct (decide (v = i)); [done|congruence]).
    split; [done|]. split; [done|]. exists O. constructor.
Qed.

(** More fuel does not change the result of a walk that ended. *)
Lemma findRoot_fuel link fuel fuel' i r t :
  findRoot fuel link i = Some (r, t) → (fuel ≤ fuel')%nat →
  findRoot fuel' link i = Some (r, t).
Proof.
  revert fuel' i t. induction fuel as [|fuel IH]; intros fuel' i t; [done|].
  destruct fuel' as [|fuel']; [lia|]. intros H Hle. cbn [findRoot] in *.
  apply bind_Some in H as (v & t1 & t2 & -> & H & ->).
  unfold bind at 1. case_bool_decide.
  - apply bind_Some in H as (v' & t3 & t4 & -> & H & ->).
    unfold bind at 1. rewrite (IH fuel' v' t4 H) by lia. done.
  - by rewrite H.
Qed.

(** In a row of any width the walk of [findRoot] ends: on a root at or
    left of its start, or on [undefined], after a cell that holds a
    negative integer. *)
Lemma findRoot_wrapped link fuel i :
  wrappedForest link → (2 ≤ fuel)%nat → (0 ≤ i → (Z.to_nat i + 3 ≤ fuel)%nat) →
  yields (findRoot fuel link (Some i))
    (λ r, r = None ∨ ∃ r', r = Some r' ∧ lookupZ link r' = Some r' ∧ r' ≤ i)
    (λ _, True).
Proof.
  intros Hf. revert i. induction fuel as [|fuel IH]; intros i H2 Hfuel; [lia|].
  cbn [findRoot loadAt]. eapply yields_bind; [by apply yields_load_eq|].
  intros ? ->. destruct (lookupZ link i) as [v|] eqn:Hv.
  - case_bool_decide as Hne.
    + eapply yields_bind; [by apply yields_load_eq|].
      intros ? ->. rewrite Hv.
      destruct (Hf _ _ Hv) as [_ [->|[Hlt _]]]; [done|].
      pose proof (lookupZ_Some _ _ _ Hv) as Hi.
      eapply yields_weaken; [apply (IH v); lia| |done].
      intros r [->|(r' & -> & Hr & Hle)]; [by left|right].
      exists r'. split; [done|]. split; [done|lia].
    + apply yields_ret. right. exists i.
      assert (v = i) as -> by (destruct (decide (v = i)); [done|congruence]).
      done.
  - rewrite bool_decide_true by done.
    eapply yields_bind; [by apply yields_load_eq|].
    intros ? ->. rewrite Hv.
    destruct fuel as [|fuel]; [lia|]. cbn [findRoot loadAt].
    rewrite bind_ret_l. rewrite bool_decide_false by (by intros []).
    apply yields_ret. by left.
Qed.

(** ** The link loop *)

Lemma lookupZ_insertZ_Some i v (a : list Z) j u :
  lookupZ (insertZ i v a) j = Some u →
  (j = i ∧ u = v) ∨ lookupZ a j = Some u.
Proof.
  intros H. destruct (decide (i = j)) as [->|Hne].
  - left. pose proof (lookupZ_Some _ _ _ H) as Hj.
    rewrite lengthZ_insertZ in Hj.
    rewrite lookupZ_insertZ_eq in H by done. by injection H as ->.
  - right. by rewrite lookupZ_insertZ_ne in H.
Qed.

Lemma forest_insertZ link i v :
  forest link → 0 ≤ v ≤ i → forest (insertZ i v link).
Proof.
  intros Hf Hv j u [[-> ->]|H]%lookupZ_insertZ_Some; [done|]. by apply Hf.
Qed.

Lemma forest_seqZ n : forest (seqZ 0 n).
Proof.
  intros i v H. pose proof (lookupZ_Some _ _ _ H) as Hi.
  destruct (decide (0 ≤ n)) as [Hn|Hn].
  - rewrite lengthZ_seqZ in Hi by done.
    rewrite lookupZ_seqZ in H by done. injection H as <-. lia.
  - unfold lengthZ in Hi. rewrite length_seqZ in Hi. lia.
Qed.

Lemma to_int32_small z : - 2 ^ 31 ≤ z < 2 ^ 31 → Int32.to_int32 z = z.
Proof. intros H. unfold Int32.to_int32. rewrite Z.mod_small; lia. Qed.

Lemma to_int32_range z : - 2 ^ 31 ≤ Int32.to_int32 z < 2 ^ 31.
Proof.
  unfold Int32.to_int32.
  pose proof (Z.mod_pos_bound (z + 2 ^ 31) (2 ^ 32)). lia.
Qed.

(** The conversion to 32 bits keeps the integer modulo 2^32, and so modulo
    2^30. *)
Lemma to_int32_mod z : Int32.to_int32 z mod 2 ^ 30 = z mod 2 ^ 30.
Proof.
  unfold Int32.to_int32.
  pose proof (Z.div_mod (z + 2 ^ 31) (2 ^ 32)) as H.
  replace ((z + 2 ^ 31) `mod` 2 ^ 32 - 2 ^ 31)
    with (z + (-4 * ((z + 2 ^ 31) `div` 2 ^ 32)) * 2 ^ 30) by lia.
  apply Z_mod_plus_full.
Qed.

Lemma wrappedForest_insertZ link i v :
  wrappedForest link → 0 ≤ v < i → v < 2 ^ 31 →
  wrappedForest (insertZ i v link).
Proof.
  intros Hf Hv Hv' j u [[-> ->]|H]%lookupZ_insertZ_Some; [|by apply Hf].
  split; [lia|]. right. split; [lia|]. exists v. split; [lia|done].
Qed.

(** The links the reset loop leaves: each cell holds its index, reduced to
    32 bits. *)
Lemma resetLinks_values width link0 :
  lengthZ link0 = width →
  yields (resetLinks width link0)
    (λ l, lengthZ l = width
          ∧ ∀ i, 0 ≤ i < width → lookupZ l i = Some (Int32.to_int32 i))
    (λ e, acc_mode e = Store ∧ acc_buf e = Link ∧ 0 ≤ acc_idx e < width
          ∧ acc_len e = width ∧ acc_val e = Some (Int32.to_int32 (acc_idx e))).
Proof.
  intros Hlen. unfold resetLinks.
  assert (Hw : Z.max 0 width = width) by (unfold lengthZ in Hlen; lia).
  eapply yields_weaken;
    [apply (yields_forRange
              (λ k l, lengthZ l = width
                      ∧ ∀ i, 0 ≤ i < k → lookupZ l i = Some (Int32.to_int32 i))
              (λ e, acc_mode e = Store ∧ acc_buf e = Link ∧ 0 ≤ acc_idx e < width
                    ∧ acc_len e = width
                    ∧ acc_val e = Some (Int32.to_int32 (acc_idx e))))| |done].
  - split; [done|]. intros i Hi. lia.
  - intros x l Hx (Hl & Hpre). apply yields_store.
    + split; [by rewrite lengthZ_insertZ|].
      intros i Hi. destruct (decide (x = i)) as [->|Hne].
      * apply lookupZ_insertZ_eq. lia.
      * rewrite lookupZ_insertZ_ne by done. apply Hpre. lia.
    + simpl. repeat split; try done; lia.
  - intros l. by rewrite Hw.
Qed.

Lemma wrappedForest_reset width l :
  lengthZ l = width →
  (∀ i, 0 ≤ i < width → lookupZ l i = Some (Int32.to_int32 i)) →
  wrappedForest l.
Proof.
  intros Hlen Hl i v Hv. pose proof (lookupZ_Some _ _ _ Hv) as Hi.
  rewrite Hl in Hv by lia. injection Hv as <-.
  split; [apply to_int32_range|].
  destruct (decide (i < 2 ^ 31)) as [Hlt|Hge].
  - left. apply to_int32_small. lia.
  - right. pose proof (to_int32_range i). split; [lia|].
    exists (i - 2 ^ 30). split; [lia|]. rewrite to_int32_mod.
    replace (i - 2 ^ 30) with (i + (-1) * 2 ^ 30) by lia.
    apply Z_mod_plus_full.
Qed.

(** The two ends of a link: the left end is at or left of the column and
    the right end at or right of it, so that two ends that differ are
    apart. *)
Lemma ends_apart (x : Z) (sep : float) :
  0 ≤ x < 2 ^ 53 → (sep <? 2)%float = false →
  match floor (double x - sep * 0.5) with
  | Integer l => l ≤ x
  | Infinite s => s = true
  | NotANumber => True
  end
  ∧ match floor (double x + sep * 0.5) with
    | Integer r => x ≤ r
    | Infinite s => s = false
    | NotANumber => True
    end.
Proof.
  intros Hx Hsep. pose proof (half_nonnegative sep Hsep).
  split; [by apply floor_sub|by apply floor_add].
Qed.

(** What one iteration of the link loop does: nothing to the buffer, or a
    walk from a left end [l] and a store of its result at a right end [r],
    with [0 <= l <= x <= r < width] and [l < r]. *)
Lemma linkColumn_cases depth width eyeSep obsDist rowOff x link :
  0 ≤ x < width → width < 2 ^ 53 →
  ∃ ht, ht = Access Load Depth (rowOff + x) (lengthZ depth)
               (lookupZ depth (rowOff + x))
  ∧ (linkColumn depth width eyeSep obsDist rowOff x link = Some (link, [ht])
     ∨ ∃ l r,
         0 ≤ l ≤ x ∧ x ≤ r < width ∧ l < r
         ∧ linkColumn depth width eyeSep obsDist rowOff x link
           = bind (bind (Some (link, [ht]))
                     (λ _, findRoot (S (length link)) link (Some l)))
               (λ rootLeft, store Link link r (toInt32 rootLeft))).
Proof.
  intros Hx Hw. eexists. split; [done|].
  remember (linkColumn depth width eyeSep obsDist rowOff x link) as c eqn:Ec.
  unfold linkColumn, load in Ec. unfold bind at 1 in Ec.
  cbv beta iota zeta in Ec.
  set (sep := separation _ _ _) in Ec.
  destruct (sep <? 2)%float eqn:Hsep; [by left|].
  destruct (ends_apart x sep) as [Hl Hr]; [lia|done|].
  destruct (floor (double x - sep * 0.5)) as [|sl|l],
    (floor (double x + sep * 0.5)) as [|sr|r]; try subst sl; try subst sr;
    cbn [geZero below negb andb] in Ec; rewrite ?andb_false_r in Ec;
    cbn [andb] in Ec; try (by left).
  simpl differs in Ec.
  destruct (bool_decide (0 ≤ l) && bool_decide (r < width)
            && bool_decide (Integer l ≠ Integer r)) eqn:Hc; [|by left].
  apply andb_prop in Hc as [Hc Hc3]. apply andb_prop in Hc as [Hc1 Hc2].
  apply bool_decide_eq_true in Hc1, Hc2, Hc3.
  right. exists l, r. assert (l ≠ r) by congruence.
  split; [lia|]. split; [lia|]. split; [lia|].
  rewrite Ec. unfold bind, store. by destruct (findRoot _ _ _) as [[ρ t]|].
Qed.

Section LinkLoop.

Variable depth : list Z.
Variable width : Z.
Variables eyeSep obsDist : float.
Variable rowOff : Z.

(** In a row of at most 2^31 columns the reset loop leaves the identity
    links, whatever the buffer held. *)
Lemma resetLinks_spec link0 :
  width ≤ 2 ^ 31 → lengthZ link0 = width →
  yields (resetLinks width link0) (λ l, l = seqZ 0 width) (resetAccess width).
Proof.
  intros Hw31 Hlen.
  eapply yields_weaken; [by apply resetLinks_values| |].
  - intros l (Hl & Hpre). apply list_eq. intros n.
    assert (Hw : 0 ≤ width) by (unfold lengthZ in Hlen; lia).
    destruct (decide (Z.of_nat n < width)) as [Hn|Hn].
    + specialize (Hpre (Z.of_nat n)). unfold lookupZ in Hpre.
      rewrite bool_decide_true, Nat2Z.id in Hpre by lia.
      rewrite Hpre by lia. rewrite to_int32_small by lia.
      symmetry. apply lookup_seqZ. lia.
    + rewrite !lookup_ge_None_2; [done| |].
      * rewrite length_seqZ. lia.
      * unfold lengthZ in Hl. lia.
  - intros e (? & ? & ? & ? & Hv). unfold resetAccess.
    rewrite to_int32_small in Hv by lia. done.
Qed.

(** The reset loop, in a row of any width. *)
Lemma resetLinks_wrapped link0 :
  lengthZ link0 = width →
  yields (resetLinks width link0) (λ l, lengthZ l = width ∧ wrappedForest l)
    (λ _, True).
Proof.
  intros Hlen.
  eapply yields_weaken; [by apply resetLinks_values| |done].
  intros l [Hl Hpre]. split; [done|]. by apply (wrappedForest_reset width).
Qed.

(** One iteration of the link loop keeps the forest. *)
Lemma linkColumn_spec x link :
  width ≤ 2 ^ 31 →
  0 ≤ x < width → lengthZ link = width → forest link →
  yields (linkColumn depth width eyeSep obsDist rowOff x link)
    (λ l, lengthZ l = width ∧ forest l)
    (linkAccess depth width rowOff).
Proof.
  intros Hw31 Hx Hlen Hf.
  assert (Hht : linkAccess depth width rowOff
                  (Access Load Depth (rowOff + x) (lengthZ depth)
                     (lookupZ depth (rowOff + x)))).
  { unfold linkAccess; simpl. repeat split; try done; lia. }
  destruct (linkColumn_cases depth width eyeSep obsDist rowOff x link)
    as (ht & -> & [E|(l & r & Hl & Hr & Hlr & E)]); [done|lia| |]; rewrite E.
  { eexists _, _. split; [done|]. split; [done|]. by constructor. }
  eapply yields_bind.
  { eapply yields_bind.
    - eexists _, _. split; [done|]. split; [exact I|]. by constructor.
    - intros _ _. eapply yields_weaken; [apply findRoot_spec; [done| |]| |].
      + lia.
      + unfold lengthZ in Hlen. lia.
      + intros ρ Hρ. exact Hρ.
      + intros e (? & ? & ? & ? & ?). unfold linkAccess.
        rewrite H, H0. repeat split; try done; lia. }
  intros ? (root & -> & Hroot & n & Hn).
  pose proof (follows_descends _ _ _ _ Hf Hn) as Hd.
  pose proof (Hf _ _ Hroot) as Hr0.
  simpl toInt32. rewrite to_int32_small by lia.
  apply yields_store.
  - split; [by rewrite lengthZ_insertZ|]. apply forest_insertZ; [done|lia].
  - unfold linkAccess; simpl_access. split; [lia|]. split; [done|].
    exists root. split; [done|lia].
Qed.

(** One iteration of the link loop, in a row of any width. *)
Lemma linkColumn_wrapped x link :
  width < 2 ^ 53 →
  0 ≤ x < width → lengthZ link = width → wrappedForest link →
  yields (linkColumn depth width eyeSep obsDist rowOff x link)
    (λ l, lengthZ l = width ∧ wrappedForest l)
    (λ _, True).
Proof.
  intros Hw53 Hx Hlen Hf.
  destruct (linkColumn_cases depth width eyeSep obsDist rowOff x link)
    as (ht & -> & [E|(l & r & Hl & Hr & Hlr & E)]); [done|lia| |]; rewrite E.
  { eexists _, _. split; [done|]. split; [done|]. by constructor. }
  eapply yields_bind.
  { eapply yields_bind.
    - eexists _, _. split; [done|]. split; [exact I|]. by constructor.
    - intros _ _. apply findRoot_wrapped; [done| |];
        unfold lengthZ in Hlen; lia. }
  intros ? [->|(root & -> & Hroot & Hle)].
  - apply yields_store; [|done]. split; [by rewrite lengthZ_insertZ|].
    simpl toInt32. apply wrappedForest_insertZ; [done|lia|lia].
  - apply yields_store; [|done]. split; [by rewrite lengthZ_insertZ|].
    simpl toInt32. destruct (Hf _ _ Hroot) as [Hrange _].
    pose proof (lookupZ_Some _ _ _ Hroot).
    rewrite to_int32_small by done.
    apply wrappedForest_insertZ; [done|lia|lia].
Qed.

(** After [k] iterations of the link loop on the identity links the
    buffer is a forest. *)
Lemma buildLinks_prefix link k :
  width ≤ 2 ^ 31 →
  lengthZ link = width → forest link → k ≤ width →
  yields (forRange k (linkColumn depth width eyeSep obsDist rowOff) link)
    (λ l, lengthZ l = width ∧ forest l)
    (linkAccess depth width rowOff).
Proof.
  intros Hw31 Hlen Hf Hk.
  eapply yields_weaken;
    [apply (yields_forRange (λ _ l, lengthZ l = width ∧ forest l)
              (linkAccess depth width rowOff))| |done].
  - done.
  - intros x l Hx [Hl Hfl]. apply linkColumn_spec; [done|lia|done|done].
  - done.
Qed.

Lemma buildLinks_spec link :
  width ≤ 2 ^ 31 →
  lengthZ link = width → forest link →
  yields (buildLinks depth width eyeSep obsDist rowOff link)
    (λ l, lengthZ l = width ∧ forest l)
    (linkAccess depth width rowOff).
Proof. intros Hw31 Hlen Hf. apply buildLinks_prefix; [done|done|done|lia]. Qed.

Lemma buildLinks_wrapped link :
  width < 2 ^ 53 →
  lengthZ link = width → wrappedForest link →
  yields (buildLinks depth width eyeSep obsDist rowOff link)
    (λ l, lengthZ l = width ∧ wrappedForest l)
    (λ _, True).
Proof.
  intros Hw53 Hlen Hf. unfold buildLinks.
  eapply yields_weaken;
    [apply (yields_forRange (λ _ l, lengthZ l = width ∧ wrappedForest l)
              (λ _, True))| |done].
  - done.
  - intros x l Hx [Hl Hfl]. by apply linkColumn_wrapped.
  - done.
Qed.

End LinkLoop.

(** ** 32-bit offsets *)

Lemma shl_range a n : - 2 ^ 31 ≤ Int32.shl a n < 2 ^ 31.
Proof. apply to_int32_range. Qed.

(** Below 2^29 pixels the byte offset of a pixel does not wrap. *)
Lemma shl_2_small p : 0 ≤ p < 2 ^ 29 → Int32.shl p 2 = 4 * p.
Proof.
  intros H. unfold Int32.shl. rewrite (to_int32_small p) by lia.
  change (2 mod 32) with 2. rewrite Z.shiftl_mul_pow2 by lia.
  rewrite to_int32_small; lia.
Qed.

(** The byte offset of a pixel depends on its index modulo 2^30 only. *)
Lemma shl_2_mod a b : a mod 2 ^ 30 = b mod 2 ^ 30 → Int32.shl a 2 = Int32.shl b 2.
Proof.
  intros H. unfold Int32.shl. change (2 mod 32) with 2.
  rewrite !Z.shiftl_mul_pow2 by lia. unfold Int32.to_int32 at 1 3.
  f_equal. 
  assert (Hmod : ∀ z, (Int32.to_int32 z * 2 ^ 2 + 2 ^ 31) mod 2 ^ 32
                      = (4 * (z mod 2 ^ 30) + 2 ^ 31) mod 2 ^ 32).
  { intros z. pose proof (to_int32_mod z) as Hz.
    rewrite (Z.div_mod (Int32.to_int32 z) (2 ^ 30)) at 1 by lia. rewrite Hz.
    replace ((2 ^ 30 * (Int32.to_int32 z `div` 2 ^ 30) + z mod 2 ^ 30) * 2 ^ 2
             + 2 ^ 31)
      with (4 * (z mod 2 ^ 30) + 2 ^ 31
            + (Int32.to_int32 z `div` 2 ^ 30) * 2 ^ 32) by lia.
    apply Z_mod_plus_full. }
  by rewrite !Hmod, H.
Qed.

(** In a row of at most 2^31 columns the indices stored into the link
    buffer are left as they are by the conversion of an [Int32Array]. *)
Lemma link_stores_int32 depth width rowOff e :
  width ≤ 2 ^ 31 → linkPhaseAccess depth width rowOff e →
  acc_buf e = Link → acc_mode e = Store →
  ∃ v, acc_val e = Some v ∧ Int32.to_int32 v = v.
Proof.
  intros Hw [He|He] Hb Hm.
  - destruct He as (_ & _ & Hi & _ & Hv). exists (acc_idx e).
    split; [done|]. apply to_int32_small. lia.
  - unfold linkAccess in He. rewrite Hb, Hm in He.
    destruct He as (Hi & _ & v & Hv & Hlt). exists v.
    split; [done|]. apply to_int32_small. lia.
Qed.

(** ** The random stream *)

Lemma ushr_0_range a : 0 ≤ Int32.ushr a 0 < 2 ^ 32.
Proof.
  unfold Int32.ushr, Int32.to_uint32. change (0 mod 32) with 0.
  rewrite Z.shiftr_0_r. apply Z.mod_pos_bound. lia.
Qed.

(** Every draw lies in [0, 1). *)
Lemma random_range state : (0 <= fst (random state) < 1)%Q.
Proof.
  unfold random. cbn [fst].
  match goal with |- context [Int32.ushr ?a 0] =>
    match a with
    | Int32.xor _ _ => pose proof (ushr_0_range a) as H; set (u := Int32.ushr a 0) in *
    end
  end.
  split.
  - apply Qle_shift_div_l; [done|]. rewrite Qmult_0_l.
    change 0%Q with (inject_Z 0). rewrite <- Zle_Qle. lia.
  - apply Qlt_shift_div_r; [done|]. rewrite Qmult_1_l.
    change 4294967296%Q with (inject_Z (2 ^ 32)). rewrite <- Zlt_Qlt. lia.
Qed.

(** Every draw scaled to a byte is an integer from 0 to 255. *)
Lemma random_byte state : 0 ≤ Qfloor (fst (random state) * 256) ≤ 255.
Proof.
  destruct (random_range state) as [H0 H1].
  set (r := fst (random state)) in *. split.
  - change (Qfloor 0 ≤ Qfloor (r * 256)). apply Qfloor_resp_le. lra.
  - assert (H : Qfloor (r * 256) < 256); [|lia].
    rewrite Zlt_Qlt. eapply Qle_lt_trans; [apply Qfloor_le|].
    change (inject_Z 256) with 256%Q. lra.
Qed.

(** ** The colour loop *)

Lemma rootsBefore_succ link x :
  0 ≤ x →
  rootsBefore link (x + 1)
  = (rootsBefore link x + (if decide (lookupZ link x = Some x) then 1 else 0))%nat.
Proof.
  intros Hx. unfold rootsBefore. rewrite (seqZ_app 0 x 1) by lia.
  rewrite list.filter_app, length_app. f_equal.
  change (seqZ (0 + x) 1) with [0 + x]. rewrite Z.add_0_l.
  rewrite list.filter_cons, list.filter_nil. by destruct (decide _).
Qed.

Lemma advance_succ n state : advance (S n) state = snd (random (advance n state)).
Proof. done. Qed.

Lemma advance_add n m state : advance (n + m) state = advance n (advance m state).
Proof. unfold advance. apply Nat.iter_add. Qed.

Lemma gray_range state : 0 ≤ gray state ≤ 255.
Proof. unfold gray, toUint8Clamp. pose proof (random_byte state). lia. Qed.

Lemma gray_eq state : gray state = Qfloor (fst (random state) * 256).
Proof. unfold gray, toUint8Clamp. pose proof (random_byte state). lia. Qed.

Lemma toUint8Clamp_byte v : 0 ≤ v ≤ 255 → toUint8Clamp (Some v) = v.
Proof. unfold toUint8Clamp. lia. Qed.

Lemma toUint8Clamp_range v : 0 ≤ toUint8Clamp v ≤ 255.
Proof. unfold toUint8Clamp. destruct v; lia. Qed.

Lemma rootOf_root link x : lookupZ link x = Some x → rootOf link x = x.
Proof.
  intros H. unfold rootOf. simpl. unfold load, bind. rewrite H. simpl.
  by rewrite bool_decide_false by tauto.
Qed.

Lemma rootOf_step link x v :
  forest link → lookupZ link x = Some v → v ≠ x → rootOf link x = rootOf link v.
Proof.
  intros Hf Hv Hne. pose proof (Hf _ _ Hv) as Hle.
  pose proof (lookupZ_Some _ _ _ Hv) as Hx. unfold lengthZ in Hx.
  destruct (findRoot_spec link (length link) v Hf) as (? & t & E & (r & -> & _) & _);
    [unfold lengthZ; lia|lia|].
  unfold rootOf. rewrite (findRoot_fuel _ _ (S (length link)) _ _ _ E) by lia.
  change (findRoot (S (length link)) link (Some x)) with
    (bind (load Link link x) (λ v, if bool_decide (v ≠ Some x)
       then bind (load Link link x) (λ i', findRoot (length link) link i')
       else ret (Some x))).
  unfold load, bind. rewrite Hv.
  rewrite bool_decide_true by congruence. by rewrite E.
Qed.

Lemma rootOf_spec link x :
  forest link → 0 ≤ x < lengthZ link →
  lookupZ link (rootOf link x) = Some (rootOf link x)
  ∧ 0 ≤ rootOf link x ≤ x
  ∧ ∃ n, follows link x n (rootOf link x).
Proof.
  intros Hf Hx.
  destruct (findRoot_spec link (S (length link)) x Hf Hx)
    as (? & t & E & (r & -> & Hr & n & Hn) & _).
  { unfold lengthZ in Hx. lia. }
  unfold rootOf. rewrite E. split; [done|].
  pose proof (follows_descends _ _ _ _ Hf Hn). pose proof (Hf _ _ Hr).
  split; [lia|]. by exists n.
Qed.

(** The four cells of a pixel after the four stores that write it. *)
Lemma lookupZ_pixel (a : list Z) i r g b al j :
  0 ≤ i → i + 3 < lengthZ a →
  lookupZ (insertZ (i + 3) al (insertZ (i + 2) b (insertZ (i + 1) g (insertZ i r a)))) j
  = if decide (j = i) then Some r
    else if decide (j = i + 1) then Some g
    else if decide (j = i + 2) then Some b
    else if decide (j = i + 3) then Some al
    else lookupZ a j.
Proof.
  intros H0 H3.
  repeat case_decide; subst;
    repeat first
      [ rewrite lookupZ_insertZ_eq by (rewrite ?lengthZ_insertZ; lia)
      | rewrite lookupZ_insertZ_ne by lia ];
    done.
Qed.

Section ColorLoop.

Variables width rowOff : Z.
Variable link : list Z.
Variable data0 : list Z.
Variable state0 : Z.

Hypothesis Hlen : lengthZ link = width.
Hypothesis Hforest : forest link.
Hypothesis Hoff : 0 ≤ rowOff.
Hypothesis Hfit : rowOff + width ≤ 2 ^ 29.
Hypothesis Hdata : 4 * (rowOff + width) ≤ lengthZ data0.

Lemma rowInv_0 : rowInv rowOff link data0 state0 0 (data0, state0).
Proof.
  unfold rowInv; cbn [fst snd]. split; [done|]. split; [done|].
  split; [intros; lia|]. split; [intros; lia|]. done.
Qed.

Lemma colorColumn_spec x s :
  0 ≤ x < width → rowInv rowOff link data0 state0 x s →
  yields (colorColumn rowOff link x s) (rowInv rowOff link data0 state0 (x + 1))
    (colorAccess width rowOff (lengthZ data0)).
Proof.
  intros Hx. destruct s as [data st]. intros (Hl & Hst & Hrgb & Ha & Hrest).
  cbn [fst snd] in *.
  assert (Hi : Int32.shl (rowOff + x) 2 = 4 * (rowOff + x)) by (apply shl_2_small; lia).
  unfold colorColumn. rewrite Hi.
  eapply yields_bind.
  { eapply yields_weaken; [apply (yields_loadLink link x x); lia| |].
    - intros v Hv. exact Hv.
    - intros e (Hm & Hb & ? & ? & ?). unfold colorAccess. rewrite Hm, Hb.
      split; [lia|]. split; [lia|done]. }
  intros ? [-> [lx Hlx]]. rewrite Hlx. case_bool_decide as Hroot.
  - (* a root: a fresh gray level *)
    injection Hroot as ->. destruct (random st) as [r st'] eqn:Er.
    assert (Hv : toUint8Clamp (Some (Qfloor (r * 256))) = gray st).
    { unfold gray. by rewrite Er. }
    rewrite Hv. pose proof (gray_range st) as Hg.
    repeat (eapply yields_bind;
      [apply yields_store_eq; unfold colorAccess; simpl_access;
       rewrite ?lengthZ_insertZ;
       (split; [lia|]); (split; [done|]); eexists; (split; [done|]);
       first [exact Hg | done]
      |intros ? ->]).
    apply yields_ret. unfold rowInv; cbn [fst snd].
    assert (Hcol : colorOf link state0 x = gray st).
    { unfold colorOf. rewrite rootOf_root by done. by rewrite Hst. }
    split; [by rewrite !lengthZ_insertZ|].
    split.
    { rewrite rootsBefore_succ by lia. rewrite decide_True by done.
      rewrite Nat.add_1_r, advance_succ, <- Hst, Er. done. }
    split; [|split].
    + intros x' c Hx' Hc. rewrite lookupZ_pixel by lia.
      destruct (decide (x' = x)) as [->|Hne].
      * rewrite Hcol. repeat case_decide; try done; lia.
      * repeat case_decide; try lia. apply Hrgb; lia.
    + intros x' Hx'. rewrite lookupZ_pixel by lia.
      destruct (decide (x' = x)) as [->|Hne].
      * repeat case_decide; try done; lia.
      * repeat case_decide; try lia. apply Ha; lia.
    + intros i Hi'. rewrite lookupZ_pixel by lia.
      repeat case_decide; try lia. apply Hrest. lia.
  - (* not a root: the gray level of the column it links to *)
    pose proof (Hforest _ _ Hlx) as Hle.
    assert (Hlx_ne : lx ≠ x) by congruence.
    assert (Hlt : 0 ≤ lx < x) by lia.
    assert (Hs : Int32.shl (rowOff + lx) 2 = 4 * (rowOff + lx)) by (apply shl_2_small; lia).
    pose proof (gray_range (advance (rootsBefore link (rootOf link lx)) state0)) as Hg.
    assert (Hsrc : ∀ c, 0 ≤ c < 3 →
      lookupZ data (4 * (rowOff + lx) + c) = Some (colorOf link state0 lx)).
    { intros c Hc. apply Hrgb; lia. }
    pose proof (Hsrc 0) as Hs0. rewrite Z.add_0_r in Hs0.
    eapply yields_bind.
    { eapply yields_weaken; [apply (yields_loadLink link x x); lia| |].
      - intros v Hv. exact Hv.
      - intros e (Hm & Hb & ? & ? & ?). unfold colorAccess. rewrite Hm, Hb.
        split; [lia|]. split; [lia|done]. }
    intros ? [-> _]. rewrite Hlx. cbn [sourceOffset]. rewrite Hs.
    eapply yields_bind.
    { apply yields_load_eq. unfold colorAccess; simpl_access.
      rewrite Hs0 by lia. split; [lia|]. split; [done|]. by eexists. }
    intros ? ->. rewrite Hs0 by lia.
    eapply yields_bind.
    { apply yields_store_eq. unfold colorAccess; simpl_access.
      split; [lia|]. split; [done|]. eexists. split; [done|].
      apply toUint8Clamp_range. }
    intros ? ->.
    eapply yields_bind.
    { apply yields_load_eq. unfold colorAccess; simpl_access.
      rewrite lengthZ_insertZ, lookupZ_insertZ_ne, Hsrc by lia.
      split; [lia|]. split; [done|]. by eexists. }
    intros ? ->. rewrite lookupZ_insertZ_ne, Hsrc by lia.
    eapply yields_bind.
    { apply yields_store_eq. unfold colorAccess; simpl_access.
      rewrite !lengthZ_insertZ.
      split; [lia|]. split; [done|]. eexists. split; [done|].
      apply toUint8Clamp_range. }
    intros ? ->.
    eapply yields_bind.
    { apply yields_load_eq. unfold colorAccess; simpl_access.
      rewrite !lengthZ_insertZ, !lookupZ_insertZ_ne, Hsrc by lia.
      split; [lia|]. split; [done|]. by eexists. }
    intros ? ->. rewrite !lookupZ_insertZ_ne, Hsrc by lia.
    eapply yields_bind.
    { apply yields_store_eq. unfold colorAccess; simpl_access.
      rewrite !lengthZ_insertZ.
      split; [lia|]. split; [done|]. eexists. split; [done|].
      apply toUint8Clamp_range. }
    intros ? ->.
    eapply yields_bind.
    { apply yields_store_eq. unfold colorAccess; simpl_access.
      rewrite !lengthZ_insertZ.
      split; [lia|]. split; [done|]. eexists. split; [done|]. done. }
    intros ? ->.
    apply yields_ret. unfold rowInv; cbn [fst snd].
    assert (Hcol : colorOf link state0 x = colorOf link state0 lx).
    { unfold colorOf. by rewrite (rootOf_step link x lx). }
    rewrite (toUint8Clamp_byte (colorOf link state0 lx)) by exact Hg.
    split; [by rewrite !lengthZ_insertZ|].
    split.
    { rewrite rootsBefore_succ by lia. rewrite decide_False by congruence.
      by rewrite Nat.add_0_r. }
    split; [|split].
    + intros x' c Hx' Hc. rewrite lookupZ_pixel by lia.
      destruct (decide (x' = x)) as [->|Hne].
      * rewrite Hcol. repeat case_decide; try done; lia.
      * repeat case_decide; try lia. apply Hrgb; lia.
    + intros x' Hx'. rewrite lookupZ_pixel by lia.
      destruct (decide (x' = x)) as [->|Hne].
      * repeat case_decide; try done; lia.
      * repeat case_decide; try lia. apply Ha; lia.
    + intros i Hi'. rewrite lookupZ_pixel by lia.
      repeat case_decide; try lia. apply Hrest. lia.
Qed.

End ColorLoop.

Lemma colorRow_spec width rowOff link data0 state0 :
  lengthZ link = width → forest link → 0 ≤ rowOff →
  rowOff + width ≤ 2 ^ 29 → 4 * (rowOff + width) ≤ lengthZ data0 →
  yields (colorRow width rowOff link (data0, state0))
    (rowInv rowOff link data0 state0 width)
    (colorAccess width rowOff (lengthZ data0)).
Proof.
  intros Hlen Hf Hoff Hfit Hdata. unfold colorRow.
  assert (Hw : Z.max 0 width = width) by (unfold lengthZ in Hlen; lia).
  eapply yields_weaken;
    [apply (yields_forRange (rowInv rowOff link data0 state0)
              (colorAccess width rowOff (lengthZ data0)))| |done].
  - apply rowInv_0.
  - intros x s Hx Hinv. by apply colorColumn_spec.
  - intros s Hs. by rewrite Hw in Hs.
Qed.

(** ** The rows of the image *)

Lemma drawsBefore_succ depth width eyeSep obsDist y :
  0 ≤ y →
  drawsBefore depth width eyeSep obsDist (y + 1)
  = (drawsBefore depth width eyeSep obsDist y
     + rootsOfRow depth width eyeSep obsDist y)%nat.
Proof.
  intros Hy. unfold drawsBefore. rewrite (seqZ_app 0 y 1) by lia.
  rewrite sum_list_with_app.
  change (seqZ (0 + y) 1) with [0 + y]. rewrite Z.add_0_l. simpl. lia.
Qed.

Lemma lengthZ_replicate n (v : Z) : 0 ≤ n → lengthZ (replicate (Z.to_nat n) v) = n.
Proof. intros H. unfold lengthZ. rewrite length_replicate. lia. Qed.

(** The link phase of a row leaves [rowLinks], whatever the link buffer
    held before. *)
Lemma linkPhase_spec depth width eyeSep obsDist y link0 :
  width ≤ 2 ^ 31 → lengthZ link0 = width →
  yields (link <- resetLinks width link0 ;;
          buildLinks depth width eyeSep obsDist (y * width) link)
    (λ l, l = rowLinks depth width eyeSep obsDist y
          ∧ lengthZ l = width ∧ forest l)
    (linkPhaseAccess depth width (y * width)).
Proof.
  intros Hw31 Hlen.
  assert (Hw : 0 ≤ width) by (unfold lengthZ in Hlen; lia).
  assert (Hgen : ∀ l0, lengthZ l0 = width →
    yields (link <- resetLinks width l0 ;;
            buildLinks depth width eyeSep obsDist (y * width) link)
      (λ l, lengthZ l = width ∧ forest l)
      (linkPhaseAccess depth width (y * width))).
  { intros l0 Hl0. eapply yields_bind.
    - eapply yields_weaken; [by apply resetLinks_spec|intros l Hl; exact Hl|].
      intros e He. by left.
    - intros ? ->. eapply yields_weaken;
        [apply buildLinks_spec; [done|by apply lengthZ_seqZ|apply forest_seqZ]|done|].
      intros e He. by right. }
  destruct (Hgen link0 Hlen) as (l & t & E & [Hl Hf] & Ht).
  exists l, t. split; [done|]. split; [|done]. split; [|done].
  (* the result does not depend on the previous contents *)
  destruct (resetLinks_spec width link0 Hw31 Hlen) as (l1 & t1 & E1 & -> & _).
  destruct (resetLinks_spec width (replicate (Z.to_nat width) 0) Hw31
              (lengthZ_replicate _ _ Hw)) as (l2 & t2 & E2 & -> & _).
  unfold rowLinks. unfold bind in E |- *. rewrite E1 in E. rewrite E2.
  destruct (buildLinks _ _ _ _ _ _) as [[l' t']|]; [|done].
  by injection E as -> _.
Qed.

(** The link phase of a row, in a row of any width. *)
Lemma linkPhase_wrapped depth width eyeSep obsDist y link0 :
  width < 2 ^ 53 → lengthZ link0 = width →
  yields (link <- resetLinks width link0 ;;
          buildLinks depth width eyeSep obsDist (y * width) link)
    (λ l, lengthZ l = width ∧ wrappedForest l)
    (λ _, True).
Proof.
  intros Hw53 Hlen. eapply yields_bind; [by apply resetLinks_wrapped|].
  intros l [Hl Hf]. by apply buildLinks_wrapped.
Qed.

Section Image.

Variable depth : list Z.
Variables width height : Z.
Variable data0 : list Z.
Variable seed : Z.
Variables eyeSep obsDist : float.

Hypothesis Hwidth : 0 ≤ width.
Hypothesis Hfit : width * height ≤ 2 ^ 29.
Hypothesis Hdata : width * height * 4 ≤ lengthZ data0.

Lemma sirdsRow_spec y m :
  0 ≤ y < height → imageInv depth width data0 seed eyeSep obsDist y m →
  yields (sirdsRow depth width eyeSep obsDist y m) (imageInv depth width data0 seed eyeSep obsDist (y + 1))
    (λ e, ∃ y, 0 ≤ y < height ∧ rowAccess depth width data0 y e).
Proof.
  intros Hy (Hl & Hd & Hst & Hrgb & Ha & Hrest). unfold sirdsRow.
  assert (Hoff : 0 ≤ y * width) by nia.
  assert (Hfit' : y * width + width ≤ 2 ^ 29) by nia.
  assert (Hdata' : 4 * (y * width + width) ≤ lengthZ (m_data m)) by nia.
  assert (Hw31 : width ≤ 2 ^ 31) by nia.
  rewrite <- bind_assoc. eapply yields_bind.
  { eapply yields_weaken; [by apply linkPhase_spec|intros l Hl'; exact Hl'|].
    intros e He. exists y. split; [done|]. by left. }
  intros ? (-> & Hlen & Hf).
  set (l := rowLinks depth width eyeSep obsDist y) in *.
  eapply yields_bind.
  { eapply yields_weaken; [by apply colorRow_spec|intros s Hs; exact Hs|].
    intros e He. exists y. split; [done|]. right. by rewrite <- Hd. }
  intros [d s] (Hl' & Hs' & Hrgb' & Ha' & Hrest'). cbn [fst snd] in *.
  apply yields_ret. unfold imageInv; cbn [m_link m_data m_state].
  split; [done|]. split; [lia|]. split.
  { rewrite Hs', Hst, <- advance_add, drawsBefore_succ by lia.
    f_equal. unfold rootsOfRow. fold l. lia. }
  split; [|split].
  - intros y' x c Hy' Hx Hc. destruct (decide (y' = y)) as [->|Hne].
    + rewrite Hrgb' by done. unfold pixelOf. fold l. by rewrite Hst.
    + rewrite Hrest' by nia. apply Hrgb; lia.
  - intros y' x Hy' Hx. destruct (decide (y' = y)) as [->|Hne].
    + by apply Ha'.
    + rewrite Hrest' by nia. apply Ha; lia.
  - intros i Hi. rewrite Hrest' by nia. apply Hrest. nia.
Qed.

Lemma rows_spec :
  yields (forRange height (sirdsRow depth width eyeSep obsDist)
            (Machine (replicate (Z.to_nat width) 0) data0 (createSeededRandom seed)))
    (imageInv depth width data0 seed eyeSep obsDist (Z.max 0 height))
    (λ e, ∃ y, 0 ≤ y < height ∧ rowAccess depth width data0 y e).
Proof.
  apply (yields_forRange (imageInv depth width data0 seed eyeSep obsDist)).
  - unfold imageInv; cbn [m_link m_data m_state].
    split; [by apply lengthZ_replicate|]. split; [done|]. split; [done|].
    split; [intros; lia|]. split; [intros; lia|]. done.
  - intros y m Hy Hm. by apply sirdsRow_spec.
Qed.

End Image.

(** ** Termination, for every input *)

Lemma keeps_refl d : keeps d d.
Proof. by split. Qed.

Lemma keeps_trans d1 d2 d3 : keeps d1 d2 → keeps d2 d3 → keeps d1 d3.
Proof.
  intros [Hl1 H1] [Hl2 H2]. split; [congruence|].
  intros n Hn. rewrite H2, H1 by done. done.
Qed.

Lemma keeps_insertZ d d' i v : keeps d d' → i < 2 ^ 31 + 3 → keeps d (insertZ i v d').
Proof.
  intros [Hl H] Hi. split; [by rewrite lengthZ_insertZ|].
  intros n Hn. rewrite lookupZ_insertZ_ne by lia. by apply H.
Qed.

Lemma colorColumn_total rowOff link x s :
  0 ≤ x < lengthZ link →
  yields (colorColumn rowOff link x s) (λ s', keeps s.1 s'.1) (λ _, True).
Proof.
  intros Hx. destruct s as [d st]. cbn [fst]. unfold colorColumn.
  pose proof (shl_range (rowOff + x) 2) as Hi.
  eapply yields_bind; [by apply yields_load_eq|].
  intros ? ->. case_bool_decide as Hroot.
  - destruct (random st) as [r st'].
    repeat (eapply yields_bind; [by apply yields_store_eq|intros ? ->]).
    apply yields_ret. cbn [fst].
    repeat (apply keeps_insertZ; [|lia]). apply keeps_refl.
  - eapply yields_bind; [by apply yields_load_eq|].
    intros ? ->.
    repeat (eapply yields_bind;
      [first [by apply yields_store_eq | by apply yields_load_eq]|intros ? ->]).
    apply yields_ret. cbn [fst].
    repeat (apply keeps_insertZ; [|lia]). apply keeps_refl.
Qed.

Lemma colorRow_total width rowOff link s :
  lengthZ link = width →
  yields (colorRow width rowOff link s) (λ s', keeps s.1 s'.1) (λ _, True).
Proof.
  intros Hlen. unfold colorRow.
  eapply yields_weaken;
    [apply (yields_forRange (λ _ s', keeps s.1 s'.1) (λ _, True))| |done].
  - apply keeps_refl.
  - intros x s' Hx Hk.
    eapply yields_weaken; [apply colorColumn_total; lia| |done].
    intros s'' Hk'. by eapply keeps_trans.
  - done.
Qed.

Lemma sirdsRow_total depth width eyeSep obsDist y m :
  width < 2 ^ 53 → lengthZ (m_link m) = width →
  yields (sirdsRow depth width eyeSep obsDist y m)
    (λ m', lengthZ (m_link m') = width ∧ keeps (m_data m) (m_data m'))
    (λ _, True).
Proof.
  intros Hw53 Hlen. unfold sirdsRow. rewrite <- bind_assoc. eapply yields_bind.
  { by apply linkPhase_wrapped. }
  intros l (Hl & _). eapply yields_bind; [by apply colorRow_total|].
  intros [d s] Hk. by apply yields_ret.
Qed.

Lemma rows_total depth width height data seed eyeSep obsDist :
  0 ≤ width < 2 ^ 53 →
  yields (forRange height (sirdsRow depth width eyeSep obsDist)
            (Machine (replicate (Z.to_nat width) 0) data (createSeededRandom seed)))
    (λ m, keeps data (m_data m)) (λ _, True).
Proof.
  intros Hw.
  eapply yields_weaken;
    [apply (yields_forRange
              (λ _ m, lengthZ (m_link m) = width ∧ keeps data (m_data m))
              (λ _, True))| |done].
  - split; [apply lengthZ_replicate; lia|apply keeps_refl].
  - intros y m Hy [Hl Hk].
    eapply yields_weaken; [apply sirdsRow_total; [lia|done]| |done].
    intros m' [Hl' Hk']. split; [done|]. by eapply keeps_trans.
  - by intros m [_ Hk].
Qed.

(** The link buffer is allocated when its length is one that the
    constructor accepts and the engine has room for. *)
Lemma newInt32Array_some room length :
  0 ≤ length < 2 ^ 53 → length ≤ room →
  newInt32Array room length = Some (replicate (Z.to_nat length) 0).
Proof.
  intros Hl Hr. unfold newInt32Array. by rewrite !bool_decide_false by lia.
Qed.

Lemma newInt32Array_none room length :
  length < 0 ∨ 2 ^ 53 ≤ length ∨ room < length →
  newInt32Array room length = None.
Proof.
  intros H. unfold newInt32Array.
  destruct (decide (length < 0)); [by rewrite bool_decide_true|].
  destruct (decide (2 ^ 53 ≤ length)).
  { rewrite (bool_decide_true (2 ^ 53 ≤ length)) by done.
    by rewrite orb_true_r. }
  rewrite (bool_decide_true (room < length)) by lia. by rewrite orb_true_r.
Qed.

(** A call throws a [RangeError] when the link buffer is not allocated. *)
Lemma depthToSirdsIn_throws room depth width height data seed eyeSep obsDist :
  width < 0 ∨ 2 ^ 53 ≤ width ∨ room < width →
  depthToSirdsIn room depth width height data seed eyeSep obsDist
  = Throws RangeError.
Proof.
  intros Hw. unfold depthToSirdsIn. by rewrite newInt32Array_none.
Qed.

(** With room for the link buffer, a call does what it does in an engine
    with room for every buffer. *)
Lemma depthToSirdsIn_room room depth width height data seed eyeSep obsDist :
  width ≤ room →
  depthToSirdsIn room depth width height data seed eyeSep obsDist
  = depthToSirds depth width height data seed eyeSep obsDist.
Proof.
  intros Hr. unfold depthToSirds, depthToSirdsIn.
  destruct (decide (0 ≤ width < 2 ^ 53)).
  - by rewrite !newInt32Array_some by lia.
  - by rewrite !newInt32Array_none by lia.
Qed.

(** A call whose link buffer is allocated runs the loop over the rows. *)
Lemma depthToSirds_eq depth width height data seed eyeSep obsDist :
  0 ≤ width < 2 ^ 53 →
  depthToSirds depth width height data seed eyeSep obsDist
  = match forRange height (sirdsRow depth width eyeSep obsDist)
            (Machine (replicate (Z.to_nat width) 0) data
               (createSeededRandom seed)) with
    | Some (m, trace) => Returns (m_data m) trace
    | None => Stuck
    end.
Proof.
  intros Hw. unfold depthToSirds, depthToSirdsIn.
  by rewrite newInt32Array_some by lia.
Qed.

(** A call with a width from 0 to [2^53 - 1] returns, whatever the height,
    the buffers and the parameters are; the output buffer keeps its
    length. *)
Lemma depthToSirds_returns depth width height data seed eyeSep obsDist :
  0 ≤ width < 2 ^ 53 →
  ∃ out trace,
    depthToSirds depth width height data seed eyeSep obsDist = Returns out trace
    ∧ keeps data out.
Proof.
  intros Hw.
  destruct (rows_total depth width height data seed eyeSep obsDist Hw)
    as (m & t & E & Hk & _).
  exists (m_data m), t. rewrite depthToSirds_eq by done. by rewrite E.
Qed.

Lemma depthToSirds_throws depth width height data seed eyeSep obsDist :
  width < 0 ∨ 2 ^ 53 ≤ width →
  depthToSirds depth width height data seed eyeSep obsDist = Throws RangeError.
Proof.
  intros Hw. apply depthToSirdsIn_throws. lia.
Qed.

(** Without a row or without a column nothing is read or written. *)
Lemma depthToSirds_empty depth width height data seed eyeSep obsDist :
  0 ≤ width < 2 ^ 53 → width = 0 ∨ height ≤ 0 →
  depthToSirds depth width height data seed eyeSep obsDist = Returns data [].
Proof.
  intros Hw Hempty. rewrite depthToSirds_eq by done.
  destruct (decide (height ≤ 0)) as [Hh|Hh].
  { by rewrite forRange_nonpos. }
  destruct Hempty as [->|?]; [|lia].
  assert (Hrow : ∀ y m, m_link m = [] →
    sirdsRow depth 0 eyeSep obsDist y m = Some (m, [])).
  { intros y [l d s] Hl. simpl in Hl. subst l. reflexivity. }
  assert (Hk : ∀ k : nat,
    forRange (Z.of_nat k) (sirdsRow depth 0 eyeSep obsDist)
      (Machine [] data (createSeededRandom seed))
    = Some (Machine [] data (createSeededRandom seed), [])).
  { induction k as [|k IH]; [done|].
    replace (Z.of_nat (S k)) with (Z.of_nat k + 1) by lia.
    rewrite forRange_succ by lia. rewrite IH. unfold bind.
    by rewrite Hrow. }
  change (replicate (Z.to_nat 0) 0) with (@nil Z).
  specialize (Hk (Z.to_nat height)). rewrite Z2Nat.id in Hk by lia.
  by rewrite Hk.
Qed.

(** ** The separation function *)

Lemma separation_pos (ht eyeSep obsDist : float) :
  (0 <? ht - BKDEPTH)%float = true →
  separation ht eyeSep obsDist
  = ((ht - BKDEPTH) * eyeSep / ((ht - BKDEPTH) + obsDist))%float.
Proof. intros Hd. unfold separation. by rewrite ltb_0_leb. Qed.

(** ** Seeds *)

Lemma createSeededRandom_mod seed :
  createSeededRandom seed = seed mod 2 ^ 32.
Proof.
  unfold createSeededRandom, Int32.ushr, Int32.to_uint32.
  change (0 mod 32) with 0. apply Z.shiftr_0_r.
Qed.

(** ** The forest invariant *)

Lemma forest_walksEnd width link :
  lengthZ link = width → forest link → walksEnd width link.
Proof.
  intros Hlen Hf x Hx.
  destruct (findRoot_spec link (S (length link)) x Hf)
    as (? & t & E & (r & -> & Hr & n & Hn) & _).
  - lia.
  - unfold lengthZ in Hlen. lia.
  - exists r, t, n. split; [done|]. split; [done|]. split; [done|].
    pose proof (follows_descends _ _ _ _ Hf Hn). pose proof (Hf _ _ Hr). lia.
Qed.

Lemma forest_noRevisit link : forest link → noRevisit link.
Proof. intros Hf a n b H. pose proof (follows_descends _ _ _ _ Hf H). lia. Qed.

(** ** The pixels of the output *)

Lemma rootOf_idem link x :
  forest link → 0 ≤ x < lengthZ link → rootOf link (rootOf link x) = rootOf link x.
Proof. intros Hf Hx. apply rootOf_root. by apply rootOf_spec. Qed.

(** The output of a call on an image of at most 2^29 pixels, in closed
    form. *)
Lemma depthToSirds_closed_form depth width height data seed eyeSep obsDist :
  0 ≤ width < 2 ^ 53 → width * height ≤ 2 ^ 29 →
  width * height * 4 ≤ lengthZ data →
  ∃ out trace,
    depthToSirds depth width height data seed eyeSep obsDist = Returns out trace
    ∧ lengthZ out = lengthZ data
    ∧ (∀ y x c, 0 ≤ y < height → 0 ≤ x < width → 0 ≤ c < 3 →
         channel out width y x c
         = Some (pixelOf depth width seed eyeSep obsDist y x))
    ∧ (∀ y x, 0 ≤ y < height → 0 ≤ x < width →
         channel out width y x 3 = Some 255)
    ∧ (∀ i, 4 * (Z.max 0 height * width) ≤ i → lookupZ out i = lookupZ data i)
    ∧ Forall (λ e, ∃ y, 0 ≤ y < height
                        ∧ rowAccess depth width data y e) trace.
Proof.
  intros Hw Hfit Hdata.
  destruct (rows_spec depth width height data seed eyeSep obsDist (proj1 Hw)
              Hfit Hdata)
    as (m & t & E & (Hl & Hd & Hst & Hrgb & Ha & Hrest) & Ht).
  exists (m_data m), t. rewrite depthToSirds_eq by done. rewrite E.
  split; [done|]. split; [done|]. split; [|split; [|split]].
  - intros y x c Hy Hx Hc. apply Hrgb; lia.
  - intros y x Hy Hx. apply Ha; lia.
  - done.
  - done.
Qed.

(** The pixel of a root column is the draw made when the scan reaches it. *)
Lemma pixelOf_root depth width seed eyeSep obsDist y x :
  lookupZ (rowLinks depth width eyeSep obsDist y) x = Some x →
  pixelOf depth width seed eyeSep obsDist y x
  = Qfloor (fst (random (advance
               (drawsBefore depth width eyeSep obsDist y
                + rootsBefore (rowLinks depth width eyeSep obsDist y) x)
               (createSeededRandom seed))) * 256).
Proof.
  intros Hr. unfold pixelOf, colorOf. rewrite rootOf_root by done.
  rewrite gray_eq. by rewrite Nat.add_comm, advance_add.
Qed.

Lemma lookupZ_replicate n (v : Z) i :
  0 ≤ i < n → lookupZ (replicate (Z.to_nat n) v) i = Some v.
Proof.
  intros H. unfold lookupZ. rewrite bool_decide_true by lia.
  apply lookup_replicate_2. lia.
Qed.

(** ** Array accesses *)

Lemma rowAccess_inBounds depth width height data y e :
  0 ≤ width → width * height ≤ lengthZ depth →
  width * height * 4 ≤ lengthZ data →
  0 ≤ y < height → rowAccess depth width data y e → inBounds width height e.
Proof.
  intros Hw Hdepth Hdata Hy He. unfold inBounds.
  assert (Hrow : 0 ≤ y * width ∧ y * width + width ≤ width * height) by nia.
  destruct He as [[He|He]|He].
  - destruct He as (Hm & Hb & Hi & Hl & Hv). rewrite Hm, Hb, Hl.
    split; [lia|]. split; [done|lia].
  - unfold linkAccess in He.
    destruct (acc_buf e), (acc_mode e); try done.
    + destruct He as (Hi & Hl & Hv). rewrite Hl, Hv.
      split; [lia|]. split; [|split; [done|lia]].
      intros _. apply lookupZ_is_Some. lia.
    + destruct He as (Hi & Hl & Hv). rewrite Hl. split; [lia|]. split; [done|lia].
    + destruct He as (Hi & Hl & Hv). rewrite Hl. split; [lia|]. split; [done|lia].
  - unfold colorAccess in He.
    destruct (acc_buf e), (acc_mode e); try done.
    + destruct He as (Hi & Hl & Hv). rewrite Hl. split; [lia|]. split; [done|lia].
    + destruct He as (Hi & Hl & Hv). rewrite Hl.
      split; [lia|]. split; [done|]. split; [lia|done].
    + destruct He as (Hi & Hl & Hv). rewrite Hl.
      split; [lia|]. split; [done|]. split; [lia|done].
Qed.

(** Every iteration of a loop leaves its accesses in the trace of the
    loop. *)
Lemma forEach_trace {St} (body : Z → St → M St) xs s s' t x :
  forEach body xs s = Some (s', t) → x ∈ xs →
  ∃ sx sx' tx, body x sx = Some (sx', tx) ∧ ∀ e, e ∈ tx → e ∈ t.
Proof.
  revert s t. induction xs as [|x0 xs IH]; intros s t H Hx.
  { by apply elem_of_nil in Hx. }
  simpl in H. apply bind_Some in H as (s1 & t1 & t2 & E1 & E2 & ->).
  apply elem_of_cons in Hx as [->|Hx].
  - exists s, s1, t1. split; [done|]. intros e He. apply elem_of_app. by left.
  - destruct (IH _ _ E2 Hx) as (sx & sx' & tx & E & Hin).
    exists sx, sx', tx. split; [done|]. intros e He.
    apply elem_of_app. right. by apply Hin.
Qed.

(** The colour loop stores at the wrapped offset of every column. *)
Lemma colorColumn_stores rowOff link x s s' t :
  colorColumn rowOff link x s = Some (s', t) →
  ∃ e, e ∈ t ∧ acc_buf e = Data ∧ acc_mode e = Store
       ∧ acc_idx e = Int32.shl (rowOff + x) 2.
Proof.
  destruct s as [d st]. unfold colorColumn, load.
  unfold bind at 1. case_bool_decide.
  - destruct (random st) as [r st']. unfold store, bind, ret.
    intros [= <- <-]. eexists.
    split; [apply list_elem_of_further, list_elem_of_here|by repeat split].
  - unfold store, bind, ret.
    intros [= <- <-]. eexists.
    split; [apply list_elem_of_further, list_elem_of_further,
              list_elem_of_further, list_elem_of_here|by repeat split].
Qed.

Lemma depthToSirds_stores depth width height data seed eyeSep obsDist out trace y x :
  depthToSirds depth width height data seed eyeSep obsDist = Returns out trace →
  0 ≤ y < height → 0 ≤ x < width →
  ∃ e, e ∈ trace ∧ acc_buf e = Data ∧ acc_mode e = Store
       ∧ acc_idx e = Int32.shl (y * width + x) 2.
Proof.
  intros E0 Hy Hx.
  assert (Hw : 0 ≤ width < 2 ^ 53).
  { destruct (decide (0 ≤ width < 2 ^ 53)); [done|].
    rewrite depthToSirds_throws in E0 by lia. done. }
  rewrite depthToSirds_eq in E0 by done.
  destruct (forRange _ _ _) as [[m t]|] eqn:E; [|done].
  injection E0 as <- <-.
  destruct (forEach_trace _ _ _ _ _ y E) as (my & my' & ty & Ey & Hin).
  { apply elem_of_seqZ. lia. }
  unfold sirdsRow in Ey.
  apply bind_Some in Ey as (l1 & t1 & t2 & _ & Ey & ->).
  apply bind_Some in Ey as (l2 & t3 & t4 & _ & Ey & ->).
  apply bind_Some in Ey as ([d s] & t5 & t6 & Ec & _ & ->).
  destruct (forEach_trace _ _ _ _ _ x Ec) as (sx & sx' & tx & Ex & Hinx).
  { apply elem_of_seqZ. lia. }
  destruct (colorColumn_stores _ _ _ _ _ _ Ex) as (e & He & Hprop).
  exists e. split; [|done]. apply Hin.
  apply elem_of_app. right. apply elem_of_app. right.
  apply elem_of_app. left. by apply Hinx.
Qed.

(** ** Rows *)

Lemma valueOf_bind {A B} (c1 c2 : M A) (k1 k2 : A → M B) :
  valueOf c1 = valueOf c2 → (∀ a, valueOf (k1 a) = valueOf (k2 a)) →
  valueOf (bind c1 k1) = valueOf (bind c2 k2).
Proof.
  intros Hc Hk. unfold bind.
  destruct c1 as [[a1 t1]|], c2 as [[a2 t2]|]; simpl in Hc; try done.
  injection Hc as ->. specialize (Hk a2).
  destruct (k1 a2) as [[b1 u1]|], (k2 a2) as [[b2 u2]|]; simpl in Hk; try done.
Qed.

Lemma valueOf_bind_trace {A B} (a : A) t1 t2 (k : A → M B) :
  valueOf (bind (Some (a, t1)) k) = valueOf (bind (Some (a, t2)) k).
Proof. unfold bind, valueOf. by destruct (k a) as [[b t]|]. Qed.

Lemma valueOf_forEach {St} (body1 body2 : Z → St → M St) xs s :
  (∀ x s, x ∈ xs → valueOf (body1 x s) = valueOf (body2 x s)) →
  valueOf (forEach body1 xs s) = valueOf (forEach body2 xs s).
Proof.
  revert s. induction xs as [|x xs IH]; intros s H; [done|].
  simpl. apply valueOf_bind.
  - apply H. apply list_elem_of_here.
  - intros s'. apply IH. intros x' s'' Hx'. apply H. by apply list_elem_of_further.
Qed.

(** The links of a row depend on the depth samples of that row only. *)
Lemma rowLinks_ext depth1 depth2 width eyeSep obsDist y :
  (∀ x, 0 ≤ x < width →
     lookupZ depth1 (y * width + x) = lookupZ depth2 (y * width + x)) →
  rowLinks depth1 width eyeSep obsDist y = rowLinks depth2 width eyeSep obsDist y.
Proof.
  intros H. unfold rowLinks.
  assert (E : valueOf (link <- resetLinks width (replicate (Z.to_nat width) 0) ;;
                       buildLinks depth1 width eyeSep obsDist (y * width) link)
            = valueOf (link <- resetLinks width (replicate (Z.to_nat width) 0) ;;
                       buildLinks depth2 width eyeSep obsDist (y * width) link)).
  { apply valueOf_bind; [done|]. intros link. unfold buildLinks, forRange.
    apply valueOf_forEach. intros x l Hx%elem_of_seqZ.
    unfold linkColumn, load. rewrite <- H by lia. apply valueOf_bind_trace. }
  unfold valueOf in E.
  destruct (bind _ _) as [[l1 t1]|], (bind _ _) as [[l2 t2]|]; simpl in E; try done.
  by injection E.
Qed.

Lemma sum_list_with_ext {A} (f g : A → nat) (l : list A) :
  (∀ a, a ∈ l → f a = g a) → sum_list_with f l = sum_list_with g l.
Proof.
  induction l as [|a l IH]; intros H; [done|]. simpl.
  rewrite (H a) by apply list_elem_of_here.
  rewrite IH; [done|]. intros b Hb. apply H. by apply list_elem_of_further.
Qed.

(** ** Two calls side by side *)

Lemma agree_insertZ d1 d2 i v n :
  lengthZ d1 = lengthZ d2 → agree d1 d2 n ∨ n = i →
  agree (insertZ i v d1) (insertZ i v d2) n.
Proof.
  intros Hl H. unfold agree. destruct (decide (i = n)) as [->|Hne].
  - destruct (decide (0 ≤ n < lengthZ d1)) as [Hin|Hout].
    + rewrite !lookupZ_insertZ_eq by lia. done.
    + rewrite !lookupZ_None; [done| |]; rewrite lengthZ_insertZ; lia.
  - rewrite !lookupZ_insertZ_ne by done. destruct H as [H|H]; [done|lia].
Qed.

Lemma agree_putPixel d1 d2 i r g b al n :
  lengthZ d1 = lengthZ d2 → agree d1 d2 n ∨ i ≤ n ≤ i + 3 →
  agree (putPixel i r g b al d1) (putPixel i r g b al d2) n.
Proof.
  intros Hl H. unfold putPixel.
  apply agree_insertZ; [by rewrite !lengthZ_insertZ|].
  destruct (decide (n = i + 3)); [by right|left].
  apply agree_insertZ; [by rewrite !lengthZ_insertZ|].
  destruct (decide (n = i + 2)); [by right|left].
  apply agree_insertZ; [by rewrite !lengthZ_insertZ|].
  destruct (decide (n = i + 1)); [by right|left].
  apply agree_insertZ; [done|].
  destruct H as [H|H]; [by left|right; lia].
Qed.

Lemma lookupZ_putPixel_ne d i r g b al n :
  ¬ (i ≤ n ≤ i + 3) → lookupZ (putPixel i r g b al d) n = lookupZ d n.
Proof. intros H. unfold putPixel. rewrite !lookupZ_insertZ_ne by lia. done. Qed.

Lemma lengthZ_putPixel d i r g b al :
  lengthZ (putPixel i r g b al d) = lengthZ d.
Proof. unfold putPixel. by rewrite !lengthZ_insertZ. Qed.

(** Two loops run side by side make the same accesses and keep a relation
    between their states. *)
Lemma forRange_lockstep {St} (I : Z → St → St → Prop) (body : Z → St → M St)
    n s1 s2 :
  I 0 s1 s2 →
  (∀ k a b, 0 ≤ k < n → I k a b →
     ∃ a' b' t, body k a = Some (a', t) ∧ body k b = Some (b', t)
                ∧ I (k + 1) a' b') →
  ∃ a b t, forRange n body s1 = Some (a, t) ∧ forRange n body s2 = Some (b, t)
           ∧ I (Z.max 0 n) a b.
Proof.
  intros H0 Hstep. destruct (decide (n ≤ 0)) as [Hn|Hn].
  { rewrite !forRange_nonpos by done. exists s1, s2, [].
    by replace (Z.max 0 n) with 0 by lia. }
  replace (Z.max 0 n) with n by lia.
  assert (Hk : ∀ k : nat, Z.of_nat k ≤ n →
    ∃ a b t, forRange (Z.of_nat k) body s1 = Some (a, t)
             ∧ forRange (Z.of_nat k) body s2 = Some (b, t)
             ∧ I (Z.of_nat k) a b).
  { induction k as [|k IH]; intros Hle.
    - rewrite !forRange_nonpos by done. by exists s1, s2, [].
    - destruct IH as (a & b & t & E1 & E2 & HI); [lia|].
      destruct (Hstep (Z.of_nat k) a b) as (a' & b' & t' & E1' & E2' & HI');
        [lia|done|].
      replace (Z.of_nat (S k)) with (Z.of_nat k + 1) by lia.
      rewrite !forRange_succ by lia. rewrite E1, E2. unfold bind.
      rewrite E1', E2'. by exists a', b', (t ++ t'). }
  specialize (Hk (Z.to_nat n)). rewrite Z2Nat.id in Hk by lia. apply Hk. lia.
Qed.

(** What one iteration of the colour loop does on a root column. *)
Lemma colorColumn_root rowOff link x d st :
  lookupZ link x = Some x →
  colorColumn rowOff link x (d, st)
  = let i := Int32.shl (rowOff + x) 2 in
    let v := toUint8Clamp (Some (Qfloor (fst (random st) * 256))) in
    let al := toUint8Clamp (Some 255) in
    Some ((putPixel i v v v al d, snd (random st)),
          [Access Load Link x (lengthZ link) (Some x);
           Access Store Data i (lengthZ d) (Some v);
           Access Store Data (i + 1) (lengthZ d) (Some v);
           Access Store Data (i + 2) (lengthZ d) (Some v);
           Access Store Data (i + 3) (lengthZ d) (Some al)]).
Proof.
  intros Hx. unfold colorColumn, load. unfold bind at 1.
  rewrite Hx. rewrite bool_decide_true by done.
  destruct (random st) as [r st']. unfold store, bind, ret.
  by rewrite !lengthZ_insertZ.
Qed.

(** What one iteration of the colour loop does on a column that links to
    another one. *)
Lemma colorColumn_copy rowOff link x lx d st :
  lookupZ link x = Some lx → lx ≠ x →
  colorColumn rowOff link x (d, st)
  = let i := Int32.shl (rowOff + x) 2 in
    let src := Int32.shl (rowOff + lx) 2 in
    let r := lookupZ d src in
    let d1 := insertZ i (toUint8Clamp r) d in
    let g := lookupZ d1 (src + 1) in
    let d2 := insertZ (i + 1) (toUint8Clamp g) d1 in
    let b := lookupZ d2 (src + 2) in
    let al := toUint8Clamp (Some 255) in
    Some ((putPixel i (toUint8Clamp r) (toUint8Clamp g) (toUint8Clamp b) al d, st),
          [Access Load Link x (lengthZ link) (Some lx);
           Access Load Link x (lengthZ link) (Some lx);
           Access Load Data src (lengthZ d) r;
           Access Store Data i (lengthZ d) (Some (toUint8Clamp r));
           Access Load Data (src + 1) (lengthZ d) g;
           Access Store Data (i + 1) (lengthZ d) (Some (toUint8Clamp g));
           Access Load Data (src + 2) (lengthZ d) b;
           Access Store Data (i + 2) (lengthZ d) (Some (toUint8Clamp b));
           Access Store Data (i + 3) (lengthZ d) (Some al)]).
Proof.
  intros Hx Hne. unfold colorColumn, load. unfold bind at 1.
  rewrite Hx. rewrite bool_decide_false by congruence.
  unfold store, bind, ret. by rewrite !lengthZ_insertZ.
Qed.

Section Lockstep.

Variables data1 data2 : list Z.

Lemma colorRel_putPixel rowOff x d1 d2 st st' r g b al :
  colorRel data1 data2 rowOff x (d1, st) (d2, st) →
  colorRel data1 data2 rowOff (x + 1)
    (putPixel (Int32.shl (rowOff + x) 2) r g b al d1, st')
    (putPixel (Int32.shl (rowOff + x) 2) r g b al d2, st').
Proof.
  intros (_ & [Hl Hsame] & Hleft).
  unfold colorRel, sameOrUntouched. cbn [fst snd] in *.
  split; [done|]. split; [split|].
  - by rewrite !lengthZ_putPixel.
  - intros n.
    destruct (decide (Int32.shl (rowOff + x) 2 ≤ n ≤ Int32.shl (rowOff + x) 2 + 3))
      as [Hin|Hout].
    + left. apply agree_putPixel; [done|by right].
    + rewrite !lookupZ_putPixel_ne by done.
      destruct (Hsame n) as [H|H]; [|by right].
      left. apply agree_putPixel; [done|by left].
  - intros x' c Hx' Hc. apply agree_putPixel; [done|].
    destruct (decide (x' = x)) as [->|Hne]; [right; lia|].
    left. apply Hleft; lia.
Qed.

Lemma colorColumn_lockstep rowOff link x s1 s2 :
  wrappedForest link → 0 ≤ x < lengthZ link →
  colorRel data1 data2 rowOff x s1 s2 →
  ∃ s1' s2' t,
    colorColumn rowOff link x s1 = Some (s1', t)
    ∧ colorColumn rowOff link x s2 = Some (s2', t)
    ∧ colorRel data1 data2 rowOff (x + 1) s1' s2'.
Proof.
  intros Hf Hx. destruct s1 as [d1 st], s2 as [d2 st2].
  intros Hrel. pose proof Hrel as (Hst & [Hl Hsame] & Hleft).
  cbn [fst snd] in *. subst st2.
  destruct (lookupZ_is_Some link x Hx) as [lx Hlx].
  destruct (decide (lx = x)) as [->|Hne].
  - rewrite !(colorColumn_root _ _ _ _ _ Hlx), Hl. cbv zeta.
    eexists _, _, _. split; [reflexivity|]. split; [reflexivity|].
    by apply (colorRel_putPixel rowOff x d1 d2 st).
  - destruct (Hf _ _ Hlx) as [_ [->|(Hlt & x' & Hx' & Hmod)]]; [done|].
    rewrite !(colorColumn_copy _ _ _ _ _ _ Hlx Hne), Hl. cbv zeta.
    assert (Hsrc : Int32.shl (rowOff + lx) 2 = Int32.shl (rowOff + x') 2).
    { apply shl_2_mod.
      rewrite (Z.add_mod rowOff lx), (Z.add_mod rowOff x') by lia.
      by rewrite Hmod. }
    set (i := Int32.shl (rowOff + x) 2) in *.
    set (src := Int32.shl (rowOff + lx) 2) in *.
    assert (H0 : agree d1 d2 src).
    { rewrite Hsrc. specialize (Hleft x' 0). rewrite Z.add_0_r in Hleft.
      apply Hleft; lia. }
    assert (H1 : agree d1 d2 (src + 1)) by (rewrite Hsrc; apply Hleft; lia).
    assert (H2 : agree d1 d2 (src + 2)) by (rewrite Hsrc; apply Hleft; lia).
    rewrite <- H0.
    set (a := toUint8Clamp (lookupZ d1 src)).
    assert (H1' : agree (insertZ i a d1) (insertZ i a d2) (src + 1))
      by (apply agree_insertZ; [done|by left]).
    rewrite <- H1'.
    set (b := toUint8Clamp (lookupZ (insertZ i a d1) (src + 1))).
    assert (H2' : agree (insertZ (i + 1) b (insertZ i a d1))
                    (insertZ (i + 1) b (insertZ i a d2)) (src + 2)).
    { apply agree_insertZ; [by rewrite !lengthZ_insertZ|left].
      apply agree_insertZ; [done|by left]. }
    rewrite <- H2'.
    eexists _, _, _. split; [reflexivity|]. split; [reflexivity|].
    by apply (colorRel_putPixel rowOff x d1 d2 st st).
Qed.

End Lockstep.

Lemma sirdsRow_eq depth width eyeSep obsDist y m l t1 d s t2 :
  (link <- resetLinks width (m_link m) ;;
   buildLinks depth width eyeSep obsDist (y * width) link) = Some (l, t1) →
  colorRow width (y * width) l (m_data m, m_state m) = Some ((d, s), t2) →
  sirdsRow depth width eyeSep obsDist y m = Some (Machine l d s, t1 ++ t2).
Proof.
  intros E1 E2. apply bind_Some in E1 as (l0 & ta & tb & Ea & Eb & ->).
  unfold sirdsRow, bind. rewrite Ea, Eb, E2. unfold ret.
  by rewrite app_nil_r, app_assoc.
Qed.

Lemma sirdsRow_lockstep data1 data2 depth width eyeSep obsDist y m1 m2 :
  width < 2 ^ 53 → machineRel data1 data2 width m1 m2 →
  ∃ m1' m2' t,
    sirdsRow depth width eyeSep obsDist y m1 = Some (m1', t)
    ∧ sirdsRow depth width eyeSep obsDist y m2 = Some (m2', t)
    ∧ machineRel data1 data2 width m1' m2'.
Proof.
  intros Hw53 (Hlink & Hlen & Hst & Hsame).
  destruct (linkPhase_wrapped depth width eyeSep obsDist y (m_link m1) Hw53 Hlen)
    as (l & t1 & E & (Hl & Hf) & _).
  destruct (forRange_lockstep (colorRel data1 data2 (y * width))
              (colorColumn (y * width) l) width
              (m_data m1, m_state m1) (m_data m2, m_state m2))
    as ([d1 s1] & [d2 s2] & t2 & E1 & E2 & (Hs & Hsame' & _)).
  { split; [done|]. split; [done|]. intros; lia. }
  { intros x a b Hx Hrel. apply colorColumn_lockstep; [done|lia|done]. }
  cbn [fst snd] in *. subst s2.
  exists (Machine l d1 s1), (Machine l d2 s1), (t1 ++ t2).
  split; [by apply sirdsRow_eq|]. split; [|by split].
  apply sirdsRow_eq; [by rewrite <- Hlink|exact E2].
Qed.

(** ** The embedding at work *)

(** The first two draws of mulberry32 from the seed 0. *)
Example random_seed_0 :
  let '(r1, state1) := random (createSeededRandom 0) in
  let '(r2, _) := random state1 in
  (r1 == 1144304738 # 4294967296)%Q ∧ Qfloor (r1 * 256) = 68
  ∧ (r2 == 1416247 # 4294967296)%Q ∧ Qfloor (r2 * 256) = 0.
Proof. by vm_compute. Qed.

(** The near band of [band] has a separation of 31.1 pixels: the columns
    33 to 37 link to the columns 2 to 6, the other columns are roots. *)
Example band_links :
  rowLinks band 40 80 400 0 = seqZ 0 33 ++ [2; 3; 4; 5; 6] ++ [38; 39].
Proof. by vm_compute. Qed.

(** The pixels right of the band repeat the pixels left of it. *)
Example band_image :
  ∃ out trace,
    depthToSirds band 40 1 (replicate 160 0) 0 80 400 = Returns out trace
    ∧ channel out 40 0 33 0 = channel out 40 0 2 0
    ∧ channel out 40 0 37 0 = channel out 40 0 6 0
    ∧ channel out 40 0 2 0 = Some 57.
Proof. eexists _, _. split; [by vm_compute|]. by vm_compute. Qed.

(** ** The separation on the samples of a depth map *)




(** * The claims *)

(** ** Rows and the shared stream *)

(** C1, as the code has it, for an image of at most 2^29 pixels whose
    output buffer has room for it. If two calls differ only in depth
    samples of row [r], then (unless both throw, for a width the link
    buffer cannot have) the rows above row [r] are byte-identical between
    the two calls, and so are the rows below row [r] when row [r] has the
    same number of root columns in both calls: the rows share the random
    stream, and each root column takes one draw from it. *)
Theorem rows_independent (depth1 depth2 : list Z) (width height : Z)
    (data : list Z) (seed : Z) (eyeSep obsDist : float) (r : Z) :
  width * height ≤ 2 ^ 29 → width * height * 4 ≤ lengthZ data →
  (∀ i, ¬ (r * width ≤ i < r * width + width) →
     lookupZ depth1 i = lookupZ depth2 i) →
  (depthToSirds depth1 width height data seed eyeSep obsDist = Throws RangeError
   ∧ depthToSirds depth2 width height data seed eyeSep obsDist = Throws RangeError)
  ∨ ∃ out1 trace1 out2 trace2,
      depthToSirds depth1 width height data seed eyeSep obsDist
      = Returns out1 trace1
      ∧ depthToSirds depth2 width height data seed eyeSep obsDist
        = Returns out2 trace2
      ∧ ∀ y x c, 0 ≤ y < height → 0 ≤ x < width → 0 ≤ c < 4 →
          y < r
          ∨ (r < y ∧ rootsOfRow depth1 width eyeSep obsDist r
                     = rootsOfRow depth2 width eyeSep obsDist r) →
          channel out1 width y x c = channel out2 width y x c.
Proof.
  intros Hfit Hdata Hsame.
  destruct (decide (width < 0 ∨ 2 ^ 53 ≤ width)) as [Hneg|Hneg].
  { left. split; by apply depthToSirds_throws. }
  right. assert (Hw : 0 ≤ width < 2 ^ 53) by lia.
  destruct (depthToSirds_closed_form depth1 width height data seed eyeSep obsDist
              Hw Hfit Hdata) as (out1 & t1 & E1 & _ & Hrgb1 & Ha1 & _ & _).
  destruct (depthToSirds_closed_form depth2 width height data seed eyeSep obsDist
              Hw Hfit Hdata) as (out2 & t2 & E2 & _ & Hrgb2 & Ha2 & _ & _).
  exists out1, t1, out2, t2. split; [done|]. split; [done|].
  intros y x c Hy Hx Hc Hrow.
  destruct (decide (c = 3)) as [->|Hc3].
  { by rewrite Ha1, Ha2. }
  rewrite Hrgb1, Hrgb2 by lia. f_equal.
  assert (Hlinks : ∀ y', y' ≠ r →
    rowLinks depth1 width eyeSep obsDist y' = rowLinks depth2 width eyeSep obsDist y').
  { intros y' Hy'. apply rowLinks_ext. intros x' Hx'. apply Hsame. nia. }
  unfold pixelOf. rewrite Hlinks by lia. f_equal. f_equal.
  unfold drawsBefore. apply sum_list_with_ext. intros y' Hy'%elem_of_seqZ.
  destruct (decide (y' = r)) as [->|Hne].
  - destruct Hrow as [?|[_ Hroots]]; [lia|done].
  - unfold rootsOfRow. by rewrite Hlinks.
Qed.

(** Two depth maps of 29 by 3 samples that differ in row 1 only: the near
    sample of the row is in column 14 in the first one, where it links
    column 27 to column 0, and in column 15 in the second one, where it
    links column 28 to column 1. Row 1 has 28 roots in both. *)
Lemma rows_independent_witness :
  rowLinks (<[43%nat := 255]> (replicate 87 0)) 29
    DEFAULT_EYESEP DEFAULT_OBSDIST 1
  = seqZ 0 27 ++ [0; 28]
  ∧ rowLinks (<[44%nat := 255]> (replicate 87 0)) 29
      DEFAULT_EYESEP DEFAULT_OBSDIST 1
    = seqZ 0 28 ++ [1]
  ∧ rootsOfRow (<[43%nat := 255]> (replicate 87 0)) 29
      DEFAULT_EYESEP DEFAULT_OBSDIST 1
    = rootsOfRow (<[44%nat := 255]> (replicate 87 0)) 29
        DEFAULT_EYESEP DEFAULT_OBSDIST 1
  ∧ ((depthToSirds (<[43%nat := 255]> (replicate 87 0)) 29 3 (replicate 348 0) 0
        DEFAULT_EYESEP DEFAULT_OBSDIST = Throws RangeError
      ∧ depthToSirds (<[44%nat := 255]> (replicate 87 0)) 29 3 (replicate 348 0) 0
          DEFAULT_EYESEP DEFAULT_OBSDIST = Throws RangeError)
     ∨ ∃ out1 trace1 out2 trace2,
         depthToSirds (<[43%nat := 255]> (replicate 87 0)) 29 3 (replicate 348 0) 0
           DEFAULT_EYESEP DEFAULT_OBSDIST
         = Returns out1 trace1
         ∧ depthToSirds (<[44%nat := 255]> (replicate 87 0)) 29 3
             (replicate 348 0) 0 DEFAULT_EYESEP DEFAULT_OBSDIST
           = Returns out2 trace2
         ∧ ∀ y x c, 0 ≤ y < 3 → 0 ≤ x < 29 → 0 ≤ c < 4 →
             y < 1
             ∨ (1 < y ∧ rootsOfRow (<[43%nat := 255]> (replicate 87 0)) 29
                          DEFAULT_EYESEP DEFAULT_OBSDIST 1
                        = rootsOfRow (<[44%nat := 255]> (replicate 87 0)) 29
                            DEFAULT_EYESEP DEFAULT_OBSDIST 1) →
             channel out1 29 y x c = channel out2 29 y x c).
Proof.
  split; [by vm_compute|]. split; [by vm_compute|]. split; [by vm_compute|].
  apply (rows_independent (<[43%nat := 255]> (replicate 87 0))
           (<[44%nat := 255]> (replicate 87 0)) 29 3
           (replicate 348 0) 0 DEFAULT_EYESEP DEFAULT_OBSDIST 1).
  - lia.
  - vm_compute. discriminate.
  - intros i Hi. unfold lookupZ. case_bool_decide; [|done].
    rewrite !list_lookup_insert_ne by lia. done.
Defined.

(** C1 fails on the code: the rows share one random stream. Two depth maps
    of 28 by 2 samples differ only in the sample of column 14 of row 0; in
    the second one that sample links column 27 to column 0, row 0 has one
    root less and makes one draw less, and row 1 starts one draw earlier
    in the stream. *)
Lemma rows_counterexample :
  (∀ i, ¬ (0 ≤ i < 28) →
     lookupZ (replicate 56 0) i = lookupZ (<[14%nat := 255]> (replicate 56 0)) i)
  ∧ ∃ out1 trace1 out2 trace2,
      depthToSirds (replicate 56 0) 28 2 (replicate 224 0) 0
        DEFAULT_EYESEP DEFAULT_OBSDIST
      = Returns out1 trace1
      ∧ depthToSirds (<[14%nat := 255]> (replicate 56 0)) 28 2 (replicate 224 0) 0
          DEFAULT_EYESEP DEFAULT_OBSDIST
        = Returns out2 trace2
      ∧ channel out1 28 1 0 0 = Some 91
      ∧ channel out2 28 1 0 0 = Some 120.
Proof.
  split.
  - intros i Hi. unfold lookupZ. case_bool_decide; [|done].
    symmetry. apply list_lookup_insert_ne. lia.
  - do 4 eexists. split; [vm_compute; reflexivity|].
    split; [vm_compute; reflexivity|]. split; reflexivity.
Qed.

(** ** Determinism *)

(** C2. Two calls with the same depth map, width, height, seed, eye
    separation and observer distance, on output buffers of the same length,
    both throw or both return; when they return they have made the same
    accesses, stored the same bytes at the same offsets, and left two
    buffers in which every byte is the same unless neither call stored
    there. On the same buffer contents the two outcomes are equal. *)
Theorem depthToSirds_deterministic (depth : list Z) (width height : Z)
    (seed : Z) (eyeSep obsDist : float) (data1 data2 : list Z) :
  lengthZ data1 = lengthZ data2 →
  (depthToSirds depth width height data1 seed eyeSep obsDist = Throws RangeError
   ∧ depthToSirds depth width height data2 seed eyeSep obsDist = Throws RangeError
   ∨ ∃ out1 out2 trace,
       depthToSirds depth width height data1 seed eyeSep obsDist
       = Returns out1 trace
       ∧ depthToSirds depth width height data2 seed eyeSep obsDist
         = Returns out2 trace
       ∧ lengthZ out1 = lengthZ out2
       ∧ ∀ n, lookupZ out1 n = lookupZ out2 n
              ∨ (lookupZ out1 n = lookupZ data1 n
                 ∧ lookupZ out2 n = lookupZ data2 n))
  ∧ (data1 = data2 →
     depthToSirds depth width height data1 seed eyeSep obsDist
     = depthToSirds depth width height data2 seed eyeSep obsDist).
Proof.
  intros Hlen. split; [|by intros ->].
  destruct (decide (width < 0 ∨ 2 ^ 53 ≤ width)) as [Hw|Hw].
  { left. split; by apply depthToSirds_throws. }
  right.
  destruct (forRange_lockstep (λ _, machineRel data1 data2 width)
              (sirdsRow depth width eyeSep obsDist) height
              (Machine (replicate (Z.to_nat width) 0) data1 (createSeededRandom seed))
              (Machine (replicate (Z.to_nat width) 0) data2 (createSeededRandom seed)))
    as (m1 & m2 & t & E1 & E2 & (_ & _ & _ & [Hl Hsame])).
  { split; [done|]. split; [apply lengthZ_replicate; lia|]. split; [done|].
    split; [done|]. intros n. by right. }
  { intros y a b _ Hrel. apply sirdsRow_lockstep; [lia|done]. }
  exists (m_data m1), (m_data m2), t.
  rewrite !depthToSirds_eq by lia. rewrite E1, E2. done.
Qed.

Lemma depthToSirds_deterministic_witness :
  (depthToSirds band 40 1 (replicate 160 0) 3 80 400 = Throws RangeError
   ∧ depthToSirds band 40 1 (replicate 160 9) 3 80 400 = Throws RangeError
   ∨ ∃ out1 out2 trace,
       depthToSirds band 40 1 (replicate 160 0) 3 80 400 = Returns out1 trace
       ∧ depthToSirds band 40 1 (replicate 160 9) 3 80 400 = Returns out2 trace
       ∧ lengthZ out1 = lengthZ out2
       ∧ ∀ n, lookupZ out1 n = lookupZ out2 n
              ∨ (lookupZ out1 n = lookupZ (replicate 160 0) n
                 ∧ lookupZ out2 n = lookupZ (replicate 160 9) n))
  ∧ (replicate 160 0 = replicate 160 9 →
     depthToSirds band 40 1 (replicate 160 0) 3 80 400
     = depthToSirds band 40 1 (replicate 160 9) 3 80 400).
Proof.
  apply (depthToSirds_deterministic band 40 1 3 80 400
           (replicate 160 0) (replicate 160 9)).
  reflexivity.
Defined.

(** ** The forest invariant *)

(** C3 fails on a row of more than 2^31 columns: the link buffer is an
    [Int32Array]. In a row of [2^31 + 1] columns the reset loop stores
    [2^31] into cell [2^31], which holds [-2^31]; the walk of [findRoot]
    from column [2^31] reads cell [-2^31], which is [undefined], and
    returns [undefined]: it reaches no fixed point. *)
Theorem links_wrap :
  ∃ link trace,
    resetLinks (2 ^ 31 + 1) (replicate (Z.to_nat (2 ^ 31 + 1)) 0)
    = Some (link, trace)
    ∧ lookupZ link (2 ^ 31) = Some (- 2 ^ 31)
    ∧ ∃ t, findRoot (S (length link)) link (Some (2 ^ 31)) = Some (None, t).
Proof.
  destruct (resetLinks_values (2 ^ 31 + 1) (replicate (Z.to_nat (2 ^ 31 + 1)) 0))
    as (link & trace & E & [Hlen Hv] & _); [apply lengthZ_replicate; lia|].
  exists link, trace. split; [exact E|].
  assert (H1 : lookupZ link (2 ^ 31) = Some (- 2 ^ 31)).
  { rewrite Hv by lia. reflexivity. }
  split; [exact H1|].
  assert (H2 : lookupZ link (- 2 ^ 31) = None) by (apply lookupZ_None; lia).
  eexists. apply (findRoot_fuel link 3); [|unfold lengthZ in Hlen; lia].
  cbn [findRoot loadAt]. unfold load, bind, ret. rewrite H1.
  rewrite (bool_decide_true (Some (- 2 ^ 31) ≠ Some (2 ^ 31))) by done.
  cbn [loadAt]. unfold load. rewrite H2.
  rewrite (bool_decide_true (None ≠ Some (- 2 ^ 31))) by done.
  cbn [loadAt]. unfold ret.
  rewrite (bool_decide_false (None ≠ None)) by (by intros []).
  reflexivity.
Qed.

(** ** Validation *)

(** C4, as the code has it. A call validates nothing: its one failure is
    the [RangeError] of [new Int32Array(width)], for a negative width, a
    width of 2^53 or more, or a width that the engine has no room for.
    When the link buffer is allocated the call returns, whatever the
    height (up to 2^53 rows), the lengths of the two buffers, the eye
    separation and the observer distance are, and leaves the output buffer
    untouched when the image has no row or no column. *)
Theorem depthToSirds_no_validation (room : Z) (depth : list Z)
    (width height : Z) (data : list Z) (seed : Z) (eyeSep obsDist : float) :
  (width < 0 ∨ 2 ^ 53 ≤ width ∨ room < width →
     depthToSirdsIn room depth width height data seed eyeSep obsDist
     = Throws RangeError)
  ∧ (0 ≤ width < 2 ^ 53 ∧ width ≤ room ∧ height ≤ 2 ^ 53 →
     ∃ out trace,
       depthToSirdsIn room depth width height data seed eyeSep obsDist
       = Returns out trace
       ∧ length out = length data
       ∧ (width = 0 ∨ height ≤ 0 → out = data ∧ trace = [])).
Proof.
  split; [apply depthToSirdsIn_throws|]. intros (Hw & Hr & _).
  rewrite depthToSirdsIn_room by done.
  destruct (depthToSirds_returns depth width height data seed eyeSep obsDist Hw)
    as (out & trace & E & [Hl _]).
  exists out, trace. split; [done|]. split.
  { unfold lengthZ in Hl. lia. }
  intros Hempty.
  rewrite (depthToSirds_empty _ _ _ _ _ _ _ Hw Hempty) in E.
  by injection E as <- <-.
Qed.

Lemma depthToSirds_no_validation_witness :
  depthToSirdsIn 1000 [] (-1) 1 [] 0 DEFAULT_EYESEP DEFAULT_OBSDIST
  = Throws RangeError
  ∧ depthToSirdsIn 1000 [] 1001 1 [] 0 DEFAULT_EYESEP DEFAULT_OBSDIST
    = Throws RangeError
  ∧ ∃ out trace,
      depthToSirdsIn 1000 [0; 0; 0] 2 0 [9; 9; 9; 9; 9] 0 0 0
      = Returns out trace
      ∧ length out = length [9; 9; 9; 9; 9]
      ∧ (2 = 0 ∨ 0 ≤ 0 → out = [9; 9; 9; 9; 9] ∧ trace = []).
Proof.
  split; [|split].
  - apply (proj1 (depthToSirds_no_validation 1000 [] (-1) 1 [] 0
                    DEFAULT_EYESEP DEFAULT_OBSDIST)). lia.
  - apply (proj1 (depthToSirds_no_validation 1000 [] 1001 1 [] 0
                    DEFAULT_EYESEP DEFAULT_OBSDIST)). lia.
  - apply (proj2 (depthToSirds_no_validation 1000 [0; 0; 0] 2 0
                    [9; 9; 9; 9; 9] 0 0 0)).
    lia.
Defined.

(** C4 fails on the code: each of these calls breaks one of the conditions
    the claim has validated (no column; no row; a depth buffer too long and
    one too short; an output buffer too long and one too short; an eye
    separation of 0; an observer distance of 0), and each returns. *)
Lemma validation_counterexample :
  depthToSirds [] 0 1 [] 0 DEFAULT_EYESEP DEFAULT_OBSDIST = Returns [] []
  ∧ depthToSirds [] 1 0 [] 0 DEFAULT_EYESEP DEFAULT_OBSDIST = Returns [] []
  ∧ (∃ trace, depthToSirds [] 1 1 [9; 9; 9; 9] 0
                DEFAULT_EYESEP DEFAULT_OBSDIST
              = Returns [68; 68; 68; 255] trace)
  ∧ (∃ trace, depthToSirds [0] 1 1 [9; 9] 0
                DEFAULT_EYESEP DEFAULT_OBSDIST
              = Returns [68; 68] trace)
  ∧ (∃ trace, depthToSirds [0; 0; 0] 1 1 [9; 9; 9; 9] 0
                DEFAULT_EYESEP DEFAULT_OBSDIST
              = Returns [68; 68; 68; 255] trace)
  ∧ (∃ trace, depthToSirds [0] 1 1 [9; 9; 9; 9; 9] 0
                DEFAULT_EYESEP DEFAULT_OBSDIST
              = Returns [68; 68; 68; 255; 9] trace)
  ∧ (∃ trace, depthToSirds [255] 1 1 [9; 9; 9; 9] 0 0 DEFAULT_OBSDIST
              = Returns [68; 68; 68; 255] trace)
  ∧ (∃ trace, depthToSirds [255] 1 1 [9; 9; 9; 9] 0 DEFAULT_EYESEP 0
              = Returns [68; 68; 68; 255] trace).
Proof.
  split; [reflexivity|]. split; [reflexivity|].
  repeat split; eexists; vm_compute; reflexivity.
Qed.

(** ** The equations of the separation *)

(** C5. With [d = ht - BKDEPTH], the separation is 0 whenever [d <= 0], in
    particular at the background depth, and is
    [d * eyeSep / (d + obsDist)] whenever [d > 0]; the numbers are doubles,
    and the operations and the comparisons those of doubles. *)
Theorem separation_equations (ht eyeSep obsDist : float) :
  let d := (ht - BKDEPTH)%float in
  ((d <=? 0)%float = true → separation ht eyeSep obsDist = 0%float)
  ∧ ((0 <? d)%float = true
     → separation ht eyeSep obsDist = (d * eyeSep / (d + obsDist))%float)
  ∧ separation BKDEPTH eyeSep obsDist = 0%float.
Proof.
  intros d. split; [|split].
  - intros Hd. unfold separation. fold d. by rewrite Hd.
  - intros Hd. by apply separation_pos.
  - reflexivity.
Qed.

Lemma separation_equations_witness :
  separation (-3) DEFAULT_EYESEP DEFAULT_OBSDIST = 0%float
  ∧ separation 255 DEFAULT_EYESEP DEFAULT_OBSDIST
    = ((255 - BKDEPTH) * DEFAULT_EYESEP / ((255 - BKDEPTH) + DEFAULT_OBSDIST))%float.
Proof.
  split.
  - apply (proj1 (separation_equations (-3) DEFAULT_EYESEP DEFAULT_OBSDIST)).
    reflexivity.
  - apply (proj1 (proj2 (separation_equations 255 DEFAULT_EYESEP DEFAULT_OBSDIST))).
    reflexivity.
Defined.

(** ** Monotonic separation *)




(** ** The pixels of the output *)

(** C7 fails on an image of more than 2^29 pixels: the byte offset
    [(rowOff + x) << 2] of a pixel is a 32-bit integer. In an image of
    32768 by 16385 pixels, with buffers of the sizes of the image, the
    offset of pixel (0, 16384) wraps to [-2^31], its four stores are
    dropped, and its alpha byte is left as it was, here 0. *)
Theorem pixel_offset_wraps :
  Int32.shl (16384 * 32768 + 0) 2 = - 2 ^ 31
  ∧ ∃ out trace,
      depthToSirds (replicate (Z.to_nat (32768 * 16385)) 0) 32768 16385
        (replicate (Z.to_nat (32768 * 16385 * 4)) 0) 0
        DEFAULT_EYESEP DEFAULT_OBSDIST
      = Returns out trace
      ∧ channel out 32768 16384 0 3 = Some 0.
Proof.
  split; [by vm_compute|].
  destruct (depthToSirds_returns (replicate (Z.to_nat (32768 * 16385)) 0)
              32768 16385 (replicate (Z.to_nat (32768 * 16385 * 4)) 0) 0
              DEFAULT_EYESEP DEFAULT_OBSDIST) as (out & trace & E & [_ Hk]);
    [lia|].
  exists out, trace. split; [exact E|].
  unfold channel. rewrite Hk by lia. apply lookupZ_replicate. lia.
Qed.

(** ** The concrete scenario *)

(** C8, with the numbers the code computes. For [width = 10],
    [height = 1], the depth row [0,0,0,0,0,255,0,0,0,0], [eyeSep = 80] and
    [obsDist = 400]: column 5 has [d = 255], a separation of
    [255 * 80 / (255 + 400) = 31.145...], half of it [15.57...],
    [leftX = floor(5 - 15.57...) = -11], out of bounds, so that no link is
    made; the other columns have separation 0; every column is its own
    root, and the pixels hold the successive draws of the stream of the
    seed, fully opaque. *)
Theorem scenario_noise (seed : Z) (data : list Z) :
  40 ≤ lengthZ data →
  (double 255 - BKDEPTH)%float = 255%float
  ∧ separation (double 255) 80 400 = (255 * 80 / (255 + 400))%float
  ∧ (31.145 <? separation (double 255) 80 400)%float = true
  ∧ (separation (double 255) 80 400 <? 31.146)%float = true
  ∧ (15.57 <? separation (double 255) 80 400 * 0.5)%float = true
  ∧ (separation (double 255) 80 400 * 0.5 <? 15.58)%float = true
  ∧ floor (double 5 - separation (double 255) 80 400 * 0.5) = Integer (-11)
  ∧ separation (double 0) 80 400 = 0%float
  ∧ rowLinks scenario 10 80 400 0 = seqZ 0 10
  ∧ ∃ out trace,
      depthToSirds scenario 10 1 data seed 80 400 = Returns out trace
      ∧ ∀ x, 0 ≤ x < 10 →
          (∀ c, 0 ≤ c < 3 →
             channel out 10 0 x c
             = Some (Qfloor (fst (random (advance (Z.to_nat x)
                                            (createSeededRandom seed)))
                             * 256)))
          ∧ channel out 10 0 x 3 = Some 255.
Proof.
  intros Hdata.
  do 8 (split; [by vm_compute|]).
  assert (Hl : rowLinks scenario 10 80 400 0 = seqZ 0 10) by (by vm_compute).
  split; [exact Hl|].
  destruct (depthToSirds_closed_form scenario 10 1 data seed 80 400)
    as (out & trace & E & _ & Hrgb & Ha & _ & _); [lia|lia|lia|].
  exists out, trace. split; [done|]. intros x Hx.
  split; [|apply Ha; lia]. intros c Hc. rewrite Hrgb by lia. f_equal.
  rewrite pixelOf_root; rewrite Hl; [|apply lookupZ_seqZ; lia].
  assert (Hn : (drawsBefore scenario 10 80 400 0 + rootsBefore (seqZ 0 10) x)%nat
               = Z.to_nat x).
  { assert (Hcases : x = 0 ∨ x = 1 ∨ x = 2 ∨ x = 3 ∨ x = 4 ∨ x = 5 ∨ x = 6
                     ∨ x = 7 ∨ x = 8 ∨ x = 9) by lia.
    repeat (destruct Hcases as [->|Hcases]; [by vm_compute|]).
    subst x. by vm_compute. }
  by rewrite Hn.
Qed.

Lemma scenario_noise_witness :
  ∃ out trace,
    depthToSirds scenario 10 1 (replicate 40 0) 0 80 400 = Returns out trace
    ∧ ∀ x, 0 ≤ x < 10 →
        (∀ c, 0 ≤ c < 3 →
           channel out 10 0 x c
           = Some (Qfloor (fst (random (advance (Z.to_nat x)
                                          (createSeededRandom 0)))
                           * 256)))
        ∧ channel out 10 0 x 3 = Some 255.
Proof.
  apply (scenario_noise 0 (replicate 40 0)). vm_compute. discriminate.
Defined.

(** C8 fails on the numbers: [255 * 80 / (255 + 400)] is [31.145...], not
    [31.18...], and half of it is [15.57...], not [15.59]. *)
Lemma scenario_counterexample :
  (31.18 <=? separation (double 255) 80 400)%float = false
  ∧ (15.585 <=? separation (double 255) 80 400 * 0.5)%float = false.
Proof. by vm_compute. Qed.

(** ** Seeds modulo 2^32 *)

(** C9. The stream starts from the seed reduced modulo 2^32: two seeds that
    are congruent modulo 2^32 give the same output, and the same accesses. *)
Theorem depthToSirds_seed_mod (depth : list Z) (width height : Z)
    (data : list Z) (seed1 seed2 : Z) (eyeSep obsDist : float) :
  seed1 mod 2 ^ 32 = seed2 mod 2 ^ 32 →
  createSeededRandom seed1 = seed1 mod 2 ^ 32
  ∧ depthToSirds depth width height data seed1 eyeSep obsDist
    = depthToSirds depth width height data seed2 eyeSep obsDist.
Proof.
  intros H. split; [apply createSeededRandom_mod|].
  unfold depthToSirds, depthToSirdsIn. rewrite !createSeededRandom_mod.
  by rewrite H.
Qed.

Lemma depthToSirds_seed_mod_witness :
  createSeededRandom 7 = 7 mod 2 ^ 32
  ∧ depthToSirds [0; 255; 0; 0] 2 2 (replicate 16 0) 7
      DEFAULT_EYESEP DEFAULT_OBSDIST
    = depthToSirds [0; 255; 0; 0] 2 2 (replicate 16 0) (7 + 2 ^ 32)
        DEFAULT_EYESEP DEFAULT_OBSDIST.
Proof.
  apply (depthToSirds_seed_mod [0; 255; 0; 0] 2 2 (replicate 16 0) 7 (7 + 2 ^ 32)).
  reflexivity.
Defined.

(** ** Array accesses in bounds *)

(** C10 fails on an image of more than 2^29 pixels: the byte offset
    [(rowOff + x) << 2] of a pixel is a 32-bit integer. In an image of
    32768 by 16385 pixels, with buffers of the sizes of the image, the call
    makes a store into the output at the wrapped offset [-2^31] of pixel
    (0, 16384), outside [[0, width * height * 4)]. *)
Theorem store_out_of_bounds :
  32768 * 16385 ≤ lengthZ (replicate (Z.to_nat (32768 * 16385)) 0)
  ∧ 32768 * 16385 * 4 ≤ lengthZ (replicate (Z.to_nat (32768 * 16385 * 4)) 0)
  ∧ ∃ out trace,
      depthToSirds (replicate (Z.to_nat (32768 * 16385)) 0) 32768 16385
        (replicate (Z.to_nat (32768 * 16385 * 4)) 0) 0
        DEFAULT_EYESEP DEFAULT_OBSDIST
      = Returns out trace
      ∧ ¬ Forall (inBounds 32768 16385) trace.
Proof.
  split; [rewrite lengthZ_replicate; lia|].
  split; [rewrite lengthZ_replicate; lia|].
  destruct (depthToSirds_returns (replicate (Z.to_nat (32768 * 16385)) 0)
              32768 16385 (replicate (Z.to_nat (32768 * 16385 * 4)) 0) 0
              DEFAULT_EYESEP DEFAULT_OBSDIST) as (out & trace & E & _);
    [lia|].
  exists out, trace. split; [exact E|]. intros Hall.
  destruct (depthToSirds_stores _ _ _ _ _ _ _ _ _ 16384 0 E) as (e & He & _ & _ & Hi);
    [lia|lia|].
  rewrite list.Forall_forall in Hall. destruct (Hall e He) as [Hidx _].
  assert (Hwrap : Int32.shl (16384 * 32768 + 0) 2 = - 2 ^ 31) by (by vm_compute).
  lia.
Qed.

(** * Further properties of the transform *)

(** ** The stream as a counter *)

(** A draw adds the constant [0x6d2b79f5] to the state, modulo 2^32. *)
Lemma random_state state : snd (random state) = (state + 0x6d2b79f5) mod 2 ^ 32.
Proof.
  unfold random. cbn [snd]. unfold Int32.ushr, Int32.to_uint32.
  change (0 mod 32) with 0. apply Z.shiftr_0_r.
Qed.

Lemma advance_counter n seed :
  advance n (createSeededRandom seed) = (seed + Z.of_nat n * 0x6d2b79f5) mod 2 ^ 32.
Proof.
  induction n as [|n IH].
  - simpl. rewrite createSeededRandom_mod. f_equal. lia.
  - rewrite advance_succ, random_state, IH.
    rewrite Zplus_mod_idemp_l. f_equal. lia.
Qed.

(** X1. The state of the stream is a counter: after [n] draws from the seed
    [seed] it is [seed + n * 0x6d2b79f5] modulo 2^32, the state that the
    seed [seed + n * 0x6d2b79f5] starts from, so that the stream of that
    seed is the stream of [seed] without its first [n] draws. The stream
    repeats after 2^32 draws. *)
Theorem stream_counter (seed : Z) (n : nat) :
  advance n (createSeededRandom seed)
  = (seed + Z.of_nat n * 0x6d2b79f5) mod 2 ^ 32
  ∧ advance n (createSeededRandom seed)
    = createSeededRandom (seed + Z.of_nat n * 0x6d2b79f5)
  ∧ advance (n + Z.to_nat (2 ^ 32)) (createSeededRandom seed)
    = advance n (createSeededRandom seed).
Proof.
  split; [apply advance_counter|]. split.
  - by rewrite advance_counter, createSeededRandom_mod.
  - rewrite !advance_counter.
    replace (seed + Z.of_nat (n + Z.to_nat (2 ^ 32)) * 1831565813)
      with (seed + Z.of_nat n * 1831565813 + 1831565813 * 2 ^ 32) by lia.
    apply Z_mod_plus_full.
Qed.

(** ** Flat rows *)

Lemma valueOf_bind_Some {A B} (c : M A) (k : A → M B) a :
  valueOf c = Some a → valueOf (bind c k) = valueOf (k a).
Proof.
  unfold valueOf, bind. destruct c as [[a' t]|]; simpl; [|done].
  intros [= ->]. by destruct (k a) as [[b t']|].
Qed.

Lemma valueOf_Some {A} (c : M A) a :
  valueOf c = Some a → ∃ t, c = Some (a, t).
Proof.
  unfold valueOf. destruct c as [[a' t]|]; simpl; [|done].
  intros [= ->]. by exists t.
Qed.

Lemma valueOf_forEach_id {St} (body : Z → St → M St) xs s :
  (∀ x, x ∈ xs → valueOf (body x s) = Some s) →
  valueOf (forEach body xs s) = Some s.
Proof.
  induction xs as [|x xs IH]; intros H; [done|].
  simpl. rewrite (valueOf_bind_Some _ _ s).
  - apply IH. intros x' Hx'. apply H. by apply list_elem_of_further.
  - apply H. apply list_elem_of_here.
Qed.

(** A column whose sample makes no link leaves the link buffer as it is. *)
Lemma linkColumn_noLink depth width eyeSep obsDist rowOff x link :
  noLink eyeSep obsDist (lookupZ depth (rowOff + x)) = true →
  valueOf (linkColumn depth width eyeSep obsDist rowOff x link) = Some link.
Proof.
  intros H. unfold linkColumn, load. unfold bind at 1. cbv beta iota zeta.
  destruct (lookupZ depth (rowOff + x)) as [ht|]; simpl in H.
  - simpl number. by rewrite H.
  - simpl number.
    destruct (ends_nan x _ (separation_nan eyeSep obsDist)) as [-> ->].
    done.
Qed.

(** A row of samples that make no link keeps the identity links. *)
Lemma rowLinks_flat depth width eyeSep obsDist y :
  0 ≤ width ≤ 2 ^ 31 →
  (∀ x, 0 ≤ x < width →
     noLink eyeSep obsDist (lookupZ depth (y * width + x)) = true) →
  rowLinks depth width eyeSep obsDist y = seqZ 0 width.
Proof.
  intros Hw H. unfold rowLinks.
  destruct (resetLinks_spec width (replicate (Z.to_nat width) 0))
    as (l & t & E & -> & _); [lia|apply lengthZ_replicate; lia|].
  rewrite E. unfold bind.
  destruct (valueOf_Some (buildLinks depth width eyeSep obsDist (y * width)
                            (seqZ 0 width)) (seqZ 0 width)) as [t' E'].
  { apply valueOf_forEach_id. intros x Hx%elem_of_seqZ.
    apply linkColumn_noLink, H. lia. }
  by rewrite E'.
Qed.

Lemma rootsBefore_seqZ width x :
  0 ≤ x ≤ width → rootsBefore (seqZ 0 width) x = Z.to_nat x.
Proof.
  intros [Hx Hw]. revert Hw. pattern x. apply natlike_ind; [done| |done].
  clear x Hx. intros x Hx IH Hw. unfold Z.succ.
  rewrite rootsBefore_succ by done. rewrite IH by lia.
  rewrite decide_True by (apply lookupZ_seqZ; lia). lia.
Qed.

Lemma drawsBefore_flat depth width eyeSep obsDist y :
  0 ≤ width ≤ 2 ^ 31 → 0 ≤ y →
  (∀ y' x, 0 ≤ y' < y → 0 ≤ x < width →
     noLink eyeSep obsDist (lookupZ depth (y' * width + x)) = true) →
  drawsBefore depth width eyeSep obsDist y = Z.to_nat (y * width).
Proof.
  intros Hw Hy. pattern y. apply natlike_ind; [done| |done].
  clear y Hy. intros y Hy IH H. unfold Z.succ.
  rewrite drawsBefore_succ by done. rewrite IH by (intros; apply H; lia).
  unfold rootsOfRow. rewrite rowLinks_flat; [|done|intros; apply H; lia].
  rewrite rootsBefore_seqZ by lia. nia.
Qed.

(** X2. A depth map without a sample of two pixels of separation or more
    gives noise: no link is made, and pixel [(x, y)] holds draw number [y *
    width + x] of the stream, fully opaque. *)
Theorem flat_noise (depth : list Z) (width height : Z) (data : list Z)
    (seed : Z) (eyeSep obsDist : float) :
  0 ≤ width < 2 ^ 53 → width * height ≤ 2 ^ 29 →
  width * height * 4 ≤ lengthZ data →
  (∀ i, noLink eyeSep obsDist (lookupZ depth i) = true) →
  ∃ out trace,
    depthToSirds depth width height data seed eyeSep obsDist = Returns out trace
    ∧ ∀ y x, 0 ≤ y < height → 0 ≤ x < width →
        rowLinks depth width eyeSep obsDist y = seqZ 0 width
        ∧ (∀ c, 0 ≤ c < 3 →
             channel out width y x c
             = Some (Qfloor (fst (random (advance (Z.to_nat (y * width + x))
                                            (createSeededRandom seed)))
                             * 256)))
        ∧ channel out width y x 3 = Some 255.
Proof.
  intros Hw Hfit Hdata Hflat.
  destruct (depthToSirds_closed_form depth width height data seed eyeSep obsDist)
    as (out & trace & E & _ & Hrgb & Ha & _ & _); [done..|].
  exists out, trace. split; [done|]. intros y x Hy Hx.
  assert (Hw31 : 0 ≤ width ≤ 2 ^ 31) by nia.
  assert (Hl : rowLinks depth width eyeSep obsDist y = seqZ 0 width).
  { apply rowLinks_flat; [done|]. intros. apply Hflat. }
  split; [done|]. split; [|by apply Ha].
  intros c Hc. rewrite Hrgb by done. f_equal.
  rewrite pixelOf_root; rewrite Hl; [|apply lookupZ_seqZ; lia].
  rewrite drawsBefore_flat; [|lia|lia|intros; apply Hflat].
  rewrite rootsBefore_seqZ by lia.
  assert (0 ≤ y * width) by nia.
  by replace (Z.to_nat (y * width) + Z.to_nat x)%nat
    with (Z.to_nat (y * width + x)) by lia.
Qed.

Lemma flat_noise_witness :
  ∃ out trace,
    depthToSirds [0; 0; 1; 0; 0; 0] 3 2 (replicate 24 0) 0
      DEFAULT_EYESEP DEFAULT_OBSDIST = Returns out trace
    ∧ ∀ y x, 0 ≤ y < 2 → 0 ≤ x < 3 →
        rowLinks [0; 0; 1; 0; 0; 0] 3 DEFAULT_EYESEP DEFAULT_OBSDIST y = seqZ 0 3
        ∧ (∀ c, 0 ≤ c < 3 →
             channel out 3 y x c
             = Some (Qfloor (fst (random (advance (Z.to_nat (y * 3 + x))
                                            (createSeededRandom 0)))
                             * 256)))
        ∧ channel out 3 y x 3 = Some 255.
Proof.
  apply (flat_noise [0; 0; 1; 0; 0; 0] 3 2 (replicate 24 0) 0
           DEFAULT_EYESEP DEFAULT_OBSDIST); [lia|lia|vm_compute; discriminate|].
  intros i. unfold lookupZ. case_bool_decide; [|done].
  generalize (Z.to_nat i). intros n.
  do 6 (destruct n as [|n]; [by vm_compute|]). done.
Defined.

(** ** Samples that make no link are alike *)

(** The link loop sees two samples that make no link alike. *)
Lemma linkColumn_alike depth1 depth2 width eyeSep obsDist rowOff x link :
  lookupZ depth1 (rowOff + x) = lookupZ depth2 (rowOff + x)
  ∨ (noLink eyeSep obsDist (lookupZ depth1 (rowOff + x)) = true
     ∧ noLink eyeSep obsDist (lookupZ depth2 (rowOff + x)) = true) →
  valueOf (linkColumn depth1 width eyeSep obsDist rowOff x link)
  = valueOf (linkColumn depth2 width eyeSep obsDist rowOff x link).
Proof.
  intros [H|[H1 H2]].
  - unfold linkColumn, load. rewrite <- H. apply valueOf_bind_trace.
  - by rewrite !linkColumn_noLink.
Qed.

Lemma sirdsRow_alike depth1 depth2 width eyeSep obsDist y m :
  (∀ i, lookupZ depth1 i = lookupZ depth2 i
        ∨ (noLink eyeSep obsDist (lookupZ depth1 i) = true
           ∧ noLink eyeSep obsDist (lookupZ depth2 i) = true)) →
  valueOf (sirdsRow depth1 width eyeSep obsDist y m)
  = valueOf (sirdsRow depth2 width eyeSep obsDist y m).
Proof.
  intros H. unfold sirdsRow. apply valueOf_bind; [done|]. intros link.
  apply valueOf_bind; [|done]. unfold buildLinks, forRange.
  apply valueOf_forEach. intros x l _. apply linkColumn_alike, H.
Qed.

(** X3. A sample that makes no link is as good as another: two depth maps
    that differ only where both have a sample that makes no link (a missing
    sample, a sample at or behind the background, a sample of a separation
    under two pixels) give the same image. *)
Theorem faint_samples_alike (depth1 depth2 : list Z) (width height : Z)
    (data : list Z) (seed : Z) (eyeSep obsDist : float) :
  (∀ i, lookupZ depth1 i = lookupZ depth2 i
        ∨ (noLink eyeSep obsDist (lookupZ depth1 i) = true
           ∧ noLink eyeSep obsDist (lookupZ depth2 i) = true)) →
  (depthToSirds depth1 width height data seed eyeSep obsDist = Throws RangeError
   ∧ depthToSirds depth2 width height data seed eyeSep obsDist = Throws RangeError)
  ∨ ∃ out trace1 trace2,
      depthToSirds depth1 width height data seed eyeSep obsDist
      = Returns out trace1
      ∧ depthToSirds depth2 width height data seed eyeSep obsDist
        = Returns out trace2.
Proof.
  intros H. destruct (decide (width < 0 ∨ 2 ^ 53 ≤ width)) as [Hw|Hw].
  { left. by rewrite !depthToSirds_throws. }
  right.
  destruct (depthToSirds_returns depth1 width height data seed eyeSep obsDist)
    as (out1 & t1 & E1 & _); [lia|].
  destruct (depthToSirds_returns depth2 width height data seed eyeSep obsDist)
    as (out2 & t2 & E2 & _); [lia|].
  exists out1, t1, t2. split; [done|]. rewrite E2. f_equal.
  rewrite depthToSirds_eq in E1, E2 by lia.
  pose proof (valueOf_forEach (sirdsRow depth1 width eyeSep obsDist)
                (sirdsRow depth2 width eyeSep obsDist) (seqZ 0 height)
                (Machine (replicate (Z.to_nat width) 0) data
                   (createSeededRandom seed))) as Hv.
  unfold forRange in E1, E2. unfold valueOf in Hv.
  destruct (forEach (sirdsRow depth1 _ _ _) _ _) as [[m1 u1]|]; [|done].
  destruct (forEach (sirdsRow depth2 _ _ _) _ _) as [[m2 u2]|]; [|done].
  injection E1 as <- <-. injection E2 as <- <-.
  simpl in Hv. assert (Some m1 = Some m2) as [= ->]; [|done].
  apply Hv. intros y m _. by apply sirdsRow_alike.
Qed.

Lemma faint_samples_alike_witness :
  (depthToSirds [0; 255; 0] 3 1 (replicate 12 0) 0 DEFAULT_EYESEP DEFAULT_OBSDIST
   = Throws RangeError
   ∧ depthToSirds [3; 255] 3 1 (replicate 12 0) 0 DEFAULT_EYESEP DEFAULT_OBSDIST
     = Throws RangeError)
  ∨ ∃ out trace1 trace2,
      depthToSirds [0; 255; 0] 3 1 (replicate 12 0) 0
        DEFAULT_EYESEP DEFAULT_OBSDIST
      = Returns out trace1
      ∧ depthToSirds [3; 255] 3 1 (replicate 12 0) 0
          DEFAULT_EYESEP DEFAULT_OBSDIST
        = Returns out trace2.
Proof.
  apply (faint_samples_alike [0; 255; 0] [3; 255] 3 1 (replicate 12 0) 0
           DEFAULT_EYESEP DEFAULT_OBSDIST).
  intros i. unfold lookupZ. case_bool_decide; [|by left].
  generalize (Z.to_nat i). intros n.
  destruct n as [|n]; [right; by vm_compute|].
  destruct n as [|n]; [by left|].
  destruct n as [|n]; [right; by vm_compute|]. by left.
Defined.

(** ** Rows of constant depth *)

Lemma spans_ends half width p r x :
  spans half width p r → 0 ≤ x < width →
  floor (double x - half) = Integer (x + r - p)
  ∧ floor (double x + half) = Integer (x + r).
Proof.
  unfold spans. rewrite list.Forall_forall. intros H Hx. apply H.
  apply elem_of_seqZ. lia.
Qed.

(** The right end of a link is not left of the column that makes it, and
    the left end not right of it. *)
Lemma spans_range sep width p r :
  (sep <? 2)%float = false → 0 < width < 2 ^ 53 →
  spans (sep * 0.5) width p r → 0 ≤ r ≤ p.
Proof.
  intros Hsep Hw Hs. destruct (spans_ends _ _ _ _ 0 Hs) as [El Er]; [lia|].
  destruct (ends_apart 0 sep) as [Hl Hr]; [lia|done|].
  rewrite El in Hl. rewrite Er in Hr. lia.
Qed.

Lemma combLinks_forest width p r k link :
  0 < p → combLinks width p r k link → forest link.
Proof.
  intros Hp [Hlen Hc] i v Hi. pose proof (lookupZ_Some _ _ _ Hi) as Hr.
  rewrite Hc in Hi by lia. injection Hi as <-.
  case_bool_decide; [|lia]. pose proof (Z.mod_pos_bound i p Hp).
  pose proof (Z.mod_le i p). lia.
Qed.

Lemma combLinks_follows width p r k link a n b :
  0 < p → combLinks width p r k link → 0 ≤ a < width →
  follows link a n b → b mod p = a mod p.
Proof.
  intros Hp Hcomb Ha Hf. pose proof (combLinks_forest _ _ _ _ _ Hp Hcomb) as Hfo.
  induction Hf as [|i v n j Hi Hne Hf IH]; [done|].
  pose proof (Hfo _ _ Hi) as Hv. rewrite IH by lia.
  destruct Hcomb as [_ Hc]. rewrite Hc in Hi by done. injection Hi as <-.
  case_bool_decide; [|done]. by rewrite Z.mod_mod by lia.
Qed.

(** A walk that starts left of the cells still to be written ends on the
    residue of its start. *)
Lemma combLinks_root width p r k link a n b :
  0 < p → combLinks width p r k link → 0 ≤ a < width → a < k + r →
  follows link a n b → lookupZ link b = Some b → b = a mod p.
Proof.
  intros Hp Hcomb Ha Hak Hf Hb.
  pose proof (combLinks_follows _ _ _ _ _ _ _ _ Hp Hcomb Ha Hf) as Hmod.
  pose proof (follows_descends _ _ _ _ (combLinks_forest _ _ _ _ _ Hp Hcomb) Hf).
  pose proof (lookupZ_Some _ _ _ Hb) as Hbr.
  destruct Hcomb as [Hlen Hc]. rewrite Hc in Hb by lia. injection Hb as Hb.
  pose proof (Z.mod_pos_bound b p Hp).
  case_bool_decide; [lia|]. rewrite <- Hmod. rewrite Z.mod_small; lia.
Qed.

Section ConstantRow.

Variable depth : list Z.
Variable width : Z.
Variables eyeSep obsDist : float.
Variable rowOff : Z.
Variable ht : Z.
Variables p r : Z.

Hypothesis constant : ∀ x, 0 ≤ x < width → lookupZ depth (rowOff + x) = Some ht.
Hypothesis wide : (separation (double ht) eyeSep obsDist <? 2)%float = false.
Hypothesis regular : spans (separation (double ht) eyeSep obsDist * 0.5) width p r.
Hypothesis positive : 0 < p.
Hypothesis narrow : width ≤ 2 ^ 31.

(** One iteration of the link loop on a row of constant depth. *)
Lemma linkColumn_constant k link :
  0 ≤ k < width →
  combLinks width p r k link →
  yields (linkColumn depth width eyeSep obsDist rowOff k link)
    (combLinks width p r (k + 1))
    (λ _, True).
Proof.
  intros Hk Hcomb.
  assert (Hw53 : 0 < width < 2 ^ 53) by lia.
  destruct (spans_range _ _ _ _ wide Hw53 regular) as [Hr0 Hrp].
  destruct (spans_ends _ _ _ _ k regular Hk) as [Eleft Eright].
  pose proof (combLinks_forest _ _ _ _ _ positive Hcomb) as Hfo.
  unfold linkColumn. eapply yields_bind.
  { by apply (yields_load _ _ _ (λ o, o = lookupZ depth (rowOff + k))). }
  intros ? ->. rewrite constant by done. simpl number.
  rewrite wide, Eleft, Eright. cbn [geZero below differs].
  destruct (_ && _) eqn:Hc.
  - apply andb_prop in Hc as [Hc _]. apply andb_prop in Hc as [Hc1 Hc2].
    apply bool_decide_eq_true in Hc1, Hc2.
    destruct Hcomb as [Hlen Hcells].
    eapply yields_bind.
    { eapply yields_weaken; [apply findRoot_spec; [done| |]| |].
      - lia.
      - unfold lengthZ in Hlen. lia.
      - intros root Hroot. exact Hroot.
      - done. }
    intros ? (root & -> & Hroot & n & Hn).
    assert (Eroot : root = (k + r - p) mod p).
    { eapply (combLinks_root width p r k link); try done; lia. }
    pose proof (Z.mod_pos_bound (k + r - p) p positive).
    simpl toInt32. rewrite to_int32_small by lia.
    apply yields_store; [|done]. split; [by rewrite lengthZ_insertZ|].
    intros c Hcw. destruct (decide (c = k + r)) as [->|Hne].
    + rewrite lookupZ_insertZ_eq by lia. rewrite bool_decide_true by lia.
      f_equal. rewrite Eroot.
      replace (k + r - p) with (k + r + (-1) * p) by lia.
      apply Z_mod_plus_full.
    + rewrite lookupZ_insertZ_ne by done. rewrite Hcells by done.
      f_equal. repeat case_bool_decide; try done; lia.
  - apply yields_ret. destruct Hcomb as [Hlen Hcells]. split; [done|].
    intros c Hcw. rewrite Hcells by done. f_equal.
    apply andb_false_iff in Hc as [Hc|Hc].
    + apply andb_false_iff in Hc as [Hc|Hc]; apply bool_decide_eq_false in Hc;
        repeat case_bool_decide; try done; lia.
    + apply bool_decide_eq_false in Hc.
      assert (Integer (k + r - p) ≠ Integer (k + r)) by (intros [=]; lia).
      done.
Qed.

(** The links of a row of constant depth. *)
Lemma buildLinks_constant :
  0 ≤ width →
  yields (buildLinks depth width eyeSep obsDist rowOff (seqZ 0 width))
    (combLinks width p r width)
    (λ _, True).
Proof.
  intros Hw. unfold buildLinks.
  destruct (decide (width = 0)) as [->|Hw0].
  { apply yields_ret. split; [done|]. intros c Hc. lia. }
  assert (Hw53 : 0 < width < 2 ^ 53) by lia.
  destruct (spans_range _ _ _ _ wide Hw53 regular) as [Hr0 Hrp].
  eapply yields_weaken;
    [apply (yields_forRange (combLinks width p r) (λ _, True))| |done].
  - split; [by apply lengthZ_seqZ|]. intros c Hc.
    rewrite lookupZ_seqZ by done. f_equal. rewrite bool_decide_false; [done|lia].
  - intros k link Hk Hcomb. by apply linkColumn_constant.
  - intros link. by rewrite Z.max_r.
Qed.

End ConstantRow.

Lemma rowLinks_constant depth width eyeSep obsDist y ht p r :
  0 ≤ width ≤ 2 ^ 31 →
  (∀ x, 0 ≤ x < width → lookupZ depth (y * width + x) = Some ht) →
  (separation (double ht) eyeSep obsDist <? 2)%float = false →
  spans (separation (double ht) eyeSep obsDist * 0.5) width p r →
  0 < p →
  combLinks width p r width (rowLinks depth width eyeSep obsDist y).
Proof.
  intros Hw Hconst Hwide Hspans Hp. unfold rowLinks.
  destruct (resetLinks_spec width (replicate (Z.to_nat width) 0))
    as (l & t & E & -> & _); [lia|apply lengthZ_replicate; lia|].
  rewrite E. unfold bind.
  destruct (buildLinks_constant depth width eyeSep obsDist (y * width) ht p r
              Hconst Hwide Hspans Hp) as (link & t' & E' & Hcomb & _); [lia..|].
  by rewrite E'.
Qed.

Lemma combLinks_rootOf width p r link x :
  0 < p → combLinks width p r width link → 0 ≤ r → 0 ≤ x < width →
  rootOf link x = x mod p.
Proof.
  intros Hp Hcomb Hr Hx.
  pose proof (combLinks_forest _ _ _ _ _ Hp Hcomb) as Hfo.
  destruct (rootOf_spec link x Hfo) as (Hroot & _ & n & Hn).
  { destruct Hcomb as [-> _]. done. }
  eapply (combLinks_root width p r width link); try done; lia.
Qed.

Lemma combLinks_rootsBefore width p r k link x :
  combLinks width p r k link → 0 ≤ x → x ≤ p → x ≤ width →
  rootsBefore link x = Z.to_nat x.
Proof.
  intros [Hlen Hc] Hx. pattern x. apply natlike_ind; [done| |done].
  clear x Hx. intros x Hx IH Hp Hw. unfold Z.succ in *.
  rewrite rootsBefore_succ by done. rewrite IH by lia.
  rewrite decide_True; [lia|]. rewrite Hc by lia.
  rewrite bool_decide_false; [done|lia].
Qed.

(** X4. A row of constant depth repeats. When every sample of row [y] is
    [ht], with a separation of two pixels or more, and the links of the
    row all span [p] columns, [r] of them right of the column that makes
    the link (the two ends are floored doubles, and the hypothesis says
    that the roundings give the same span in every column of the row), the
    first [p] pixels of the row are successive draws of the stream and
    every pixel equals the pixel [p] columns to its left. *)
Theorem constant_row_periodic (depth : list Z) (width height : Z)
    (data : list Z) (seed : Z) (eyeSep obsDist : float) (y ht p r : Z) :
  let sep := separation (double ht) eyeSep obsDist in
  0 ≤ width → width * height ≤ 2 ^ 29 → width * height * 4 ≤ lengthZ data →
  0 ≤ y < height →
  (∀ x, 0 ≤ x < width → lookupZ depth (y * width + x) = Some ht) →
  (sep <? 2)%float = false →
  spans (sep * 0.5) width p r → 0 < p →
  ∃ out trace,
    depthToSirds depth width height data seed eyeSep obsDist = Returns out trace
    ∧ (∀ x c, 0 ≤ x < width → 0 ≤ c < 3 →
         channel out width y x c
         = Some (Qfloor (fst (random (advance
                     (drawsBefore depth width eyeSep obsDist y
                      + Z.to_nat (x mod p))
                     (createSeededRandom seed))) * 256)))
    ∧ (∀ x c, 0 ≤ x → x + p < width → 0 ≤ c < 4 →
         channel out width y (x + p) c = channel out width y x c).
Proof.
  intros sep Hw Hfit Hdata Hy Hconst Hwide Hspans Hp0.
  assert (Hw31 : 0 ≤ width ≤ 2 ^ 31) by nia.
  pose proof (rowLinks_constant depth width eyeSep obsDist y ht p r Hw31 Hconst
                Hwide Hspans Hp0) as Hcomb.
  set (link := rowLinks depth width eyeSep obsDist y) in *.
  destruct (depthToSirds_closed_form depth width height data seed eyeSep obsDist)
    as (out & trace & E & _ & Hrgb & Ha & _ & _); [lia|done|done|].
  exists out, trace. split; [done|].
  assert (Hpix : ∀ x, 0 ≤ x < width →
            pixelOf depth width seed eyeSep obsDist y x
            = Qfloor (fst (random (advance
                       (drawsBefore depth width eyeSep obsDist y
                        + Z.to_nat (x mod p))
                       (createSeededRandom seed))) * 256)).
  { intros x Hx. pose proof (Z.mod_pos_bound x p Hp0) as Hm.
    pose proof (Z.mod_le x p) as Hle.
    assert (Hw53 : 0 < width < 2 ^ 53) by lia.
    destruct (spans_range sep width p r Hwide Hw53 Hspans) as [Hr0 Hrp].
    unfold pixelOf, colorOf. fold link.
    rewrite (combLinks_rootOf width p r link x Hp0 Hcomb) by lia.
    rewrite (combLinks_rootsBefore width p r width link (x mod p) Hcomb) by lia.
    rewrite gray_eq. by rewrite Nat.add_comm, advance_add. }
  split.
  - intros x c Hx Hc. rewrite Hrgb by done. f_equal. by apply Hpix.
  - intros x c Hx Hxp Hc. destruct (decide (c = 3)) as [->|Hc3].
    + rewrite !Ha; [done|lia..].
    + rewrite !Hrgb by lia. f_equal. rewrite !Hpix by lia.
      replace (x + p) with (x + 1 * p) by lia. by rewrite Z_mod_plus_full.
Qed.

(** A row of 40 samples 255, with an eye separation of 80 and an observer
    distance of 400: the links span 31 columns, 15 of them to the right. *)
Lemma constant_row_periodic_witness :
  ∃ out trace,
    depthToSirds (replicate 40 255) 40 1 (replicate 160 0) 0 80 400
    = Returns out trace
    ∧ (∀ x c, 0 ≤ x < 40 → 0 ≤ c < 3 →
         channel out 40 0 x c
         = Some (Qfloor (fst (random (advance
                     (drawsBefore (replicate 40 255) 40 80 400 0
                      + Z.to_nat (x mod 31))
                     (createSeededRandom 0))) * 256)))
    ∧ (∀ x c, 0 ≤ x → x + 31 < 40 → 0 ≤ c < 4 →
         channel out 40 0 (x + 31) c = channel out 40 0 x c).
Proof.
  apply (constant_row_periodic (replicate 40 255) 40 1 (replicate 160 0) 0
           80 400 0 255 31 15); [lia|lia|vm_compute; discriminate|lia| | | |lia].
  - intros x Hx. apply (lookupZ_replicate 40). lia.
  - by vm_compute.
  - apply (bool_decide_unpack _). by vm_compute.
Defined.

(** ** The forest of links, up to 2^31 columns *)

(** X28. In a row of at most 2^31 columns the reset loop leaves the
    identity links, and after any number [k] of iterations of the link
    loop: every cell [x] of the link buffer holds an index [<= x]; from
    every column the walk of [findRoot] ends on a fixed point in fewer than
    [width] steps; no walk revisits a node; and every store the link loop
    made wrote an index strictly less than the index of the cell written. *)
Theorem forest_invariant (depth : list Z) (width : Z) (eyeSep obsDist : float)
    (rowOff : Z) (link0 : list Z) (k : Z) :
  width ≤ 2 ^ 31 → lengthZ link0 = width → k ≤ width →
  yields (resetLinks width link0) (λ link, link = seqZ 0 width)
    (resetAccess width)
  ∧ yields (forRange k (linkColumn depth width eyeSep obsDist rowOff)
              (seqZ 0 width))
      (λ link,
         (∀ x, 0 ≤ x < width → ∃ v, lookupZ link x = Some v ∧ v ≤ x)
         ∧ walksEnd width link ∧ noRevisit link)
      (λ e, acc_buf e = Link → acc_mode e = Store →
            0 ≤ acc_idx e < width
            ∧ ∃ v, acc_val e = Some v ∧ v < acc_idx e).
Proof.
  intros Hw31 Hlen Hk.
  assert (Hw : 0 ≤ width) by (unfold lengthZ in Hlen; lia).
  split; [by apply resetLinks_spec|].
  eapply yields_weaken;
    [apply (buildLinks_prefix depth width eyeSep obsDist rowOff (seqZ 0 width) k);
     [done|by apply lengthZ_seqZ|apply forest_seqZ|done]| |].
  - intros link [Hl Hf]. split; [|split].
    + intros x Hx. destruct (lookupZ_is_Some link x) as [v Hv]; [lia|].
      exists v. split; [done|]. apply (Hf _ _ Hv).
    + by apply forest_walksEnd.
    + by apply forest_noRevisit.
  - intros e He Hb Hm. unfold linkAccess in He. rewrite Hb, Hm in He.
    destruct He as (Hi & _ & v & Hv & Hlt). split; [done|].
    exists v. split; [done|lia].
Qed.

Lemma forest_invariant_witness :
  yields (resetLinks 40 (replicate 40 0)) (λ link, link = seqZ 0 40)
    (resetAccess 40)
  ∧ yields (forRange 23 (linkColumn band 40 80 400 0) (seqZ 0 40))
      (λ link,
         (∀ x, 0 ≤ x < 40 → ∃ v, lookupZ link x = Some v ∧ v ≤ x)
         ∧ walksEnd 40 link ∧ noRevisit link)
      (λ e, acc_buf e = Link → acc_mode e = Store →
            0 ≤ acc_idx e < 40
            ∧ ∃ v, acc_val e = Some v ∧ v < acc_idx e).
Proof.
  apply (forest_invariant band 40 80 400 0 (replicate 40 0) 23).
  - lia.
  - reflexivity.
  - lia.
Defined.

(** ** The pixels of an image of at most 2^29 pixels *)

(** X29. For an image of at most 2^29 pixels whose output buffer has room
    for it, the call returns (or throws, for a width the link buffer cannot
    have), and after it, for every pixel [(x, y)]: the alpha byte is 255;
    the three colour bytes are those of the pixel at the root of the chain
    of [x] in row [y]; a root column holds the gray level
    [floor(random() * 256)] of the draw made when the scan reached it, in
    its three colour bytes; a column that is not a root links to a column
    strictly to its left and holds a copy of its three colour bytes. *)
Theorem depthToSirds_pixels (depth : list Z) (width height : Z)
    (data : list Z) (seed : Z) (eyeSep obsDist : float) :
  width * height ≤ 2 ^ 29 → width * height * 4 ≤ lengthZ data →
  depthToSirds depth width height data seed eyeSep obsDist = Throws RangeError
  ∨ ∃ out trace,
      depthToSirds depth width height data seed eyeSep obsDist = Returns out trace
      ∧ ∀ y x, 0 ≤ y < height → 0 ≤ x < width →
          let link := rowLinks depth width eyeSep obsDist y in
          let drawn :=
            (drawsBefore depth width eyeSep obsDist y + rootsBefore link x)%nat in
          channel out width y x 3 = Some 255
          ∧ (∀ c, 0 ≤ c < 3 →
               is_Some (channel out width y x c)
               ∧ channel out width y x c = channel out width y (rootOf link x) c)
          ∧ (lookupZ link x = Some x →
             ∀ c, 0 ≤ c < 3 →
               channel out width y x c
               = Some (Qfloor (fst (random (advance drawn (createSeededRandom seed)))
                               * 256)))
          ∧ (∀ lx, lookupZ link x = Some lx → lx ≠ x →
               0 ≤ lx < x
               ∧ ∀ c, 0 ≤ c < 3 →
                   channel out width y x c = channel out width y lx c).
Proof.
  intros Hfit Hdata.
  destruct (decide (width < 0 ∨ 2 ^ 53 ≤ width)) as [Hneg|Hneg].
  { left. by apply depthToSirds_throws. }
  right. assert (Hw : 0 ≤ width < 2 ^ 53) by lia.
  destruct (depthToSirds_closed_form depth width height data seed eyeSep obsDist
              Hw Hfit Hdata) as (out & trace & E & _ & Hrgb & Ha & _ & _).
  exists out, trace. split; [done|]. intros y x Hy Hx link drawn.
  assert (Hw31 : width ≤ 2 ^ 31) by nia.
  destruct (linkPhase_spec depth width eyeSep obsDist y
              (replicate (Z.to_nat width) 0) Hw31
              (lengthZ_replicate _ _ (proj1 Hw)))
    as (l & _ & _ & (-> & Hlen & Hf) & _). fold link in Hlen, Hf.
  assert (Hxl : 0 ≤ x < lengthZ link) by lia.
  destruct (rootOf_spec link x Hf Hxl) as (Hroot & Hrx & _).
  split; [by apply Ha|]. split; [|split].
  - intros c Hc. rewrite !Hrgb by lia. split; [done|]. f_equal.
    unfold pixelOf, colorOf. fold link. by rewrite rootOf_idem.
  - intros Hr c Hc. rewrite Hrgb by lia. f_equal. by apply pixelOf_root.
  - intros lx Hlx Hne. pose proof (Hf _ _ Hlx) as Hle. split; [lia|].
    intros c Hc. rewrite !Hrgb by lia. f_equal.
    unfold pixelOf, colorOf. fold link. by rewrite (rootOf_step link x lx).
Qed.

Lemma depthToSirds_pixels_witness :
  depthToSirds band 40 1 (replicate 160 0) 0 80 400 = Throws RangeError
  ∨ ∃ out trace,
      depthToSirds band 40 1 (replicate 160 0) 0 80 400 = Returns out trace
      ∧ ∀ y x, 0 ≤ y < 1 → 0 ≤ x < 40 →
          let link := rowLinks band 40 80 400 y in
          let drawn := (drawsBefore band 40 80 400 y + rootsBefore link x)%nat in
          channel out 40 y x 3 = Some 255
          ∧ (∀ c, 0 ≤ c < 3 →
               is_Some (channel out 40 y x c)
               ∧ channel out 40 y x c = channel out 40 y (rootOf link x) c)
          ∧ (lookupZ link x = Some x →
             ∀ c, 0 ≤ c < 3 →
               channel out 40 y x c
               = Some (Qfloor (fst (random (advance drawn (createSeededRandom 0)))
                               * 256)))
          ∧ (∀ lx, lookupZ link x = Some lx → lx ≠ x →
               0 ≤ lx < x
               ∧ ∀ c, 0 ≤ c < 3 → channel out 40 y x c = channel out 40 y lx c).
Proof.
  apply (depthToSirds_pixels band 40 1 (replicate 160 0) 0 80 400).
  - lia.
  - vm_compute. discriminate.
Defined.

(** ** The accesses of a call on an image of at most 2^29 pixels *)

(** X30. For an image of at most 2^29 pixels, with a depth buffer of at
    least [width * height] samples and an output buffer of at least
    [width * height * 4] bytes, a call returns (or throws before any
    access, for a width the link buffer cannot have) and each of its array
    accesses is in bounds: reads of the depth map in
    [[0, width * height)], reads and stores of the link buffer, those of
    [findRoot] among them, in [[0, width)], reads and stores of the output
    in [[0, width * height * 4)]; no read yields [undefined]; every draw
    lies in [[0, 1)] and every gray level is an integer from 0 to 255. *)
Theorem depthToSirds_in_bounds (depth : list Z) (width height : Z)
    (data : list Z) (seed : Z) (eyeSep obsDist : float) :
  width * height ≤ 2 ^ 29 →
  width * height ≤ lengthZ depth → width * height * 4 ≤ lengthZ data →
  (depthToSirds depth width height data seed eyeSep obsDist = Throws RangeError
   ∨ ∃ out trace,
       depthToSirds depth width height data seed eyeSep obsDist = Returns out trace
       ∧ Forall (inBounds width height) trace)
  ∧ (∀ state, (0 <= fst (random state) < 1)%Q
              ∧ 0 ≤ Qfloor (fst (random state) * 256) ≤ 255).
Proof.
  intros Hfit Hdepth Hdata. split.
  - destruct (decide (width < 0 ∨ 2 ^ 53 ≤ width)) as [Hneg|Hneg].
    { left. by apply depthToSirds_throws. }
    right. assert (Hw : 0 ≤ width < 2 ^ 53) by lia.
    destruct (depthToSirds_closed_form depth width height data seed eyeSep
                obsDist Hw Hfit Hdata) as (out & trace & E & _ & _ & _ & _ & Ht).
    exists out, trace. split; [done|].
    eapply list.Forall_impl; [exact Ht|].
    intros e (y & Hy & He).
    apply (rowAccess_inBounds depth width height data y); [lia|done..].
  - intros state. split; [apply random_range|apply random_byte].
Qed.

Lemma depthToSirds_in_bounds_witness :
  (depthToSirds band 40 1 (replicate 160 0) 0 80 400 = Throws RangeError
   ∨ ∃ out trace,
       depthToSirds band 40 1 (replicate 160 0) 0 80 400 = Returns out trace
       ∧ Forall (inBounds 40 1) trace)
  ∧ (∀ state, (0 <= fst (random state) < 1)%Q
              ∧ 0 ≤ Qfloor (fst (random state) * 256) ≤ 255).
Proof.
  apply (depthToSirds_in_bounds band 40 1 (replicate 160 0) 0 80 400).
  - lia.
  - vm_compute. discriminate.
  - vm_compute. discriminate.
Defined.

(** * Properties of the game *)

(** ** Arrays and shapes *)

Lemma element_Some {A} (a : list A) i v :
  element a i = Some v ↔ 0 ≤ i ∧ a !! Z.to_nat i = Some v.
Proof.
  unfold element. case_bool_decide; [|split; [done|lia]].
  split; [done|]. by intros [_ ?].
Qed.

Lemma element_lt {A} (a : list A) i :
  0 ≤ i → (Z.to_nat i < length a)%nat → is_Some (element a i).
Proof.
  intros Hi Hl. unfold element. rewrite bool_decide_true by done.
  by apply lookup_lt_is_Some.
Qed.

Lemma bind_Value {A B} (c : result A) (k : A → result B) b :
  c ≫= k = Value b ↔ ∃ a, c = Value a ∧ k a = Value b.
Proof.
  destruct c as [a| |]; simpl.
  - split; [by exists a|]. by intros (? & [= <-] & ?).
  - split; [done|]. by intros (? & ? & _).
  - split; [done|]. by intros (? & ? & _).
Qed.

(** Every orientation of the table has four distinct tiles, the pivot among
    them, no tile further than two cells from the pivot. *)
Lemma NRS_OFFSETS_shape :
  Forall (λ offsets, length offsets = 4%nat ∧ NoDup offsets ∧ (0, 0) ∈ offsets
                     ∧ Forall (λ o, -2 ≤ o.1 ≤ 1 ∧ -2 ≤ o.2 ≤ 1) offsets)
    NRS_OFFSETS.
Proof. by apply (bool_decide_unpack _). Qed.

Lemma map_fmap {A B} (f : A → B) (l : list A) : map f l = f <$> l.
Proof. done. Qed.

(** [nrsIndex] by cases: the rotation counts for T, J and L only. *)
Lemma nrsIndex_cases type rotation :
  (type = 2 ∧ nrsIndex type rotation = rotation)
  ∨ (type = 5 ∧ nrsIndex type rotation = 4 + rotation)
  ∨ (type = 6 ∧ nrsIndex type rotation = 13 + rotation)
  ∨ (type ≠ 2 ∧ type ≠ 5 ∧ type ≠ 6 ∧ 0 ≤ nrsIndex type rotation < 19).
Proof.
  unfold nrsIndex.
  destruct type as [|[[[?|?|]|[?|?|]|]|[[?|?|]|[?|?|]|]|]|?];
    try case_bool_decide; lia.
Qed.

Lemma getShapeCells_Value type rotation cells :
  getShapeCells type rotation = Value cells →
  length cells = 4%nat ∧ NoDup cells ∧ (0, 0) ∈ cells
  ∧ Forall (λ c, -2 ≤ c.1 ≤ 1 ∧ -2 ≤ c.2 ≤ 1) cells.
Proof.
  unfold getShapeCells. intros (offsets & E & [= <-])%bind_Value.
  destruct (element NRS_OFFSETS _) as [o|] eqn:Eo; [|done].
  injection E as ->. apply element_Some in Eo as [_ Eo].
  destruct (proj1 (list.Forall_lookup _ _) NRS_OFFSETS_shape _ _ Eo)
    as (Hlen & Hnd & Hin & Hbox).
  rewrite map_fmap. split; [by rewrite length_fmap|]. split; [|split].
  - apply NoDup_fmap_2; [|done]. by intros [a b] [c d] [= -> ->].
  - apply list_elem_of_fmap. by exists (0, 0).
  - apply Forall_fmap. eapply list.Forall_impl; [done|].
    intros [dc dr]. simpl. lia.
Qed.

Lemma getShapeCells_TypeError type rotation :
  getShapeCells type rotation = TypeError ↔ ¬ (0 ≤ nrsIndex type rotation < 19).
Proof.
  unfold getShapeCells, element. case_bool_decide as Hi.
  - destruct (NRS_OFFSETS !! _) as [o|] eqn:E; simpl.
    + apply lookup_lt_Some in E. simpl in E. split; [done|lia].
    + apply lookup_ge_None in E. simpl in E. split; [lia|done].
  - simpl. split; [lia|done].
Qed.

(** X5. [getShapeCells] gives a tetromino around the pivot: four distinct
    cells, the pivot [(0, 0)] among them, none further than two cells from
    it. It throws only for a T, J or L piece whose rotation is not one of 0,
    1, 2, 3. *)
Theorem getShapeCells_tetromino (type rotation : Z) :
  (getShapeCells type rotation = TypeError
   ∧ (type = 2 ∨ type = 5 ∨ type = 6) ∧ ¬ (0 ≤ rotation ≤ 3))
  ∨ ∃ cells,
      getShapeCells type rotation = Value cells
      ∧ length cells = 4%nat ∧ NoDup cells ∧ (0, 0) ∈ cells
      ∧ Forall (λ c, -2 ≤ c.1 ≤ 1 ∧ -2 ≤ c.2 ≤ 1) cells.
Proof.
  destruct (getShapeCells type rotation) as [cells| |] eqn:E.
  - right. exists cells. split; [done|]. by apply getShapeCells_Value in E.
  - left. split; [done|]. apply getShapeCells_TypeError in E.
    destruct (nrsIndex_cases type rotation) as [[-> H]|[[-> H]|[[-> H]|H]]]; lia.
  - unfold getShapeCells in E. by destruct (element _ _).
Qed.

(** ** Rotation *)

Lemma rotatePiece_O r x y : rotatePiece (Piece.make 1 r x y) = Piece.make 1 r x y.
Proof. done. Qed.

Lemma rotatePiece_I r x y :
  rotatePiece (Piece.make 0 r x y) = Piece.make 0 (Z.rem (r + 1) 2) x y.
Proof. done. Qed.

Lemma rotatePiece_other type r x y :
  type ≠ 1 → type ≠ 0 →
  rotatePiece (Piece.make type r x y) = Piece.make type (Z.rem (r + 1) 4) x y.
Proof.
  intros H1 H0. unfold rotatePiece. simpl.
  by rewrite !bool_decide_false by done.
Qed.

(** X6. [rotatePiece] changes the rotation only, keeps it among the states
    of the type, and comes back to the piece after as many rotations as the
    type has states. *)
Theorem rotatePiece_cycle (p : Piece.t) :
  let n := rotationStates (Piece.type p) in
  0 ≤ Piece.rotation p < n →
  rotatePiece p
  = Piece.make (Piece.type p) ((Piece.rotation p + 1) mod n) (Piece.x p) (Piece.y p)
  ∧ 0 ≤ Piece.rotation (rotatePiece p) < n
  ∧ Nat.iter (Z.to_nat n) rotatePiece p = p.
Proof.
  destruct p as [type r x y]. unfold rotationStates. simpl.
  case_bool_decide as H1; [|case_bool_decide as H0].
  - subst type. intros Hr. assert (r = 0) as -> by lia. done.
  - subst type. intros Hr. rewrite rotatePiece_I.
    assert (r = 0 ∨ r = 1) as [->| ->] by lia; done.
  - intros Hr. simpl. rewrite rotatePiece_other by done.
    assert (r = 0 ∨ r = 1 ∨ r = 2 ∨ r = 3) as [->|[->|[->| ->]]] by lia;
      (split; [done|]; split; [done|]);
      by rewrite !rotatePiece_other by done.
Qed.

Lemma rotatePiece_cycle_witness :
  rotatePiece (Piece.make 2 3 4 1) = Piece.make 2 ((3 + 1) mod 4) 4 1
  ∧ 0 ≤ Piece.rotation (rotatePiece (Piece.make 2 3 4 1)) < 4
  ∧ Nat.iter (Z.to_nat 4) rotatePiece (Piece.make 2 3 4 1) = Piece.make 2 3 4 1.
Proof. apply (rotatePiece_cycle (Piece.make 2 3 4 1)). by vm_compute. Defined.

Lemma pieceCells_eq type r x y :
  pieceCells (Piece.make type r x y)
  = cells ← getShapeCells type r; mret (map (λ '(dr, dc), (y + dr, x + dc)) cells).
Proof. done. Qed.

(** Two pieces at the same position have the same cells only with the
    same shape. *)
Lemma pieceCells_inj type1 r1 type2 r2 x y :
  pieceCells (Piece.make type1 r1 x y) = pieceCells (Piece.make type2 r2 x y)
  ↔ getShapeCells type1 r1 = getShapeCells type2 r2.
Proof.
  rewrite !pieceCells_eq. split; [|by intros ->].
  destruct (getShapeCells type1 r1) as [c1| |],
    (getShapeCells type2 r2) as [c2| |]; simpl; try done.
  rewrite !map_fmap. intros [= H]. f_equal. revert H.
  apply list_fmap_eq_inj. intros [a b] [c d] [= ? ?]. f_equal; lia.
Qed.

(** X7. An S or a Z piece has four rotation states and two shapes: the
    states 1, 2 and 3 all show the vertical shape, so that the rotations
    from state 1 and from state 2 leave the cells of the piece as they are,
    and only those. *)
Theorem rotatePiece_S_Z (p : Piece.t) :
  Piece.type p = 3 ∨ Piece.type p = 4 → 0 ≤ Piece.rotation p ≤ 3 →
  rotatePiece p ≠ p
  ∧ (pieceCells (rotatePiece p) = pieceCells p
     ↔ Piece.rotation p = 1 ∨ Piece.rotation p = 2).
Proof.
  destruct p as [type r x y]. simpl. intros Ht Hr.
  assert (r = 0 ∨ r = 1 ∨ r = 2 ∨ r = 3) as Hcases by lia.
  destruct Ht as [-> | ->];
    destruct Hcases as [->|[->|[->| ->]]];
    (split; [done|]); rewrite rotatePiece_other by done;
    rewrite pieceCells_inj; (split; [|intros [?|?]; done]);
    try (intros _; lia); by vm_compute.
Qed.

Lemma rotatePiece_S_Z_witness :
  rotatePiece (Piece.make 3 1 4 5) ≠ Piece.make 3 1 4 5
  ∧ (pieceCells (rotatePiece (Piece.make 3 1 4 5)) = pieceCells (Piece.make 3 1 4 5)
     ↔ 1 = 1 ∨ 1 = 2).
Proof. apply (rotatePiece_S_Z (Piece.make 3 1 4 5)); simpl; lia. Defined.

(** ** Spawning *)

(** X8. [createPiece] throws a [TypeError] for every type that is not one
    of 0 to 6. For every type from 0 to 6 it makes the piece of that type
    in its first rotation, at a pivot where its four cells are on the
    board, its top cell on row 0, and the piece does not collide on the
    empty grid. *)
Theorem createPiece_spawn (type : Z) :
  (¬ (0 ≤ type ≤ 6) → createPiece type = TypeError)
  ∧ (0 ≤ type ≤ 6 →
     ∃ p cells,
       createPiece type = Value p
       ∧ Piece.type p = type ∧ Piece.rotation p = 0
       ∧ pieceCells p = Value cells
       ∧ Forall inside cells ∧ Exists (λ c, c.1 = 0) cells
       ∧ collides emptyGrid p = Value false).
Proof.
  split.
  - intros Ht. unfold createPiece, element.
    case_bool_decide; [|done].
    rewrite lookup_ge_None_2; [done|]. simpl. lia.
  - intros Ht.
    assert (type = 0 ∨ type = 1 ∨ type = 2 ∨ type = 3 ∨ type = 4 ∨ type = 5
            ∨ type = 6) as [->|[->|[->|[->|[->|[->| ->]]]]]] by lia;
      (eexists _, _; split; [by vm_compute|]; split; [done|]; split; [done|];
       split; [by vm_compute|]; split; [by apply (bool_decide_unpack _)|];
       split; [by apply (bool_decide_unpack _)|by vm_compute]).
Qed.

Lemma createPiece_spawn_witness :
  createPiece 7 = TypeError
  ∧ createPiece (-1) = TypeError
  ∧ ∃ p cells,
      createPiece 2 = Value p
      ∧ Piece.type p = 2 ∧ Piece.rotation p = 0
      ∧ pieceCells p = Value cells
      ∧ Forall inside cells ∧ Exists (λ c, c.1 = 0) cells
      ∧ collides emptyGrid p = Value false.
Proof.
  split; [|split].
  - apply (proj1 (createPiece_spawn 7)). lia.
  - apply (proj1 (createPiece_spawn (-1))). lia.
  - apply (proj2 (createPiece_spawn 2)). lia.
Defined.

(** ** Collisions *)

Lemma cellAt_row grid row col r :
  element grid row = Some r → cellAt grid row col = mjoin (element r col).
Proof. intros E. unfold cellAt. by rewrite E. Qed.

(** The loop of [collides] on a grid of [ROWS] rows or more. *)
Lemma collidesCells_spec grid cells :
  (Z.to_nat ROWS ≤ length grid)%nat →
  ∃ b, collidesCells grid cells = Value b ∧ (b = false ↔ Forall (free grid) cells).
Proof.
  intros Hlen. induction cells as [|[row col] cells IH].
  { exists false. by split. }
  simpl. destruct (_ || _) eqn:Hout.
  - exists true. split; [done|]. split; [done|].
    intros [[[H1 H2] _] _]%Forall_cons_1. simpl in *.
    rewrite !orb_true_iff, !bool_decide_eq_true in Hout. lia.
  - rewrite !orb_false_iff, !bool_decide_eq_false in Hout.
    destruct Hout as [[[H1 H2] H3] H4].
    destruct (element_lt grid row) as [r Er]; [lia|lia|].
    rewrite Er. simpl. rewrite <- (cellAt_row grid row col r Er).
    destruct (truthy (cellAt grid row col)) eqn:Hc.
    + exists true. split; [done|]. split; [done|].
      intros [[_ Hf] _]%Forall_cons_1. simpl in Hf. congruence.
    + destruct IH as (b & -> & Hb). exists b. split; [done|].
      rewrite Hb. split.
      * intros Hall. apply Forall_cons_2; [|done].
        split; [split; simpl; lia|done].
      * by intros [_ ?]%Forall_cons_1.
Qed.

(** X9. [collides] reads the grid at cells of the board only: on a grid of
    [ROWS] rows or more it throws nothing, whatever the rows hold, and it
    answers [false] exactly when each cell of the piece is on the board and
    holds nothing truthy there. *)
Theorem collides_free (grid : Grid) (p : Piece.t) (cells : list (Z * Z)) :
  pieceCells p = Value cells → (Z.to_nat ROWS ≤ length grid)%nat →
  ∃ b, collides grid p = Value b ∧ (b = false ↔ Forall (free grid) cells).
Proof.
  intros Hp Hlen. unfold collides. rewrite Hp. simpl.
  by apply collidesCells_spec.
Qed.

Lemma collides_free_witness :
  ∃ b, collides emptyGrid (Piece.make 2 0 4 1) = Value b
       ∧ (b = false ↔ Forall (free emptyGrid) [(1, 3); (1, 4); (1, 5); (0, 4)]).
Proof.
  apply (collides_free emptyGrid (Piece.make 2 0 4 1)); [reflexivity|].
  vm_compute. lia.
Defined.

(** ** Merging *)

(** A cell store into a row, read back. *)
Lemma assign_lookup (r : Row) col v col' :
  0 ≤ col →
  mjoin (element (assign r col v) col')
  = if bool_decide (col' = col) then Some v else mjoin (element r col').
Proof.
  intros Hc. unfold assign. rewrite bool_decide_false by lia.
  unfold element. destruct (decide (0 ≤ col')) as [Hc'|Hc'].
  2: { rewrite !(bool_decide_false (0 ≤ col')) by done.
       by rewrite (bool_decide_false (col' = col)) by lia. }
  rewrite !(bool_decide_true (0 ≤ col')) by done.
  destruct (decide (col < Z.of_nat (length r))) as [Hlt|Hlt].
  - rewrite (bool_decide_true (col < _)) by done.
    case_bool_decide as He.
    + subst col'. by rewrite list_lookup_insert_eq by lia.
    + by rewrite list_lookup_insert_ne by lia.
  - rewrite (bool_decide_false (col < _)) by done.
    destruct (decide (Z.to_nat col' < length r)%nat) as [Hl|Hl].
    { rewrite lookup_app_l by done. by rewrite bool_decide_false by lia. }
    rewrite lookup_app_r by lia. rewrite (lookup_ge_None_2 r) by lia.
    destruct (decide (Z.to_nat col' - length r < Z.to_nat col - length r)%nat)
      as [Hm|Hm].
    { rewrite lookup_app_l by (by rewrite length_replicate).
      rewrite lookup_replicate_2 by done. by rewrite bool_decide_false by lia. }
    rewrite lookup_app_r by (rewrite length_replicate; lia).
    rewrite length_replicate. case_bool_decide as He.
    + subst col'. by rewrite Nat.sub_diag.
    + rewrite lookup_ge_None_2; [done|]. simpl. lia.
Qed.

Lemma assign_board (r : Row) col v :
  0 ≤ col < COLS → length r = Z.to_nat COLS ∧ Forall is_Some r →
  length (assign r col v) = Z.to_nat COLS ∧ Forall is_Some (assign r col v).
Proof.
  intros Hc [Hlen Hall]. unfold assign. rewrite bool_decide_false by lia.
  rewrite bool_decide_true by lia. split; [by rewrite length_insert|].
  apply Forall_insert; [done|by eexists].
Qed.

Lemma element_insert {A} (a : list A) n v i :
  (n < length a)%nat →
  element (<[n := v]> a) i
  = if bool_decide (i = Z.of_nat n) then Some v else element a i.
Proof.
  intros Hn. unfold element. destruct (decide (i = Z.of_nat n)) as [->|Hne].
  - rewrite (bool_decide_true (0 ≤ _)) by lia.
    rewrite (bool_decide_true (_ = _)) by done.
    rewrite Nat2Z.id. by rewrite list_lookup_insert_eq by done.
  - rewrite (bool_decide_false (_ = _)) by done.
    case_bool_decide; [|done]. by rewrite list_lookup_insert_ne by lia.
Qed.

Lemma cellAt_insert (grid : Grid) n r row col :
  (n < length grid)%nat →
  cellAt (<[n := r]> grid) row col
  = if bool_decide (row = Z.of_nat n) then mjoin (element r col)
    else cellAt grid row col.
Proof.
  intros Hn. unfold cellAt. rewrite element_insert by done.
  by case_bool_decide.
Qed.

(** The loop of [mergePiece] on a grid of [ROWS] rows or more: it stores the
    value in the cells of the list that are on the board. *)
Lemma mergeCells_spec cells value : ∀ grid : Grid,
  (Z.to_nat ROWS ≤ length grid)%nat →
  ∃ grid',
    mergeCells grid cells value = Value grid'
    ∧ length grid' = length grid
    ∧ (∀ row col,
         cellAt grid' row col
         = if bool_decide ((row, col) ∈ cells ∧ inside (row, col))
           then Some value else cellAt grid row col)
    ∧ (board grid → board grid').
Proof.
  induction cells as [|[row col] cells IH]; intros grid Hlen.
  { exists grid. split; [done|]. split; [done|]. split; [|done].
    intros row col. rewrite bool_decide_false; [done|].
    intros [H _]. by apply elem_of_nil in H. }
  simpl. destruct (_ && _) eqn:Hin.
  - rewrite !andb_true_iff, !bool_decide_eq_true in Hin.
    destruct Hin as [[[H1 H2] H3] H4].
    destruct (element_lt grid row) as [r Er]; [lia|lia|].
    rewrite Er. simpl.
    destruct (IH (<[Z.to_nat row := assign r col value]> grid))
      as (grid' & E & Hl & Hcells & Hboard); [by rewrite length_insert|].
    exists grid'. split; [done|]. rewrite length_insert in Hl.
    split; [done|]. split.
    + intros row' col'. rewrite Hcells. rewrite cellAt_insert by lia.
      rewrite assign_lookup by done.
      destruct (decide ((row', col') = (row, col))) as [[= -> ->]|Hne].
      * rewrite (bool_decide_true (row = _)) by lia.
        rewrite (bool_decide_true (col = col)) by done.
        rewrite (bool_decide_true (_ ∈ (row, col) :: cells ∧ _));
          [by case_bool_decide|].
        split; [apply list_elem_of_here|split; simpl; lia].
      * assert (Hsame : ((row', col') ∈ (row, col) :: cells ∧ inside (row', col'))
                        ↔ ((row', col') ∈ cells ∧ inside (row', col'))).
        { rewrite elem_of_cons. tauto. }
        rewrite (bool_decide_ext _ _ Hsame). case_bool_decide; [done|].
        case_bool_decide as Hr; [|done]. case_bool_decide as Hc.
        { exfalso. apply Hne. f_equal; lia. }
        symmetry. apply cellAt_row. apply element_Some in Er. subst row'.
        rewrite Z2Nat.id by lia. by apply element_Some.
    + intros [Hb1 Hb2]. apply Hboard. split; [by rewrite length_insert|].
      apply element_Some in Er as [_ Er].
      apply Forall_insert; [done|]. apply assign_board; [lia|].
      by apply (proj1 (list.Forall_lookup _ _) Hb2 _ _ Er).
  - rewrite !andb_false_iff, !bool_decide_eq_false in Hin.
    destruct (IH grid Hlen) as (grid' & E & Hl & Hcells & Hboard).
    exists grid'. split; [done|]. split; [done|]. split; [|done].
    intros row' col'. rewrite Hcells.
    assert (Hsame : ((row', col') ∈ (row, col) :: cells ∧ inside (row', col'))
                    ↔ ((row', col') ∈ cells ∧ inside (row', col'))).
    { rewrite elem_of_cons. unfold inside. simpl. split; [|tauto].
      intros [[[= -> ->]|?] [? ?]]; [lia|tauto]. }
    by rewrite (bool_decide_ext _ _ Hsame).
Qed.

Lemma pieceCells_length p cells : pieceCells p = Value cells → length cells = 4%nat.
Proof.
  unfold pieceCells. intros (shape & E & [= <-])%bind_Value.
  apply getShapeCells_Value in E as [E _]. by rewrite length_map.
Qed.

(** X10. [mergePiece] writes the value into the cells of the piece that are
    on the board, and changes nothing else of a grid of [ROWS] rows or more:
    a board stays a board. After a value other than 0 is merged, the piece
    collides where it is. *)
Theorem mergePiece_spec (grid : Grid) (p : Piece.t) (value : Z)
    (cells : list (Z * Z)) :
  pieceCells p = Value cells → (Z.to_nat ROWS ≤ length grid)%nat →
  ∃ grid',
    mergePiece grid p value = Value grid'
    ∧ length grid' = length grid
    ∧ (∀ row col, (row, col) ∈ cells → inside (row, col) →
         cellAt grid' row col = Some value)
    ∧ (∀ row col, ¬ ((row, col) ∈ cells ∧ inside (row, col)) →
         cellAt grid' row col = cellAt grid row col)
    ∧ (board grid → board grid')
    ∧ (value ≠ 0 → collides grid' p = Value true).
Proof.
  intros Hp Hlen. unfold mergePiece. rewrite Hp. simpl.
  destruct (mergeCells_spec cells value grid Hlen)
    as (grid' & E & Hl & Hcells & Hboard).
  exists grid'. split; [done|]. split; [done|]. split; [|split; [|split]].
  - intros row col Hin Hins. rewrite Hcells. by rewrite bool_decide_true.
  - intros row col Hnot. rewrite Hcells. by rewrite bool_decide_false.
  - done.
  - intros Hv. unfold collides. rewrite Hp. simpl.
    destruct (collidesCells_spec grid' cells) as (b & -> & Hb); [lia|].
    f_equal. destruct b; [done|]. exfalso.
    pose proof (proj1 Hb eq_refl) as Hfree.
    apply pieceCells_length in Hp.
    destruct cells as [|[row col] cells]; [done|].
    apply Forall_cons_1 in Hfree as [[Hins Hf] _]. simpl in Hf.
    rewrite Hcells in Hf. rewrite bool_decide_true in Hf.
    + simpl in Hf. by apply bool_decide_eq_false in Hf.
    + split; [apply list_elem_of_here|done].
Qed.

Lemma mergePiece_spec_witness :
  ∃ grid',
    mergePiece emptyGrid (Piece.make 1 0 4 12) 2 = Value grid'
    ∧ length grid' = length emptyGrid
    ∧ (∀ row col, (row, col) ∈ [(12, 3); (12, 4); (13, 3); (13, 4)] →
         inside (row, col) → cellAt grid' row col = Some 2)
    ∧ (∀ row col,
         ¬ ((row, col) ∈ [(12, 3); (12, 4); (13, 3); (13, 4)] ∧ inside (row, col)) →
         cellAt grid' row col = cellAt emptyGrid row col)
    ∧ (board emptyGrid → board grid')
    ∧ (2 ≠ 0 → collides grid' (Piece.make 1 0 4 12) = Value true).
Proof.
  apply (mergePiece_spec emptyGrid (Piece.make 1 0 4 12) 2); [reflexivity|].
  vm_compute. lia.
Defined.

(** ** Clearing lines *)

Lemma clearLoop_step fuel grid row cleared :
  clearLoop (S fuel) grid row cleared
  = if bool_decide (0 ≤ row) then
      r ← defined (element grid row);
      if fullRow r then
        clearLoop fuel (zeroRow :: delete (Z.to_nat row) grid) (row + 1 - 1)
          (cleared + 1)
      else clearLoop fuel grid (row - 1) cleared
    else mret (grid, cleared).
Proof. done. Qed.

Lemma fullRows_snoc pre r :
  fullRows (pre ++ [r]) = (fullRows pre + if fullRow r then 1 else 0)%nat.
Proof.
  unfold fullRows. rewrite list.filter_app, length_app. f_equal.
  destruct (fullRow r) eqn:E.
  - by rewrite filter_cons_True.
  - rewrite filter_cons_False; [done|]. by rewrite E.
Qed.

Lemma keptRows_snoc pre r :
  keptRows (pre ++ [r]) = keptRows pre ++ if fullRow r then [] else [r].
Proof.
  unfold keptRows. rewrite list.filter_app. f_equal.
  destruct (fullRow r) eqn:E.
  - rewrite filter_cons_False; [done|]. by rewrite E.
  - by rewrite filter_cons_True.
Qed.

Lemma fullRow_zeroRow : fullRow zeroRow = false.
Proof. done. Qed.

(** The loop of [clearLines], with the rows [pre] still to look at and the
    rows [suf] below them: the full rows of [pre] are replaced by rows of
    zeros on top. A round looks at the last row of [pre]; the fuel covers a
    round for each row of [pre] and one more for each full row. *)
Lemma clearLoop_spec fuel : ∀ (pre suf : list Row) cleared,
  (length pre + fullRows pre < fuel)%nat →
  clearLoop fuel (pre ++ suf) (Z.of_nat (length pre) - 1) cleared
  = Value (replicate (fullRows pre) zeroRow ++ keptRows pre ++ suf,
           cleared + Z.of_nat (fullRows pre)).
Proof.
  induction fuel as [|fuel IH]; intros pre suf cleared Hfuel; [lia|].
  rewrite clearLoop_step.
  destruct pre as [|r pre _] using rev_ind.
  { rewrite bool_decide_false by (simpl; lia).
    change (fullRows []) with 0%nat. change (keptRows []) with (@nil Row).
    simpl. by rewrite Z.add_0_r. }
  rewrite length_app in *. simpl length in *.
  rewrite fullRows_snoc in *. rewrite keptRows_snoc.
  rewrite bool_decide_true by lia.
  replace (Z.of_nat (length pre + 1) - 1) with (Z.of_nat (length pre)) by lia.
  assert (Er : element ((pre ++ [r]) ++ suf) (Z.of_nat (length pre)) = Some r).
  { apply element_Some. split; [lia|]. rewrite Nat2Z.id.
    rewrite <- app_assoc. simpl. by apply list_lookup_middle. }
  rewrite Er. simpl. destruct (fullRow r) eqn:Hfull.
  - rewrite Nat2Z.id. rewrite <- app_assoc. simpl. rewrite delete_middle.
    replace (Z.of_nat (length pre) + 1 - 1)
      with (Z.of_nat (length (zeroRow :: pre)) - 1) by (simpl length; lia).
    rewrite (IH (zeroRow :: pre) suf) by (simpl length;
      unfold fullRows in *; rewrite filter_cons_False by (by rewrite fullRow_zeroRow);
      lia).
    unfold fullRows, keptRows.
    rewrite filter_cons_False by (by rewrite fullRow_zeroRow).
    rewrite filter_cons_True by done.
    rewrite app_nil_r. f_equal. f_equal; [|lia].
    rewrite Nat.add_1_r, replicate_S_end. by rewrite <- app_assoc.
  - replace (Z.of_nat (length pre) - 1) with (Z.of_nat (length pre) - 1) by done.
    rewrite <- app_assoc. rewrite (IH pre ([r] ++ suf)) by lia.
    rewrite Nat.add_0_r. by rewrite <- app_assoc.
Qed.

Lemma clearLines_TypeError (grid : Grid) :
  (length grid < Z.to_nat ROWS)%nat → clearLines grid = TypeError.
Proof.
  intros Hlen. unfold clearLines.
  change (Z.to_nat (2 * ROWS + 1)) with (S 28). rewrite clearLoop_step.
  rewrite bool_decide_true by done.
  unfold element. rewrite bool_decide_true by done.
  rewrite lookup_ge_None_2; [done|]. change (Z.to_nat (ROWS - 1)) with 13%nat.
  change (Z.to_nat ROWS) with 14%nat in Hlen. lia.
Qed.

Lemma fullRows_le rows : (fullRows rows ≤ length rows)%nat.
Proof. unfold fullRows. apply length_filter. Qed.

Lemma clearLines_Value (grid : Grid) :
  (Z.to_nat ROWS ≤ length grid)%nat →
  let top := take (Z.to_nat ROWS) grid in
  clearLines grid
  = Value (replicate (fullRows top) zeroRow ++ keptRows top
             ++ drop (Z.to_nat ROWS) grid,
           Z.of_nat (fullRows top)).
Proof.
  intros Hlen top. unfold clearLines.
  rewrite <- (take_drop (Z.to_nat ROWS) grid) at 1. fold top.
  assert (Htop : length top = Z.to_nat ROWS).
  { unfold top. rewrite length_take. lia. }
  replace (ROWS - 1) with (Z.of_nat (length top) - 1)
    by (rewrite Htop; done).
  rewrite clearLoop_spec; [done|].
  pose proof (fullRows_le top). rewrite Htop in *.
  change (Z.to_nat ROWS) with 14%nat in *.
  change (Z.to_nat (2 * ROWS + 1)) with 29%nat. lia.
Qed.

(** X11. [clearLines] in closed form. On a grid of fewer than [ROWS] rows it
    throws. Otherwise it never runs out of fuel: of the first [ROWS] rows it
    keeps those that are not full, in their order, under as many rows of
    zeros as there were full rows, and returns that number; rows past the
    first [ROWS] stay where they are. *)
Theorem clearLines_closed_form (grid : Grid) :
  let top := take (Z.to_nat ROWS) grid in
  clearLines grid
  = if bool_decide (length grid < Z.to_nat ROWS)%nat then TypeError
    else Value (replicate (fullRows top) zeroRow ++ keptRows top
                  ++ drop (Z.to_nat ROWS) grid,
                Z.of_nat (fullRows top)).
Proof.
  intros top. case_bool_decide.
  - by apply clearLines_TypeError.
  - apply clearLines_Value. lia.
Qed.

Lemma fullRows_cons r rows :
  fullRows (r :: rows) = ((if fullRow r then 1 else 0) + fullRows rows)%nat.
Proof.
  unfold fullRows. destruct (fullRow r) eqn:E.
  - by rewrite filter_cons_True.
  - rewrite filter_cons_False; [done|]. by rewrite E.
Qed.

Lemma keptRows_cons r rows :
  keptRows (r :: rows) = (if fullRow r then [] else [r]) ++ keptRows rows.
Proof.
  unfold keptRows. destruct (fullRow r) eqn:E.
  - rewrite filter_cons_False; [done|]. by rewrite E.
  - by rewrite filter_cons_True.
Qed.

Lemma keptRows_length rows :
  (fullRows rows + length (keptRows rows))%nat = length rows.
Proof.
  induction rows as [|r rows IH]; [done|].
  rewrite fullRows_cons, keptRows_cons, length_app. simpl length at 3.
  destruct (fullRow r); simpl; lia.
Qed.

Lemma keptRows_not_full rows : Forall (λ r, fullRow r = false) (keptRows rows).
Proof.
  induction rows as [|r rows IH]; [by apply Forall_nil_2|].
  rewrite keptRows_cons. destruct (fullRow r) eqn:E; [done|].
  by apply Forall_cons_2.
Qed.

Lemma keptRows_Forall (P : Row → Prop) rows :
  Forall P rows → Forall P (keptRows rows).
Proof.
  induction 1 as [|r rows Hr Hrows IH]; [by apply Forall_nil_2|].
  rewrite keptRows_cons. destruct (fullRow r); [done|].
  by apply Forall_cons_2.
Qed.

Lemma filled_app g1 g2 : filled (g1 ++ g2) = (filled g1 + filled g2)%nat.
Proof. unfold filled. apply sum_list_with_app. Qed.

Lemma filled_zeroRows n : filled (replicate n zeroRow) = 0%nat.
Proof. induction n as [|n IH]; [done|]. unfold filled in *. simpl. by rewrite IH. Qed.

Lemma fullRow_filled (r : Row) :
  Forall is_Some r → fullRow r = true →
  sum_list_with (λ c, if truthy c then 1%nat else 0%nat) r = length r.
Proof.
  induction 1 as [|c r [v ->] Hr IH]; [done|].
  simpl. intros [Hc Hfull]%andb_prop. apply bool_decide_eq_true in Hc.
  rewrite IH by done. rewrite bool_decide_true; [done|]. congruence.
Qed.

Lemma filled_split rows :
  Forall (λ r, length r = Z.to_nat COLS ∧ Forall is_Some r) rows →
  filled rows = (filled (keptRows rows) + Z.to_nat COLS * fullRows rows)%nat.
Proof.
  induction 1 as [|r rows [Hlen Hsome] Hrows IH]; [done|].
  rewrite fullRows_cons, keptRows_cons, filled_app.
  change (filled (r :: rows))
    with (sum_list_with (λ c, if truthy c then 1%nat else 0%nat) r
          + filled rows)%nat.
  rewrite IH. destruct (fullRow r) eqn:E.
  - rewrite fullRow_filled by done. rewrite Hlen.
    change (filled []) with 0%nat. lia.
  - change (filled [r])
      with (sum_list_with (λ c, if truthy c then 1%nat else 0%nat) r + 0)%nat.
    lia.
Qed.

Lemma board_zeroRow : length zeroRow = Z.to_nat COLS ∧ Forall is_Some zeroRow.
Proof.
  split; [done|]. unfold zeroRow. apply Forall_replicate. by eexists.
Qed.

Lemma fullRows_none rows :
  Forall (λ r, fullRow r = false) rows → fullRows rows = 0%nat.
Proof.
  induction 1 as [|r rows Hr Hrows IH]; [done|].
  by rewrite fullRows_cons, Hr, IH.
Qed.

(** [clearLines] on a board. *)
Lemma clearLines_on_board (grid : Grid) :
  board grid →
  let cleaned := replicate (fullRows grid) zeroRow ++ keptRows grid in
  clearLines grid = Value (cleaned, Z.of_nat (fullRows grid))
  ∧ board cleaned
  ∧ Forall (λ r, fullRow r = false) cleaned
  ∧ filled grid = (filled cleaned + Z.to_nat COLS * fullRows grid)%nat.
Proof.
  intros [Hlen Hrows] cleaned.
  pose proof (clearLines_Value grid) as E. cbv zeta in E.
  rewrite take_ge, drop_ge, app_nil_r in E by lia.
  split; [apply E; lia|].
  pose proof (keptRows_length grid) as Hkept.
  split; [|split].
  - split.
    + unfold cleaned. rewrite length_app, length_replicate. lia.
    + apply Forall_app. split.
      * apply Forall_replicate, board_zeroRow.
      * by apply keptRows_Forall.
  - apply Forall_app. split.
    + by apply Forall_replicate.
    + apply keptRows_not_full.
  - unfold cleaned. rewrite filled_app, filled_zeroRows.
    by rewrite (filled_split grid Hrows).
Qed.

(** X12. [clearLines] on a board: it returns the number of full rows and
    leaves a board without a full row, from which only the cells of the full
    rows are gone, [COLS] truthy cells for each. *)
Theorem clearLines_board (grid : Grid) :
  board grid →
  ∃ grid' cleared,
    clearLines grid = Value (grid', cleared)
    ∧ board grid'
    ∧ Forall (λ r, fullRow r = false) grid'
    ∧ cleared = Z.of_nat (fullRows grid) ∧ 0 ≤ cleared ≤ ROWS
    ∧ grid' = replicate (fullRows grid) zeroRow ++ keptRows grid
    ∧ Z.of_nat (filled grid) = Z.of_nat (filled grid') + COLS * cleared.
Proof.
  intros Hb. destruct (clearLines_on_board grid Hb) as (E & Hb' & Hnone & Hfilled).
  eexists _, _. split; [exact E|]. split; [done|]. split; [done|].
  split; [done|]. split; [|split; [done|]].
  - pose proof (fullRows_le grid) as Hle. destruct Hb as [Hlen _].
    rewrite Hlen in Hle. change (Z.to_nat ROWS) with 14%nat in Hle.
    change ROWS with 14. lia.
  - rewrite Hfilled. change COLS with (Z.of_nat (Z.to_nat COLS)). lia.
Qed.

Lemma clearLines_board_witness :
  ∃ grid' cleared,
    clearLines (replicate 13 zeroRow ++ [replicate 10 (Some 3)])
    = Value (grid', cleared)
    ∧ board grid'
    ∧ Forall (λ r, fullRow r = false) grid'
    ∧ cleared = Z.of_nat (fullRows (replicate 13 zeroRow ++ [replicate 10 (Some 3)]))
    ∧ 0 ≤ cleared ≤ ROWS
    ∧ grid' = replicate (fullRows (replicate 13 zeroRow ++ [replicate 10 (Some 3)]))
                zeroRow
              ++ keptRows (replicate 13 zeroRow ++ [replicate 10 (Some 3)])
    ∧ Z.of_nat (filled (replicate 13 zeroRow ++ [replicate 10 (Some 3)]))
      = Z.of_nat (filled grid') + COLS * cleared.
Proof.
  apply (clearLines_board (replicate 13 zeroRow ++ [replicate 10 (Some 3)])).
  split; [reflexivity|]. by apply (bool_decide_unpack _).
Defined.

(** ** Counting the cells of a merge *)

(** A cell store into the grid, read back. *)
Lemma cellAt_assign (grid : Grid) row col value r row' col' :
  0 ≤ col → element grid row = Some r →
  cellAt (<[Z.to_nat row := assign r col value]> grid) row' col'
  = if bool_decide ((row', col') = (row, col)) then Some value
    else cellAt grid row' col'.
Proof.
  intros Hc Er. pose proof Er as Er'. apply element_Some in Er' as [Hr Hl].
  apply lookup_lt_Some in Hl.
  rewrite cellAt_insert by done. rewrite assign_lookup by done.
  rewrite Z2Nat.id by done.
  destruct (decide (row' = row)) as [->|Hrow].
  - rewrite (bool_decide_true (row = row)) by done.
    destruct (decide (col' = col)) as [->|Hcol].
    + by rewrite !bool_decide_true.
    + rewrite !bool_decide_false by congruence.
      symmetry. by apply cellAt_row.
  - by rewrite !bool_decide_false by congruence.
Qed.

Lemma sum_list_with_insert {A} (f : A → nat) (l : list A) i x y :
  l !! i = Some x →
  (sum_list_with f (<[i := y]> l) + f x = sum_list_with f l + f y)%nat.
Proof.
  revert i. induction l as [|a l IH]; intros [|i] E; try done.
  - injection E as ->. simpl. lia.
  - simpl in *. specialize (IH i E). lia.
Qed.

Lemma fullRows_sum rows :
  fullRows rows = sum_list_with (λ r, if fullRow r then 1%nat else 0%nat) rows.
Proof.
  induction rows as [|r rows IH]; [done|].
  rewrite fullRows_cons, IH. done.
Qed.

(** A free cell of a board holds 0. *)
Lemma board_cell (grid : Grid) cell :
  board grid → free grid cell →
  ∃ r, element grid cell.1 = Some r ∧ length r = Z.to_nat COLS
       ∧ Forall is_Some r ∧ r !! Z.to_nat cell.2 = Some (Some 0).
Proof.
  destruct cell as [row col]. simpl. intros [Hlen Hrows] [[Hr Hc] Hfree].
  simpl in *. destruct (element_lt grid row) as [r Er]; [lia|lia|].
  exists r. split; [done|]. pose proof Er as Er'.
  apply element_Some in Er' as [_ El].
  destruct (proj1 (list.Forall_lookup _ _) Hrows _ _ El) as [Hl Hsome].
  split; [done|]. split; [done|].
  rewrite (cellAt_row _ _ _ _ Er) in Hfree. unfold element in Hfree.
  rewrite bool_decide_true in Hfree by lia.
  destruct (lookup_lt_is_Some_2 r (Z.to_nat col)) as [c Ec]; [lia|].
  rewrite Ec in *. simpl in Hfree.
  destruct (proj1 (list.Forall_lookup _ _) Hsome _ _ Ec) as [v ->].
  simpl in Hfree. apply bool_decide_eq_false in Hfree.
  do 2 f_equal. lia.
Qed.

(** Merging distinct free cells with a value other than 0 fills as many
    cells, and makes as many rows full at most. *)
Lemma mergeCells_filled cells value :
  value ≠ 0 → NoDup cells → ∀ grid : Grid,
  board grid → Forall (free grid) cells →
  ∃ grid',
    mergeCells grid cells value = Value grid'
    ∧ filled grid' = (filled grid + length cells)%nat
    ∧ (fullRows grid' ≤ fullRows grid + length cells)%nat.
Proof.
  intros Hv. induction 1 as [|[row col] cells Hnin Hnd IH]; intros grid Hb Hfree.
  { exists grid. simpl. split; [done|]. split; lia. }
  apply Forall_cons_1 in Hfree as [Hcell Hfree].
  destruct (board_cell grid _ Hb Hcell) as (r & Er & Hlen & Hsome & Ec).
  destruct Hcell as [[Hr Hc] _]. simpl in *.
  rewrite !bool_decide_true by lia. simpl. rewrite Er. simpl.
  assert (Ea : assign r col value = <[Z.to_nat col := Some value]> r).
  { unfold assign. rewrite bool_decide_false by lia.
    by rewrite bool_decide_true by lia. }
  pose proof Er as Er'. apply element_Some in Er' as [_ El].
  destruct (IH (<[Z.to_nat row := assign r col value]> grid))
    as (grid' & E & Hfilled & Hfull).
  - destruct Hb as [Hb1 Hb2]. split; [by rewrite length_insert|].
    apply Forall_insert; [done|]. by apply assign_board.
  - rewrite list.Forall_forall in Hfree. apply list.Forall_forall.
    intros [row' col'] Hin. destruct (Hfree _ Hin) as [Hins Hf].
    split; [done|]. simpl in *.
    rewrite (cellAt_assign grid row col value r) by (done || lia).
    rewrite bool_decide_false; [done|]. intros [= -> ->]. exact (Hnin Hin).
  - exists grid'. split; [done|].
    pose proof (sum_list_with_insert
                  (sum_list_with (λ c, if truthy c then 1%nat else 0%nat))
                  grid (Z.to_nat row) r (assign r col value) El) as H1.
    pose proof (sum_list_with_insert
                  (λ c, if truthy c then 1%nat else 0%nat)
                  r (Z.to_nat col) (Some 0) (Some value) Ec) as H2.
    pose proof (sum_list_with_insert
                  (λ r, if fullRow r then 1%nat else 0%nat)
                  grid (Z.to_nat row) r (assign r col value) El) as H3.
    rewrite <- Ea in H2. simpl in H2. rewrite bool_decide_true in H2 by done.
    fold (filled (<[Z.to_nat row := assign r col value]> grid)) in H1.
    fold (filled grid) in H1. rewrite <- !fullRows_sum in H3.
    destruct (fullRow r), (fullRow (assign r col value)); lia.
Qed.

(** * Properties of the sketch *)

(** ** Valid pieces *)

Lemma rotationStates_le type : 1 ≤ rotationStates type ≤ 4.
Proof. unfold rotationStates. repeat case_bool_decide; lia. Qed.

(** A valid piece has a shape. *)
Lemma getShapeCells_valid type r :
  0 ≤ type ≤ 6 → 0 ≤ r < rotationStates type →
  ∃ cells, getShapeCells type r = Value cells.
Proof.
  intros Ht Hr. pose proof (rotationStates_le type).
  destruct (getShapeCells type r) as [cells| |] eqn:E.
  - by exists cells.
  - apply getShapeCells_TypeError in E.
    destruct (nrsIndex_cases type r) as [[-> H']|[[-> H']|[[-> H']|H']]]; lia.
  - unfold getShapeCells in E. by destruct (element _ _).
Qed.

Lemma pieceCells_valid p :
  validPiece p →
  ∃ shape, getShapeCells (Piece.type p) (Piece.rotation p) = Value shape
           ∧ pieceCells p
             = Value (map (λ '(r, c), (Piece.y p + r, Piece.x p + c)) shape).
Proof.
  intros [Ht Hr]. destruct (getShapeCells_valid _ _ Ht Hr) as [shape E].
  exists shape. split; [done|]. unfold pieceCells. by rewrite E.
Qed.

Lemma collides_valid grid p :
  validPiece p → (Z.to_nat ROWS ≤ length grid)%nat →
  ∃ b, collides grid p = Value b.
Proof.
  intros Hp Hlen. destruct (pieceCells_valid p Hp) as (shape & _ & E).
  unfold collides. rewrite E. simpl.
  destruct (collidesCells_spec grid
              (map (λ '(r, c), (Piece.y p + r, Piece.x p + c)) shape) Hlen)
    as (b & Eb & _).
  by exists b.
Qed.

(** A piece that does not collide has its pivot on the board. *)
Lemma collides_pivot grid p :
  (Z.to_nat ROWS ≤ length grid)%nat → collides grid p = Value false →
  0 ≤ Piece.y p < ROWS ∧ 0 ≤ Piece.x p < COLS.
Proof.
  intros Hlen. unfold collides, pieceCells.
  intros (cells & (shape & Es & [= <-])%bind_Value & Ec)%bind_Value.
  destruct (collidesCells_spec grid
              (map (λ '(r, c), (Piece.y p + r, Piece.x p + c)) shape) Hlen)
    as (b & Eb & Hb).
  rewrite Ec in Eb. injection Eb as <-.
  pose proof (proj1 Hb eq_refl) as Hfree.
  apply getShapeCells_Value in Es as (_ & _ & Hpivot & _).
  rewrite list.Forall_forall in Hfree.
  destruct (Hfree (Piece.y p + 0, Piece.x p + 0)) as [[H1 H2] _].
  { rewrite map_fmap. apply list_elem_of_fmap. exists (0, 0).
    split; [reflexivity|exact Hpivot]. }
  simpl in *. lia.
Qed.

Lemma validPiece_shifted p dx dy : validPiece p → validPiece (shifted p dx dy).
Proof. done. Qed.

Lemma rotatePiece_valid p : validPiece p → validPiece (rotatePiece p).
Proof.
  destruct p as [type r x y]. unfold validPiece, rotationStates. simpl.
  intros [Ht Hr].
  destruct (decide (type = 1)) as [->|H1]; [done|].
  destruct (decide (type = 0)) as [->|H0].
  - rewrite rotatePiece_I. simpl in *. split; [done|].
    rewrite Z.rem_mod_nonneg by lia. apply Z.mod_pos_bound. lia.
  - rewrite rotatePiece_other by done. simpl.
    rewrite !bool_decide_false in * by done. split; [done|].
    rewrite Z.rem_mod_nonneg by lia. apply Z.mod_pos_bound. lia.
Qed.

Lemma rotatePiece_fields p :
  Piece.type (rotatePiece p) = Piece.type p
  ∧ Piece.x (rotatePiece p) = Piece.x p ∧ Piece.y (rotatePiece p) = Piece.y p.
Proof. unfold rotatePiece. by repeat case_bool_decide. Qed.

(** [Math.floor(Math.random() * 7)] is a type. *)
Lemma nextType_range (u : float) :
  unitInterval u → 0 ≤ integer (floor (u * 7)) ≤ 6.
Proof.
  intros [H0 H1]. destruct (floor_times_7 u H0 H1) as (k & -> & Hk). done.
Qed.

(** ** Spawning in the sketch *)

Lemma createPiece_Value type :
  0 ≤ type ≤ 6 → ∃ x y, createPiece type = Value (Piece.make type 0 x y).
Proof.
  intros Ht.
  assert (type = 0 ∨ type = 1 ∨ type = 2 ∨ type = 3 ∨ type = 4 ∨ type = 5
          ∨ type = 6) as [->|[->|[->|[->|[->|[->| ->]]]]]] by lia;
    by eexists _, _.
Qed.

Lemma validPiece_spawn type x y : 0 ≤ type ≤ 6 → validPiece (Piece.make type 0 x y).
Proof.
  intros Ht. split; [done|]. simpl. pose proof (rotationStates_le type). lia.
Qed.

(** [spawnPiece] on a grid of [ROWS] rows or more, by the collision of the
    new piece. *)
Lemma spawnPiece_eq u s :
  (Z.to_nat ROWS ≤ length (Sketch.grid s))%nat → 0 ≤ Sketch.nextPieceType s ≤ 6 →
  let piece := Piece.make (Sketch.nextPieceType s) 0 3 0 in
  ∃ b : bool,
    collides (Sketch.grid s) piece = Value b
    ∧ Sketch.spawnPiece u s
      = Value
          (if b then
             Sketch.State (Sketch.grid s) (Sketch.currentPiece s) (integer (floor (u * 7)))
               (Sketch.level s) (Sketch.score s) (Sketch.lines s) true
           else
             Sketch.State (Sketch.grid s) (Some piece) (integer (floor (u * 7)))
               (Sketch.level s) (Sketch.score s) (Sketch.lines s)
               (Sketch.gameOver s),
           negb b).
Proof.
  intros Hlen Ht piece.
  destruct (collides_valid (Sketch.grid s) piece) as [b Eb];
    [by apply validPiece_spawn|done|].
  exists b. split; [done|]. unfold Sketch.spawnPiece.
  destruct (createPiece_Value _ Ht) as (x & y & ->). simpl.
  fold piece. rewrite Eb. simpl. by destruct b.
Qed.

(** The first rotation of an I, T, J or L piece with its pivot on row 0 has
    a cell on row -1 or -2. *)
Lemma collides_above_board (grid : Grid) type :
  grid ≠ [] → type = 0 ∨ type = 2 ∨ type = 5 ∨ type = 6 →
  collides grid (Piece.make type 0 3 0) = Value true.
Proof.
  intros Hgrid Ht. destruct grid as [|r grid]; [done|].
  destruct Ht as [->|[->|[->| ->]]]; try done.
  unfold collides. simpl. by repeat (destruct (truthy _); [done|]).
Qed.

(** X13. [spawnPiece] puts the pivot of the new piece at column 3 of row 0,
    whatever [createPiece] chose. An I, T, J or L piece in its first
    rotation has a cell above its pivot, which is then above the board: on
    every grid that has a first row, [spawnPiece] finds a collision, sets
    [gameOver] and returns [false]. The O, S and Z pieces do spawn on the
    empty grid. *)
Theorem spawnPiece_above_board (u : float) (s : Sketch.state) :
  Sketch.grid s ≠ [] →
  Sketch.nextPieceType s = 0 ∨ Sketch.nextPieceType s = 2
  ∨ Sketch.nextPieceType s = 5 ∨ Sketch.nextPieceType s = 6 →
  Sketch.spawnPiece u s
  = Value (Sketch.State (Sketch.grid s) (Sketch.currentPiece s) (integer (floor (u * 7)))
             (Sketch.level s) (Sketch.score s) (Sketch.lines s) true, false)
  ∧ ∀ type, type = 1 ∨ type = 3 ∨ type = 4 →
      Sketch.spawnPiece u (Sketch.resetGame (double type / 7))
      = Value (Sketch.State emptyGrid (Some (Piece.make type 0 3 0)) (integer (floor (u * 7)))
                 1 0 0 false, true).
Proof.
  intros Hgrid Ht. split.
  - pose proof (collides_above_board _ _ Hgrid Ht) as Ec.
    destruct (createPiece_Value (Sketch.nextPieceType s)) as (x & y & Ep); [lia|].
    unfold Sketch.spawnPiece. rewrite Ep. cbn -[collides floor integer].
    by rewrite Ec.
  - by intros type [->|[->| ->]].
Qed.

Lemma spawnPiece_above_board_witness :
  Sketch.spawnPiece 0.5 (Sketch.resetGame (2 / 7))
  = Value (Sketch.State emptyGrid None (integer (floor (0.5 * 7))) 1 0 0 true, false)
  ∧ ∀ type, type = 1 ∨ type = 3 ∨ type = 4 →
      Sketch.spawnPiece 0.5 (Sketch.resetGame (double type / 7))
      = Value (Sketch.State emptyGrid (Some (Piece.make type 0 3 0))
                 (integer (floor (0.5 * 7))) 1 0 0 false, true).
Proof.
  apply (spawnPiece_above_board 0.5 (Sketch.resetGame (2 / 7))).
  - discriminate.
  - right. left. reflexivity.
Defined.

(** ** Locking *)

(** The cells of a piece that does not collide are distinct and free. *)
Lemma collides_false_free grid p :
  (Z.to_nat ROWS ≤ length grid)%nat → collides grid p = Value false →
  ∃ cells, pieceCells p = Value cells ∧ Forall (free grid) cells
           ∧ NoDup cells ∧ length cells = 4%nat.
Proof.
  intros Hlen. unfold collides.
  intros (cells & Ep & Ec)%bind_Value. exists cells. split; [done|].
  destruct (collidesCells_spec grid cells Hlen) as (b & Eb & Hb).
  rewrite Ec in Eb. injection Eb as <-. split; [by apply Hb|].
  split; [|by apply pieceCells_length in Ep].
  unfold pieceCells in Ep. apply bind_Value in Ep as (shape & Es & [= <-]).
  apply getShapeCells_Value in Es as (_ & Hnd & _).
  rewrite map_fmap. apply NoDup_fmap_2; [|done].
  intros [a b] [c d] [= ? ?]. f_equal; lia.
Qed.

Lemma board_length grid : board grid → (Z.to_nat ROWS ≤ length grid)%nat.
Proof. intros [-> _]. done. Qed.

Ltac simpl_state :=
  cbn [fst snd Sketch.grid Sketch.currentPiece Sketch.nextPieceType
       Sketch.level Sketch.score Sketch.lines Sketch.gameOver
       Piece.type Piece.rotation Piece.x Piece.y] in *.

(** [lockPiece] on a playable state with a current piece: the merge, the
    cleared lines, the counters and the spawn. *)
Lemma lockPiece_spec u s cur :
  playable s → unitInterval u → Sketch.currentPiece s = Some cur →
  ∃ s' cleared,
    Sketch.lockPiece u s = Value s'
    ∧ playable s'
    ∧ 0 ≤ cleared ≤ 4
    ∧ Sketch.lines s' = Sketch.lines s + cleared
    ∧ Sketch.score s' = Sketch.score s + cleared * 100 * Sketch.level s
    ∧ Z.of_nat (filled (Sketch.grid s')) + COLS * cleared
      = Z.of_nat (filled (Sketch.grid s)) + 4
    ∧ Sketch.nextPieceType s' = integer (floor (u * 7))
    ∧ ∃ b : bool,
        collides (Sketch.grid s') (Piece.make (Sketch.nextPieceType s) 0 3 0)
        = Value b
        ∧ Sketch.currentPiece s'
          = (if b then None else Some (Piece.make (Sketch.nextPieceType s) 0 3 0))
        ∧ Sketch.gameOver s' = (if b then true else Sketch.gameOver s).
Proof.
  intros (Hboard & Hnone & Hnext & Hlines & Hlevel & Hscore & Hcur) Hu Ecur.
  destruct (Hcur cur Ecur) as [Hvalid Hfree].
  pose proof (board_length _ Hboard) as Hlen.
  destruct (collides_false_free _ _ Hlen Hfree) as (cells & Ep & Hcells & Hnd & H4).
  assert (Hv : Piece.type cur + 1 ≠ 0) by (destruct Hvalid; lia).
  destruct (mergeCells_filled cells _ Hv Hnd _ Hboard Hcells)
    as (merged & Em & Hfilled & Hfull).
  destruct (mergeCells_spec cells (Piece.type cur + 1) _ Hlen)
    as (merged' & Em' & _ & _ & Hboard').
  rewrite Em in Em'. injection Em' as <-. specialize (Hboard' Hboard).
  rewrite (fullRows_none _ Hnone) in Hfull. rewrite H4 in Hfull, Hfilled.
  destruct (clearLines_on_board merged Hboard') as (Ec & Hb2 & Hnone2 & Hfilled2).
  set (cleaned := replicate (fullRows merged) zeroRow ++ keptRows merged) in *.
  set (cleared := Z.of_nat (fullRows merged)) in *.
  assert (Hlevel1 : 1 ≤ Sketch.level s).
  { rewrite Hlevel. unfold Sketch.LINES_PER_LEVEL.
    pose proof (Z.div_pos (Sketch.lines s) 10). lia. }
  set (s2 := Sketch.State cleaned None (Sketch.nextPieceType s)
               (1 + (Sketch.lines s + cleared) / Sketch.LINES_PER_LEVEL)
               (Sketch.score s + cleared * 100 * Sketch.level s)
               (Sketch.lines s + cleared) (Sketch.gameOver s)).
  assert (E : Sketch.lockPiece u s
              = '(s', _) ← Sketch.spawnPiece u s2; mret s').
  { unfold Sketch.lockPiece. rewrite Ecur. unfold mergePiece. rewrite Ep.
    simpl. rewrite Em. simpl. rewrite Ec. simpl. fold cleared.
    case_bool_decide as Hc; simpl; [done|].
    assert (cleared = 0) as -> by lia. unfold s2.
    by rewrite Z.mul_0_l, !Z.add_0_r, <- Hlevel. }
  destruct (spawnPiece_eq u s2) as (b & Eb & Es);
    [by apply board_length|done|].
  exists (fst (if b then
      Sketch.State cleaned None (integer (floor (u * 7))) (Sketch.level s2)
        (Sketch.score s2) (Sketch.lines s2) true
    else
      Sketch.State cleaned (Some (Piece.make (Sketch.nextPieceType s) 0 3 0))
        (integer (floor (u * 7))) (Sketch.level s2) (Sketch.score s2) (Sketch.lines s2)
        (Sketch.gameOver s), negb b)), cleared.
  split; [rewrite E, Es; by destruct b|].
  assert (Hcl : 0 ≤ cleared ≤ 4) by lia.
  assert (Hsc : 0 ≤ cleared * 100 * Sketch.level s) by nia.
  split; [|split; [done|]].
  - pose proof (nextType_range u Hu). unfold s2, playable.
    destruct b; simpl_state; (split; [done|]); (split; [done|]);
      (split; [done|]); (split; [lia|]); (split; [done|]); (split; [lia|]);
      intros p [= <-].
    split; [by apply validPiece_spawn|done].
  - unfold s2 in *. simpl_state.
    split; [by destruct b|]. split; [by destruct b|]. split.
    { destruct b; simpl_state; change COLS with (Z.of_nat (Z.to_nat COLS));
        unfold cleared; lia. }
    split; [by destruct b|]. exists b.
    split; [by destruct b|]. split; by destruct b.
Qed.

(** ** Moving *)

Lemma shifted_0 p : shifted p 0 0 = p.
Proof. destruct p. unfold shifted. simpl. by rewrite !Z.add_0_r. Qed.

Lemma shifted_shifted p dx dy dx' dy' :
  shifted (shifted p dx dy) dx' dy' = shifted p (dx + dx') (dy + dy').
Proof. unfold shifted. simpl. f_equal; lia. Qed.

Lemma rotatePiece_eta p :
  Piece.make (Piece.type p) (Piece.rotation (rotatePiece p)) (Piece.x p) (Piece.y p)
  = rotatePiece p.
Proof. unfold rotatePiece. by repeat case_bool_decide. Qed.

Lemma moveLeft_eq s cur :
  Sketch.currentPiece s = Some cur → Sketch.gameOver s = false →
  Sketch.moveLeft s = tryPiece s (shifted cur (-1) 0).
Proof.
  intros Ec Eo. unfold Sketch.moveLeft, tryPiece. rewrite Ec, Eo.
  unfold shifted, clonePiece. simpl. by rewrite Z.add_0_r.
Qed.

Lemma moveRight_eq s cur :
  Sketch.currentPiece s = Some cur → Sketch.gameOver s = false →
  Sketch.moveRight s = tryPiece s (shifted cur 1 0).
Proof.
  intros Ec Eo. unfold Sketch.moveRight, tryPiece. rewrite Ec, Eo.
  unfold shifted, clonePiece. simpl. by rewrite Z.add_0_r.
Qed.

Lemma rotate_eq s cur :
  Sketch.currentPiece s = Some cur → Sketch.gameOver s = false →
  Sketch.rotate s = tryPiece s (rotatePiece cur).
Proof.
  intros Ec Eo. unfold Sketch.rotate, tryPiece. rewrite Ec, Eo.
  by rewrite rotatePiece_eta.
Qed.

(** Trying a valid piece keeps the state playable. *)
Lemma tryPiece_spec s next :
  playable s → validPiece next →
  ∃ s', tryPiece s next = Value s' ∧ playable s'
        ∧ Sketch.grid s' = Sketch.grid s
        ∧ Sketch.score s' = Sketch.score s ∧ Sketch.lines s' = Sketch.lines s
        ∧ (Sketch.currentPiece s' = Some next
           ∨ Sketch.currentPiece s' = Sketch.currentPiece s).
Proof.
  intros Hs Hnext. pose proof Hs as (Hboard & Hnone & Hn & Hl & Hlv & Hsc & Hcur).
  destruct (collides_valid (Sketch.grid s) next Hnext (board_length _ Hboard))
    as [b Eb].
  unfold tryPiece. rewrite Eb. simpl. destruct b; simpl.
  - exists s. split; [done|]. split; [done|]. split; [done|]. split; [done|].
    split; [done|]. by right.
  - eexists. split; [done|]. split.
    + unfold playable. simpl_state. split; [done|]. split; [done|].
      split; [done|]. split; [done|]. split; [done|]. split; [done|].
      by intros p [= <-].
    + simpl_state. split; [done|]. split; [done|]. split; [done|]. by left.
Qed.

(** ** Dropping *)

(** The loop of [hardDrop] from a piece that does not collide: it goes down
    while the piece is free one row further. The fuel covers the rows from
    the pivot to the floor. *)
Lemma dropLoop_spec grid fuel : ∀ cur score,
  board grid → validPiece cur → collides grid cur = Value false →
  (Z.to_nat (ROWS - Piece.y cur) ≤ fuel)%nat →
  ∃ n, 0 ≤ n
       ∧ (∀ k, 0 ≤ k ≤ n → collides grid (shifted cur 0 k) = Value false)
       ∧ collides grid (shifted cur 0 (n + 1)) = Value true
       ∧ Sketch.dropLoop fuel grid cur score
         = Value (shifted cur 0 n, score + 2 * n).
Proof.
  induction fuel as [|fuel IH]; intros cur score Hb Hv Hfree Hfuel.
  { destruct (collides_pivot grid cur (board_length _ Hb) Hfree). lia. }
  destruct (collides_pivot grid cur (board_length _ Hb) Hfree) as [Hy _].
  destruct (collides_valid grid (shifted cur 0 1)
              (validPiece_shifted cur 0 1 Hv) (board_length _ Hb)) as [b Eb].
  assert (Estep : Sketch.dropLoop (S fuel) grid cur score
            = c ← collides grid (shifted cur 0 1);
              if (c : bool) then mret (cur, score)
              else Sketch.dropLoop fuel grid (shifted cur 0 1) (score + 2)).
  { simpl. unfold shifted, clonePiece. simpl. by rewrite Z.add_0_r. }
  rewrite Estep, Eb. simpl. destruct b.
  - exists 0. split; [done|]. split; [|split; [done|]].
    + intros k Hk. assert (k = 0) as -> by lia. by rewrite shifted_0.
    + by rewrite shifted_0, Z.add_0_r.
  - destruct (IH (shifted cur 0 1) (score + 2) Hb
                (validPiece_shifted cur 0 1 Hv) Eb) as (n & Hn & Hall & Hend & E).
    { unfold shifted. simpl. lia. }
    exists (n + 1). split; [lia|]. split; [|split].
    + intros k Hk. destruct (decide (k = 0)) as [->|Hk0].
      * by rewrite shifted_0.
      * specialize (Hall (k - 1)). rewrite shifted_shifted in Hall.
        replace (0 + 0) with 0 in Hall by done.
        replace (1 + (k - 1)) with k in Hall by lia. apply Hall. lia.
    + rewrite shifted_shifted in Hend.
      by replace (1 + (n + 1)) with (n + 1 + 1) in Hend by lia.
    + rewrite E, shifted_shifted. do 2 f_equal; [|lia].
      f_equal; lia.
Qed.

Lemma hardDrop_eq u s cur :
  playable s → Sketch.currentPiece s = Some cur → Sketch.gameOver s = false →
  ∃ n, 0 ≤ n
       ∧ (∀ k, 0 ≤ k ≤ n →
            collides (Sketch.grid s) (shifted cur 0 k) = Value false)
       ∧ collides (Sketch.grid s) (shifted cur 0 (n + 1)) = Value true
       ∧ Sketch.hardDrop u s
         = Sketch.lockPiece u
             (Sketch.State (Sketch.grid s) (Some (shifted cur 0 n))
                (Sketch.nextPieceType s) (Sketch.level s)
                (Sketch.score s + 2 * n) (Sketch.lines s) (Sketch.gameOver s)).
Proof.
  intros (Hboard & Hnone & Hn & Hl & Hlv & Hsc & Hcur) Ec Eo.
  destruct (Hcur cur Ec) as [Hv Hfree].
  destruct (collides_pivot _ cur (board_length _ Hboard) Hfree) as [Hy _].
  destruct (dropLoop_spec (Sketch.grid s) (Z.to_nat (ROWS + 1)) cur
              (Sketch.score s) Hboard Hv Hfree) as (n & Hn0 & Hall & Hend & E);
    [lia|].
  exists n. split; [done|]. split; [done|]. split; [done|].
  unfold Sketch.hardDrop. rewrite Ec, Eo, E. done.
Qed.

Lemma softDrop_eq u s cur :
  Sketch.currentPiece s = Some cur → Sketch.gameOver s = false →
  Sketch.softDrop u s
  = c ← collides (Sketch.grid s) (shifted cur 0 1);
    if (c : bool) then Sketch.lockPiece u s
    else mret (Sketch.State (Sketch.grid s) (Some (shifted cur 0 1))
                 (Sketch.nextPieceType s) (Sketch.level s) (Sketch.score s + 1)
                 (Sketch.lines s) (Sketch.gameOver s)).
Proof.
  intros Ec Eo. unfold Sketch.softDrop. rewrite Ec, Eo.
  unfold shifted, clonePiece. simpl. by rewrite Z.add_0_r.
Qed.

(** ** The game *)

Lemma playable_resetGame u : unitInterval u → playable (Sketch.resetGame u).
Proof.
  intros Hu. unfold playable, Sketch.resetGame. simpl_state.
  split; [split; [done|by apply (bool_decide_unpack _)]|].
  split; [by apply (bool_decide_unpack _)|].
  split; [by apply nextType_range|]. done.
Qed.

Lemma spawnPiece_playable u s :
  playable s → unitInterval u →
  ∃ s' b, Sketch.spawnPiece u s = Value (s', b) ∧ playable s'
          ∧ Sketch.score s' = Sketch.score s ∧ Sketch.lines s' = Sketch.lines s.
Proof.
  intros (Hboard & Hnone & Hn & Hl & Hlv & Hsc & Hcur) Hu.
  destruct (spawnPiece_eq u s (board_length _ Hboard) Hn) as (b & Eb & ->).
  pose proof (nextType_range u Hu).
  eexists _, _. split; [done|]. unfold playable.
  destruct b; simpl_state; (split; [|done]); (split; [done|]); (split; [done|]);
    (split; [done|]); (split; [done|]); (split; [done|]); (split; [done|]).
  - done.
  - intros p [= <-]. split; [by apply validPiece_spawn|done].
Qed.

Lemma keeps_state s :
  playable s →
  ∃ s', Value s = Value s' ∧ playable s'
        ∧ Sketch.score s ≤ Sketch.score s' ∧ Sketch.lines s ≤ Sketch.lines s'.
Proof. intros Hs. exists s. split; [done|]. split; [done|]. lia. Qed.

Lemma tryPiece_keeps s next :
  playable s → validPiece next →
  ∃ s', tryPiece s next = Value s' ∧ playable s'
        ∧ Sketch.score s ≤ Sketch.score s' ∧ Sketch.lines s ≤ Sketch.lines s'.
Proof.
  intros Hs Hnext.
  destruct (tryPiece_spec s next Hs Hnext) as (s' & E & Hs' & _ & Hsc & Hl & _).
  exists s'. split; [done|]. split; [done|]. lia.
Qed.

Lemma lockPiece_keeps u s :
  playable s → unitInterval u →
  ∃ s', Sketch.lockPiece u s = Value s' ∧ playable s'
        ∧ Sketch.score s ≤ Sketch.score s' ∧ Sketch.lines s ≤ Sketch.lines s'.
Proof.
  intros Hs Hu. destruct (Sketch.currentPiece s) as [cur|] eqn:Ec.
  - destruct (lockPiece_spec u s cur Hs Hu Ec)
      as (s' & cleared & E & Hs' & Hcl & Hl & Hsc & _).
    exists s'. split; [done|]. split; [done|].
    destruct Hs as (_ & _ & _ & Hlines & Hlevel & _).
    assert (1 ≤ Sketch.level s).
    { rewrite Hlevel. unfold Sketch.LINES_PER_LEVEL.
      pose proof (Z.div_pos (Sketch.lines s) 10). lia. }
    nia.
  - unfold Sketch.lockPiece. rewrite Ec. by apply keeps_state.
Qed.

(** X14. A game stays playable. From a playable state, with a number from 0
    up to 1 for [Math.random()], each of [spawnPiece], [moveLeft],
    [moveRight], [rotate], [softDrop], [hardDrop] and [lockPiece] returns:
    it throws nothing and its loop ends. The state it leaves is playable
    again (the grid is a board without a full row, the current piece
    overlaps nothing and is on the board, the level is [1 + floor(lines /
    10)]), and neither the score nor the number of lines has gone down.
    [resetGame] makes a playable state. *)
Theorem game_stays_playable (u : float) (s : Sketch.state) :
  playable s → unitInterval u →
  playable (Sketch.resetGame u)
  ∧ (∃ s' b, Sketch.spawnPiece u s = Value (s', b) ∧ playable s')
  ∧ Forall (λ op : Sketch.state → result Sketch.state,
              ∃ s', op s = Value s' ∧ playable s'
                    ∧ Sketch.score s ≤ Sketch.score s'
                    ∧ Sketch.lines s ≤ Sketch.lines s')
      [Sketch.moveLeft; Sketch.moveRight; Sketch.rotate; Sketch.softDrop u;
       Sketch.hardDrop u; Sketch.lockPiece u].
Proof.
  intros Hs Hu. split; [by apply playable_resetGame|]. split.
  { destruct (spawnPiece_playable u s Hs Hu) as (s' & b & E & Hs' & _).
    by exists s', b. }
  assert (Hidle : ∀ op : Sketch.state → result Sketch.state,
            op s = Value s →
            ∃ s', op s = Value s' ∧ playable s'
                  ∧ Sketch.score s ≤ Sketch.score s'
                  ∧ Sketch.lines s ≤ Sketch.lines s').
  { intros op ->. by apply keeps_state. }
  destruct (Sketch.currentPiece s) as [cur|] eqn:Ec.
  2: { repeat apply Forall_cons_2; [..|apply Forall_nil_2];
         try (by apply lockPiece_keeps); apply Hidle;
         unfold Sketch.moveLeft, Sketch.moveRight, Sketch.rotate,
           Sketch.softDrop, Sketch.hardDrop; by rewrite Ec. }
  destruct (Sketch.gameOver s) eqn:Eo.
  { repeat apply Forall_cons_2; [..|apply Forall_nil_2];
      try (by apply lockPiece_keeps); apply Hidle;
      unfold Sketch.moveLeft, Sketch.moveRight, Sketch.rotate,
        Sketch.softDrop, Sketch.hardDrop; by rewrite Ec, Eo. }
  clear Hidle. pose proof Hs as (Hboard & _ & _ & _ & _ & _ & Hcur).
  destruct (Hcur cur Ec) as [Hv Hfree].
  repeat apply Forall_cons_2; [..|apply Forall_nil_2].
  - rewrite (moveLeft_eq s cur Ec Eo). by apply tryPiece_keeps.
  - rewrite (moveRight_eq s cur Ec Eo). by apply tryPiece_keeps.
  - rewrite (rotate_eq s cur Ec Eo). apply tryPiece_keeps; [done|].
    by apply rotatePiece_valid.
  - rewrite (softDrop_eq u s cur Ec Eo).
    destruct (collides_valid (Sketch.grid s) (shifted cur 0 1)
                (validPiece_shifted cur 0 1 Hv) (board_length _ Hboard))
      as [b Eb].
    rewrite Eb. simpl. destruct b; [by apply lockPiece_keeps|].
    eexists. split; [done|]. destruct Hs as (? & ? & ? & ? & ? & ? & ?).
    unfold playable. simpl_state. split; [|lia].
    split; [done|]. split; [done|]. split; [done|]. split; [done|].
    split; [done|]. split; [lia|]. by intros p [= <-].
  - destruct (hardDrop_eq u s cur Hs Ec Eo) as (n & Hn & Hall & _ & ->).
    destruct (lockPiece_keeps u
                (Sketch.State (Sketch.grid s) (Some (shifted cur 0 n))
                   (Sketch.nextPieceType s) (Sketch.level s)
                   (Sketch.score s + 2 * n) (Sketch.lines s) (Sketch.gameOver s)))
      as (s' & E & Hs' & Hsc & Hl); [|done|].
    + destruct Hs as (? & ? & ? & ? & ? & ? & ?).
      unfold playable. simpl_state.
      split; [done|]. split; [done|]. split; [done|]. split; [done|].
      split; [done|]. split; [lia|]. intros p [= <-].
      split; [by apply validPiece_shifted|]. apply Hall. lia.
    + exists s'. simpl_state. split; [done|]. split; [done|]. lia.
  - by apply lockPiece_keeps.
Qed.

Lemma game_stays_playable_witness :
  playable (Sketch.resetGame 0.5)
  ∧ (∃ s' b,
       Sketch.spawnPiece 0.5
         (Sketch.State emptyGrid (Some (Piece.make 1 0 3 0)) 3 1 0 0 false)
       = Value (s', b) ∧ playable s')
  ∧ Forall (λ op : Sketch.state → result Sketch.state,
              ∃ s', op (Sketch.State emptyGrid (Some (Piece.make 1 0 3 0)) 3 1 0 0
                          false)
                    = Value s'
                    ∧ playable s'
                    ∧ 0 ≤ Sketch.score s' ∧ 0 ≤ Sketch.lines s')
      [Sketch.moveLeft; Sketch.moveRight; Sketch.rotate; Sketch.softDrop 0.5;
       Sketch.hardDrop 0.5; Sketch.lockPiece 0.5].
Proof.
  apply (game_stays_playable 0.5
           (Sketch.State emptyGrid (Some (Piece.make 1 0 3 0)) 3 1 0 0 false)).
  - unfold playable. simpl.
    split; [split; [reflexivity|by apply (bool_decide_unpack _)]|].
    split; [by apply (bool_decide_unpack _)|].
    split; [lia|]. split; [lia|]. split; [reflexivity|]. split; [lia|].
    intros p [= <-]. split; [|reflexivity]. split; simpl; [lia|].
    vm_compute. split; [discriminate|reflexivity].
  - split; reflexivity.
Defined.

(** X15. What a lock does to the board and the counters. When [lockPiece]
    locks the current piece of a playable state, it clears at most four
    lines, adds them to [lines], adds [cleared * 100 * level] of the old
    level to the score, and asks [Math.random()] for the type after the
    next. The piece adds four truthy cells to the grid and each cleared line
    takes [COLS] away. Then the next piece stands at the spawn position, or
    the game is over and there is no current piece. *)
Theorem lockPiece_accounting (u : float) (s : Sketch.state) (cur : Piece.t) :
  playable s → unitInterval u → Sketch.currentPiece s = Some cur →
  ∃ s' cleared,
    Sketch.lockPiece u s = Value s'
    ∧ 0 ≤ cleared ≤ 4
    ∧ Sketch.lines s' = Sketch.lines s + cleared
    ∧ Sketch.score s' = Sketch.score s + cleared * 100 * Sketch.level s
    ∧ Sketch.level s' = 1 + Sketch.lines s' / 10
    ∧ Z.of_nat (filled (Sketch.grid s')) + COLS * cleared
      = Z.of_nat (filled (Sketch.grid s)) + 4
    ∧ Sketch.nextPieceType s' = integer (floor (u * 7))
    ∧ (Sketch.currentPiece s' = None ∧ Sketch.gameOver s' = true
       ∨ Sketch.currentPiece s' = Some (Piece.make (Sketch.nextPieceType s) 0 3 0)
         ∧ Sketch.gameOver s' = Sketch.gameOver s).
Proof.
  intros Hs Hu Ec.
  destruct (lockPiece_spec u s cur Hs Hu Ec)
    as (s' & cleared & E & Hs' & Hcl & Hl & Hsc & Hf & Hn & b & _ & Hc & Ho).
  exists s', cleared. split; [done|]. split; [done|]. split; [done|].
  split; [done|]. split; [by destruct Hs' as (_ & _ & _ & _ & ? & _)|].
  split; [done|]. split; [done|]. destruct b; [by left|by right].
Qed.

(** A lock that clears two lines: the O piece fills the two gaps of the
    last two rows of [twoGaps], in a game of 18 lines, at level 2, with a
    score of 50. The lines become 20, the score [50 + 2 * 100 * 2] and the
    level 3. *)
Lemma lockPiece_accounting_witness :
  (∃ s',
     Sketch.lockPiece 0.5
       (Sketch.State twoGaps (Some (Piece.make 1 0 3 12)) 3 2 50 18 false)
     = Value s'
     ∧ Sketch.lines s' = 20 ∧ Sketch.score s' = 450 ∧ Sketch.level s' = 3
     ∧ filled (Sketch.grid s') = 0%nat)
  ∧ ∃ s' cleared,
      Sketch.lockPiece 0.5
        (Sketch.State twoGaps (Some (Piece.make 1 0 3 12)) 3 2 50 18 false)
      = Value s'
      ∧ 0 ≤ cleared ≤ 4
      ∧ Sketch.lines s' = 18 + cleared
      ∧ Sketch.score s' = 50 + cleared * 100 * 2
      ∧ Sketch.level s' = 1 + Sketch.lines s' / 10
      ∧ Z.of_nat (filled (Sketch.grid s')) + COLS * cleared
        = Z.of_nat (filled twoGaps) + 4
      ∧ Sketch.nextPieceType s' = integer (floor (0.5 * 7))
      ∧ (Sketch.currentPiece s' = None ∧ Sketch.gameOver s' = true
         ∨ Sketch.currentPiece s' = Some (Piece.make 3 0 3 0)
           ∧ Sketch.gameOver s' = false).
Proof.
  split; [eexists; split; [by vm_compute|by vm_compute]|].
  apply (lockPiece_accounting 0.5
           (Sketch.State twoGaps (Some (Piece.make 1 0 3 12)) 3 2 50 18 false)
           (Piece.make 1 0 3 12)).
  - unfold playable. simpl.
    split; [split; [reflexivity|by apply (bool_decide_unpack _)]|].
    split; [by apply (bool_decide_unpack _)|].
    split; [lia|]. split; [lia|]. split; [reflexivity|]. split; [lia|].
    intros p [= <-]. split; [|reflexivity]. split; simpl; [lia|].
    vm_compute. split; [discriminate|reflexivity].
  - split; reflexivity.
  - reflexivity.
Defined.

(** X16. A lock ends the game when the next piece is an I, T, J or L: the
    piece that [spawnPiece] puts at the top then has a cell above the board. *)
Theorem lockPiece_game_over (u : float) (s : Sketch.state) (cur : Piece.t) :
  playable s → unitInterval u → Sketch.currentPiece s = Some cur →
  Sketch.nextPieceType s = 0 ∨ Sketch.nextPieceType s = 2
  ∨ Sketch.nextPieceType s = 5 ∨ Sketch.nextPieceType s = 6 →
  ∃ s', Sketch.lockPiece u s = Value s'
        ∧ Sketch.gameOver s' = true ∧ Sketch.currentPiece s' = None.
Proof.
  intros Hs Hu Ec Ht.
  destruct (lockPiece_spec u s cur Hs Hu Ec)
    as (s' & cleared & E & Hs' & _ & _ & _ & _ & _ & b & Eb & Hc & Ho).
  exists s'. split; [done|].
  rewrite collides_above_board in Eb; [|by destruct Hs' as [[? _] _]; destruct (Sketch.grid s')|done].
  injection Eb as <-. done.
Qed.

Lemma lockPiece_game_over_witness :
  ∃ s', Sketch.lockPiece 0.5
          (Sketch.State emptyGrid (Some (Piece.make 1 0 3 12)) 2 1 0 0 false)
        = Value s'
        ∧ Sketch.gameOver s' = true ∧ Sketch.currentPiece s' = None.
Proof.
  apply (lockPiece_game_over 0.5
           (Sketch.State emptyGrid (Some (Piece.make 1 0 3 12)) 2 1 0 0 false)
           (Piece.make 1 0 3 12)).
  - unfold playable. simpl.
    split; [split; [reflexivity|by apply (bool_decide_unpack _)]|].
    split; [by apply (bool_decide_unpack _)|].
    split; [lia|]. split; [lia|]. split; [reflexivity|]. split; [lia|].
    intros p [= <-]. split; [|reflexivity]. split; simpl; [lia|].
    vm_compute. split; [discriminate|reflexivity].
  - split; reflexivity.
  - reflexivity.
  - right. left. reflexivity.
Defined.

(** X17. Where the drops take the piece. With a current piece in a game that
    is not over: [softDrop] moves the piece one row down for one point when
    it is free there, and locks it where it is otherwise. [hardDrop] moves
    the piece down by the number [n] of rows for which it stays free, the
    position one row further being blocked, scores two points for each of
    these rows, and locks the piece there. *)
Theorem drops_land (u : float) (s : Sketch.state) (cur : Piece.t) :
  playable s → Sketch.currentPiece s = Some cur → Sketch.gameOver s = false →
  (∃ blocked : bool,
     collides (Sketch.grid s) (shifted cur 0 1) = Value blocked
     ∧ Sketch.softDrop u s
       = if blocked then Sketch.lockPiece u s
         else Value (Sketch.State (Sketch.grid s) (Some (shifted cur 0 1))
                       (Sketch.nextPieceType s) (Sketch.level s)
                       (Sketch.score s + 1) (Sketch.lines s) false))
  ∧ ∃ n, 0 ≤ n ∧ Piece.y cur + n < ROWS
         ∧ (∀ k, 0 ≤ k ≤ n →
              collides (Sketch.grid s) (shifted cur 0 k) = Value false)
         ∧ collides (Sketch.grid s) (shifted cur 0 (n + 1)) = Value true
         ∧ Sketch.hardDrop u s
           = Sketch.lockPiece u
               (Sketch.State (Sketch.grid s) (Some (shifted cur 0 n))
                  (Sketch.nextPieceType s) (Sketch.level s)
                  (Sketch.score s + 2 * n) (Sketch.lines s) false).
Proof.
  intros Hs Ec Eo. pose proof Hs as (Hboard & _ & _ & _ & _ & _ & Hcur).
  destruct (Hcur cur Ec) as [Hv Hfree]. split.
  - destruct (collides_valid (Sketch.grid s) (shifted cur 0 1)
                (validPiece_shifted cur 0 1 Hv) (board_length _ Hboard))
      as [b Eb].
    exists b. split; [done|]. rewrite (softDrop_eq u s cur Ec Eo), Eb, Eo.
    by destruct b.
  - destruct (hardDrop_eq u s cur Hs Ec Eo) as (n & Hn & Hall & Hend & E).
    exists n. split; [done|]. split; [|split; [done|split; [done|]]].
    + destruct (collides_pivot _ _ (board_length _ Hboard) (Hall n ltac:(lia))).
      simpl in *. lia.
    + by rewrite E, Eo.
Qed.

Lemma drops_land_witness :
  (∃ blocked : bool,
     collides emptyGrid (shifted (Piece.make 1 0 3 0) 0 1) = Value blocked
     ∧ Sketch.softDrop 0.5
         (Sketch.State emptyGrid (Some (Piece.make 1 0 3 0)) 3 1 0 0 false)
       = if blocked then
           Sketch.lockPiece 0.5
             (Sketch.State emptyGrid (Some (Piece.make 1 0 3 0)) 3 1 0 0 false)
         else Value (Sketch.State emptyGrid (Some (shifted (Piece.make 1 0 3 0) 0 1))
                       3 1 (0 + 1) 0 false))
  ∧ ∃ n, 0 ≤ n ∧ 0 + n < ROWS
         ∧ (∀ k, 0 ≤ k ≤ n →
              collides emptyGrid (shifted (Piece.make 1 0 3 0) 0 k) = Value false)
         ∧ collides emptyGrid (shifted (Piece.make 1 0 3 0) 0 (n + 1)) = Value true
         ∧ Sketch.hardDrop 0.5
             (Sketch.State emptyGrid (Some (Piece.make 1 0 3 0)) 3 1 0 0 false)
           = Sketch.lockPiece 0.5
               (Sketch.State emptyGrid (Some (shifted (Piece.make 1 0 3 0) 0 n))
                  3 1 (0 + 2 * n) 0 false).
Proof.
  apply (drops_land 0.5
           (Sketch.State emptyGrid (Some (Piece.make 1 0 3 0)) 3 1 0 0 false)
           (Piece.make 1 0 3 0)).
  - unfold playable. simpl.
    split; [split; [reflexivity|by apply (bool_decide_unpack _)]|].
    split; [by apply (bool_decide_unpack _)|].
    split; [lia|]. split; [lia|]. split; [reflexivity|]. split; [lia|].
    intros p [= <-]. split; [|reflexivity]. split; simpl; [lia|].
    vm_compute. split; [discriminate|reflexivity].
  - reflexivity.
  - reflexivity.
Defined.

(** X18. A move to the side can be taken back: when [moveRight] moved the
    piece, [moveLeft] brings the state back, and the other way round,
    because the place the piece came from is free. *)
Theorem moves_undo (s : Sketch.state) (cur : Piece.t) :
  playable s → Sketch.currentPiece s = Some cur → Sketch.gameOver s = false →
  (∃ s', Sketch.moveRight s = Value s' ∧ (s' = s ∨ Sketch.moveLeft s' = Value s))
  ∧ (∃ s', Sketch.moveLeft s = Value s' ∧ (s' = s ∨ Sketch.moveRight s' = Value s)).
Proof.
  intros Hs Ec Eo. pose proof Hs as (Hboard & _ & _ & _ & _ & _ & Hcur).
  destruct (Hcur cur Ec) as [Hv Hfree].
  assert (Hback : ∀ dx,
            ∃ s', tryPiece s (shifted cur dx 0) = Value s'
                  ∧ (s' = s
                     ∨ Sketch.currentPiece s' = Some (shifted cur dx 0)
                       ∧ Sketch.gameOver s' = false
                       ∧ tryPiece s' (shifted (shifted cur dx 0) (- dx) 0)
                         = Value s)).
  { intros dx.
    destruct (collides_valid (Sketch.grid s) (shifted cur dx 0)
                (validPiece_shifted cur dx 0 Hv) (board_length _ Hboard))
      as [b Eb].
    unfold tryPiece at 1. rewrite Eb. simpl. destruct b; simpl.
    - exists s. split; [done|]. by left.
    - eexists. split; [done|]. right. simpl_state.
      split; [done|]. split; [done|]. unfold tryPiece. simpl_state.
      rewrite shifted_shifted. replace (dx + - dx) with 0 by lia.
      replace (0 + 0) with 0 by done. rewrite shifted_0, Hfree. simpl.
      destruct s. simpl in *. by subst. }
  split.
  - destruct (Hback 1) as (s' & E & Hs'). exists s'.
    rewrite (moveRight_eq s cur Ec Eo). split; [done|].
    destruct Hs' as [->|(Ec' & Eo' & Hs')]; [by left|right].
    by rewrite (moveLeft_eq s' _ Ec' Eo').
  - destruct (Hback (-1)) as (s' & E & Hs'). exists s'.
    rewrite (moveLeft_eq s cur Ec Eo). split; [done|].
    destruct Hs' as [->|(Ec' & Eo' & Hs')]; [by left|right].
    by rewrite (moveRight_eq s' _ Ec' Eo').
Qed.

Lemma moves_undo_witness :
  (∃ s', Sketch.moveRight
           (Sketch.State emptyGrid (Some (Piece.make 1 0 3 0)) 3 1 0 0 false)
         = Value s'
         ∧ (s' = Sketch.State emptyGrid (Some (Piece.make 1 0 3 0)) 3 1 0 0 false
            ∨ Sketch.moveLeft s'
              = Value (Sketch.State emptyGrid (Some (Piece.make 1 0 3 0)) 3 1 0 0
                         false)))
  ∧ (∃ s', Sketch.moveLeft
             (Sketch.State emptyGrid (Some (Piece.make 1 0 3 0)) 3 1 0 0 false)
           = Value s'
           ∧ (s' = Sketch.State emptyGrid (Some (Piece.make 1 0 3 0)) 3 1 0 0 false
              ∨ Sketch.moveRight s'
                = Value (Sketch.State emptyGrid (Some (Piece.make 1 0 3 0)) 3 1 0 0
                           false))).
Proof.
  apply (moves_undo
           (Sketch.State emptyGrid (Some (Piece.make 1 0 3 0)) 3 1 0 0 false)
           (Piece.make 1 0 3 0)).
  - unfold playable. simpl.
    split; [split; [reflexivity|by apply (bool_decide_unpack _)]|].
    split; [by apply (bool_decide_unpack _)|].
    split; [lia|]. split; [lia|]. split; [reflexivity|]. split; [lia|].
    intros p [= <-]. split; [|reflexivity]. split; simpl; [lia|].
    vm_compute. split; [discriminate|reflexivity].
  - reflexivity.
  - reflexivity.
Defined.

(** ** The call of the transform *)

(** X19. The call [depthToSirds(depthBuffer, WIDTH, HEIGHT, sirdsOutput,
    tickCount, eyeSep, obsDist)] of [gameTick], on the buffers that [setup]
    allocates ([WIDTH * HEIGHT] depth samples, four bytes for each pixel):
    whatever the buffers hold and whatever the seed and the parameters are,
    the call returns, every access it makes is in bounds, and it leaves
    every pixel opaque with the gray level of its root on the three colour
    channels. *)
Theorem gameTick_call (depthBuffer data : list Z) (tickCount : Z)
    (eyeSep obsDist : float) :
  lengthZ depthBuffer = Sketch.WIDTH * Sketch.HEIGHT →
  lengthZ data = Sketch.WIDTH * Sketch.HEIGHT * 4 →
  ∃ out trace,
    depthToSirds depthBuffer Sketch.WIDTH Sketch.HEIGHT data tickCount
      eyeSep obsDist
    = Returns out trace
    ∧ lengthZ out = lengthZ data
    ∧ Forall (inBounds Sketch.WIDTH Sketch.HEIGHT) trace
    ∧ ∀ y x, 0 ≤ y < Sketch.HEIGHT → 0 ≤ x < Sketch.WIDTH →
        channel out Sketch.WIDTH y x 3 = Some 255
        ∧ ∀ c, 0 ≤ c < 3 →
            channel out Sketch.WIDTH y x c
            = Some (pixelOf depthBuffer Sketch.WIDTH tickCount eyeSep obsDist y x).
Proof.
  intros Hdepth Hdata.
  destruct (depthToSirds_closed_form depthBuffer Sketch.WIDTH Sketch.HEIGHT data
              tickCount eyeSep obsDist)
    as (out & trace & E & Hlen & Hrgb & Ha & _ & Ht);
    [done|done|by rewrite Hdata|].
  exists out, trace. split; [done|]. split; [done|]. split.
  - eapply list.Forall_impl; [exact Ht|]. intros e (y & Hy & He).
    apply (rowAccess_inBounds depthBuffer Sketch.WIDTH Sketch.HEIGHT data y);
      [done|by rewrite Hdepth|by rewrite Hdata|done|done].
  - intros y x Hy Hx. split; [by apply Ha|]. intros c Hc. by apply Hrgb.
Qed.

Lemma gameTick_call_witness :
  ∃ out trace,
    depthToSirds (replicate (Z.to_nat (336 * 262)) 64) Sketch.WIDTH Sketch.HEIGHT
      (replicate (Z.to_nat (336 * 262 * 4)) 0) 0 DEFAULT_EYESEP DEFAULT_OBSDIST
    = Returns out trace
    ∧ lengthZ out = lengthZ (replicate (Z.to_nat (336 * 262 * 4)) 0)
    ∧ Forall (inBounds Sketch.WIDTH Sketch.HEIGHT) trace
    ∧ ∀ y x, 0 ≤ y < Sketch.HEIGHT → 0 ≤ x < Sketch.WIDTH →
        channel out Sketch.WIDTH y x 3 = Some 255
        ∧ ∀ c, 0 ≤ c < 3 →
            channel out Sketch.WIDTH y x c
            = Some (pixelOf (replicate (Z.to_nat (336 * 262)) 64) Sketch.WIDTH 0
                      DEFAULT_EYESEP DEFAULT_OBSDIST y x).
Proof.
  apply (gameTick_call (replicate (Z.to_nat (336 * 262)) 64)
           (replicate (Z.to_nat (336 * 262 * 4)) 0) 0
           DEFAULT_EYESEP DEFAULT_OBSDIST).
  - rewrite lengthZ_replicate; [reflexivity|lia].
  - rewrite lengthZ_replicate; [reflexivity|lia].
Defined.

(** ** The loops end *)

Lemma bind_OutOfFuel {A B} (c : result A) (k : A → result B) :
  c ≠ OutOfFuel → (∀ a, k a ≠ OutOfFuel) → c ≫= k ≠ OutOfFuel.
Proof. intros Hc Hk. destruct c; simpl; [apply Hk|done|done]. Qed.

Lemma defined_OutOfFuel {A} (o : option A) : defined o ≠ OutOfFuel.
Proof. by destruct o. Qed.

Lemma pieceCells_OutOfFuel p : pieceCells p ≠ OutOfFuel.
Proof.
  unfold pieceCells, getShapeCells.
  apply bind_OutOfFuel; [|done].
  apply bind_OutOfFuel; [apply defined_OutOfFuel|done].
Qed.

Lemma collidesCells_OutOfFuel grid cells : collidesCells grid cells ≠ OutOfFuel.
Proof.
  induction cells as [|[row col] cells IH]; [done|].
  simpl. destruct (_ || _); [done|].
  apply bind_OutOfFuel; [apply defined_OutOfFuel|].
  intros r. by destruct (truthy _).
Qed.

Lemma collides_OutOfFuel grid p : collides grid p ≠ OutOfFuel.
Proof.
  unfold collides. apply bind_OutOfFuel; [apply pieceCells_OutOfFuel|].
  intros cells. apply collidesCells_OutOfFuel.
Qed.

Lemma mergeCells_OutOfFuel cells value : ∀ grid : Grid,
  mergeCells grid cells value ≠ OutOfFuel.
Proof.
  induction cells as [|[row col] cells IH]; intros grid; [done|].
  simpl. destruct (_ && _); [|apply IH].
  apply bind_OutOfFuel; [apply defined_OutOfFuel|]. intros r. apply IH.
Qed.

Lemma clearLines_OutOfFuel (grid : Grid) : clearLines grid ≠ OutOfFuel.
Proof.
  destruct (decide (length grid < Z.to_nat ROWS)%nat) as [H|H].
  - by rewrite clearLines_TypeError.
  - rewrite clearLines_Value by lia. done.
Qed.

Lemma spawnPiece_OutOfFuel u s : Sketch.spawnPiece u s ≠ OutOfFuel.
Proof.
  unfold Sketch.spawnPiece, createPiece.
  apply bind_OutOfFuel.
  - apply bind_OutOfFuel; [apply defined_OutOfFuel|]. by intros [x y].
  - intros piece. apply bind_OutOfFuel; [apply collides_OutOfFuel|].
    by intros [].
Qed.

Lemma lockPiece_OutOfFuel u s : Sketch.lockPiece u s ≠ OutOfFuel.
Proof.
  unfold Sketch.lockPiece. destruct (Sketch.currentPiece s) as [cur|]; [|done].
  apply bind_OutOfFuel.
  { unfold mergePiece. apply bind_OutOfFuel; [apply pieceCells_OutOfFuel|].
    intros cells. apply mergeCells_OutOfFuel. }
  intros merged. apply bind_OutOfFuel; [apply clearLines_OutOfFuel|].
  intros [cleaned cleared].
  apply bind_OutOfFuel; [apply spawnPiece_OutOfFuel|]. by intros [s' b].
Qed.

(** The cells of a piece that [collides] finds free are on the board. *)
Lemma collidesCells_inside grid cells :
  collidesCells grid cells = Value false → Forall inside cells.
Proof.
  induction cells as [|[row col] cells IH]; [by intros; apply Forall_nil_2|].
  simpl. destruct (_ || _) eqn:Hout; [done|].
  rewrite !orb_false_iff, !bool_decide_eq_false in Hout.
  intros (r & _ & H)%bind_Value. destruct (truthy _); [done|].
  apply Forall_cons_2; [|by apply IH]. split; simpl; lia.
Qed.

Lemma collides_inside grid p :
  collides grid p = Value false → 0 ≤ Piece.y p < ROWS ∧ 0 ≤ Piece.x p < COLS.
Proof.
  unfold collides, pieceCells.
  intros (cells & (shape & Es & [= <-])%bind_Value & Ec)%bind_Value.
  apply collidesCells_inside in Ec.
  apply getShapeCells_Value in Es as (_ & _ & Hpivot & _).
  rewrite list.Forall_forall in Ec.
  destruct (Ec (Piece.y p + 0, Piece.x p + 0)) as [H1 H2].
  { rewrite map_fmap. apply list_elem_of_fmap. exists (0, 0).
    split; [reflexivity|exact Hpivot]. }
  simpl in *. lia.
Qed.

Lemma dropLoop_step fuel grid cur score :
  Sketch.dropLoop (S fuel) grid cur score
  = c ← collides grid (shifted cur 0 1);
    if (c : bool) then mret (cur, score)
    else Sketch.dropLoop fuel grid (shifted cur 0 1) (score + 2).
Proof. simpl. unfold shifted, clonePiece. simpl. by rewrite Z.add_0_r. Qed.

(** The loop of [hardDrop] goes on only while the pivot is on the board
    one row further. *)
Lemma dropLoop_OutOfFuel grid fuel : ∀ cur score,
  (1 + Z.to_nat (ROWS - 1 - Piece.y cur) ≤ fuel)%nat
  ∨ (Piece.y cur < -1 ∧ (1 ≤ fuel)%nat) →
  Sketch.dropLoop fuel grid cur score ≠ OutOfFuel.
Proof.
  induction fuel as [|fuel IH]; intros cur score Hfuel; [lia|].
  rewrite dropLoop_step.
  destruct (collides grid (shifted cur 0 1)) as [[|]| |] eqn:Ec; simpl;
    [done| |done|by apply collides_OutOfFuel in Ec].
  apply collides_inside in Ec as [Hy _]. simpl in Hy.
  apply IH. left. simpl. change ROWS with 14 in *. lia.
Qed.

Lemma hardDrop_OutOfFuel u s : Sketch.hardDrop u s ≠ OutOfFuel.
Proof.
  unfold Sketch.hardDrop. destruct (Sketch.currentPiece s) as [cur|]; [|done].
  destruct (Sketch.gameOver s); [done|].
  apply bind_OutOfFuel.
  - apply dropLoop_OutOfFuel. change ROWS with 14.
    destruct (decide (Piece.y cur < -1)); [right|left]; lia.
  - intros [cur' score']. apply lockPiece_OutOfFuel.
Qed.

(** X20. The loops of the game end, whatever the state: the loop of
    [clearLines], which looks at a row again after it cleared one, ends
    within [2 * ROWS + 1] rounds, and the [while (true)] of [hardDrop]
    within [ROWS + 1], because a piece that does not collide has its pivot
    on the board. No function of the game runs out of the fuel its loops are
    given. *)
Theorem loops_end (u : float) (s : Sketch.state) (grid : Grid) (p : Piece.t)
    (value : Z) :
  collides grid p ≠ OutOfFuel
  ∧ mergePiece grid p value ≠ OutOfFuel
  ∧ clearLines grid ≠ OutOfFuel
  ∧ Sketch.spawnPiece u s ≠ OutOfFuel
  ∧ Forall (λ op : Sketch.state → result Sketch.state, op s ≠ OutOfFuel)
      [Sketch.moveLeft; Sketch.moveRight; Sketch.rotate; Sketch.softDrop u;
       Sketch.hardDrop u; Sketch.lockPiece u].
Proof.
  split; [apply collides_OutOfFuel|]. split.
  { unfold mergePiece. apply bind_OutOfFuel; [apply pieceCells_OutOfFuel|].
    intros cells. apply mergeCells_OutOfFuel. }
  split; [apply clearLines_OutOfFuel|]. split; [apply spawnPiece_OutOfFuel|].
  repeat apply Forall_cons_2; [..|apply Forall_nil_2].
  - unfold Sketch.moveLeft. destruct (Sketch.currentPiece s); [|done].
    destruct (Sketch.gameOver s); [done|].
    apply bind_OutOfFuel; [apply collides_OutOfFuel|]. by intros [].
  - unfold Sketch.moveRight. destruct (Sketch.currentPiece s); [|done].
    destruct (Sketch.gameOver s); [done|].
    apply bind_OutOfFuel; [apply collides_OutOfFuel|]. by intros [].
  - unfold Sketch.rotate. destruct (Sketch.currentPiece s); [|done].
    destruct (Sketch.gameOver s); [done|].
    apply bind_OutOfFuel; [apply collides_OutOfFuel|]. by intros [].
  - unfold Sketch.softDrop. destruct (Sketch.currentPiece s); [|done].
    destruct (Sketch.gameOver s); [done|].
    apply bind_OutOfFuel; [apply collides_OutOfFuel|].
    intros []; [apply lockPiece_OutOfFuel|done].
  - apply hardDrop_OutOfFuel.
  - apply lockPiece_OutOfFuel.
Qed.

(** * Properties of the tints *)

(** ** Loops that may throw *)

Lemma forEachResult_app {S} (body : Z → S → result S) xs ys s :
  forEachResult body (xs ++ ys) s
  = (s' ← forEachResult body xs s; forEachResult body ys s').
Proof.
  revert s. induction xs as [|x xs IH]; intros s; [done|].
  simpl. destruct (body x s); simpl; [apply IH|done..].
Qed.

Lemma forEachResult_ext {S} (f g : Z → S → result S) xs s :
  (∀ x s, x ∈ xs → f x s = g x s) →
  forEachResult f xs s = forEachResult g xs s.
Proof.
  revert s. induction xs as [|x xs IH]; intros s H; [done|].
  simpl. rewrite H by apply list_elem_of_here.
  destruct (g x s); simpl; [|done..].
  apply IH. intros y s' Hy. apply H. by apply list_elem_of_further.
Qed.

Lemma forEachResult_id {S} (body : Z → S → result S) xs s :
  (∀ x s, x ∈ xs → body x s = Value s) → forEachResult body xs s = Value s.
Proof.
  induction xs as [|x xs IH]; intros H; [done|].
  simpl. rewrite H by apply list_elem_of_here. simpl.
  apply IH. intros y s' Hy. apply H. by apply list_elem_of_further.
Qed.

(** A loop throws when one of its rounds throws whatever the state is and
    no round runs out of fuel. *)
Lemma forEachResult_TypeError {S} (body : Z → S → result S) xs s x :
  x ∈ xs → (∀ s, body x s = TypeError) →
  (∀ y s, y ∈ xs → body y s ≠ OutOfFuel) →
  forEachResult body xs s = TypeError.
Proof.
  revert s. induction xs as [|y xs IH]; intros s Hx Hthrow Hfuel.
  { by apply elem_of_nil in Hx. }
  simpl. destruct (body y s) as [s'| |] eqn:E; simpl.
  - apply elem_of_cons in Hx as [->|Hx]; [by rewrite Hthrow in E|].
    apply IH; [done..|]. intros z s'' Hz. apply Hfuel.
    by apply list_elem_of_further.
  - done.
  - by destruct (Hfuel y s (list_elem_of_here _ _)).
Qed.

Lemma forEachResult_OutOfFuel {S} (body : Z → S → result S) xs s :
  (∀ y s, y ∈ xs → body y s ≠ OutOfFuel) →
  forEachResult body xs s ≠ OutOfFuel.
Proof.
  revert s. induction xs as [|y xs IH]; intros s Hfuel; [done|].
  simpl. destruct (body y s) as [s'| |] eqn:E; simpl; [|done|].
  - apply IH. intros z s'' Hz. apply Hfuel. by apply list_elem_of_further.
  - by destruct (Hfuel y s (list_elem_of_here _ _)).
Qed.

Lemma forRangeResult_succ {S} (body : Z → S → result S) n s :
  0 ≤ n →
  forRangeResult (n + 1) body s = (s' ← forRangeResult n body s; body n s').
Proof.
  intros Hn. unfold forRangeResult.
  rewrite (seqZ_app 0 n 1) by lia.
  assert (seqZ (0 + n) 1 = [n]) as -> by reflexivity.
  rewrite forEachResult_app.
  destruct (forEachResult body (seqZ 0 n) s) as [s'| |]; [|done..].
  simpl. by destruct (body n s').
Qed.

(** The rule of the invariant for a loop whose rounds return. *)
Lemma forRangeResult_inv {St} (I : Z → St → Prop)
    (body : Z → St → result St) n s :
  0 ≤ n → I 0 s →
  (∀ k s, 0 ≤ k < n → I k s → ∃ s', body k s = Value s' ∧ I (k + 1) s') →
  ∃ s', forRangeResult n body s = Value s' ∧ I n s'.
Proof.
  intros Hn H0 Hstep.
  assert (Hk : ∀ k : nat, Z.of_nat k ≤ n →
    ∃ s', forRangeResult (Z.of_nat k) body s = Value s' ∧ I (Z.of_nat k) s').
  { induction k as [|k IH]; intros Hle.
    - exists s. by split.
    - destruct IH as (s' & E & Hs'); [lia|].
      destruct (Hstep (Z.of_nat k) s') as (s'' & E' & Hs''); [lia|done|].
      exists s''. replace (Z.of_nat (S k)) with (Z.of_nat k + 1) by lia.
      rewrite forRangeResult_succ by lia. rewrite E. by split. }
  specialize (Hk (Z.to_nat n)). rewrite Z2Nat.id in Hk by lia. apply Hk. lia.
Qed.

(** ** The pixels of a tint *)

Lemma lengthZ_storeTint i rgb mult d :
  lengthZ (storeTint i rgb mult d) = lengthZ d.
Proof. unfold storeTint. by rewrite !lengthZ_insertZ. Qed.

Lemma lookupZ_storeTint i rgb mult d j :
  0 ≤ i → i + 2 < lengthZ d →
  lookupZ (storeTint i rgb mult d) j
  = if decide (j = i) then Some (tintByte rgb.1.1 (lookupZ d i) mult)
    else if decide (j = i + 1) then Some (tintByte rgb.1.2 (lookupZ d i) mult)
    else if decide (j = i + 2) then Some (tintByte rgb.2 (lookupZ d i) mult)
    else lookupZ d j.
Proof.
  intros H0 H2. unfold storeTint.
  repeat case_decide; subst;
    repeat first
      [ rewrite lookupZ_insertZ_eq by (rewrite ?lengthZ_insertZ; lia)
      | rewrite lookupZ_insertZ_ne by lia ];
    done.
Qed.

Section PixelLoop.

Variable body : Z → Z → list Z → result (list Z).
Variable paint : Z → Z → option (Z * Z * Z * option float).

Hypothesis body_paint : ∀ py px d,
  0 ≤ py < Sketch.HEIGHT → 0 ≤ px < Sketch.WIDTH →
  body py px d
  = Value (match paint px py with
           | Some (rgb, mult) =>
               storeTint (4 * (py * Sketch.WIDTH + px)) rgb mult d
           | None => d
           end).

Lemma pixel_step d0 d py px :
  0 ≤ py < Sketch.HEIGHT → 0 ≤ px < Sketch.WIDTH →
  paintedUpTo paint (py * Sketch.WIDTH + px) d0 d →
  ∃ d', body py px d = Value d'
        ∧ paintedUpTo paint (py * Sketch.WIDTH + px + 1) d0 d'.
Proof.
  intros Hpy Hpx [Hlen Hpix]. rewrite body_paint by done.
  eexists. split; [done|].
  assert (Hsame : lengthZ d0 = 4 * Sketch.WIDTH * Sketch.HEIGHT → ∀ c,
            0 ≤ c < 4 →
            lookupZ d (4 * (py * Sketch.WIDTH + px) + c)
            = channel d0 Sketch.WIDTH py px c).
  { intros HL c Hc. specialize (Hpix HL py px c Hpy Hpx Hc).
    rewrite bool_decide_false in Hpix by lia. done. }
  assert (Hother : lengthZ d0 = 4 * Sketch.WIDTH * Sketch.HEIGHT →
            ∀ py' px' c, 0 ≤ py' < Sketch.HEIGHT → 0 ≤ px' < Sketch.WIDTH →
            0 ≤ c < 4 → ¬ (py' = py ∧ px' = px) →
            channel d Sketch.WIDTH py' px' c
            = if bool_decide (py' * Sketch.WIDTH + px'
                              < py * Sketch.WIDTH + px + 1)
              then painted paint d0 py' px' c
              else channel d0 Sketch.WIDTH py' px' c).
  { intros HL py' px' c Hpy' Hpx' Hc Hne. rewrite (Hpix HL) by done.
    unfold Sketch.WIDTH in *.
    destruct (decide (py' * 336 + px' < py * 336 + px)).
    - by rewrite !bool_decide_true by lia.
    - by rewrite !bool_decide_false by lia. }
  destruct (paint px py) as [[rgb mult]|] eqn:E.
  - split; [by rewrite lengthZ_storeTint|].
    intros HL py' px' c Hpy' Hpx' Hc.
    specialize (Hsame HL). specialize (Hother HL).
    assert (Hgray : lookupZ d (4 * (py * Sketch.WIDTH + px))
                    = channel d0 Sketch.WIDTH py px 0).
    { rewrite <- (Hsame 0) by lia. f_equal. lia. }
    destruct (decide (py' = py ∧ px' = px)) as [[-> ->]|Hne].
    + unfold channel at 1.
      rewrite lookupZ_storeTint
        by (unfold Sketch.WIDTH, Sketch.HEIGHT in *; lia).
      rewrite bool_decide_true by lia. unfold painted. rewrite E, Hgray.
      unfold component.
      assert (c = 0 ∨ c = 1 ∨ c = 2 ∨ c = 3) as [-> | [-> | [-> | ->]]] by lia;
        repeat case_decide; try lia; try done.
      rewrite bool_decide_false by lia. by rewrite <- (Hsame 3) by lia.
    + rewrite <- (Hother py' px' c) by done. unfold channel.
      rewrite lookupZ_storeTint
        by (unfold Sketch.WIDTH, Sketch.HEIGHT in *; lia).
      unfold Sketch.WIDTH in *. repeat case_decide; try lia. done.
  - split; [done|]. intros HL py' px' c Hpy' Hpx' Hc.
    destruct (decide (py' = py ∧ px' = px)) as [[-> ->]|Hne].
    + rewrite bool_decide_true by lia. unfold painted. rewrite E.
      by apply Hsame.
    + by apply Hother.
Qed.

Lemma row_step d0 d py :
  0 ≤ py < Sketch.HEIGHT →
  paintedUpTo paint (py * Sketch.WIDTH) d0 d →
  ∃ d', forRangeResult Sketch.WIDTH (body py) d = Value d'
        ∧ paintedUpTo paint ((py + 1) * Sketch.WIDTH) d0 d'.
Proof.
  intros Hpy Hd.
  destruct (forRangeResult_inv
              (λ px d, paintedUpTo paint (py * Sketch.WIDTH + px) d0 d)
              (body py) Sketch.WIDTH d) as (d' & E & Hd').
  - done.
  - by rewrite Z.add_0_r.
  - intros px d1 Hpx Hd1. rewrite Z.add_assoc. by apply pixel_step.
  - exists d'. split; [done|].
    by replace ((py + 1) * Sketch.WIDTH)
      with (py * Sketch.WIDTH + Sketch.WIDTH) by lia.
Qed.

Lemma pixels_loop d0 :
  ∃ d, forRangeResult Sketch.HEIGHT
         (λ py d, forRangeResult Sketch.WIDTH (body py) d) d0 = Value d
       ∧ paintedUpTo paint (Sketch.HEIGHT * Sketch.WIDTH) d0 d.
Proof.
  apply (forRangeResult_inv
           (λ py d, paintedUpTo paint (py * Sketch.WIDTH) d0 d)).
  - done.
  - split; [done|]. intros HL py px c Hpy Hpx Hc.
    by rewrite bool_decide_false by (unfold Sketch.WIDTH in *; lia).
  - intros py d Hpy Hd. by apply row_step.
Qed.

End PixelLoop.

(** What the loops of a tint leave: the length of the image, and on an image
    of [WIDTH * HEIGHT] pixels the channels of every pixel. *)
Lemma pixels_painted body paint d0 :
  (∀ py px d, 0 ≤ py < Sketch.HEIGHT → 0 ≤ px < Sketch.WIDTH →
     body py px d
     = Value (match paint px py with
              | Some (rgb, mult) =>
                  storeTint (4 * (py * Sketch.WIDTH + px)) rgb mult d
              | None => d
              end)) →
  ∃ d, forRangeResult Sketch.HEIGHT
         (λ py d, forRangeResult Sketch.WIDTH (body py) d) d0 = Value d
       ∧ lengthZ d = lengthZ d0
       ∧ (lengthZ d0 = 4 * Sketch.WIDTH * Sketch.HEIGHT →
          ∀ py px c, 0 ≤ py < Sketch.HEIGHT → 0 ≤ px < Sketch.WIDTH →
            0 ≤ c < 4 →
            channel d Sketch.WIDTH py px c = painted paint d0 py px c).
Proof.
  intros Hbody. destruct (pixels_loop body paint Hbody d0) as (d & E & Hlen & Hpix).
  exists d. split; [done|]. split; [done|].
  intros HL py px c Hpy Hpx Hc. rewrite (Hpix HL) by done.
  by rewrite bool_decide_true by (unfold Sketch.WIDTH, Sketch.HEIGHT in *; lia).
Qed.

(** ** The tint of the panels *)

Lemma pixel_index py px :
  0 ≤ py < Sketch.HEIGHT → 0 ≤ px < Sketch.WIDTH →
  Int32.shl (py * Sketch.WIDTH + px) 2 = 4 * (py * Sketch.WIDTH + px).
Proof.
  intros Hpy Hpx. apply shl_2_small.
  unfold Sketch.WIDTH, Sketch.HEIGHT in *. lia.
Qed.

Lemma tintPanelPixel_paint py px d :
  0 ≤ py < Sketch.HEIGHT → 0 ≤ px < Sketch.WIDTH →
  Sketch.tintPanelPixel py px d
  = Value (match panelTint px py with
           | Some (rgb, mult) =>
               storeTint (4 * (py * Sketch.WIDTH + px)) rgb mult d
           | None => d
           end).
Proof.
  intros Hpy Hpx. unfold Sketch.tintPanelPixel, panelTint.
  destruct (Sketch.panelAt px py) as [[[r g] b]|]; [|done].
  simpl. by rewrite pixel_index.
Qed.

Lemma tintPanels_painted d0 :
  ∃ d, Sketch.tintPanels d0 = Value d
       ∧ lengthZ d = lengthZ d0
       ∧ (lengthZ d0 = 4 * Sketch.WIDTH * Sketch.HEIGHT →
          ∀ py px c, 0 ≤ py < Sketch.HEIGHT → 0 ≤ px < Sketch.WIDTH →
            0 ≤ c < 4 →
            channel d Sketch.WIDTH py px c = painted panelTint d0 py px c).
Proof.
  apply (pixels_painted Sketch.tintPanelPixel panelTint).
  intros py px d. apply tintPanelPixel_paint.
Qed.

(** ** The tint of the locked pieces *)

(** The rows of the grid that the rows of pixels show: the first two rows
    of the grid are above the image, and the last rows of pixels show the
    floor. *)
Lemma shown_row py :
  0 ≤ py < Sketch.HEIGHT →
  2 ≤ (py - Sketch.BOARD_Y) / Sketch.CELL_H
  ∧ ((py - Sketch.BOARD_Y) / Sketch.CELL_H < ROWS ↔ py < Sketch.FLOOR_Y).
Proof.
  change Sketch.BOARD_Y with (-53). change Sketch.CELL_H with 21.
  change Sketch.FLOOR_Y with 241. change ROWS with 14.
  change Sketch.HEIGHT with 262. intros Hpy.
  split; [apply Z.div_le_lower_bound; lia|]. split.
  - intros H. destruct (decide (py < 241)); [done|].
    assert (14 ≤ (py - -53) / 21) by (apply Z.div_le_lower_bound; lia). lia.
  - intros H. apply Z.div_lt_upper_bound; lia.
Qed.

Lemma colour_defined cell :
  1 ≤ cell ≤ 7 → is_Some (element Sketch.PIECE_COLORS (cell - 1)).
Proof.
  intros H.
  assert (cell = 1 ∨ cell = 2 ∨ cell = 3 ∨ cell = 4 ∨ cell = 5 ∨ cell = 6
          ∨ cell = 7) as Hc by lia.
  repeat (destruct Hc as [->|Hc]; [by eexists|]). subst. by eexists.
Qed.

Lemma colour_undefined cell :
  ¬ 1 ≤ cell ≤ 7 → element Sketch.PIECE_COLORS (cell - 1) = None.
Proof.
  intros H. unfold element. case_bool_decide; [|done].
  apply lookup_ge_None_2. simpl. lia.
Qed.

(** The body of the loops of [tintLockedPieces] for one pixel, with the test
    of the row. *)
Lemma tintLockedPixel_paint grid py px d :
  tintable grid → 0 ≤ py < Sketch.HEIGHT → 0 ≤ px < Sketch.WIDTH →
  (let row := (py - Sketch.BOARD_Y) / Sketch.CELL_H in
   if bool_decide (row < 0) || bool_decide (ROWS ≤ row) then Value d
   else Sketch.tintLockedPixel grid py row px d)
  = Value (match lockedAt grid px py with
           | Some (rgb, mult) =>
               storeTint (4 * (py * Sketch.WIDTH + px)) rgb mult d
           | None => d
           end).
Proof.
  intros Hgrid Hpy Hpx. cbv zeta. unfold lockedAt.
  destruct (shown_row py Hpy) as [Hrow _].
  set (row := (py - Sketch.BOARD_Y) / Sketch.CELL_H) in *.
  rewrite (bool_decide_false (row < 0)) by lia. simpl.
  case_bool_decide as Hr.
  { rewrite decide_False; [done|]. unfold inside. simpl. lia. }
  unfold Sketch.tintLockedPixel.
  set (col := (px - Sketch.BOARD_X) / Sketch.CELL_W) in *.
  destruct (decide (inside (row, col))) as [Hin|Hout].
  2: { unfold inside in Hout. simpl in Hout.
       destruct (decide (col < 0)).
       - by rewrite (bool_decide_true (col < 0)).
       - rewrite (bool_decide_false (col < 0)) by done.
         by rewrite (bool_decide_true (COLS ≤ col)) by lia. }
  destruct Hin as [_ Hcol]. simpl in Hcol.
  rewrite (bool_decide_false (col < 0)), (bool_decide_false (COLS ≤ col))
    by lia.
  simpl. destruct (Hgrid row col) as [[cells Ecells] Hcell]; [lia|done|].
  unfold cellAt in *. rewrite Ecells in *. simpl in *.
  destruct (mjoin (element cells col)) as [cell|] eqn:Ecell; [|done].
  simpl. destruct (decide (cell = 0)) as [->|H0]; [done|].
  rewrite (bool_decide_true (cell ≠ 0)), (bool_decide_false (cell = 0))
    by done.
  simpl. destruct (colour_defined cell) as [[[r g] b] Ergb].
  { specialize (Hcell cell eq_refl). lia. }
  rewrite Ergb. simpl. by rewrite pixel_index.
Qed.

Lemma tintLockedPieces_eq grid d :
  Sketch.tintLockedPieces grid d
  = forRangeResult Sketch.HEIGHT (λ py d,
      forRangeResult Sketch.WIDTH (λ px d,
        let row := (py - Sketch.BOARD_Y) / Sketch.CELL_H in
        if bool_decide (row < 0) || bool_decide (ROWS ≤ row) then Value d
        else Sketch.tintLockedPixel grid py row px d) d) d.
Proof.
  unfold Sketch.tintLockedPieces, forRangeResult.
  apply forEachResult_ext. intros py d' _. cbv zeta.
  destruct (bool_decide _ || bool_decide _); [|done].
  symmetry. by apply forEachResult_id.
Qed.

Lemma tintLockedPieces_painted grid d0 :
  tintable grid →
  ∃ d, Sketch.tintLockedPieces grid d0 = Value d
       ∧ lengthZ d = lengthZ d0
       ∧ (lengthZ d0 = 4 * Sketch.WIDTH * Sketch.HEIGHT →
          ∀ py px c, 0 ≤ py < Sketch.HEIGHT → 0 ≤ px < Sketch.WIDTH →
            0 ≤ c < 4 →
            channel d Sketch.WIDTH py px c
            = painted (lockedAt grid) d0 py px c).
Proof.
  intros Hgrid. rewrite tintLockedPieces_eq.
  apply (pixels_painted
           (λ py px d,
              let row := (py - Sketch.BOARD_Y) / Sketch.CELL_H in
              if bool_decide (row < 0) || bool_decide (ROWS ≤ row) then Value d
              else Sketch.tintLockedPixel grid py row px d)
           (lockedAt grid)).
  intros py px d. by apply tintLockedPixel_paint.
Qed.

Lemma tintLockedPixel_OutOfFuel grid py row px d :
  Sketch.tintLockedPixel grid py row px d ≠ OutOfFuel.
Proof.
  unfold Sketch.tintLockedPixel. cbv zeta.
  destruct (bool_decide _ || bool_decide _); [done|].
  destruct (element grid row) as [cells|]; [|done]. simpl.
  destruct (negb _); [done|].
  destruct (mjoin (element cells _) ≫= _) as [[[r g] b]|]; done.
Qed.

(** [tintLockedPieces] throws when a row that the image shows is missing or
    holds something else than 0 and the seven types plus one. *)
Lemma tintLockedPieces_TypeError grid d row col :
  2 ≤ row < ROWS → 0 ≤ col < COLS →
  element grid row = None
  ∨ (∃ cell, cellAt grid row col = Some cell ∧ ¬ 0 ≤ cell ≤ 7) →
  Sketch.tintLockedPieces grid d = TypeError.
Proof.
  intros Hrow Hcol Hbad. change ROWS with 14 in Hrow. change COLS with 10 in Hcol.
  assert (Erow : (21 * row - 33 - Sketch.BOARD_Y) / Sketch.CELL_H = row).
  { change Sketch.BOARD_Y with (-53). change Sketch.CELL_H with 21.
    symmetry. apply (Z.div_unique _ _ _ 20); lia. }
  assert (Ecol : (63 + 21 * col - Sketch.BOARD_X) / Sketch.CELL_W = col).
  { change Sketch.BOARD_X with 63. change Sketch.CELL_W with 21.
    symmetry. apply (Z.div_unique _ _ _ 0); lia. }
  unfold Sketch.tintLockedPieces, forRangeResult.
  apply (forEachResult_TypeError _ _ _ (21 * row - 33)).
  - apply elem_of_seqZ. change Sketch.HEIGHT with 262. lia.
  - intros d'. rewrite Erow. cbv zeta.
    rewrite (bool_decide_false (row < 0)), (bool_decide_false (ROWS ≤ row))
      by (change ROWS with 14; lia).
    cbn [orb]. apply (forEachResult_TypeError _ _ _ (63 + 21 * col)).
    + apply elem_of_seqZ. change Sketch.WIDTH with 336. lia.
    + intros d''. unfold Sketch.tintLockedPixel. rewrite Ecol. cbv zeta.
      rewrite (bool_decide_false (col < 0)), (bool_decide_false (COLS ≤ col))
        by (change COLS with 10; lia).
      simpl. destruct Hbad as [->|(cell & Ecell & Hcell)]; [done|].
      unfold cellAt in Ecell.
      destruct (element grid row) as [cells|]; [|done]. simpl in *.
      rewrite Ecell. simpl. rewrite bool_decide_true by lia. simpl.
      rewrite colour_undefined by lia. done.
    + intros px d'' _. apply tintLockedPixel_OutOfFuel.
  - intros py d' _. cbv zeta.
    destruct (bool_decide _ || bool_decide _); [done|].
    apply forEachResult_OutOfFuel. intros px d'' _.
    apply tintLockedPixel_OutOfFuel.
Qed.

Lemma Forall_or_Exists {A} (P Q : A → Prop) (l : list A) :
  (∀ x, P x ∨ Q x) → Forall P l ∨ Exists Q l.
Proof.
  intros H. induction l as [|x l [IH|IH]].
  - left. apply Forall_nil_2.
  - destruct (H x); [left; by apply Forall_cons_2|right; by apply Exists_cons_hd].
  - right. by apply Exists_cons_tl.
Qed.

(** A grid can be coloured, or a cell of a row that the image shows makes
    [tintLockedPieces] throw. *)
Lemma tintable_or_not grid :
  tintable grid
  ∨ ∃ row col, 2 ≤ row < ROWS ∧ 0 ≤ col < COLS
      ∧ (element grid row = None
         ∨ ∃ cell, cellAt grid row col = Some cell ∧ ¬ 0 ≤ cell ≤ 7).
Proof.
  destruct (Forall_or_Exists
              (λ row, Forall (λ col,
                 is_Some (element grid row)
                 ∧ ∀ cell, cellAt grid row col = Some cell → 0 ≤ cell ≤ 7)
                 (seqZ 0 COLS))
              (λ row, Exists (λ col,
                 element grid row = None
                 ∨ ∃ cell, cellAt grid row col = Some cell ∧ ¬ 0 ≤ cell ≤ 7)
                 (seqZ 0 COLS))
              (seqZ 2 (ROWS - 2))) as [Hall|Hex].
  - intros row. apply Forall_or_Exists. intros col.
    destruct (element grid row) as [cells|] eqn:E; [|right; by left].
    destruct (cellAt grid row col) as [cell|] eqn:Ec; [|by left].
    destruct (decide (0 ≤ cell ≤ 7)) as [Hc|Hc].
    + left. split; [done|]. by intros ? [= <-].
    + right. right. by exists cell.
  - left. intros row col Hrow Hcol.
    rewrite list.Forall_forall in Hall.
    specialize (Hall row). rewrite elem_of_seqZ in Hall.
    specialize (Hall ltac:(lia)). rewrite list.Forall_forall in Hall.
    apply Hall. apply elem_of_seqZ. lia.
  - right. apply list.Exists_exists in Hex as (row & Hrow & Hex).
    apply list.Exists_exists in Hex as (col & Hcol & Hbad).
    apply elem_of_seqZ in Hrow, Hcol. exists row, col.
    split; [lia|]. split; [lia|done].
Qed.

(** ** The bytes of the tints *)

Lemma Qle_bool_lt a b : Qle_bool a b = false → (b < a)%Q.
Proof.
  intros H. destruct (Qlt_le_dec b a) as [|Hle]; [done|].
  apply Qle_bool_iff in Hle. congruence.
Qed.

(** What a [Uint8ClampedArray] stores is a byte. *)
Lemma toUint8ClampDouble_range x : 0 ≤ toUint8ClampDouble x ≤ 255.
Proof.
  unfold toUint8ClampDouble. destruct (Prim2SF x) as [s|s| |s m e]; try lia.
  { destruct s; lia. }
  cbv zeta. set (q := rational s m e).
  destruct (Qle_bool q 0) eqn:E0; [lia|].
  destruct (Qle_bool 255 q) eqn:E1; [lia|].
  apply Qle_bool_lt in E0, E1.
  assert (0 ≤ Qfloor q) by (apply (Qfloor_resp_le 0 q); lra).
  assert (Qfloor q < 255).
  { destruct (decide (Qfloor q < 255)); [done|].
    pose proof (Qfloor_le q) as Hle.
    assert (inject_Z 255 <= inject_Z (Qfloor q))%Q by (rewrite <- Zle_Qle; lia).
    change (inject_Z 255) with 255%Q in *. lra. }
  repeat (destruct (Qltb _ _)); try lia. destruct (Z.even _); lia.
Qed.

Lemma tintByte_range c gray mult : 0 ≤ tintByte c gray mult ≤ 255.
Proof. unfold tintByte. destruct mult; apply toUint8ClampDouble_range. Qed.

(** No colour of the tints makes a byte greater: the doubles of the tints
    are computed for every colour, factor and gray level. *)
Lemma paints_darken :
  Forall (λ p : Z * Z * Z * option float,
            Forall (λ g,
              Forall (λ c, tintByte (component p.1 c) (Some g) p.2 ≤ g)
                [0; 1; 2]) (seqZ 0 256)) paints.
Proof. apply (bool_decide_unpack _). vm_compute. exact I. Qed.

Lemma lockedAt_paints grid px py p :
  lockedAt grid px py = Some p → p ∈ paints.
Proof.
  unfold lockedAt. cbv zeta. case_decide; [|done].
  destruct (cellAt grid _ _) as [cell|]; [|done]. simpl.
  case_bool_decide; [done|].
  destruct (element Sketch.PIECE_COLORS (cell - 1)) as [rgb|] eqn:E; [|done].
  simpl. intros [= <-]. unfold paints. apply elem_of_app. left.
  apply list_elem_of_bind. exists rgb. split.
  - destruct (onBorder _ _ _ _).
    + apply list_elem_of_further, list_elem_of_here.
    + apply list_elem_of_here.
  - unfold element in E. case_bool_decide; [|done].
    by apply list_elem_of_lookup_2 in E.
Qed.

Lemma panelTint_paints px py p : panelTint px py = Some p → p ∈ paints.
Proof.
  unfold panelTint, Sketch.panelAt, Sketch.panelColor, paints.
  intros H. apply elem_of_app. right.
  repeat case_bool_decide; simplify_eq/=;
    (apply list_elem_of_here
     || apply list_elem_of_further, list_elem_of_here).
Qed.

Lemma channel_byte d py px c :
  lengthZ d = 4 * Sketch.WIDTH * Sketch.HEIGHT → bytes d →
  0 ≤ py < Sketch.HEIGHT → 0 ≤ px < Sketch.WIDTH → 0 ≤ c < 4 →
  ∃ v, channel d Sketch.WIDTH py px c = Some v ∧ 0 ≤ v ≤ 255.
Proof.
  intros HL Hb Hpy Hpx Hc. unfold channel.
  destruct (lookupZ_is_Some d (4 * (py * Sketch.WIDTH + px) + c)) as [v Ev].
  { unfold Sketch.WIDTH, Sketch.HEIGHT in *. lia. }
  exists v. split; [done|]. unfold lookupZ in Ev.
  case_bool_decide; [|done]. unfold bytes in Hb.
  rewrite Forall_lookup in Hb. by apply Hb in Ev.
Qed.

Lemma tintByte_darkens p g c :
  p ∈ paints → 0 ≤ g ≤ 255 → 0 ≤ c < 3 →
  0 ≤ tintByte (component p.1 c) (Some g) p.2 ≤ g.
Proof.
  intros Hp Hg Hc. split; [apply tintByte_range|].
  pose proof paints_darken as Hd. rewrite list.Forall_forall in Hd.
  specialize (Hd _ Hp). rewrite list.Forall_forall in Hd.
  specialize (Hd g). rewrite elem_of_seqZ in Hd. specialize (Hd ltac:(lia)).
  rewrite list.Forall_forall in Hd. apply (Hd c).
  assert (c = 0 ∨ c = 1 ∨ c = 2) as [-> | [-> | ->]] by lia.
  - apply list_elem_of_here.
  - apply list_elem_of_further, list_elem_of_here.
  - do 2 apply list_elem_of_further. apply list_elem_of_here.
Qed.

(** A tint with the colours of the tables leaves no byte of a gray image
    greater than it was. *)
Lemma painted_darkens paint d py px c :
  (∀ p, paint px py = Some p → p ∈ paints) →
  lengthZ d = 4 * Sketch.WIDTH * Sketch.HEIGHT → bytes d → grayscale d →
  0 ≤ py < Sketch.HEIGHT → 0 ≤ px < Sketch.WIDTH → 0 ≤ c < 4 →
  ∃ v v0, painted paint d py px c = Some v
          ∧ channel d Sketch.WIDTH py px c = Some v0 ∧ 0 ≤ v ≤ v0.
Proof.
  intros Hp HL Hb Hg Hpy Hpx Hc.
  destruct (channel_byte d py px c HL Hb Hpy Hpx Hc) as (v0 & E0 & H0).
  unfold painted. destruct (paint px py) as [[rgb mult]|] eqn:E.
  2: { exists v0, v0. split; [done|]. split; [done|]. lia. }
  case_bool_decide as Hc3.
  2: { exists v0, v0. split; [done|]. split; [done|]. lia. }
  rewrite <- (Hg py px c) by (done || lia). rewrite E0.
  eexists _, v0. split; [done|]. split; [done|].
  apply (tintByte_darkens (rgb, mult)); [by apply Hp|done|lia].
Qed.

(** The pixels that [tintLockedPieces] paints are pixels of the well. *)
Lemma lockedAt_well grid px py p :
  lockedAt grid px py = Some p →
  Sketch.BOARD_X ≤ px < Sketch.BOARD_X + Sketch.BOARD_PIX_W
  ∧ py < Sketch.FLOOR_Y.
Proof.
  unfold lockedAt. cbv zeta. case_decide as Hin; [|done]. intros _.
  destruct Hin as [Hrow Hcol]. simpl in Hrow, Hcol. revert Hrow Hcol.
  change Sketch.BOARD_X with 63. change Sketch.BOARD_Y with (-53).
  change Sketch.BOARD_PIX_W with 210. change Sketch.FLOOR_Y with 241.
  change Sketch.CELL_W with 21. change Sketch.CELL_H with 21.
  change ROWS with 14. change COLS with 10. intros Hrow Hcol.
  pose proof (Z.div_mod (px - 63) 21). pose proof (Z.mod_pos_bound (px - 63) 21).
  pose proof (Z.div_mod (py - -53) 21).
  pose proof (Z.mod_pos_bound (py - -53) 21). lia.
Qed.

(** The pixels that [tintPanels] paints are the pixels outside the well. *)
Lemma panelAt_well px py :
  0 ≤ px →
  if bool_decide (Sketch.BOARD_X ≤ px < Sketch.BOARD_X + Sketch.BOARD_PIX_W
                  ∧ py < Sketch.FLOOR_Y)
  then Sketch.panelAt px py = None
  else ∃ rgb, Sketch.panelAt px py = Some rgb
              ∧ (rgb = Sketch.PANEL_COLOR_A ∨ rgb = Sketch.PANEL_COLOR_B).
Proof.
  intros Hpx. unfold Sketch.panelAt, Sketch.panelColor, Sketch.LEFT_PANEL_W.
  change Sketch.BOARD_X with 63. change Sketch.BOARD_PIX_W with 210.
  change Sketch.FLOOR_Y with 241.
  destruct (decide (241 ≤ py)) as [Hf|Hf].
  { rewrite bool_decide_false by lia. rewrite (bool_decide_true (241 ≤ py)) by done.
    eexists. split; [done|]. case_bool_decide; ((by left) || (by right)). }
  rewrite (bool_decide_false (241 ≤ py)) by done.
  destruct (decide (px < 63)) as [Hl|Hl].
  { rewrite bool_decide_false by lia. rewrite (bool_decide_true (px < 63)) by done.
    eexists. split; [done|]. case_bool_decide; ((by left) || (by right)). }
  rewrite (bool_decide_false (px < 63)) by done.
  destruct (decide (63 + 210 ≤ px)) as [Hr|Hr].
  { rewrite bool_decide_false by lia.
    rewrite (bool_decide_true (63 + 210 ≤ px)) by done.
    eexists. split; [done|]. case_bool_decide; ((by left) || (by right)). }
  rewrite (bool_decide_false (63 + 210 ≤ px)) by done.
  by rewrite bool_decide_true by lia.
Qed.

Lemma cellAt_elem grid row col cell :
  cellAt grid row col = Some cell → ∃ r, r ∈ grid ∧ Some cell ∈ r.
Proof.
  unfold cellAt. destruct (element grid row) as [r|] eqn:Er; [|done]. simpl.
  destruct (element r col) as [c|] eqn:Ec; [|done]. simpl. intros ->.
  apply element_Some in Er as [_ Er]. apply element_Some in Ec as [_ Ec].
  exists r. split; by eapply list_elem_of_lookup_2.
Qed.

Lemma coloured_cellAt grid row col cell :
  coloured grid → cellAt grid row col = Some cell → 0 ≤ cell ≤ 7.
Proof.
  intros Hg (r & Hr & Hc)%cellAt_elem. unfold coloured in Hg.
  rewrite list.Forall_forall in Hg. specialize (Hg r Hr).
  rewrite list.Forall_forall in Hg. exact (Hg _ Hc).
Qed.

Lemma coloured_tintable grid :
  (Z.to_nat ROWS ≤ length grid)%nat → coloured grid → tintable grid.
Proof.
  intros Hlen Hc row col Hrow Hcol. split.
  - unfold element. rewrite bool_decide_true by lia.
    apply lookup_lt_is_Some_2. change ROWS with 14 in *. lia.
  - intros cell. by apply coloured_cellAt.
Qed.

(** ** The tints of the image *)

(** X21. [tintLockedPieces] throws a [TypeError] exactly when one of the
    rows 2 to [ROWS - 1] of the grid is missing or holds, in one of its
    first [COLS] cells, a number that is neither 0 nor one of 1 to 7.
    Whatever the image holds and however long it is, the function returns
    otherwise, and the image keeps its length. The rows 0 and 1 of the grid
    are not looked at. *)
Theorem tintLockedPieces_throws (grid : Grid) (data : list Z) :
  (Sketch.tintLockedPieces grid data = TypeError
   ↔ ∃ row col, 2 ≤ row < ROWS ∧ 0 ≤ col < COLS
       ∧ (element grid row = None
          ∨ ∃ cell, cellAt grid row col = Some cell ∧ ¬ 0 ≤ cell ≤ 7))
  ∧ (Sketch.tintLockedPieces grid data ≠ TypeError →
     ∃ d, Sketch.tintLockedPieces grid data = Value d
          ∧ lengthZ d = lengthZ data).
Proof.
  destruct (tintable_or_not grid) as [Hgrid|(row & col & Hrow & Hcol & Hbad)].
  - destruct (tintLockedPieces_painted grid data Hgrid) as (d & E & Hlen & _).
    split; [|by exists d]. rewrite E. split; [done|].
    intros (row & col & Hrow & Hcol & Hbad).
    by rewrite (tintLockedPieces_TypeError grid data row col) in E.
  - pose proof (tintLockedPieces_TypeError grid data row col Hrow Hcol Hbad) as E.
    split; [|done]. split; [|done]. intros _. by exists row, col.
Qed.

(** X22. The rows 0 and 1 of the grid are above the image:
    [tintLockedPieces] does the same for two grids that differ in these rows
    only. *)
Theorem tintLockedPieces_hidden_rows (grid1 grid2 : Grid) (data : list Z) :
  (∀ row, 2 ≤ row → element grid1 row = element grid2 row) →
  Sketch.tintLockedPieces grid1 data = Sketch.tintLockedPieces grid2 data.
Proof.
  intros Hrows. unfold Sketch.tintLockedPieces, forRangeResult.
  apply forEachResult_ext. intros py d Hpy%elem_of_seqZ. cbv zeta.
  destruct (shown_row py) as [Hrow _]; [lia|].
  destruct (bool_decide _ || bool_decide _); [done|].
  apply forEachResult_ext. intros px d' _.
  unfold Sketch.tintLockedPixel. by rewrite Hrows.
Qed.

Lemma tintLockedPieces_hidden_rows_witness :
  Sketch.tintLockedPieces (<[0%nat := replicate 10 (Some 9)]> emptyGrid)
    [7; 7; 7; 255]
  = Sketch.tintLockedPieces emptyGrid [7; 7; 7; 255].
Proof.
  apply (tintLockedPieces_hidden_rows
           (<[0%nat := replicate 10 (Some 9)]> emptyGrid) emptyGrid
           [7; 7; 7; 255]).
  intros row Hrow. unfold element. rewrite !bool_decide_true by lia.
  apply list_lookup_insert_ne. lia.
Defined.

(** X23. The pixels that [tintLockedPieces] leaves, on an image of [WIDTH *
    HEIGHT] pixels and a grid that it can colour. The alpha channel of every
    pixel is kept. A pixel of a cell of the board that holds a type gets, on
    each colour channel, the byte of the product of the colour of the type
    over 255, the red channel that the pixel had, and 0.45 on the border of
    the cell or 1 inside; such a pixel is a pixel of the well. Every other
    pixel is kept. *)
Theorem tintLockedPieces_pixels (grid : Grid) (data : list Z) :
  tintable grid → lengthZ data = 4 * Sketch.WIDTH * Sketch.HEIGHT →
  ∃ d, Sketch.tintLockedPieces grid data = Value d
       ∧ lengthZ d = lengthZ data
       ∧ ∀ py px, 0 ≤ py < Sketch.HEIGHT → 0 ≤ px < Sketch.WIDTH →
           channel d Sketch.WIDTH py px 3 = channel data Sketch.WIDTH py px 3
           ∧ match lockedAt grid px py with
             | Some (rgb, mult) =>
                 Sketch.BOARD_X ≤ px < Sketch.BOARD_X + Sketch.BOARD_PIX_W
                 ∧ py < Sketch.FLOOR_Y
                 ∧ ∀ c, 0 ≤ c < 3 →
                     channel d Sketch.WIDTH py px c
                     = Some (tintByte (component rgb c)
                               (channel data Sketch.WIDTH py px 0) mult)
             | None =>
                 ∀ c, 0 ≤ c < 3 →
                   channel d Sketch.WIDTH py px c
                   = channel data Sketch.WIDTH py px c
             end.
Proof.
  intros Hgrid HL.
  destruct (tintLockedPieces_painted grid data Hgrid) as (d & E & Hlen & Hpix).
  exists d. split; [done|]. split; [done|]. intros py px Hpy Hpx.
  specialize (Hpix HL py px). unfold painted in Hpix. split.
  - rewrite Hpix by (done || lia).
    destruct (lockedAt grid px py) as [[rgb mult]|]; [|done].
    by rewrite bool_decide_false by lia.
  - destruct (lockedAt grid px py) as [[rgb mult]|] eqn:El.
    + destruct (lockedAt_well grid px py _ El) as [Hx Hy].
      split; [done|]. split; [done|]. intros c Hc.
      rewrite Hpix by (done || lia). by rewrite bool_decide_true by lia.
    + intros c Hc. by rewrite Hpix by (done || lia).
Qed.

Lemma tintLockedPieces_pixels_witness :
  ∃ d, Sketch.tintLockedPieces (<[13%nat := replicate 10 (Some 3)]> emptyGrid)
         (replicate (Z.to_nat (4 * 336 * 262)) 200) = Value d
       ∧ lengthZ d = lengthZ (replicate (Z.to_nat (4 * 336 * 262)) 200)
       ∧ ∀ py px, 0 ≤ py < Sketch.HEIGHT → 0 ≤ px < Sketch.WIDTH →
           channel d Sketch.WIDTH py px 3
           = channel (replicate (Z.to_nat (4 * 336 * 262)) 200) Sketch.WIDTH
               py px 3
           ∧ match lockedAt (<[13%nat := replicate 10 (Some 3)]> emptyGrid) px py with
             | Some (rgb, mult) =>
                 Sketch.BOARD_X ≤ px < Sketch.BOARD_X + Sketch.BOARD_PIX_W
                 ∧ py < Sketch.FLOOR_Y
                 ∧ ∀ c, 0 ≤ c < 3 →
                     channel d Sketch.WIDTH py px c
                     = Some (tintByte (component rgb c)
                               (channel (replicate (Z.to_nat (4 * 336 * 262)) 200)
                                  Sketch.WIDTH py px 0) mult)
             | None =>
                 ∀ c, 0 ≤ c < 3 →
                   channel d Sketch.WIDTH py px c
                   = channel (replicate (Z.to_nat (4 * 336 * 262)) 200)
                       Sketch.WIDTH py px c
             end.
Proof.
  apply (tintLockedPieces_pixels (<[13%nat := replicate 10 (Some 3)]> emptyGrid)
           (replicate (Z.to_nat (4 * 336 * 262)) 200)).
  - apply coloured_tintable; [reflexivity|by apply (bool_decide_unpack _)].
  - rewrite lengthZ_replicate; [reflexivity|lia].
Defined.

(** X24. [tintPanels] never throws, whatever the image holds and however
    long it is, and the image keeps its length. On an image of [WIDTH *
    HEIGHT] pixels it keeps the alpha channel of every pixel and the pixels
    of the well, and gives every other pixel, on each colour channel, the
    byte of the product of one of the two colours of the panels over 255 and
    the red channel that the pixel had. *)
Theorem tintPanels_pixels (data : list Z) :
  ∃ d, Sketch.tintPanels data = Value d
       ∧ lengthZ d = lengthZ data
       ∧ (lengthZ data = 4 * Sketch.WIDTH * Sketch.HEIGHT →
          ∀ py px, 0 ≤ py < Sketch.HEIGHT → 0 ≤ px < Sketch.WIDTH →
            channel d Sketch.WIDTH py px 3 = channel data Sketch.WIDTH py px 3
            ∧ if bool_decide
                   (Sketch.BOARD_X ≤ px < Sketch.BOARD_X + Sketch.BOARD_PIX_W
                    ∧ py < Sketch.FLOOR_Y)
              then ∀ c, 0 ≤ c < 3 →
                     channel d Sketch.WIDTH py px c
                     = channel data Sketch.WIDTH py px c
              else ∃ rgb,
                     Sketch.panelAt px py = Some rgb
                     ∧ (rgb = Sketch.PANEL_COLOR_A ∨ rgb = Sketch.PANEL_COLOR_B)
                     ∧ ∀ c, 0 ≤ c < 3 →
                         channel d Sketch.WIDTH py px c
                         = Some (tintByte (component rgb c)
                                   (channel data Sketch.WIDTH py px 0) None)).
Proof.
  destruct (tintPanels_painted data) as (d & E & Hlen & Hpix).
  exists d. split; [done|]. split; [done|]. intros HL py px Hpy Hpx.
  specialize (Hpix HL py px). unfold painted, panelTint in Hpix.
  pose proof (panelAt_well px py ltac:(lia)) as Hw. split.
  - rewrite Hpix by lia.
    by destruct (Sketch.panelAt px py) as [rgb|].
  - destruct (bool_decide _).
    + intros c Hc. rewrite Hpix by lia. by rewrite Hw.
    + destruct Hw as (rgb & Ergb & Hrgb). exists rgb.
      split; [done|]. split; [done|]. intros c Hc.
      rewrite Hpix by lia. rewrite Ergb. simpl.
      by rewrite bool_decide_true by lia.
Qed.

(** X25. The tints darken: on a gray image of bytes, of [WIDTH * HEIGHT]
    pixels, no byte is greater after [tintLockedPieces] or after
    [tintPanels] than it was, and every byte is a byte still. *)
Theorem tints_darken (grid : Grid) (data : list Z) :
  lengthZ data = 4 * Sketch.WIDTH * Sketch.HEIGHT → bytes data → grayscale data →
  tintable grid →
  (∃ d, Sketch.tintLockedPieces grid data = Value d ∧ darker d data)
  ∧ (∃ d, Sketch.tintPanels data = Value d ∧ darker d data).
Proof.
  intros HL Hb Hg Hgrid.
  assert (Hdark : ∀ paint d,
            (∀ px py p, paint px py = Some p → p ∈ paints) →
            (∀ py px c, 0 ≤ py < Sketch.HEIGHT → 0 ≤ px < Sketch.WIDTH →
               0 ≤ c < 4 →
               channel d Sketch.WIDTH py px c = painted paint data py px c) →
            darker d data).
  { intros paint d Hp Hpix py px c Hpy Hpx Hc. rewrite Hpix by done.
    destruct (painted_darkens paint data py px c (Hp px py) HL Hb Hg Hpy Hpx Hc)
      as (v & v0 & Ev & E0 & Hv).
    destruct (channel_byte data py px c HL Hb Hpy Hpx Hc) as (v0' & E0' & H0).
    rewrite E0 in E0'. injection E0' as <-.
    exists v, v0. split; [done|]. split; [done|]. lia. }
  split.
  - destruct (tintLockedPieces_painted grid data Hgrid) as (d & E & _ & Hpix).
    exists d. split; [done|]. apply (Hdark (lockedAt grid)); [|by apply Hpix].
    intros px py. apply lockedAt_paints.
  - destruct (tintPanels_painted data) as (d & E & _ & Hpix).
    exists d. split; [done|]. apply (Hdark panelTint); [|by apply Hpix].
    intros px py. apply panelTint_paints.
Qed.

Lemma tints_darken_witness :
  (∃ d, Sketch.tintLockedPieces (<[13%nat := replicate 10 (Some 3)]> emptyGrid)
          (replicate (Z.to_nat (4 * 336 * 262)) 200) = Value d
        ∧ darker d (replicate (Z.to_nat (4 * 336 * 262)) 200))
  ∧ (∃ d, Sketch.tintPanels (replicate (Z.to_nat (4 * 336 * 262)) 200) = Value d
          ∧ darker d (replicate (Z.to_nat (4 * 336 * 262)) 200)).
Proof.
  apply (tints_darken (<[13%nat := replicate 10 (Some 3)]> emptyGrid)
           (replicate (Z.to_nat (4 * 336 * 262)) 200)).
  - rewrite lengthZ_replicate; [reflexivity|lia].
  - apply Forall_replicate. lia.
  - intros py px c Hpy Hpx Hc. unfold channel, Sketch.WIDTH, Sketch.HEIGHT in *.
    rewrite !lookupZ_replicate; [reflexivity|lia..].
  - apply coloured_tintable; [reflexivity|by apply (bool_decide_unpack _)].
Defined.

(** ** The colours of the grid in a game *)

Lemma elem_cellAt (grid : Grid) (r : Row) cell :
  r ∈ grid → Some cell ∈ r → ∃ row col, cellAt grid row col = Some cell.
Proof.
  intros [i Hi]%list_elem_of_lookup_1 [j Hj]%list_elem_of_lookup_1.
  exists (Z.of_nat i), (Z.of_nat j). unfold cellAt.
  assert (element grid (Z.of_nat i) = Some r) as ->.
  { apply element_Some. rewrite Nat2Z.id. split; [lia|done]. }
  simpl. assert (element r (Z.of_nat j) = Some (Some cell)) as ->; [|done].
  apply element_Some. rewrite Nat2Z.id. split; [lia|done].
Qed.

Lemma mergeCells_coloured cells value (grid merged : Grid) :
  (Z.to_nat ROWS ≤ length grid)%nat → coloured grid → 0 ≤ value ≤ 7 →
  mergeCells grid cells value = Value merged → coloured merged.
Proof.
  intros Hlen Hg Hv E.
  destruct (mergeCells_spec cells value grid Hlen) as (g' & E' & _ & Hcell & _).
  rewrite E in E'. injection E' as <-.
  apply list.Forall_forall. intros r Hr. apply list.Forall_forall. intros c Hc.
  destruct c as [v|]; [|done]. simpl.
  destruct (elem_cellAt merged r v Hr Hc) as (row & col & Hat).
  rewrite Hcell in Hat. case_bool_decide.
  - by injection Hat as <-.
  - by apply (coloured_cellAt grid row col).
Qed.

Lemma cleared_coloured (grid : Grid) :
  coloured grid →
  coloured (replicate (fullRows grid) zeroRow ++ keptRows grid).
Proof.
  intros Hg. apply Forall_app. split.
  - apply Forall_replicate. by apply (bool_decide_unpack _).
  - unfold coloured in Hg. rewrite list.Forall_forall in Hg.
    apply list.Forall_forall. intros r [_ Hr]%list_elem_of_filter.
    by apply Hg.
Qed.

(** The grid that [lockPiece] leaves: the piece is merged and the full rows
    are cleared. *)
Lemma lockPiece_grid u s cur :
  playable s → unitInterval u → Sketch.currentPiece s = Some cur →
  ∃ cells merged s',
    pieceCells cur = Value cells
    ∧ mergeCells (Sketch.grid s) cells (Piece.type cur + 1) = Value merged
    ∧ Sketch.lockPiece u s = Value s'
    ∧ Sketch.grid s' = replicate (fullRows merged) zeroRow ++ keptRows merged.
Proof.
  intros (Hboard & Hnone & Hnext & Hlines & Hlevel & Hscore & Hcur) Hu Ecur.
  destruct (Hcur cur Ecur) as [Hvalid Hfree].
  pose proof (board_length _ Hboard) as Hlen.
  destruct (collides_false_free _ _ Hlen Hfree) as (cells & Ep & _).
  destruct (mergeCells_spec cells (Piece.type cur + 1) _ Hlen)
    as (merged & Em & _ & _ & Hboard').
  specialize (Hboard' Hboard).
  destruct (clearLines_on_board merged Hboard') as (Ec & Hb2 & _).
  set (cleaned := replicate (fullRows merged) zeroRow ++ keptRows merged) in *.
  exists cells, merged.
  assert (∃ s2, Sketch.grid s2 = cleaned ∧ Sketch.nextPieceType s2 = Sketch.nextPieceType s
                ∧ Sketch.lockPiece u s
                  = '(s', _) ← Sketch.spawnPiece u s2; mret s')
    as (s2 & Eg & En & E).
  { unfold Sketch.lockPiece. rewrite Ecur. unfold mergePiece. rewrite Ep.
    simpl. rewrite Em. simpl. rewrite Ec. simpl.
    case_bool_decide; eexists; (split; [|split; [|done]]); done. }
  destruct (spawnPiece_eq u s2) as (b & Eb & Es).
  { rewrite Eg. by apply board_length. }
  { by rewrite En. }
  rewrite Es in E. eexists. split; [done|]. split; [done|].
  split; [exact E|]. by destruct b.
Qed.

Lemma lockPiece_coloured u s :
  playable s → unitInterval u → coloured (Sketch.grid s) →
  ∃ s', Sketch.lockPiece u s = Value s' ∧ coloured (Sketch.grid s').
Proof.
  intros Hs Hu Hg. destruct (Sketch.currentPiece s) as [cur|] eqn:Ecur.
  2: { exists s. split; [|done]. unfold Sketch.lockPiece. by rewrite Ecur. }
  destruct (lockPiece_grid u s cur Hs Hu Ecur)
    as (cells & merged & s' & _ & Em & E & Eg).
  exists s'. split; [done|]. rewrite Eg. apply cleared_coloured.
  destruct Hs as (Hboard & _ & _ & _ & _ & _ & Hcur).
  destruct (Hcur cur Ecur) as [[Ht _] _].
  apply (mergeCells_coloured cells (Piece.type cur + 1) (Sketch.grid s));
    [by apply board_length|done|lia|done].
Qed.

(** X26. The grid of a game stays coloured. From a playable state whose grid
    holds nothing but 0 and the seven types plus one, with a number from 0
    up to 1 for [Math.random()], each of [moveLeft], [moveRight], [rotate],
    [softDrop], [hardDrop] and [lockPiece] leaves such a grid: [lockPiece]
    writes the type of the piece plus one, and [clearLines] moves rows and
    adds rows of zeros. [tintLockedPieces] does not throw for the grid
    before nor for the grid after, whatever the image is. [resetGame] makes
    such a grid. *)
Theorem grid_stays_coloured (u : float) (s : Sketch.state) (data : list Z) :
  playable s → coloured (Sketch.grid s) → unitInterval u →
  coloured (Sketch.grid (Sketch.resetGame u))
  ∧ Sketch.tintLockedPieces (Sketch.grid s) data ≠ TypeError
  ∧ Forall (λ op : Sketch.state → result Sketch.state,
              ∃ s', op s = Value s' ∧ coloured (Sketch.grid s')
                    ∧ Sketch.tintLockedPieces (Sketch.grid s') data ≠ TypeError)
      [Sketch.moveLeft; Sketch.moveRight; Sketch.rotate; Sketch.softDrop u;
       Sketch.hardDrop u; Sketch.lockPiece u].
Proof.
  intros Hs Hg Hu.
  assert (Htint : ∀ s', playable s' → coloured (Sketch.grid s') →
            Sketch.tintLockedPieces (Sketch.grid s') data ≠ TypeError).
  { intros s' [Hboard _] Hg'.
    destruct (tintLockedPieces_painted (Sketch.grid s') data) as (d & E & _).
    - apply coloured_tintable; [by apply board_length|done].
    - by rewrite E. }
  split; [by apply (bool_decide_unpack _)|]. split; [by apply Htint|].
  assert (Hop : ∀ op : Sketch.state → result Sketch.state,
            (∃ s', op s = Value s' ∧ playable s' ∧ coloured (Sketch.grid s')) →
            ∃ s', op s = Value s' ∧ coloured (Sketch.grid s')
                  ∧ Sketch.tintLockedPieces (Sketch.grid s') data ≠ TypeError).
  { intros op (s' & E & Hs' & Hg'). exists s'.
    split; [done|]. split; [done|]. by apply Htint. }
  assert (Hlock : ∀ s0, playable s0 → coloured (Sketch.grid s0) →
            ∃ s', Sketch.lockPiece u s0 = Value s' ∧ playable s'
                  ∧ coloured (Sketch.grid s')).
  { intros s0 Hs0 Hg0.
    destruct (lockPiece_keeps u s0 Hs0 Hu) as (s' & E & Hs' & _).
    destruct (lockPiece_coloured u s0 Hs0 Hu Hg0) as (s'' & E' & Hg').
    rewrite E in E'. injection E' as <-. by exists s'. }
  assert (Htry : ∀ next, validPiece next →
            ∃ s', tryPiece s next = Value s' ∧ playable s'
                  ∧ coloured (Sketch.grid s')).
  { intros next Hn.
    destruct (tryPiece_spec s next Hs Hn) as (s' & E & Hs' & Eg & _).
    exists s'. split; [done|]. split; [done|]. by rewrite Eg. }
  assert (Hidle : ∀ op : Sketch.state → result Sketch.state,
            op s = Value s →
            ∃ s', op s = Value s' ∧ playable s' ∧ coloured (Sketch.grid s')).
  { intros op ->. by exists s. }
  destruct (Sketch.currentPiece s) as [cur|] eqn:Ec.
  2: { repeat apply Forall_cons_2; [..|apply Forall_nil_2]; apply Hop;
         try (by apply Hlock); apply Hidle;
         unfold Sketch.moveLeft, Sketch.moveRight, Sketch.rotate,
           Sketch.softDrop, Sketch.hardDrop; by rewrite Ec. }
  destruct (Sketch.gameOver s) eqn:Eo.
  { repeat apply Forall_cons_2; [..|apply Forall_nil_2]; apply Hop;
      try (by apply Hlock); apply Hidle;
      unfold Sketch.moveLeft, Sketch.moveRight, Sketch.rotate,
        Sketch.softDrop, Sketch.hardDrop; by rewrite Ec, Eo. }
  clear Hidle. pose proof Hs as (Hboard & _ & _ & _ & _ & _ & Hcur).
  destruct (Hcur cur Ec) as [Hv Hfree].
  repeat apply Forall_cons_2; [..|apply Forall_nil_2]; apply Hop.
  - rewrite (moveLeft_eq s cur Ec Eo). by apply Htry.
  - rewrite (moveRight_eq s cur Ec Eo). by apply Htry.
  - rewrite (rotate_eq s cur Ec Eo). apply Htry. by apply rotatePiece_valid.
  - rewrite (softDrop_eq u s cur Ec Eo).
    destruct (collides_valid (Sketch.grid s) (shifted cur 0 1)
                (validPiece_shifted cur 0 1 Hv) (board_length _ Hboard))
      as [b Eb].
    rewrite Eb. simpl. destruct b; [by apply Hlock|].
    eexists. split; [done|]. simpl_state. split; [|done].
    destruct Hs as (? & ? & ? & ? & ? & ? & ?).
    unfold playable. simpl_state.
    split; [done|]. split; [done|]. split; [done|]. split; [done|].
    split; [done|]. split; [lia|]. by intros p [= <-].
  - destruct (hardDrop_eq u s cur Hs Ec Eo) as (n & Hn & Hall & _ & ->).
    apply Hlock; [|done].
    destruct Hs as (? & ? & ? & ? & ? & ? & ?).
    unfold playable. simpl_state.
    split; [done|]. split; [done|]. split; [done|]. split; [done|].
    split; [done|]. split; [lia|]. intros p [= <-].
    split; [by apply validPiece_shifted|]. apply Hall. lia.
  - by apply Hlock.
Qed.

Lemma grid_stays_coloured_witness :
  coloured (Sketch.grid (Sketch.resetGame 0.5))
  ∧ Sketch.tintLockedPieces
      (Sketch.grid
         (Sketch.State emptyGrid (Some (Piece.make 1 0 3 12)) 3 1 0 0 false))
      [7; 7; 7; 255] ≠ TypeError
  ∧ Forall (λ op : Sketch.state → result Sketch.state,
              ∃ s', op (Sketch.State emptyGrid (Some (Piece.make 1 0 3 12)) 3 1
                          0 0 false) = Value s'
                    ∧ coloured (Sketch.grid s')
                    ∧ Sketch.tintLockedPieces (Sketch.grid s') [7; 7; 7; 255]
                      ≠ TypeError)
      [Sketch.moveLeft; Sketch.moveRight; Sketch.rotate;
       Sketch.softDrop 0.5; Sketch.hardDrop 0.5;
       Sketch.lockPiece 0.5].
Proof.
  apply (grid_stays_coloured 0.5
           (Sketch.State emptyGrid (Some (Piece.make 1 0 3 12)) 3 1 0 0 false)
           [7; 7; 7; 255]).
  - unfold playable. simpl.
    split; [split; [reflexivity|by apply (bool_decide_unpack _)]|].
    split; [by apply (bool_decide_unpack _)|].
    split; [lia|]. split; [lia|]. split; [reflexivity|]. split; [lia|].
    intros p [= <-]. split; [|reflexivity]. split; simpl; [lia|].
    vm_compute. split; [discriminate|reflexivity].
  - by apply (bool_decide_unpack _).
  - split; reflexivity.
Defined.

(** ** The image of a tick *)

Lemma pixelOf_byte depth width seed eyeSep obsDist y x :
  0 ≤ pixelOf depth width seed eyeSep obsDist y x ≤ 255.
Proof. unfold pixelOf, colorOf. apply gray_range. Qed.

(** X27. The image that [gameTick] makes: the stereogram of the depth buffer
    by [depthToSirds], tinted by [tintLockedPieces] and then by
    [tintPanels]. On the buffers that [setup] allocates and a grid that can
    be coloured, the three calls return. Every pixel is opaque and is tinted
    once at most, from the gray level [g] that the stereogram has there: a
    pixel of the panels or of the floor holds the bytes of the colour of its
    tile over 255 times [g], a pixel of a locked cell of the well the bytes
    of the colour of the type over 255 times [g] times the factor of the
    border, and every other pixel of the well holds [g] on its three
    channels. No byte is greater than in the stereogram. *)
Theorem gameTick_frame (grid : Grid) (depthBuffer data : list Z)
    (tickCount : Z) (eyeSep obsDist : float) :
  tintable grid →
  lengthZ depthBuffer = Sketch.WIDTH * Sketch.HEIGHT →
  lengthZ data = Sketch.WIDTH * Sketch.HEIGHT * 4 →
  ∃ out trace tinted frame,
    depthToSirds depthBuffer Sketch.WIDTH Sketch.HEIGHT data tickCount
      eyeSep obsDist
    = Returns out trace
    ∧ Sketch.tintLockedPieces grid out = Value tinted
    ∧ Sketch.tintPanels tinted = Value frame
    ∧ lengthZ frame = lengthZ data
    ∧ darker frame out
    ∧ ∀ py px, 0 ≤ py < Sketch.HEIGHT → 0 ≤ px < Sketch.WIDTH →
        channel frame Sketch.WIDTH py px 3 = Some 255
        ∧ ∀ c, 0 ≤ c < 3 →
            channel frame Sketch.WIDTH py px c
            = Some (let g := pixelOf depthBuffer Sketch.WIDTH tickCount eyeSep
                               obsDist py px in
                    match Sketch.panelAt px py, lockedAt grid px py with
                    | Some rgb, _ => tintByte (component rgb c) (Some g) None
                    | None, Some (rgb, mult) =>
                        tintByte (component rgb c) (Some g) mult
                    | None, None => g
                    end).
Proof.
  intros Hgrid Hdepth Hdata.
  destruct (depthToSirds_closed_form depthBuffer Sketch.WIDTH Sketch.HEIGHT data
              tickCount eyeSep obsDist)
    as (out & trace & E & Hlen & Hrgb & Ha & _);
    [done|done|by rewrite Hdata|].
  assert (HL : lengthZ out = 4 * Sketch.WIDTH * Sketch.HEIGHT) by lia.
  destruct (tintLockedPieces_painted grid out Hgrid)
    as (tinted & E1 & Hlen1 & Hpix1).
  specialize (Hpix1 HL).
  destruct (tintPanels_painted tinted) as (frame & E2 & Hlen2 & Hpix2).
  specialize (Hpix2 ltac:(lia)).
  exists out, trace, tinted, frame.
  split; [done|]. split; [done|]. split; [done|]. split; [lia|].
  assert (Hframe : ∀ py px, 0 ≤ py < Sketch.HEIGHT → 0 ≤ px < Sketch.WIDTH →
            channel frame Sketch.WIDTH py px 3 = Some 255
            ∧ ∀ c, 0 ≤ c < 3 →
                channel frame Sketch.WIDTH py px c
                = Some (let g := pixelOf depthBuffer Sketch.WIDTH tickCount
                                   eyeSep obsDist py px in
                        match Sketch.panelAt px py, lockedAt grid px py with
                        | Some rgb, _ => tintByte (component rgb c) (Some g) None
                        | None, Some (rgb, mult) =>
                            tintByte (component rgb c) (Some g) mult
                        | None, None => g
                        end)).
  { intros py px Hpy Hpx.
    assert (Hone : is_Some (Sketch.panelAt px py) → lockedAt grid px py = None).
    { intros Hp. destruct (lockedAt grid px py) as [p|] eqn:El; [|done].
      destruct (lockedAt_well grid px py p El) as [Hx Hy].
      pose proof (panelAt_well px py ltac:(lia)) as Hw.
      rewrite bool_decide_true in Hw by lia. rewrite Hw in Hp.
      by destruct Hp. }
    split.
    - rewrite Hpix2, <- (Ha py px) by lia. unfold painted, panelTint.
      assert (channel tinted Sketch.WIDTH py px 3
              = channel out Sketch.WIDTH py px 3) as <-.
      { rewrite Hpix1 by lia. unfold painted.
        destruct (lockedAt grid px py) as [[rgb mult]|]; [|done].
        by rewrite bool_decide_false by lia. }
      by destruct (Sketch.panelAt px py).
    - intros c Hc. cbv zeta. rewrite Hpix2 by lia. unfold painted, panelTint.
      destruct (Sketch.panelAt px py) as [rgb|] eqn:Ep; simpl.
      + rewrite bool_decide_true by lia. rewrite Hpix1 by lia.
        unfold painted. rewrite Hone by done. by rewrite Hrgb by lia.
      + rewrite Hpix1 by lia. unfold painted.
        destruct (lockedAt grid px py) as [[rgb mult]|] eqn:El.
        * rewrite bool_decide_true by lia. by rewrite Hrgb by lia.
        * by rewrite Hrgb by lia. }
  split; [|done].
  intros py px c Hpy Hpx Hc. destruct (Hframe py px Hpy Hpx) as [Hal Hcol].
  pose proof (pixelOf_byte depthBuffer Sketch.WIDTH tickCount eyeSep obsDist
                py px) as Hg.
  destruct (decide (c = 3)) as [->|Hc3].
  { exists 255, 255. rewrite Hal, Ha by done. split; [done|]. split; [done|]. lia. }
  rewrite Hcol, Hrgb by lia. eexists _, _. split; [done|]. split; [done|].
  cbv zeta.
  match goal with |- 0 ≤ ?v ≤ ?g ≤ 255 => enough (0 ≤ v ≤ g) by lia end.
  destruct (Sketch.panelAt px py) as [rgb|] eqn:Ep.
  - apply (tintByte_darkens (rgb, None)); [|done|lia].
    apply (panelTint_paints px py). unfold panelTint. by rewrite Ep.
  - destruct (lockedAt grid px py) as [[rgb mult]|] eqn:El; [|lia].
    apply (tintByte_darkens (rgb, mult)); [|done|lia].
    by apply (lockedAt_paints grid px py).
Qed.

Lemma gameTick_frame_witness :
  ∃ out trace tinted frame,
    depthToSirds (replicate (Z.to_nat (336 * 262)) 64) Sketch.WIDTH
      Sketch.HEIGHT (replicate (Z.to_nat (336 * 262 * 4)) 0) 0
      DEFAULT_EYESEP DEFAULT_OBSDIST
    = Returns out trace
    ∧ Sketch.tintLockedPieces (<[13%nat := replicate 10 (Some 3)]> emptyGrid)
        out = Value tinted
    ∧ Sketch.tintPanels tinted = Value frame
    ∧ lengthZ frame = lengthZ (replicate (Z.to_nat (336 * 262 * 4)) 0)
    ∧ darker frame out
    ∧ ∀ py px, 0 ≤ py < Sketch.HEIGHT → 0 ≤ px < Sketch.WIDTH →
        channel frame Sketch.WIDTH py px 3 = Some 255
        ∧ ∀ c, 0 ≤ c < 3 →
            channel frame Sketch.WIDTH py px c
            = Some (let g := pixelOf (replicate (Z.to_nat (336 * 262)) 64)
                               Sketch.WIDTH 0 DEFAULT_EYESEP DEFAULT_OBSDIST
                               py px in
                    match Sketch.panelAt px py,
                          lockedAt (<[13%nat := replicate 10 (Some 3)]> emptyGrid)
                            px py with
                    | Some rgb, _ => tintByte (component rgb c) (Some g) None
                    | None, Some (rgb, mult) =>
                        tintByte (component rgb c) (Some g) mult
                    | None, None => g
                    end).
Proof.
  apply (gameTick_frame (<[13%nat := replicate 10 (Some 3)]> emptyGrid)
           (replicate (Z.to_nat (336 * 262)) 64)
           (replicate (Z.to_nat (336 * 262 * 4)) 0) 0
           DEFAULT_EYESEP DEFAULT_OBSDIST).
  - apply coloured_tintable; [reflexivity|by apply (bool_decide_unpack _)].
  - rewrite lengthZ_replicate; [reflexivity|lia].
  - rewrite lengthZ_replicate; [reflexivity|lia].
Defined.
